(** * Claw Poker: the table engine, its deck and its hand evaluator

    A shallow embedding of the poker core of the repository
    ([deck.js], [evaluator.js], [table.js]) together with the properties
    its specification states about it.

    Conventions of the embedding.
    - A JavaScript [Number] holding a chip amount is an exact rational
      ([Q]); comparisons are numeric ([Qlt_le_dec], [Qeq_bool]).  The
      methods compute with exact arithmetic; [round64] is the rounding of
      binary64, and the statements about sums of chips are made for
      whole amounts, on which the two agree
      ([whole_arithmetic_is_exact], [floor_of_quotient_is_exact]).
      Every table evaluated below only meets values on which double
      arithmetic is exact (for instance [30 * 0.05] is [1.5] in binary64
      as well), except where the difference is the point.
    - Card values and hand rankings are integers ([Z]); a comparison
      result that may be [NaN] is an [option Z] with [None] for [NaN].
    - The [players] Map is an association list in insertion order, keyed
      by player id; a reference to a player object is its key.
    - Methods of [Table] run in a state-and-exception monad that returns
      the table as it is when the exception is thrown, so that a throw
      after a mutation is visible.
    - Randomness and the clock are inputs: the salt and the draws of the
      shuffle are arguments of the deck constructor, [Date.now()] an
      argument of [addPlayer].  The hash is a section variable. *)

From Stdlib Require Import ZArith QArith Qround Qminmax Qabs Qpower Lqa Lia
  String List.
From stdpp Require Import base list strings option sorting.
Import ListNotations.
Open Scope Z_scope.

(** ** Exceptions and results *)

(** The error kinds of the engine.  The source throws [Error(message)];
    the constructors are named after the kinds of the specification, the
    message is given with each throw.  [TypeError] is JavaScript's own
    exception for a property access on [undefined] or [null];
    [Diverges] stands for a loop that never exits. *)
Inductive Error :=
| InvalidBuyIn | TableFull | NotEnoughPlayers | NoActiveHand | OutOfTurn
| CannotCheck | NothingToCall | BelowMinRaise | InsufficientChips
| EmptyDeck | NeedFiveCards | TypeError | Diverges.

Inductive result (A : Type) :=
| Ok (a : A)
| Throw (e : Error).
Arguments Ok {A} a.
Arguments Throw {A} e.

(** ** Generic JavaScript array helpers *)

(** [Array.prototype.sort(cmp)]: a stable sort; [cmp a b <= 0] keeps [a]
    before [b].  (For a consistent comparator every conforming engine
    returns this list.) *)
Fixpoint sort_insert {A} (cmp : A -> A -> Z) (x : A) (l : list A) : list A :=
  match l with
  | [] => [x]
  | y :: l' => if cmp x y <=? 0 then x :: y :: l' else y :: sort_insert cmp x l'
  end.

Definition js_sort {A} (cmp : A -> A -> Z) (l : list A) : list A :=
  foldr (sort_insert cmp) [] l.

(** [Array.prototype.indexOf], [-1] when absent. *)
Fixpoint indexOf_from {A} `{EqDecision A} (i : Z) (x : A) (l : list A) : Z :=
  match l with
  | [] => -1
  | y :: l' => if decide (y = x) then i else indexOf_from (i + 1) x l'
  end.

Definition indexOf {A} `{EqDecision A} (l : list A) (x : A) : Z :=
  indexOf_from 0 x l.

(** The longest prefix whose elements pass the test (a [for] loop that
    [break]s at the first failure). *)
Fixpoint take_while {A} (f : A -> bool) (l : list A) : list A :=
  match l with
  | [] => []
  | x :: l' => if f x then x :: take_while f l' else []
  end.

(** [Array.prototype.join]. *)
Fixpoint join (sep : string) (l : list string) : string :=
  match l with
  | [] => ""
  | [s] => s
  | s :: l' => s +:+ sep +:+ join sep l'
  end.

(** ** deck.js *)

Definition SUITS : list string := ["♠"; "♥"; "♦"; "♣"]%string.
Definition RANKS : list string :=
  ["2"; "3"; "4"; "5"; "6"; "7"; "8"; "9"; "10"; "J"; "Q"; "K"; "A"]%string.

Record Card := mkCard {
  rank : string;
  suit : string;
  value : Z
}.

(** [new Card(rank, suit)] *)
Definition newCard (r s : string) : Card :=
  {| rank := r; suit := s; value := indexOf RANKS r |}.

Definition Card_toString (c : Card) : string := rank c +:+ suit c.

#[global] Instance Card_eq_dec : EqDecision Card.
Proof. solve_decision. Defined.

Record SecureDeck := mkDeck {
  cards : list Card;
  salt : string;
  commitment : option string;   (* [None] is [null] *)
  revealed : bool
}.

(** What [revealSalt()] returns. *)
Record DeckReveal := mkReveal {
  reveal_salt : string;
  reveal_commitment : option string;
  remainingCards : list string
}.

(** [_buildDeck]: suits outside, ranks inside. *)
Definition buildDeck : list Card :=
  flat_map (fun s => map (fun r => newCard r s) RANKS) SUITS.

(** [[cards[i], cards[j]] = [cards[j], cards[i]]] *)
Definition swap (i j : nat) (l : list Card) : list Card :=
  match l !! i, l !! j with
  | Some ci, Some cj => <[j := ci]> (<[i := cj]> l)
  | _, _ => l
  end.

(** [_shuffle]: [for (i = length - 1; i > 0; i--)], the draw of each
    iteration being [readUInt32BE(0)] of four fresh random bytes.
    [draws k] is the [k]-th draw of the constructor. *)
Fixpoint shuffle_from (draws : nat -> Z) (k : nat) (i : nat) (l : list Card)
  : list Card :=
  match i with
  | O => l
  | S i' =>
      let j := Z.to_nat (draws k mod (Z.of_nat i + 1)) in
      shuffle_from draws (S k) i' (swap i j l)
  end.

Definition shuffle (draws : nat -> Z) (l : list Card) : list Card :=
  shuffle_from draws 0 (length l - 1) l.

Section Deck.
(** [crypto.createHash('sha256').update(s).digest('hex')] *)
Variable sha256 : string -> string.

(** [_generateCommitment] *)
Definition generateCommitment (d : SecureDeck) : SecureDeck :=
  let deckString := join "," (map Card_toString (cards d)) in
  {| cards := cards d; salt := salt d;
     commitment := Some (sha256 (deckString +:+ salt d));
     revealed := revealed d |}.

(** [new SecureDeck()]; [saltHex] is [crypto.randomBytes(32).toString('hex')]. *)
Definition newSecureDeck (saltHex : string) (draws : nat -> Z) : SecureDeck :=
  let d0 := {| cards := []; salt := saltHex; commitment := None;
               revealed := false |} in
  let d1 := {| cards := buildDeck; salt := salt d0;
               commitment := commitment d0; revealed := revealed d0 |} in
  let d2 := {| cards := shuffle draws (cards d1); salt := salt d1;
               commitment := commitment d1; revealed := revealed d1 |} in
  generateCommitment d2.
End Deck.

Definition getCommitment (d : SecureDeck) : option string := commitment d.

(** [Array.prototype.pop] on a non-empty array: the last element and the
    array without it. *)
Fixpoint pop {A} (l : list A) : option (A * list A) :=
  match l with
  | [] => None
  | [x] => Some (x, [])
  | x :: l' =>
      match pop l' with
      | Some (y, r) => Some (y, x :: r)
      | None => None
      end
  end.

(** [deal()]: the result and the deck afterwards. *)
Definition deal (d : SecureDeck) : result Card * SecureDeck :=
  match pop (cards d) with
  | None => (Throw EmptyDeck, d)                    (* 'Deck is empty' *)
  | Some (c, rest) =>
      (Ok c, {| cards := rest; salt := salt d; commitment := commitment d;
                revealed := revealed d |})
  end.

(** [revealSalt()]: the result and the deck afterwards.  The method has
    no [throw]. *)
Definition revealSalt (d : SecureDeck) : result DeckReveal * SecureDeck :=
  let d' := {| cards := cards d; salt := salt d; commitment := commitment d;
               revealed := true |} in
  (Ok {| reveal_salt := salt d';
         reveal_commitment := commitment d';
         remainingCards := map Card_toString (cards d') |}, d').

Definition cardsRemaining (d : SecureDeck) : Z := Z.of_nat (length (cards d)).

(** [n] successive [deal()] calls: the cards they returned, in the order
    of the calls, and the deck afterwards.  A call that throws returns
    no card and leaves the deck as it is. *)
Fixpoint deal_many (n : nat) (d : SecureDeck) : list Card * SecureDeck :=
  match n with
  | O => ([], d)
  | S n' =>
      match deal d with
      | (Ok c, d') => let '(cs, d'') := deal_many n' d' in (c :: cs, d'')
      | (Throw _, d') => deal_many n' d'
      end
  end.

(** ** evaluator.js *)

Definition HIGH_CARD : Z := 1.
Definition PAIR : Z := 2.
Definition TWO_PAIR : Z := 3.
Definition THREE_OF_A_KIND : Z := 4.
Definition STRAIGHT : Z := 5.
Definition FLUSH : Z := 6.
Definition FULL_HOUSE : Z := 7.
Definition FOUR_OF_A_KIND : Z := 8.
Definition STRAIGHT_FLUSH : Z := 9.
Definition ROYAL_FLUSH : Z := 10.

(** A hand result; [hand_cards] is the [cards] property that
    [evaluateHand] adds to the best result ([None] while absent). *)
Record HandResult := mkHand {
  ranking : Z;
  kickers : list Z;
  hand_cards : option (list Card)
}.

(** [getCombinations(arr, size)]; for [size = 0] the source recurses
    with negative sizes until the array is exhausted and returns []. *)
Fixpoint getCombinations {A} (size : nat) (arr : list A) : list (list A) :=
  match size with
  | O => []
  | S k =>
      match k with
      | O => map (fun el => [el]) arr
      | S _ =>
          (fix each (a : list A) : list (list A) :=
             match a with
             | [] => []
             | el :: rest => map (cons el) (getCombinations k rest) ++ each rest
             end) arr
      end
  end.

(** [checkStraight]: every neighbouring difference is 1. *)
Fixpoint checkStraight (ranks : list Z) : bool :=
  match ranks with
  | a :: (b :: _) as tl => if a - b =? 1 then checkStraight tl else false
  | _ => true
  end.

(** [checkWheelStraight]: equality of the two [JSON.stringify] renderings
    of integer arrays is equality of the arrays. *)
Definition checkWheelStraight (ranks : list Z) : bool :=
  bool_decide (js_sort (fun a b => b - a) ranks = [12; 3; 2; 1; 0]).

(** The [rankCounts] object as an association list rank -> count, kept
    in ascending key order (the enumeration order of integer keys).  Both
    consumers sort what they enumerate. *)
Fixpoint count_rank (r : Z) (rc : list (Z * Z)) : list (Z * Z) :=
  match rc with
  | [] => [(r, 1)]
  | (k, c) :: rc' =>
      if r =? k then (k, c + 1) :: rc'
      else if r <? k then (r, 1) :: (k, c) :: rc'
      else (k, c) :: count_rank r rc'
  end.

Definition rankCounts (ranks : list Z) : list (Z * Z) :=
  fold_left (fun rc r => count_rank r rc) ranks [].

(** [getKickers(rankCounts, pattern)]: the pattern is not used. *)
Definition getKickers (rc : list (Z * Z)) (pattern : list Z) : list Z :=
  let entries :=
    js_sort (fun a b => if negb (snd b =? snd a) then snd b - snd a
                        else fst b - fst a) rc in
  map fst entries.

(** The decision chain of [evaluate5Cards], on the flush flag and the
    ranks in descending order. *)
Definition classify (isFlush : bool) (ranks : list Z) : HandResult :=
  let isStraight := checkStraight ranks in
  let isWheelStraight := checkWheelStraight ranks in
  let rc := rankCounts ranks in
  let counts := js_sort (fun a b => b - a) (map snd rc) in
  if isFlush && isStraight && bool_decide (ranks !! 0%nat = Some 12) then
    mkHand ROYAL_FLUSH ranks None
  else if isFlush && (isStraight || isWheelStraight) then
    mkHand STRAIGHT_FLUSH
           (if isWheelStraight then [3; 2; 1; 0; -1] else ranks) None
  else if bool_decide (counts !! 0%nat = Some 4) then
    mkHand FOUR_OF_A_KIND (getKickers rc [4; 1]) None
  else if bool_decide (counts !! 0%nat = Some 3)
          && bool_decide (counts !! 1%nat = Some 2) then
    mkHand FULL_HOUSE (getKickers rc [3; 2]) None
  else if isFlush then
    mkHand FLUSH ranks None
  else if isStraight || isWheelStraight then
    (* [ranks[0]] exists here: an empty hand is a flush and a straight
       and has returned above *)
    mkHand STRAIGHT
           (if isWheelStraight then [3] else take 1 ranks) None
  else if bool_decide (counts !! 0%nat = Some 3) then
    mkHand THREE_OF_A_KIND (getKickers rc [3; 1; 1]) None
  else if bool_decide (counts !! 0%nat = Some 2)
          && bool_decide (counts !! 1%nat = Some 2) then
    mkHand TWO_PAIR (getKickers rc [2; 2; 1]) None
  else if bool_decide (counts !! 0%nat = Some 2) then
    mkHand PAIR (getKickers rc [2; 1; 1; 1]) None
  else
    mkHand HIGH_CARD ranks None.

(** [suits.every(s => s === suits[0])] *)
Definition all_same (suits : list string) : bool :=
  match suits with
  | [] => true
  | s0 :: _ => forallb (fun s => bool_decide (s = s0)) suits
  end.

Definition evaluate5Cards (cs : list Card) : HandResult :=
  let sorted := js_sort (fun a b => value b - value a) cs in
  let ranks := map value sorted in
  let suits := map suit sorted in
  let isFlush := all_same suits in
  classify isFlush ranks.

(** The kicker loop of [compareHands]: [i] runs over the indices of
    [a.kickers]; past the end of [b.kickers] the element is [undefined],
    differs from any number, and the difference is [NaN] ([None]). *)
Fixpoint compareKickers (ak bk : list Z) : option Z :=
  match ak with
  | [] => Some 0
  | x :: ak' =>
      match bk with
      | [] => None
      | y :: bk' => if x =? y then compareKickers ak' bk' else Some (x - y)
      end
  end.

Definition compareHands (a b : HandResult) : option Z :=
  if negb (ranking a =? ranking b) then Some (ranking a - ranking b)
  else compareKickers (kickers a) (kickers b).

(** [x > 0] and [x === 0] on a result that may be [NaN]. *)
Definition js_gt0 (x : option Z) : bool :=
  match x with Some z => 0 <? z | None => false end.
Definition js_is0 (x : option Z) : bool :=
  match x with Some z => z =? 0 | None => false end.

(** [evaluateHand]; [Ok None] would be the [null] the loop starts from. *)
Definition evaluateHand (cs : list Card) : result (option HandResult) :=
  if (length cs <? 5)%nat then Throw NeedFiveCards   (* 'Need at least 5 cards to evaluate' *)
  else
    Ok (fold_left
          (fun bestHand combo =>
             let r := evaluate5Cards combo in
             match bestHand with
             | None => Some (mkHand (ranking r) (kickers r) (Some combo))
             | Some b =>
                 if js_gt0 (compareHands r b)
                 then Some (mkHand (ranking r) (kickers r) (Some combo))
                 else bestHand
             end)
          (getCombinations 5 cs) None).

Definition getHandName (r : Z) : option string :=
  match r with
  | 1 => Some "High Card" | 2 => Some "Pair" | 3 => Some "Two Pair"
  | 4 => Some "Three of a Kind" | 5 => Some "Straight" | 6 => Some "Flush"
  | 7 => Some "Full House" | 8 => Some "Four of a Kind"
  | 9 => Some "Straight Flush" | 10 => Some "Royal Flush"
  | _ => None
  end%string.


(** ** table.js: data *)

Inductive Phase := WAITING | PREFLOP | FLOP | TURN | RIVER | SHOWDOWN.

#[global] Instance Phase_eq_dec : EqDecision Phase.
Proof. solve_decision. Defined.

(** The values of [lastAction] other than [null]. *)
Inductive ActionName := A_fold | A_check | A_call | A_raise.

(** Numeric tests on chip amounts. *)
Definition Qltb (a b : Q) : bool := negb (Qle_bool b a).
Definition Qgtb (a b : Q) : bool := Qltb b a.
Definition Qleb (a b : Q) : bool := Qle_bool a b.

(** [Math.floor] *)
Definition Math_floor (x : Q) : Q := inject_Z (Qfloor x).

Module Player.
(** The [lastActionTime] property is never assigned after the constructor
    and is left out. *)
Record t := mk {
  id : string;
  moltbookId : string;
  walletAddress : string;
  chips : Q;
  holeCards : list Card;
  currentBet : Q;
  totalBetThisHand : Q;
  folded : bool;
  allIn : bool;
  isConnected : bool;
  lastAction : option ActionName
}.

(** [new Player(id, moltbookId, walletAddress, buyIn)] *)
Definition new (i m w : string) (buyIn : Q) : t :=
  {| id := i; moltbookId := m; walletAddress := w; chips := buyIn;
     holeCards := []; currentBet := 0; totalBetThisHand := 0;
     folded := false; allIn := false; isConnected := true;
     lastAction := None |}.

(** [reset()] *)
Definition reset (p : t) : t :=
  {| id := id p; moltbookId := moltbookId p;
     walletAddress := walletAddress p; chips := chips p;
     holeCards := []; currentBet := 0; totalBetThisHand := 0;
     folded := false; allIn := false; isConnected := isConnected p;
     lastAction := None |}.

(** Field updates. *)
Definition set_chips (q : Q) (p : t) : t :=
  {| id := id p; moltbookId := moltbookId p;
     walletAddress := walletAddress p; chips := q;
     holeCards := holeCards p; currentBet := currentBet p;
     totalBetThisHand := totalBetThisHand p; folded := folded p;
     allIn := allIn p; isConnected := isConnected p;
     lastAction := lastAction p |}.
Definition set_holeCards (cs : list Card) (p : t) : t :=
  {| id := id p; moltbookId := moltbookId p;
     walletAddress := walletAddress p; chips := chips p;
     holeCards := cs; currentBet := currentBet p;
     totalBetThisHand := totalBetThisHand p; folded := folded p;
     allIn := allIn p; isConnected := isConnected p;
     lastAction := lastAction p |}.
Definition set_currentBet (q : Q) (p : t) : t :=
  {| id := id p; moltbookId := moltbookId p;
     walletAddress := walletAddress p; chips := chips p;
     holeCards := holeCards p; currentBet := q;
     totalBetThisHand := totalBetThisHand p; folded := folded p;
     allIn := allIn p; isConnected := isConnected p;
     lastAction := lastAction p |}.
Definition set_totalBetThisHand (q : Q) (p : t) : t :=
  {| id := id p; moltbookId := moltbookId p;
     walletAddress := walletAddress p; chips := chips p;
     holeCards := holeCards p; currentBet := currentBet p;
     totalBetThisHand := q; folded := folded p;
     allIn := allIn p; isConnected := isConnected p;
     lastAction := lastAction p |}.
Definition set_folded (b : bool) (p : t) : t :=
  {| id := id p; moltbookId := moltbookId p;
     walletAddress := walletAddress p; chips := chips p;
     holeCards := holeCards p; currentBet := currentBet p;
     totalBetThisHand := totalBetThisHand p; folded := b;
     allIn := allIn p; isConnected := isConnected p;
     lastAction := lastAction p |}.
Definition set_allIn (b : bool) (p : t) : t :=
  {| id := id p; moltbookId := moltbookId p;
     walletAddress := walletAddress p; chips := chips p;
     holeCards := holeCards p; currentBet := currentBet p;
     totalBetThisHand := totalBetThisHand p; folded := folded p;
     allIn := b; isConnected := isConnected p;
     lastAction := lastAction p |}.
Definition set_lastAction (a : option ActionName) (p : t) : t :=
  {| id := id p; moltbookId := moltbookId p;
     walletAddress := walletAddress p; chips := chips p;
     holeCards := holeCards p; currentBet := currentBet p;
     totalBetThisHand := totalBetThisHand p; folded := folded p;
     allIn := allIn p; isConnected := isConnected p;
     lastAction := a |}.

(** [if (this.chips === 0) this.allIn = true] *)
Definition mark_allIn (p : t) : t :=
  if Qeq_bool (chips p) 0 then set_allIn true p else p.
End Player.

(** The [players] Map: insertion-ordered, one entry per key. *)
Definition PlayerMap := list (string * Player.t).

Fixpoint pm_get (k : string) (m : PlayerMap) : option Player.t :=
  match m with
  | [] => None
  | (k', p) :: m' => if decide (k' = k) then Some p else pm_get k m'
  end.

(** [Map.prototype.set]: an existing key keeps its position. *)
Fixpoint pm_set (k : string) (p : Player.t) (m : PlayerMap) : PlayerMap :=
  match m with
  | [] => [(k, p)]
  | (k', p') :: m' =>
      if decide (k' = k) then (k, p) :: m' else (k', p') :: pm_set k p m'
  end.

Fixpoint pm_delete (k : string) (m : PlayerMap) : PlayerMap :=
  match m with
  | [] => []
  | (k', p') :: m' =>
      if decide (k' = k) then m' else (k', p') :: pm_delete k m'
  end.

(** A mutation of the player object stored under [k]. *)
Fixpoint pm_update (k : string) (f : Player.t -> Player.t) (m : PlayerMap)
  : PlayerMap :=
  match m with
  | [] => []
  | (k', p') :: m' =>
      if decide (k' = k) then (k', f p') :: m' else (k', p') :: pm_update k f m'
  end.

(** [Array.from(players.values())] *)
Definition pm_values (m : PlayerMap) : list Player.t := map snd m.

(** Entries of the logs.  The [timestamp] property ([Date.now()]) is not
    kept. *)
Inductive LogEntry :=
| HAND_START (handNumber : Z) (commitment : option string)
| BLINDS (sb bb : Q)
| LOG_FOLD (playerId : string)
| LOG_CHECK (playerId : string)
| LOG_CALL (playerId : string) (amount : Q)
| LOG_RAISE (playerId : string) (amount newBet : Q)
| LOG_FLOP (cards : list string)
| LOG_TURN (card : string)
| LOG_RIVER (card : string)
| LOG_SHOWDOWN (results : list (string * list string * option string))
               (winners : list string) (pot rake winAmount : Q)
               (deckReveal : DeckReveal)
| WIN_UNCONTESTED (playerId : string) (pot rake winAmount : Q).

Record CompletedHand := mkCompleted {
  ch_handNumber : Z;
  ch_winners : list (string * option string);
  ch_pot : Q;
  ch_players : list (string * list string * option string * bool);
  ch_communityCards : list string;
  ch_uncontested : bool
}.

(** The constructor's [config]; [None] is an absent property. *)
Record Config := mkConfig {
  cfg_name : option string;
  cfg_maxPlayers : option nat;
  cfg_smallBlind : option Q;
  cfg_bigBlind : option Q;
  cfg_minBuyIn : option Q;
  cfg_maxBuyIn : option Q;
  cfg_rake : option Q;
  cfg_rakeMax : option Q;
  cfg_actionTimeout : option Q
}.

(** [x || d] on numbers: an absent or zero [x] gives [d]. *)
Definition orQ (x : option Q) (d : Q) : Q :=
  match x with
  | Some q => if Qeq_bool q 0 then d else q
  | None => d
  end.
Definition orNat (x : option nat) (d : nat) : nat :=
  match x with
  | Some (S n) => S n
  | _ => d
  end.

(** ** table.js: the [Table] class *)

(** What [getGameState()] returns; [toPublic()] of a player. *)
Record PublicPlayer := mkPublic {
  pub_id : string;
  pub_moltbookId : string;
  pub_chips : Q;
  pub_currentBet : Q;
  pub_folded : bool;
  pub_allIn : bool;
  pub_isConnected : bool;
  pub_hasCards : bool
}.

Record GameState := mkState {
  gs_tableId : string;
  gs_name : string;
  gs_phase : Phase;
  gs_pot : Q;
  gs_communityCards : list Card;
  gs_currentBet : Q;
  gs_minRaise : Q;
  gs_dealerSeat : Z;
  gs_currentPlayerSeat : option Z;
  gs_players : list (string * PublicPlayer);
  gs_seats : list (option string);
  gs_handNumber : Z;
  gs_deckCommitment : option string
}.

(** The [winner] and [showdown] properties added to the state that an
    action returns when it ends the hand. *)
Record WinnerInfo := mkWinner {
  win_playerId : string;
  win_amount : Q;
  win_rake : Q
}.

Record ShowdownInfo := mkShowdown {
  sd_results : list (string * list Card * option string * Z);
  sd_winners : list string;
  sd_pot : Q;
  sd_rake : Q;
  sd_winAmount : Q;
  sd_deckReveal : DeckReveal
}.

Record Snapshot := mkSnapshot {
  snap_state : GameState;
  snap_winner : option WinnerInfo;
  snap_showdown : option ShowdownInfo
}.

Module Table.
Record t := mk {
  id : string;
  name : string;
  maxPlayers : nat;
  smallBlind : Q;
  bigBlind : Q;
  minBuyIn : Q;
  maxBuyIn : Q;
  rake : Q;
  rakeMax : Q;
  players : PlayerMap;
  seats : list (option string);
  deck : option SecureDeck;
  communityCards : list Card;
  pot : Q;
  sidePots : list Q;
  phase : Phase;
  dealerSeat : Z;
  currentPlayerSeat : option Z;
  lastRaiserSeat : option Z;
  currentBet : Q;
  minRaise : Q;
  handNumber : Z;
  deckCommitment : option string;
  actionTimeout : Q;
  handHistory : list LogEntry;
  completedHands : list CompletedHand
}.

(** Assignments to the fields. *)
Definition set_players (v : PlayerMap) (s : t) : t :=
  {| id := id s; name := name s; maxPlayers := maxPlayers s;
     smallBlind := smallBlind s; bigBlind := bigBlind s; minBuyIn :=
     minBuyIn s; maxBuyIn := maxBuyIn s; rake := rake s; rakeMax :=
     rakeMax s; players := v; seats := seats s; deck := deck s;
     communityCards := communityCards s; pot := pot s; sidePots :=
     sidePots s; phase := phase s; dealerSeat := dealerSeat s;
     currentPlayerSeat := currentPlayerSeat s; lastRaiserSeat :=
     lastRaiserSeat s; currentBet := currentBet s; minRaise :=
     minRaise s; handNumber := handNumber s; deckCommitment :=
     deckCommitment s; actionTimeout := actionTimeout s; handHistory
     := handHistory s; completedHands := completedHands s |}.
Definition set_seats (v : list (option string)) (s : t) : t :=
  {| id := id s; name := name s; maxPlayers := maxPlayers s;
     smallBlind := smallBlind s; bigBlind := bigBlind s; minBuyIn :=
     minBuyIn s; maxBuyIn := maxBuyIn s; rake := rake s; rakeMax :=
     rakeMax s; players := players s; seats := v; deck := deck s;
     communityCards := communityCards s; pot := pot s; sidePots :=
     sidePots s; phase := phase s; dealerSeat := dealerSeat s;
     currentPlayerSeat := currentPlayerSeat s; lastRaiserSeat :=
     lastRaiserSeat s; currentBet := currentBet s; minRaise :=
     minRaise s; handNumber := handNumber s; deckCommitment :=
     deckCommitment s; actionTimeout := actionTimeout s; handHistory
     := handHistory s; completedHands := completedHands s |}.
Definition set_deck (v : option SecureDeck) (s : t) : t :=
  {| id := id s; name := name s; maxPlayers := maxPlayers s;
     smallBlind := smallBlind s; bigBlind := bigBlind s; minBuyIn :=
     minBuyIn s; maxBuyIn := maxBuyIn s; rake := rake s; rakeMax :=
     rakeMax s; players := players s; seats := seats s; deck := v;
     communityCards := communityCards s; pot := pot s; sidePots :=
     sidePots s; phase := phase s; dealerSeat := dealerSeat s;
     currentPlayerSeat := currentPlayerSeat s; lastRaiserSeat :=
     lastRaiserSeat s; currentBet := currentBet s; minRaise :=
     minRaise s; handNumber := handNumber s; deckCommitment :=
     deckCommitment s; actionTimeout := actionTimeout s; handHistory
     := handHistory s; completedHands := completedHands s |}.
Definition set_communityCards (v : list Card) (s : t) : t :=
  {| id := id s; name := name s; maxPlayers := maxPlayers s;
     smallBlind := smallBlind s; bigBlind := bigBlind s; minBuyIn :=
     minBuyIn s; maxBuyIn := maxBuyIn s; rake := rake s; rakeMax :=
     rakeMax s; players := players s; seats := seats s; deck := deck
     s; communityCards := v; pot := pot s; sidePots := sidePots s;
     phase := phase s; dealerSeat := dealerSeat s; currentPlayerSeat
     := currentPlayerSeat s; lastRaiserSeat := lastRaiserSeat s;
     currentBet := currentBet s; minRaise := minRaise s; handNumber :=
     handNumber s; deckCommitment := deckCommitment s; actionTimeout
     := actionTimeout s; handHistory := handHistory s; completedHands
     := completedHands s |}.
Definition set_pot (v : Q) (s : t) : t :=
  {| id := id s; name := name s; maxPlayers := maxPlayers s;
     smallBlind := smallBlind s; bigBlind := bigBlind s; minBuyIn :=
     minBuyIn s; maxBuyIn := maxBuyIn s; rake := rake s; rakeMax :=
     rakeMax s; players := players s; seats := seats s; deck := deck
     s; communityCards := communityCards s; pot := v; sidePots :=
     sidePots s; phase := phase s; dealerSeat := dealerSeat s;
     currentPlayerSeat := currentPlayerSeat s; lastRaiserSeat :=
     lastRaiserSeat s; currentBet := currentBet s; minRaise :=
     minRaise s; handNumber := handNumber s; deckCommitment :=
     deckCommitment s; actionTimeout := actionTimeout s; handHistory
     := handHistory s; completedHands := completedHands s |}.
Definition set_sidePots (v : list Q) (s : t) : t :=
  {| id := id s; name := name s; maxPlayers := maxPlayers s;
     smallBlind := smallBlind s; bigBlind := bigBlind s; minBuyIn :=
     minBuyIn s; maxBuyIn := maxBuyIn s; rake := rake s; rakeMax :=
     rakeMax s; players := players s; seats := seats s; deck := deck
     s; communityCards := communityCards s; pot := pot s; sidePots :=
     v; phase := phase s; dealerSeat := dealerSeat s;
     currentPlayerSeat := currentPlayerSeat s; lastRaiserSeat :=
     lastRaiserSeat s; currentBet := currentBet s; minRaise :=
     minRaise s; handNumber := handNumber s; deckCommitment :=
     deckCommitment s; actionTimeout := actionTimeout s; handHistory
     := handHistory s; completedHands := completedHands s |}.
Definition set_phase (v : Phase) (s : t) : t :=
  {| id := id s; name := name s; maxPlayers := maxPlayers s;
     smallBlind := smallBlind s; bigBlind := bigBlind s; minBuyIn :=
     minBuyIn s; maxBuyIn := maxBuyIn s; rake := rake s; rakeMax :=
     rakeMax s; players := players s; seats := seats s; deck := deck
     s; communityCards := communityCards s; pot := pot s; sidePots :=
     sidePots s; phase := v; dealerSeat := dealerSeat s;
     currentPlayerSeat := currentPlayerSeat s; lastRaiserSeat :=
     lastRaiserSeat s; currentBet := currentBet s; minRaise :=
     minRaise s; handNumber := handNumber s; deckCommitment :=
     deckCommitment s; actionTimeout := actionTimeout s; handHistory
     := handHistory s; completedHands := completedHands s |}.
Definition set_dealerSeat (v : Z) (s : t) : t :=
  {| id := id s; name := name s; maxPlayers := maxPlayers s;
     smallBlind := smallBlind s; bigBlind := bigBlind s; minBuyIn :=
     minBuyIn s; maxBuyIn := maxBuyIn s; rake := rake s; rakeMax :=
     rakeMax s; players := players s; seats := seats s; deck := deck
     s; communityCards := communityCards s; pot := pot s; sidePots :=
     sidePots s; phase := phase s; dealerSeat := v; currentPlayerSeat
     := currentPlayerSeat s; lastRaiserSeat := lastRaiserSeat s;
     currentBet := currentBet s; minRaise := minRaise s; handNumber :=
     handNumber s; deckCommitment := deckCommitment s; actionTimeout
     := actionTimeout s; handHistory := handHistory s; completedHands
     := completedHands s |}.
Definition set_currentPlayerSeat (v : option Z) (s : t) : t :=
  {| id := id s; name := name s; maxPlayers := maxPlayers s;
     smallBlind := smallBlind s; bigBlind := bigBlind s; minBuyIn :=
     minBuyIn s; maxBuyIn := maxBuyIn s; rake := rake s; rakeMax :=
     rakeMax s; players := players s; seats := seats s; deck := deck
     s; communityCards := communityCards s; pot := pot s; sidePots :=
     sidePots s; phase := phase s; dealerSeat := dealerSeat s;
     currentPlayerSeat := v; lastRaiserSeat := lastRaiserSeat s;
     currentBet := currentBet s; minRaise := minRaise s; handNumber :=
     handNumber s; deckCommitment := deckCommitment s; actionTimeout
     := actionTimeout s; handHistory := handHistory s; completedHands
     := completedHands s |}.
Definition set_lastRaiserSeat (v : option Z) (s : t) : t :=
  {| id := id s; name := name s; maxPlayers := maxPlayers s;
     smallBlind := smallBlind s; bigBlind := bigBlind s; minBuyIn :=
     minBuyIn s; maxBuyIn := maxBuyIn s; rake := rake s; rakeMax :=
     rakeMax s; players := players s; seats := seats s; deck := deck
     s; communityCards := communityCards s; pot := pot s; sidePots :=
     sidePots s; phase := phase s; dealerSeat := dealerSeat s;
     currentPlayerSeat := currentPlayerSeat s; lastRaiserSeat := v;
     currentBet := currentBet s; minRaise := minRaise s; handNumber :=
     handNumber s; deckCommitment := deckCommitment s; actionTimeout
     := actionTimeout s; handHistory := handHistory s; completedHands
     := completedHands s |}.
Definition set_currentBet (v : Q) (s : t) : t :=
  {| id := id s; name := name s; maxPlayers := maxPlayers s;
     smallBlind := smallBlind s; bigBlind := bigBlind s; minBuyIn :=
     minBuyIn s; maxBuyIn := maxBuyIn s; rake := rake s; rakeMax :=
     rakeMax s; players := players s; seats := seats s; deck := deck
     s; communityCards := communityCards s; pot := pot s; sidePots :=
     sidePots s; phase := phase s; dealerSeat := dealerSeat s;
     currentPlayerSeat := currentPlayerSeat s; lastRaiserSeat :=
     lastRaiserSeat s; currentBet := v; minRaise := minRaise s;
     handNumber := handNumber s; deckCommitment := deckCommitment s;
     actionTimeout := actionTimeout s; handHistory := handHistory s;
     completedHands := completedHands s |}.
Definition set_minRaise (v : Q) (s : t) : t :=
  {| id := id s; name := name s; maxPlayers := maxPlayers s;
     smallBlind := smallBlind s; bigBlind := bigBlind s; minBuyIn :=
     minBuyIn s; maxBuyIn := maxBuyIn s; rake := rake s; rakeMax :=
     rakeMax s; players := players s; seats := seats s; deck := deck
     s; communityCards := communityCards s; pot := pot s; sidePots :=
     sidePots s; phase := phase s; dealerSeat := dealerSeat s;
     currentPlayerSeat := currentPlayerSeat s; lastRaiserSeat :=
     lastRaiserSeat s; currentBet := currentBet s; minRaise := v;
     handNumber := handNumber s; deckCommitment := deckCommitment s;
     actionTimeout := actionTimeout s; handHistory := handHistory s;
     completedHands := completedHands s |}.
Definition set_handNumber (v : Z) (s : t) : t :=
  {| id := id s; name := name s; maxPlayers := maxPlayers s;
     smallBlind := smallBlind s; bigBlind := bigBlind s; minBuyIn :=
     minBuyIn s; maxBuyIn := maxBuyIn s; rake := rake s; rakeMax :=
     rakeMax s; players := players s; seats := seats s; deck := deck
     s; communityCards := communityCards s; pot := pot s; sidePots :=
     sidePots s; phase := phase s; dealerSeat := dealerSeat s;
     currentPlayerSeat := currentPlayerSeat s; lastRaiserSeat :=
     lastRaiserSeat s; currentBet := currentBet s; minRaise :=
     minRaise s; handNumber := v; deckCommitment := deckCommitment s;
     actionTimeout := actionTimeout s; handHistory := handHistory s;
     completedHands := completedHands s |}.
Definition set_deckCommitment (v : option string) (s : t) : t :=
  {| id := id s; name := name s; maxPlayers := maxPlayers s;
     smallBlind := smallBlind s; bigBlind := bigBlind s; minBuyIn :=
     minBuyIn s; maxBuyIn := maxBuyIn s; rake := rake s; rakeMax :=
     rakeMax s; players := players s; seats := seats s; deck := deck
     s; communityCards := communityCards s; pot := pot s; sidePots :=
     sidePots s; phase := phase s; dealerSeat := dealerSeat s;
     currentPlayerSeat := currentPlayerSeat s; lastRaiserSeat :=
     lastRaiserSeat s; currentBet := currentBet s; minRaise :=
     minRaise s; handNumber := handNumber s; deckCommitment := v;
     actionTimeout := actionTimeout s; handHistory := handHistory s;
     completedHands := completedHands s |}.
Definition set_handHistory (v : list LogEntry) (s : t) : t :=
  {| id := id s; name := name s; maxPlayers := maxPlayers s;
     smallBlind := smallBlind s; bigBlind := bigBlind s; minBuyIn :=
     minBuyIn s; maxBuyIn := maxBuyIn s; rake := rake s; rakeMax :=
     rakeMax s; players := players s; seats := seats s; deck := deck
     s; communityCards := communityCards s; pot := pot s; sidePots :=
     sidePots s; phase := phase s; dealerSeat := dealerSeat s;
     currentPlayerSeat := currentPlayerSeat s; lastRaiserSeat :=
     lastRaiserSeat s; currentBet := currentBet s; minRaise :=
     minRaise s; handNumber := handNumber s; deckCommitment :=
     deckCommitment s; actionTimeout := actionTimeout s; handHistory
     := v; completedHands := completedHands s |}.
Definition set_completedHands (v : list CompletedHand) (s : t) : t :=
  {| id := id s; name := name s; maxPlayers := maxPlayers s;
     smallBlind := smallBlind s; bigBlind := bigBlind s; minBuyIn :=
     minBuyIn s; maxBuyIn := maxBuyIn s; rake := rake s; rakeMax :=
     rakeMax s; players := players s; seats := seats s; deck := deck
     s; communityCards := communityCards s; pot := pot s; sidePots :=
     sidePots s; phase := phase s; dealerSeat := dealerSeat s;
     currentPlayerSeat := currentPlayerSeat s; lastRaiserSeat :=
     lastRaiserSeat s; currentBet := currentBet s; minRaise :=
     minRaise s; handNumber := handNumber s; deckCommitment :=
     deckCommitment s; actionTimeout := actionTimeout s; handHistory
     := handHistory s; completedHands := v |}.

(** [new Table(id, config)] *)
Definition new (i : string) (config : Config) : t :=
  let bb := orQ (cfg_bigBlind config) 20 in
  let mp := orNat (cfg_maxPlayers config) 6 in
  {| id := i;
     name := match cfg_name config with
             | Some n => if bool_decide (n = ""%string)
                         then ("Table " +:+ i)%string else n
             | None => ("Table " +:+ i)%string
             end;
     maxPlayers := mp;
     smallBlind := orQ (cfg_smallBlind config) 10;
     bigBlind := bb;
     minBuyIn := orQ (cfg_minBuyIn config) (bb * 20);
     maxBuyIn := orQ (cfg_maxBuyIn config) (bb * 100);
     rake := orQ (cfg_rake config) (5 # 100);
     rakeMax := orQ (cfg_rakeMax config) 100;
     players := [];
     seats := replicate mp None;
     deck := None;
     communityCards := [];
     pot := 0;
     sidePots := [];
     phase := WAITING;
     dealerSeat := 0;
     currentPlayerSeat := None;
     lastRaiserSeat := None;
     currentBet := 0;
     minRaise := bb;
     handNumber := 0;
     deckCommitment := None;
     actionTimeout := orQ (cfg_actionTimeout config) 30000;
     handHistory := [];
     completedHands := [] |}.

(** *** The monad of the methods *)

Definition M (A : Type) : Type := t -> result A * t.

Definition ret {A} (a : A) : M A := fun s => (Ok a, s).
Definition throw {A} (e : Error) : M A := fun s => (Throw e, s).
Definition bind {A B} (m : M A) (k : A -> M B) : M B :=
  fun s =>
    match m s with
    | (Ok a, s') => k a s'
    | (Throw e, s') => (Throw e, s')
    end.
Definition get : M t := fun s => (Ok s, s).
Definition modify (f : t -> t) : M unit := fun s => (Ok tt, f s).

Declare Scope table_scope.
Delimit Scope table_scope with table.
Notation "x <- m ;; k" := (bind m (fun x => k))
  (at level 100, m at next level, right associativity) : table_scope.
Notation "m ;; k" := (bind m (fun _ => k))
  (at level 100, right associativity) : table_scope.
Local Open Scope table_scope.

(** A player object dereferenced: [undefined.x] is a [TypeError]. *)
Definition deref (k : string) : M Player.t :=
  s <- get ;;
  match pm_get k (players s) with
  | Some p => ret p
  | None => throw TypeError
  end.

Definition update_player (k : string) (f : Player.t -> Player.t) : M unit :=
  modify (fun s => set_players (pm_update k f (players s)) s).

Definition logAction (e : LogEntry) : M unit :=
  modify (fun s => set_handHistory (handHistory s ++ [e]) s).

(** *** Seats *)

(** [seats[i]]: [None] is [undefined], [Some None] is [null]. *)
Definition seat_at (ss : list (option string)) (i : Z)
  : option (option string) :=
  if i <? 0 then None else ss !! Z.to_nat i.

(** [seats[i] === null] *)
Definition seat_is_null (ss : list (option string)) (i : Z) : bool :=
  match seat_at ss i with
  | Some None => true
  | _ => false
  end.

(** [a % maxPlayers]; [maxPlayers] is at least 1 after the constructor. *)
Definition js_mod (a : Z) (m : nat) : Z := Z.rem a (Z.of_nat m).

(** [while (seats[seat] === null) seat = (seat + 1) % maxPlayers].
    After [maxPlayers + 1] null seats every index has been seen and
    the loop cannot exit. *)
Fixpoint skip_null (ss : list (option string)) (m : nat) (fuel : nat)
    (seat : Z) : option Z :=
  match fuel with
  | O => None
  | S f =>
      if seat_is_null ss seat then skip_null ss m f (js_mod (seat + 1) m)
      else Some seat
  end.

Definition find_occupied (seat : Z) : M Z :=
  s <- get ;;
  match skip_null (seats s) (maxPlayers s) (S (maxPlayers s)) seat with
  | Some r => ret r
  | None => throw Diverges
  end.

(** *** Views *)

Definition toPublic (p : Player.t) : PublicPlayer :=
  {| pub_id := Player.id p; pub_moltbookId := Player.moltbookId p;
     pub_chips := Player.chips p; pub_currentBet := Player.currentBet p;
     pub_folded := Player.folded p; pub_allIn := Player.allIn p;
     pub_isConnected := Player.isConnected p;
     pub_hasCards := (0 <? length (Player.holeCards p))%nat |}.

Definition getGameState (s : t) : GameState :=
  {| gs_tableId := id s; gs_name := name s; gs_phase := phase s;
     gs_pot := pot s; gs_communityCards := communityCards s;
     gs_currentBet := currentBet s; gs_minRaise := minRaise s;
     gs_dealerSeat := dealerSeat s;
     gs_currentPlayerSeat := currentPlayerSeat s;
     gs_players := map (fun kp => (fst kp, toPublic (snd kp))) (players s);
     gs_seats := seats s; gs_handNumber := handNumber s;
     gs_deckCommitment := deckCommitment s |}.

Definition snapshot : M Snapshot :=
  s <- get ;; ret (mkSnapshot (getGameState s) None None).

(** *** Seating *)

(** [addPlayer(moltbookId, walletAddress, buyIn, preferredSeat)];
    [now] is the decimal rendering of [Date.now()]. *)
Definition addPlayer (moltbookId walletAddress : string) (buyIn : Q)
    (preferredSeat : option Z) (now : string) : M (Z * string) :=
  s <- get ;;
  if Qltb buyIn (minBuyIn s) || Qgtb buyIn (maxBuyIn s)
  then throw InvalidBuyIn        (* 'Buy-in must be between ...' *)
  else
    let seat :=
      match preferredSeat with
      | Some ps =>
          if seat_is_null (seats s) ps then ps else indexOf (seats s) None
      | None => indexOf (seats s) None
      end in
    if seat =? -1 then throw TableFull        (* 'Table is full' *)
    else
      let playerId := (moltbookId +:+ "-" +:+ now)%string in
      let player := Player.new playerId moltbookId walletAddress buyIn in
      modify (fun s => set_players (pm_set playerId player (players s)) s) ;;
      modify (fun s =>
                set_seats (<[Z.to_nat seat := Some playerId]> (seats s)) s) ;;
      ret (seat, playerId).

(** [removePlayer(playerId)]; [None] is the [null] of an unknown id. *)
Definition removePlayer (playerId : string) : M (option Q) :=
  s <- get ;;
  match pm_get playerId (players s) with
  | None => ret None
  | Some player =>
      let seat := indexOf (seats s) (Some playerId) in
      (if negb (seat =? -1)
       then modify (fun s => set_seats (<[Z.to_nat seat := None]> (seats s)) s)
       else ret tt) ;;
      modify (fun s => set_players (pm_delete playerId (players s)) s) ;;
      ret (Some (Player.chips player))
  end.

(** *** Private methods *)

Definition getActivePlayers (s : t) : list Player.t :=
  List.filter (fun p => Qgtb (Player.chips p) 0 && Player.isConnected p)
              (pm_values (players s)).

(** [_getPlayersInHand]: the player objects, each with its key. *)
Definition getPlayersInHand (s : t) : list (string * Player.t) :=
  List.filter (fun kp => negb (Player.folded (snd kp))
                         && (0 <? length (Player.holeCards (snd kp)))%nat)
              (players s).

(** [do { dealerSeat = (dealerSeat + 1) % maxPlayers }
     while (seats[dealerSeat] === null)] *)
Definition moveDealer : M unit :=
  s <- get ;;
  d <- find_occupied (js_mod (dealerSeat s + 1) (maxPlayers s)) ;;
  modify (set_dealerSeat d).

Definition getSmallBlindSeat : M Z :=
  s <- get ;;
  find_occupied (js_mod (dealerSeat s + 1) (maxPlayers s)).

Definition getBigBlindSeat : M Z :=
  seat <- getSmallBlindSeat ;;
  s <- get ;;
  find_occupied (js_mod (seat + 1) (maxPlayers s)).

(** [this.players.get(this.seats[seat])] with its key. *)
Definition player_at (s : t) (seat : Z) : option (string * Player.t) :=
  match seat_at (seats s) seat with
  | Some (Some k) =>
      match pm_get k (players s) with
      | Some p => Some (k, p)
      | None => None
      end
  | _ => None
  end.

(** [this.pot += a], in exact arithmetic.  The sum of the source is
    rounded to binary64, which changes nothing on whole amounts. *)
Definition add_pot (a : Q) : M unit :=
  modify (fun s => set_pot (pot s + a) s).

Definition postBlinds : M unit :=
  sbSeat <- getSmallBlindSeat ;;
  bbSeat <- getBigBlindSeat ;;
  s <- get ;;
  match player_at s sbSeat, player_at s bbSeat with
  | Some (ksb, sbPlayer), Some (kbb, bbPlayer) =>
      let sbAmount := Qmin (smallBlind s) (Player.chips sbPlayer) in
      let bbAmount := Qmin (bigBlind s) (Player.chips bbPlayer) in
      update_player ksb (fun p =>
        Player.set_totalBetThisHand sbAmount
          (Player.set_currentBet sbAmount
             (Player.set_chips (Player.chips p - sbAmount) p))) ;;
      add_pot sbAmount ;;
      update_player kbb (fun p =>
        Player.set_totalBetThisHand bbAmount
          (Player.set_currentBet bbAmount
             (Player.set_chips (Player.chips p - bbAmount) p))) ;;
      add_pot bbAmount ;;
      update_player ksb Player.mark_allIn ;;
      update_player kbb Player.mark_allIn ;;
      logAction (BLINDS sbAmount bbAmount)
  | _, _ => throw TypeError
  end.

(** [this.deck.deal()] *)
Definition deck_deal : M Card :=
  fun s =>
    match deck s with
    | None => (Throw TypeError, s)
    | Some d =>
        match deal d with
        | (Ok c, d') => (Ok c, set_deck (Some d') s)
        | (Throw e, _) => (Throw e, s)
        end
    end.

(** The loop of [_dealHoleCards]; [if (playerId)] passes for a seat that
    holds a non-empty id. *)
Fixpoint dealHoleCards_loop (ss : list (option string)) : M unit :=
  match ss with
  | [] => ret tt
  | sid :: rest =>
      match sid with
      | Some k =>
          if bool_decide (k = ""%string) then ret tt
          else
            player <- deref k ;;
            if Qgtb (Player.chips player) 0 then
              c1 <- deck_deal ;;
              c2 <- deck_deal ;;
              update_player k (Player.set_holeCards [c1; c2])
            else ret tt
      | None => ret tt
      end ;;
      dealHoleCards_loop rest
  end.

Definition dealHoleCards : M unit :=
  s <- get ;; dealHoleCards_loop (seats s).

(** The [while (checked < maxPlayers)] loop of [_setNextPlayer], on the
    number of seats still to check. *)
Fixpoint setNextPlayer_loop (checked : nat) (seat : Z) : M unit :=
  match checked with
  | O => modify (set_currentPlayerSeat None)
  | S f =>
      s <- get ;;
      let next := setNextPlayer_loop f (js_mod (seat + 1) (maxPlayers s)) in
      match seat_at (seats s) seat with
      | Some (Some k) =>
          if bool_decide (k = ""%string) then next
          else
            player <- deref k ;;
            if negb (Player.folded player) && negb (Player.allIn player)
            then modify (set_currentPlayerSeat (Some seat))
            else next
      | _ => next
      end
  end.

Definition setNextPlayer (afterSeat : Z) : M unit :=
  s <- get ;;
  setNextPlayer_loop (maxPlayers s) (js_mod (afterSeat + 1) (maxPlayers s)).

Definition validateAction (playerId : string) : M unit :=
  s <- get ;;
  if bool_decide (phase s = WAITING) || bool_decide (phase s = SHOWDOWN)
  then throw NoActiveHand        (* 'No active hand' *)
  else
    let seat := indexOf (seats s) (Some playerId) in
    if bool_decide (currentPlayerSeat s = Some seat) then ret tt
    else throw OutOfTurn         (* 'Not your turn' *).

Fixpoint isBettingComplete_loop (ps : list (string * Player.t)) : M bool :=
  match ps with
  | [] => ret true
  | (_, player) :: rest =>
      s <- get ;;
      if negb (Player.allIn player)
         && Qltb (Player.currentBet player) (currentBet s)
      then ret false
      else if negb (Player.allIn player)
              && bool_decide (Player.lastAction player = None)
              && bool_decide (phase s = PREFLOP)
      then
        bbSeat <- getBigBlindSeat ;;
        if bool_decide (seat_at (seats s) bbSeat
                        = Some (Some (Player.id player)))
           && Qeq_bool (Player.currentBet player) (bigBlind s)
        then ret false
        else isBettingComplete_loop rest
      else isBettingComplete_loop rest
  end.

Definition isBettingComplete : M bool :=
  s <- get ;; isBettingComplete_loop (getPlayersInHand s).

(** [completedHands.unshift(h); if (length > 20) completedHands.pop()] *)
Definition remember (h : CompletedHand) : M unit :=
  modify (fun s =>
    let l := h :: completedHands s in
    set_completedHands (if (20 <? length l)%nat then removelast l else l) s).

(** [Math.min(this.pot * this.rake, this.rakeMax)], in exact arithmetic.
    The source multiplies in binary64; its value, which is this one for
    some pots and not for others, is [rake64] below. *)
Definition rake_of (s : t) : Q := Qmin (pot s * rake s) (rakeMax s).

(** [_awardPot(winner)]; the winner is the object stored under [k]. *)
Definition awardPot (w : string * Player.t) : M Snapshot :=
  let '(k, winner) := w in
  s <- get ;;
  let rk := rake_of s in
  let winAmount := (pot s - rk)%Q in
  update_player k (fun p => Player.set_chips (Player.chips p + winAmount) p) ;;
  logAction (WIN_UNCONTESTED (Player.id winner) (pot s) rk winAmount) ;;
  remember {| ch_handNumber := handNumber s;
              ch_winners := [(Player.moltbookId winner, Some "Uncontested"%string)];
              ch_pot := pot s;
              ch_players := [(Player.moltbookId winner, [], Some "Winner"%string, true)];
              ch_communityCards := map Card_toString (communityCards s);
              ch_uncontested := true |} ;;
  modify (set_phase SHOWDOWN) ;;
  s' <- get ;;
  ret (mkSnapshot (getGameState s')
                  (Some (mkWinner (Player.id winner) winAmount rk)) None).

(** One entry of [results] in [_showdown]: the player object (with its
    key), its hand and the name of the hand. *)
Record ShowdownResult := mkResult {
  res_key : string;
  res_player : Player.t;
  res_hand : HandResult;
  res_handName : option string
}.

Fixpoint evaluate_all (community : list Card) (ps : list (string * Player.t))
  : M (list ShowdownResult) :=
  match ps with
  | [] => ret []
  | (k, player) :: rest =>
      match evaluateHand (Player.holeCards player ++ community) with
      | Throw e => throw e
      | Ok None => throw TypeError
      | Ok (Some hand) =>
          rs <- evaluate_all community rest ;;
          ret (mkResult k player hand (getHandName (ranking hand)) :: rs)
      end
  end.

(** The comparator handed to [sort]: a [NaN] result counts as [0]. *)
Definition by_strength (a b : ShowdownResult) : Z :=
  match compareHands (res_hand b) (res_hand a) with
  | Some z => z
  | None => 0
  end.

(** [results[0]] and the results after it that tie with it. *)
Definition winners_of (results : list ShowdownResult) : list ShowdownResult :=
  match results with
  | [] => []
  | r0 :: rest =>
      r0 :: take_while
              (fun r => js_is0 (compareHands (res_hand r) (res_hand r0))) rest
  end.

Fixpoint credit_all (winAmount : Q) (ws : list ShowdownResult) : M unit :=
  match ws with
  | [] => ret tt
  | w :: rest =>
      update_player (res_key w)
        (fun p => Player.set_chips (Player.chips p + winAmount) p) ;;
      credit_all winAmount rest
  end.

(** [this.deck.revealSalt()] *)
Definition deck_revealSalt : M DeckReveal :=
  fun s =>
    match deck s with
    | None => (Throw TypeError, s)
    | Some d =>
        match revealSalt d with
        | (Ok r, d') => (Ok r, set_deck (Some d') s)
        | (Throw e, d') => (Throw e, set_deck (Some d') s)
        end
    end.

Definition showdown : M Snapshot :=
  modify (set_phase SHOWDOWN) ;;
  s <- get ;;
  unsorted <- evaluate_all (communityCards s) (getPlayersInHand s) ;;
  let results := js_sort by_strength unsorted in
  match results with
  | [] => throw TypeError   (* [winners] is [[undefined]] *)
  | _ :: _ =>
      let winners := winners_of results in
      let rk := rake_of s in
      let potAfterRake := (pot s - rk)%Q in
      let winAmount :=
        Math_floor (potAfterRake / inject_Z (Z.of_nat (length winners))) in
      credit_all winAmount winners ;;
      deckReveal <- deck_revealSalt ;;
      let cards_of r := map Card_toString (Player.holeCards (res_player r)) in
      let won r :=
        existsb (fun w => bool_decide (Player.id (res_player w)
                                       = Player.id (res_player r))) winners in
      logAction (LOG_SHOWDOWN
        (map (fun r => (Player.id (res_player r), cards_of r, res_handName r))
             results)
        (map (fun w => Player.id (res_player w)) winners)
        (pot s) rk winAmount deckReveal) ;;
      remember {|
        ch_handNumber := handNumber s;
        ch_winners := map (fun w => (Player.moltbookId (res_player w),
                                     res_handName w)) winners;
        ch_pot := pot s;
        ch_players := map (fun r => (Player.moltbookId (res_player r),
                                     cards_of r, res_handName r, won r))
                          results;
        ch_communityCards := map Card_toString (communityCards s);
        ch_uncontested := false |} ;;
      s' <- get ;;
      ret (mkSnapshot (getGameState s') None
             (Some {| sd_results :=
                        map (fun r => (Player.id (res_player r),
                                       Player.holeCards (res_player r),
                                       res_handName r,
                                       ranking (res_hand r))) results;
                      sd_winners := map (fun w => Player.id (res_player w))
                                        winners;
                      sd_pot := pot s; sd_rake := rk;
                      sd_winAmount := winAmount;
                      sd_deckReveal := deckReveal |}))
  end.

(** [_advancePhase].  The recursion of the source is at most four deep
    from an active phase; in the phases WAITING and SHOWDOWN, where the
    [switch] does nothing, it would not end. *)
Fixpoint advancePhase (fuel : nat) : M Snapshot :=
  match fuel with
  | O => throw Diverges
  | S f =>
      modify (fun s =>
        set_players
          (map (fun kp =>
                  (fst kp, Player.set_lastAction None
                             (Player.set_currentBet 0 (snd kp))))
               (players s)) s) ;;
      modify (set_currentBet 0) ;;
      modify (fun s => set_minRaise (bigBlind s) s) ;;
      s <- get ;;
      let continue : M Snapshot :=
        s <- get ;;
        setNextPlayer (dealerSeat s) ;;
        s <- get ;;
        let canAct :=
          List.filter (fun kp => negb (Player.allIn (snd kp)))
                      (getPlayersInHand s) in
        if (length canAct <=? 1)%nat then advancePhase f else snapshot in
      match phase s with
      | PREFLOP =>
          modify (set_phase FLOP) ;;
          c1 <- deck_deal ;;
          c2 <- deck_deal ;;
          c3 <- deck_deal ;;
          modify (set_communityCards [c1; c2; c3]) ;;
          logAction (LOG_FLOP (map Card_toString [c1; c2; c3])) ;;
          continue
      | FLOP =>
          modify (set_phase TURN) ;;
          c1 <- deck_deal ;;
          modify (fun s => set_communityCards (communityCards s ++ [c1]) s) ;;
          s <- get ;;
          match communityCards s !! 3%nat with
          | Some c3 => logAction (LOG_TURN (Card_toString c3))
          | None => throw TypeError
          end ;;
          continue
      | TURN =>
          modify (set_phase RIVER) ;;
          c1 <- deck_deal ;;
          modify (fun s => set_communityCards (communityCards s ++ [c1]) s) ;;
          s <- get ;;
          match communityCards s !! 4%nat with
          | Some c4 => logAction (LOG_RIVER (Card_toString c4))
          | None => throw TypeError
          end ;;
          continue
      | RIVER => showdown
      | _ => continue
      end
  end.

Definition advanceGame : M Snapshot :=
  s <- get ;;
  match getPlayersInHand s with
  | [w] => awardPot w
  | _ =>
      complete <- isBettingComplete ;;
      if complete then advancePhase 4
      else
        s <- get ;;
        (* [null + 1] is [1] *)
        setNextPlayer (default 0 (currentPlayerSeat s)) ;;
        snapshot
  end.

(** *** Player actions *)

Definition fold (playerId : string) : M Snapshot :=
  validateAction playerId ;;
  _ <- deref playerId ;;
  update_player playerId (Player.set_folded true) ;;
  update_player playerId (Player.set_lastAction (Some A_fold)) ;;
  logAction (LOG_FOLD playerId) ;;
  advanceGame.

Definition check (playerId : string) : M Snapshot :=
  validateAction playerId ;;
  player <- deref playerId ;;
  s <- get ;;
  if Qltb (Player.currentBet player) (currentBet s)
  then throw CannotCheck         (* 'Cannot check, must call or raise' *)
  else
    update_player playerId (Player.set_lastAction (Some A_check)) ;;
    logAction (LOG_CHECK playerId) ;;
    advanceGame.

(** [chips -= a; currentBet += a; totalBetThisHand += a] on a player *)
Definition commit_chips (a : Q) (p : Player.t) : Player.t :=
  Player.set_totalBetThisHand (Player.totalBetThisHand p + a)
    (Player.set_currentBet (Player.currentBet p + a)
       (Player.set_chips (Player.chips p - a) p)).

Definition call (playerId : string) : M Snapshot :=
  validateAction playerId ;;
  player <- deref playerId ;;
  s <- get ;;
  let toCall := (currentBet s - Player.currentBet player)%Q in
  if Qleb toCall 0 then throw NothingToCall     (* 'Nothing to call' *)
  else
    let actualCall := Qmin toCall (Player.chips player) in
    update_player playerId (commit_chips actualCall) ;;
    add_pot actualCall ;;
    update_player playerId Player.mark_allIn ;;
    update_player playerId (Player.set_lastAction (Some A_call)) ;;
    logAction (LOG_CALL playerId actualCall) ;;
    advanceGame.

Definition raise (playerId : string) (amount : Q) : M Snapshot :=
  validateAction playerId ;;
  player <- deref playerId ;;
  s <- get ;;
  let toCall := (currentBet s - Player.currentBet player)%Q in
  let raiseAmount := (amount - toCall)%Q in
  if Qltb raiseAmount (minRaise s) && Qltb amount (Player.chips player)
  then throw BelowMinRaise       (* 'Minimum raise is ...' *)
  else if Qgtb amount (Player.chips player)
  then throw InsufficientChips   (* 'Not enough chips' *)
  else
    update_player playerId (commit_chips amount) ;;
    add_pot amount ;;
    player' <- deref playerId ;;
    modify (set_currentBet (Player.currentBet player')) ;;
    modify (fun s => set_minRaise (Qmax (minRaise s) raiseAmount) s) ;;
    modify (fun s =>
      set_lastRaiserSeat (Some (indexOf (seats s) (Some playerId))) s) ;;
    update_player playerId Player.mark_allIn ;;
    update_player playerId (Player.set_lastAction (Some A_raise)) ;;
    s' <- get ;;
    logAction (LOG_RAISE playerId amount (currentBet s')) ;;
    advanceGame.

(** [allIn]: the player object is dereferenced before [raise] runs. *)
Definition allIn (playerId : string) : M Snapshot :=
  player <- deref playerId ;;
  raise playerId (Player.chips player).

(** [startHand()]; [newDeck] is the value of [new SecureDeck()]. *)
Definition startHand (newDeck : SecureDeck) : M Snapshot :=
  s <- get ;;
  if (length (getActivePlayers s) <? 2)%nat
  then throw NotEnoughPlayers    (* 'Need at least 2 players to start' *)
  else
    modify (fun s => set_handNumber (handNumber s + 1) s) ;;
    modify (set_deck (Some newDeck)) ;;
    modify (set_deckCommitment (getCommitment newDeck)) ;;
    modify (set_communityCards []) ;;
    modify (set_pot 0) ;;
    modify (set_sidePots []) ;;
    modify (set_phase PREFLOP) ;;
    modify (fun s => set_currentBet (bigBlind s) s) ;;
    modify (fun s => set_minRaise (bigBlind s) s) ;;
    modify (set_handHistory []) ;;
    modify (fun s =>
      set_players (map (fun kp => (fst kp, Player.reset (snd kp)))
                       (players s)) s) ;;
    moveDealer ;;
    postBlinds ;;
    dealHoleCards ;;
    bb <- getBigBlindSeat ;;
    setNextPlayer bb ;;
    s' <- get ;;
    logAction (HAND_START (handNumber s') (deckCommitment s')) ;;
    snapshot.

(** *** The view for spectators *)

(** One entry of [players] in [getPublicState()]; the [holeCards]
    property is present only when the cards are revealed. *)
Record PublicSeat := mkSeat {
  seat_id : string;
  seat_moltbookId : string;
  seat_chips : Q;
  seat_currentBet : Q;
  seat_folded : bool;
  seat_allIn : bool;
  seat_hasCards : bool;
  seat_lastAction : option ActionName;
  seat_holeCards : option (list Card)
}.

(** What [getPublicState()] returns. *)
Record PublicState := mkPublicState {
  pst_tableId : string;
  pst_name : string;
  pst_phase : Phase;
  pst_pot : Q;
  pst_communityCards : list Card;
  pst_currentBet : Q;
  pst_dealerSeat : Z;
  pst_currentPlayerSeat : option Z;
  pst_players : list PublicSeat;
  pst_seats : list (option string);
  pst_handNumber : Z;
  pst_smallBlind : Q;
  pst_bigBlind : Q
}.

(** The entry of the player stored under [k]. *)
Definition publicPlayer (ph : Phase) (k : string) (player : Player.t)
  : PublicSeat :=
  {| seat_id := k;
     seat_moltbookId := Player.moltbookId player;
     seat_chips := Player.chips player;
     seat_currentBet := Player.currentBet player;
     seat_folded := Player.folded player;
     seat_allIn := Player.allIn player;
     seat_hasCards := (0 <? length (Player.holeCards player))%nat;
     seat_lastAction := Player.lastAction player;
     seat_holeCards :=
       if bool_decide (ph = SHOWDOWN) && negb (Player.folded player)
          && (0 <? length (Player.holeCards player))%nat
       then Some (Player.holeCards player)
       else None |}.

Definition getPublicState (s : t) : PublicState :=
  {| pst_tableId := id s; pst_name := name s; pst_phase := phase s;
     pst_pot := pot s; pst_communityCards := communityCards s;
     pst_currentBet := currentBet s; pst_dealerSeat := dealerSeat s;
     pst_currentPlayerSeat := currentPlayerSeat s;
     pst_players :=
       map (fun kp => publicPlayer (phase s) (fst kp) (snd kp)) (players s);
     pst_seats := seats s; pst_handNumber := handNumber s;
     pst_smallBlind := smallBlind s; pst_bigBlind := bigBlind s |}.
End Table.

(** ** The public interface as a transition system *)

(** A call of a public method of a table. *)
Inductive Op :=
| OpAddPlayer (moltbookId walletAddress : string) (buyIn : Q)
              (preferredSeat : option Z) (now : string)
| OpRemovePlayer (playerId : string)
| OpStartHand (saltHex : string) (draws : nat -> Z)
| OpFold (playerId : string)
| OpCheck (playerId : string)
| OpCall (playerId : string)
| OpRaise (playerId : string) (amount : Q)
| OpAllIn (playerId : string).

(** What the call returns. *)
Inductive Outcome :=
| Seated (seat : Z) (playerId : string)
| Removed (chips : option Q)
| State (snap : Snapshot).

Section Engine.
Variable sha256 : string -> string.

Definition exec (op : Op) : Table.M Outcome :=
  match op with
  | OpAddPlayer m w b ps now =>
      Table.bind (Table.addPlayer m w b ps now)
                 (fun r => Table.ret (Seated (fst r) (snd r)))
  | OpRemovePlayer k =>
      Table.bind (Table.removePlayer k) (fun r => Table.ret (Removed r))
  | OpStartHand saltHex draws =>
      Table.bind (Table.startHand (newSecureDeck sha256 saltHex draws))
                 (fun r => Table.ret (State r))
  | OpFold k => Table.bind (Table.fold k) (fun r => Table.ret (State r))
  | OpCheck k => Table.bind (Table.check k) (fun r => Table.ret (State r))
  | OpCall k => Table.bind (Table.call k) (fun r => Table.ret (State r))
  | OpRaise k a => Table.bind (Table.raise k a) (fun r => Table.ret (State r))
  | OpAllIn k => Table.bind (Table.allIn k) (fun r => Table.ret (State r))
  end.

(** The table after a sequence of calls, whether they return or throw. *)
Definition run (ops : list Op) (s : Table.t) : Table.t :=
  fold_left (fun s op => snd (exec op s)) ops s.

(** The states a table can be in: a fresh table, then any calls. *)
Inductive reachable : Table.t -> Prop :=
| reachable_new (i : string) (config : Config) :
    reachable (Table.new i config)
| reachable_step (op : Op) (s : Table.t) :
    reachable s -> reachable (snd (exec op s)).
End Engine.

(** The four betting actions of a player. *)
Inductive Action :=
| Fold | Check | Call | Raise (amount : Q).

(** The method that an action calls. *)
Definition act (a : Action) (playerId : string) : Table.M Snapshot :=
  match a with
  | Fold => Table.fold playerId
  | Check => Table.check playerId
  | Call => Table.call playerId
  | Raise amount => Table.raise playerId amount
  end.

(** The errors that the validations of the methods throw. *)
Definition validation_error (e : Error) : bool :=
  match e with
  | InvalidBuyIn | TableFull | NotEnoughPlayers | NoActiveHand | OutOfTurn
  | CannotCheck | NothingToCall | BelowMinRaise | InsufficientChips => true
  | EmptyDeck | NeedFiveCards | TypeError | Diverges => false
  end.

(** ** Chip accounting *)

(** [sum(player.chips)] over the [players] map. *)
Definition sum_chips (m : PlayerMap) : Q :=
  foldr (fun kp acc => (Player.chips (snd kp) + acc)%Q) 0%Q m.

(** [sum(player.chips) + pot] *)
Definition total (s : Table.t) : Q := (sum_chips (Table.players s) + Table.pot s)%Q.

(** The amount is a whole number of chips. *)
Definition is_integer (q : Q) : Prop := (q == inject_Z (Qfloor q))%Q.

(** The number of kickers of each category. *)
Definition kicker_count (ranking : Z) : nat :=
  match ranking with
  | 10 | 9 | 6 | 1 => 5
  | 8 | 7 => 2
  | 5 => 1
  | 4 | 3 => 3
  | 2 => 4
  | _ => 0
  end.

(** The results that [evaluate5Cards] builds from five cards. *)
Definition well_formed (r : HandResult) : Prop :=
  length (kickers r) = kicker_count (ranking r).

(** One of the 52 cards of the deck. *)
Definition deck_card (c : Card) : Prop := In c buildDeck.

(** ** Notions used in the statements and proofs *)

(** Descending order of a list of integers. *)
Fixpoint descending (l : list Z) : Prop :=
  match l with
  | a :: (b :: _) as tl => b <= a /\ descending tl
  | _ => True
  end.

(** The sum of a list of integers. *)
Definition sumZ (l : list Z) : Z := foldr Z.add 0 l.

(** Three hands to compare: aces and sevens twice, and a straight. *)
Definition sample_hand_1 : list Card :=
  [newCard "A" "♠"; newCard "A" "♥"; newCard "7" "♦"; newCard "7" "♣";
   newCard "2" "♠"; newCard "9" "♥"; newCard "K" "♦"]%string.

Definition sample_hand_2 : list Card :=
  [newCard "A" "♦"; newCard "A" "♣"; newCard "7" "♠"; newCard "7" "♥";
   newCard "3" "♠"; newCard "9" "♦"; newCard "K" "♣"]%string.

Definition sample_hand_3 : list Card :=
  [newCard "5" "♦"; newCard "6" "♣"; newCard "7" "♠"; newCard "8" "♥";
   newCard "9" "♠"]%string.

(** The hand holds the ranks A, 5, 4, 3, 2. *)
Definition is_wheel (cs : list Card) : Prop :=
  map value cs ≡ₚ [12; 3; 2; 1; 0].

(** The wheel and the next straight above it. *)
Definition wheel_hand : list Card :=
  [newCard "A" "♠"; newCard "5" "♥"; newCard "4" "♦"; newCard "3" "♣";
   newCard "2" "♠"]%string.

Definition six_high_straight : list Card :=
  [newCard "6" "♠"; newCard "5" "♦"; newCard "4" "♥"; newCard "3" "♠";
   newCard "2" "♣"]%string.

(** The hand holds the five consecutive ranks that end at the card value
    [top].  Card values run from 0 for the 2 to 12 for the ace, so the
    straights other than the wheel are those with [top] from 4 (6-high)
    to 12 (ace-high). *)
Definition is_straight_to (top : Z) (cs : list Card) : Prop :=
  map value cs ≡ₚ [top; top - 1; top - 2; top - 3; top - 4].

(** The errors that are not validation errors. *)
Definition internal_error (e : Error) : Prop := validation_error e = false.

(** [sound R P m]: whatever [m] does, the table afterwards is related to
    the table before by [R], and an exception thrown satisfies [P]. *)
Definition sound (R : Table.t -> Table.t -> Prop) (P : Error -> Prop)
    {A} (m : Table.M A) : Prop :=
  forall s r s', m s = (r, s') -> R s s' /\ (forall e, r = Throw e -> P e).

(** What the betting of a hand leaves alone: every stack, the pot and
    the rake settings. *)
Definition chip_ledger (m : PlayerMap) : list (string * Q) :=
  map (fun kp => (fst kp, Player.chips (snd kp))) m.

(** [frame s s']: from [s] to [s'] they have not changed. *)
Definition frame (s s' : Table.t) : Prop :=
  chip_ledger (Table.players s') = chip_ledger (Table.players s)
  /\ Table.pot s' = Table.pot s
  /\ Table.rake s' = Table.rake s
  /\ Table.rakeMax s' = Table.rakeMax s.

(** The seat on turn is [null] or a seat index. *)
Definition seat_inv (s : Table.t) : Prop :=
  forall i, Table.currentPlayerSeat s = Some i -> 0 <= i.

(** A step that keeps it so. *)
Definition keeps_seat_inv (s s' : Table.t) : Prop := seat_inv s -> seat_inv s'.

(** No restriction on the exception thrown. *)
Definition any_error (e : Error) : Prop := True.

(** [m] reads the table and leaves it as it is. *)
Definition pure {A} (m : Table.M A) : Prop :=
  forall s r s', m s = (r, s') -> s' = s.

(** [m] throws its validation errors before it changes the table. *)
Definition atomic {A} (m : Table.M A) : Prop :=
  forall s e s', m s = (Throw e, s') -> validation_error e = true -> s' = s.

(** No property of the engine depends on the hash; this one stands in for
    SHA-256 where a table has to be computed. *)
Definition demo_hash (s : string) : string := s.

(** [new Table(id)] without settings. *)
Definition default_config : Config :=
  mkConfig None None None None None None None None None.

(** A default table (blinds 10/20, buy-in 400 to 2000, rake 5% up to 100)
    with two players, after [startHand()]: alice is the small blind and
    on turn, bob the big blind; the pot is 30. *)
Definition heads_up : Table.t :=
  run demo_hash
    [OpAddPlayer "alice" "wallet-a" 400 None "1";
     OpAddPlayer "bob" "wallet-b" 400 None "2";
     OpStartHand "00" (fun _ => 0)]
    (Table.new "t" default_config).

(** The record of alice at that table. *)
Definition alice : Player.t :=
  default (Player.new "" "" "" 0) (pm_get "alice-1" (Table.players heads_up)).

(** What [_showdown] does to the stacks: each of the [n] winners is
    credited the floor of an [n]-th of the pot after rake; the pot itself
    stays. *)
Definition showdown_law (s s' : Table.t) (sd : ShowdownInfo) : Prop :=
  let n := inject_Z (Z.of_nat (length (sd_winners sd))) in
  (1 <= length (sd_winners sd))%nat
  /\ Table.pot s' = Table.pot s
  /\ Table.rake s' = Table.rake s
  /\ Table.rakeMax s' = Table.rakeMax s
  /\ sd_pot sd = Table.pot s
  /\ sd_rake sd = Table.rake_of s
  /\ sd_winAmount sd = Math_floor ((sd_pot sd - sd_rake sd) / n)
  /\ (sum_chips (Table.players s')
      == sum_chips (Table.players s) + n * sd_winAmount sd)%Q.

(** [ensures Q m]: when [m] returns, [Q] relates the table before, the
    value returned and the table afterwards. *)
Definition ensures {A} (Q : Table.t -> A -> Table.t -> Prop) (m : Table.M A)
  : Prop :=
  forall s a s', m s = (Ok a, s') -> Q s a s'.

(** What [_awardPot] does to the stacks: the winner is credited the pot
    less the rake; the pot itself stays. *)
Definition award_law (s s' : Table.t) (w : WinnerInfo) : Prop :=
  Table.pot s' = Table.pot s
  /\ Table.rake s' = Table.rake s
  /\ Table.rakeMax s' = Table.rakeMax s
  /\ win_rake w = Table.rake_of s
  /\ win_amount w = (Table.pot s - win_rake w)%Q
  /\ (sum_chips (Table.players s')
      == sum_chips (Table.players s) + win_amount w)%Q.

(** The three ways [_advanceGame] can end. *)
Definition game_outcome (s : Table.t) (snap : Snapshot) (s' : Table.t) : Prop :=
  match snap_winner snap, snap_showdown snap with
  | Some w, _ => award_law s s' w
  | None, Some sd => showdown_law s s' sd
  | None, None => frame s s'
  end.

(** The second hand of a default heads-up table.  In the first hand alice
    raised 30, bob raised 365, alice went all-in with 360 and bob folded,
    which left him 15 chips; now bob has posted the small blind of 10,
    holds 5 chips and is on turn; alice has posted the big blind of 20. *)
Definition short_stack : Table.t :=
  run demo_hash
    [OpAddPlayer "alice" "wallet-a" 400 None "1";
     OpAddPlayer "bob" "wallet-b" 400 None "2";
     OpStartHand "00" (fun _ => 0);
     OpRaise "alice-1" 30; OpRaise "bob-2" 365; OpRaise "alice-1" 360;
     OpFold "bob-2";
     OpStartHand "01" (fun _ => 0)]
    (Table.new "t" default_config).



(** ** Binary64

    The embedding computes chip amounts with exact rationals where the
    source computes with binary64 [Number]s.  [round64] is the rounding of
    the source, so that the places where the two differ can be named. *)

(** [floor(log2(q))] for a positive [q]. *)
Definition Qlog2 (q : Q) : Z :=
  let e := Z.log2 (Qnum q) - Z.log2 (Z.pos (Qden q)) in
  if Qle_bool (2 ^ e) q then e else e - 1.

(** The integer nearest to [x], the even one of two that are equally
    near. *)
Definition round_half_even (x : Q) : Z :=
  let f := Qfloor x in
  match (x - inject_Z f ?= 1 # 2)%Q with
  | Lt => f
  | Gt => f + 1
  | Eq => if Z.even f then f else f + 1
  end.

(** The binary64 nearest to [q], ties to even: 53 significant bits, the
    last of them worth at least [2^-1074].  A result of magnitude [2^1024]
    or more, which is [Infinity] in the source, is not modelled. *)
Definition round64 (q : Q) : Q :=
  if Qeq_bool q 0 then 0%Q
  else
    let u := Z.max (Qlog2 (Qabs q) - 52) (-1074) in
    let m := round_half_even (Qabs q / 2 ^ u) in
    if Qle_bool 0 q then (inject_Z m * 2 ^ u)%Q else (- (inject_Z m * 2 ^ u))%Q.

(** A whole number of chips of magnitude at most [2^49].  Sums and
    differences of up to eight such amounts are integers of magnitude at
    most [2^52], which binary64 holds exactly: on them [+], [-],
    [Math.min], [Math.max] and the comparisons of the source are those of
    the embedding. *)
Definition whole (q : Q) : bool :=
  Qeq_bool q (inject_Z (Qfloor q)) && Qle_bool (Qabs q) (2 ^ 49).

(** Every stack is whole. *)
Definition whole_stacks (m : PlayerMap) : bool :=
  forallb (fun kp => whole (Player.chips (snd kp))) m.

(** Every bet of a player is whole. *)
Definition whole_bets (m : PlayerMap) : bool :=
  forallb (fun kp => whole (Player.currentBet (snd kp))
                     && whole (Player.totalBetThisHand (snd kp))) m.

(** The amounts that the betting of a hand computes with are whole. *)
Definition whole_table (s : Table.t) : bool :=
  whole_stacks (Table.players s) && whole_bets (Table.players s)
  && whole (Table.pot s) && whole (Table.currentBet s).

(** The amount of a raise is whole. *)
Definition whole_action (a : Action) : bool :=
  match a with
  | Raise amount => whole amount
  | _ => true
  end.

(** [Math.min(this.pot * this.rake, this.rakeMax)] in binary64, for the
    [Number]s that the settings [rake] and [rakeMax] denote and a pot
    that is a binary64. *)
Definition rake64 (s : Table.t) : Q :=
  Qmin (round64 (Table.pot s * round64 (Table.rake s)))
       (round64 (Table.rakeMax s)).

(** The rake that the source computes is the exact rake, and whole. *)
Definition exact_rake (s : Table.t) : bool :=
  Qeq_bool (rake64 s) (Table.rake_of s) && whole (Table.rake_of s).

(** [player.chips -= amount] and [this.pot += amount] of [raise] in
    binary64: the stack and the pot afterwards. *)
Definition raise64 (amount chips pot : Q) : Q * Q :=
  (round64 (chips - amount), round64 (pot + amount)).

(** The first hand of a default heads-up table on the river, 50 chips
    from each player in the pot and alice on turn: she called, bob
    checked, she raised 30 on the flop, bob called and she checked the
    turn.  The deck was shuffled so that the board is the straight flush
    2-3-4-5-6 of spades, which neither hand improves. *)
Definition split_pot_table : Table.t :=
  run demo_hash
    [OpAddPlayer "alice" "wallet-a" 400 None "1";
     OpAddPlayer "bob" "wallet-b" 400 None "2";
     OpStartHand "00" (fun _ => 48);
     OpCall "alice-1"; OpCheck "bob-2";
     OpRaise "alice-1" 30; OpCall "bob-2";
     OpCheck "alice-1"]
    (Table.new "t" default_config).

(** The first hand of [heads_up] after alice has raised 31: the pot is
    61 and bob is on turn. *)
Definition raised_table : Table.t := run demo_hash [OpRaise "alice-1" 31] heads_up.

(** ** Notions used in the further properties *)

(** The binomial coefficient, by Pascal's rule. *)
Fixpoint choose (n k : nat) : nat :=
  match n, k with
  | _, O => 1
  | O, S _ => 0
  | S n', S k' => choose n' k' + choose n' k
  end.

(** [a] does not compare higher than [b]. *)
Definition no_stronger (a b : HandResult) : Prop :=
  exists z, compareHands a b = Some z /\ z <= 0.

(** The two results have the same category and kickers. *)
Definition same_strength (a b : HandResult) : Prop :=
  ranking a = ranking b /\ kickers a = kickers b.

(** The body of the loop of [evaluateHand]. *)
Definition keep_best (bestHand : option HandResult) (combo : list Card)
  : option HandResult :=
  let r := evaluate5Cards combo in
  match bestHand with
  | None => Some (mkHand (ranking r) (kickers r) (Some combo))
  | Some b =>
      if js_gt0 (compareHands r b)
      then Some (mkHand (ranking r) (kickers r) (Some combo))
      else bestHand
  end.

(** What the loop of [evaluateHand] holds after the combinations [seen]:
    the result of one of them, which none of them beats. *)
Definition best_so_far (seen : list (list Card)) (r : HandResult) : Prop :=
  well_formed r
  /\ (exists c, hand_cards r = Some c /\ In c seen
                /\ same_strength r (evaluate5Cards c))
  /\ forall c, In c seen -> no_stronger (evaluate5Cards c) r.

(** Ten to ace of hearts. *)
Definition royal_flush_hand : list Card :=
  [newCard "10" "♥"; newCard "J" "♥"; newCard "Q" "♥"; newCard "K" "♥";
   newCard "A" "♥"]%string.

(** Seat [n] is free and no seat before it is. *)
Definition lowest_free (ss : list (option string)) (n : nat) : Prop :=
  ss !! n = Some None /\ forall j, (j < n)%nat -> ss !! j <> Some None.

(** What the dealing and betting of a hand leave alone between two
    changes of phase: the phase, the seats and the size of the table. *)
Definition steady (s s' : Table.t) : Prop :=
  Table.phase s' = Table.phase s
  /\ Table.seats s' = Table.seats s
  /\ Table.maxPlayers s' = Table.maxPlayers s.

(** The exceptions of a call that returns control. *)
Definition halts (e : Error) : Prop := e <> Diverges.

(** [halting I m J]: started in a state that satisfies [I], [m] does not
    loop for ever; when it returns [a], the state satisfies [J a]. *)
Definition halting {A} (I : Table.t -> Prop) (m : Table.M A)
    (J : A -> Table.t -> Prop) : Prop :=
  forall s, I s ->
    match m s with
    | (Ok a, s') => J a s'
    | (Throw e, _) => halts e
    end.

(** An assertion that only reads what [steady] steps leave alone. *)
Class Stable (I : Table.t -> Prop) : Prop :=
  stable : forall s s', steady s s' -> I s -> I s'.

(** The seats array has its length, and somebody is seated. *)
Definition occupied (s : Table.t) : Prop :=
  length (Table.seats s) = Table.maxPlayers s
  /\ exists (i : nat) (k : string), Table.seats s !! i = Some (Some k).

(** The number of [_advancePhase] calls from a phase to the showdown. *)
Definition calls_left (ph : Phase) : nat :=
  match ph with
  | PREFLOP => 4 | FLOP => 3 | TURN => 2 | RIVER => 1
  | WAITING | SHOWDOWN => 0
  end.

(** The phases in the order of play. *)
Definition phase_rank (ph : Phase) : nat :=
  match ph with
  | WAITING => 0 | PREFLOP => 1 | FLOP => 2 | TURN => 3 | RIVER => 4
  | SHOWDOWN => 5
  end.

(** A hand is being played and [f] calls of [_advancePhase] suffice. *)
Definition in_hand (f : nat) (s : Table.t) : Prop :=
  occupied s /\ (1 <= calls_left (Table.phase s) <= f)%nat.

(** No condition on the state. *)
Definition any_state (s : Table.t) : Prop := True.

(** Somebody is seated and the phase is [ph]. *)
Definition at_phase (ph : Phase) (s : Table.t) : Prop :=
  occupied s /\ Table.phase s = ph.

(** The seating of a table: its seats, its size and the ids of its
    players. *)
Definition same_seating (s s' : Table.t) : Prop :=
  Table.seats s' = Table.seats s
  /\ Table.maxPlayers s' = Table.maxPlayers s
  /\ map fst (Table.players s') = map fst (Table.players s).

(** The seats array has one entry per seat, the ids of the players are
    distinct and every player holds a seat. *)
Definition well_seated (s : Table.t) : Prop :=
  length (Table.seats s) = Table.maxPlayers s
  /\ NoDup (map fst (Table.players s))
  /\ forall k, In k (map fst (Table.players s)) -> In (Some k) (Table.seats s).

(** What holds of every reachable table. *)
Definition ready (s : Table.t) : Prop := seat_inv s /\ well_seated s.

(** The settings that the constructor takes from [config]. *)
Definition settings (s : Table.t) :=
  (Table.id s, Table.name s, Table.maxPlayers s, Table.smallBlind s,
   Table.bigBlind s, Table.minBuyIn s, Table.maxBuyIn s, Table.rake s,
   Table.rakeMax s, Table.actionTimeout s).

(** [d'] is [d] after some [deal()] and [revealSalt()] calls. *)
Definition dealt_from (d d' : option SecureDeck) : Prop :=
  match d, d' with
  | Some a, Some b =>
      salt b = salt a /\ commitment b = commitment a
      /\ exists dealt, cards a = cards b ++ dealt
  | None, None => True
  | _, _ => False
  end.

(** [completedHands] holds at most 20 hands. *)
Definition bounded_history (s : Table.t) : Prop :=
  (length (Table.completedHands s) <= 20)%nat.

(** What the play of a hand keeps: the settings, the number of the hand,
    the published commitment and the deck it belongs to, and the bound on
    the history. *)
Definition kept (s s' : Table.t) : Prop :=
  settings s' = settings s
  /\ Table.handNumber s' = Table.handNumber s
  /\ Table.deckCommitment s' = Table.deckCommitment s
  /\ dealt_from (Table.deck s) (Table.deck s')
  /\ (bounded_history s -> bounded_history s').

(** The published commitment is the commitment of the deck in use. *)
Definition committed (s : Table.t) : Prop :=
  match Table.deck s with
  | Some d => Table.deckCommitment s = commitment d
  | None => Table.deckCommitment s = None
  end.

(** What every call keeps: the settings and the bound on the history;
    the hand number does not go down. *)
Definition lasting (s s' : Table.t) : Prop :=
  settings s' = settings s
  /\ Table.handNumber s <= Table.handNumber s'
  /\ (bounded_history s -> bounded_history s').

Section Genuine.
Variable sha256 : string -> string.

(** The deck in use, if any, descends from a deck that the constructor of
    [SecureDeck] built, and its commitment is the published one. *)
Definition genuine (s : Table.t) : Prop :=
  committed s
  /\ (Table.deck s = None
      \/ exists saltHex draws,
           dealt_from (Some (newSecureDeck sha256 saltHex draws)) (Table.deck s)).
End Genuine.

(** What a showdown reveals: the salt and the commitment of the deck [d]
    of the table and the cards of [d] not yet dealt; the state it returns
    shows the published commitment. *)
Definition reveals (s : Table.t) (snap : Snapshot) (s' : Table.t) : Prop :=
  forall sd, snap_showdown snap = Some sd ->
    gs_deckCommitment (snap_state snap) = Table.deckCommitment s
    /\ exists d rest dealt,
         Table.deck s = Some d
         /\ cards d = rest ++ dealt
         /\ sd_deckReveal sd
            = {| reveal_salt := salt d;
                 reveal_commitment := commitment d;
                 remainingCards := map Card_toString rest |}.


(** The first hand of [heads_up] on the river: alice has called, bob has
    checked, and alice has checked the flop and the turn; she is on turn. *)
Definition river_table : Table.t :=
  run demo_hash
    [OpCall "alice-1"; OpCheck "bob-2"; OpCheck "alice-1"; OpCheck "alice-1"]
    heads_up.

(** [a] comes before [b] in the order of [_showdown]: the hand of [b] does
    not compare higher than the hand of [a]. *)
Definition stronger_first (a b : Table.ShowdownResult) : Prop :=
  no_stronger (Table.res_hand b) (Table.res_hand a).

(** The entry of [results] that [_showdown] builds for a player in the
    hand. *)
Definition result_of (community : list Card) (kp : string * Player.t)
    (r : Table.ShowdownResult) : Prop :=
  Table.res_key r = fst kp
  /\ Table.res_player r = snd kp
  /\ evaluateHand (Player.holeCards (snd kp) ++ community)
     = Ok (Some (Table.res_hand r))
  /\ Table.res_handName r = getHandName (ranking (Table.res_hand r)).

(** No player in the hand who can still act has bet less than the
    current bet. *)
Definition nobody_behind (s : Table.t) : bool :=
  forallb (fun kp => Player.allIn (snd kp)
                     || negb (Qltb (Player.currentBet (snd kp))
                                   (Table.currentBet s)))
          (Table.getPlayersInHand s).

(** The start of a betting round after the flop: no bet to match, the
    big blind as minimum raise, and for every player no bet and no action
    yet. *)
Definition street_opened (s : Table.t) : Prop :=
  Table.currentBet s = 0%Q
  /\ (forall kp, In kp (Table.players s) ->
        Player.currentBet (snd kp) = 0%Q
        /\ Player.lastAction (snd kp) = None)
  /\ Table.minRaise s = Table.bigBlind s.

(** What dealing the board and passing the turn leave alone. *)
Definition betting_kept (s s' : Table.t) : Prop :=
  Table.phase s' = Table.phase s
  /\ Table.players s' = Table.players s
  /\ Table.currentBet s' = Table.currentBet s
  /\ Table.minRaise s' = Table.minRaise s
  /\ Table.bigBlind s' = Table.bigBlind s.

(** What one round of [_advancePhase] and the rounds after it achieve,
    started where the bets have been reset: the hand does not go back,
    and where it stops short of the showdown the bets are as reset. *)
Definition opens (s : Table.t) (snap : Snapshot) (s' : Table.t) : Prop :=
  street_opened s ->
  (1 <= calls_left (Table.phase s))%nat ->
  (calls_left (Table.phase s') <= calls_left (Table.phase s))%nat
  /\ Table.phase s' <> WAITING
  /\ (Table.phase s' <> SHOWDOWN -> street_opened s').

(** What an action achieves: the hand stays in its phase or moves on
    towards the showdown; a betting round that it opens starts with the
    bets reset. *)
Definition moves_forward (s : Table.t) (snap : Snapshot) (s' : Table.t) : Prop :=
  (1 <= calls_left (Table.phase s))%nat ->
  Table.phase s' = Table.phase s
  \/ ((calls_left (Table.phase s') < calls_left (Table.phase s))%nat
      /\ Table.phase s' <> WAITING
      /\ (Table.phase s' <> SHOWDOWN -> street_opened s')).

(** The first hand of [heads_up] before the flop, after alice's call:
    bob, the big blind, is on turn. *)
Definition called_table : Table.t := run demo_hash [OpCall "alice-1"] heads_up.

(** The same hand on the flop: alice is on turn. *)
Definition flop_table : Table.t :=
  run demo_hash [OpCall "alice-1"; OpCheck "bob-2"] heads_up.

(** What moving the button, dealing the hole cards and passing the turn
    leave alone: the stacks, the pot, the phase, the bet to match and the
    blinds. *)
Definition stakes_kept (s s' : Table.t) : Prop :=
  chip_ledger (Table.players s') = chip_ledger (Table.players s)
  /\ Table.pot s' = Table.pot s
  /\ Table.phase s' = Table.phase s
  /\ Table.currentBet s' = Table.currentBet s
  /\ Table.smallBlind s' = Table.smallBlind s
  /\ Table.bigBlind s' = Table.bigBlind s.

(** The table after the showdown of the first hand of [heads_up]. *)
Definition shown_table : Table.t :=
  run demo_hash [OpCheck "alice-1"] river_table.

(** No condition on the step. *)
Definition any_step (s s' : Table.t) : Prop := True.

(** The state returned names no uncontested winner. *)
Definition no_winner (s : Table.t) (snap : Snapshot) (s' : Table.t) : Prop :=
  snap_winner snap = None.

(** The hole cards of all players. *)
Definition hole_cards (m : PlayerMap) : list Card :=
  concat (map (fun kp => Player.holeCards (snd kp)) m).

(** The cards left in the deck of the table. *)
Definition deck_cards (s : Table.t) : list Card :=
  match Table.deck s with
  | Some d => cards d
  | None => []
  end.

(** The cards of a table: the hole cards, the board and the deck. *)
Definition cards_in_play (s : Table.t) : list Card :=
  hole_cards (Table.players s) ++ Table.communityCards s ++ deck_cards s.

(** [holding h s s']: every card of [s'] is a card of [s] or one of the
    cards [h] that have been dealt and not placed yet, card by card. *)
Definition holding (h : list Card) (s s' : Table.t) : Prop :=
  cards_in_play s' ⊆+ h ++ cards_in_play s.

(** The test of [_setNextPlayer] on a seat: it holds the id of a player
    who has not folded and is not all-in. *)
Definition can_act (s : Table.t) (seat : Z) : bool :=
  match Table.seat_at (Table.seats s) seat with
  | Some (Some k) =>
      negb (bool_decide (k = ""%string))
      && match pm_get k (Table.players s) with
         | Some p => negb (Player.folded p) && negb (Player.allIn p)
         | None => false
         end
  | _ => false
  end.

(** The seat that the loop of [_setNextPlayer] looks at after [j] steps
    from [seat]. *)
Fixpoint seat_after (m : nat) (j : nat) (seat : Z) : Z :=
  match j with
  | O => seat
  | S j' => seat_after m j' (Table.js_mod (seat + 1) m)
  end.

(** The player holds no hole cards or two. *)
Definition none_or_two (p : Player.t) : Prop :=
  length (Player.holeCards p) = 0%nat \/ length (Player.holeCards p) = 2%nat.

(** Every player of the table does. *)
Definition two_cards_each (s : Table.t) : Prop :=
  forall kp, In kp (Table.players s) -> none_or_two (snd kp).

(** A step that keeps it so. *)
Definition keeps_two_cards (s s' : Table.t) : Prop :=
  two_cards_each s -> two_cards_each s'.

(** [r] is the first seat after [x], going round the table, that is not
    [null]. *)
Definition next_occupied (s : Table.t) (x r : Z) : Prop :=
  let m := Z.of_nat (Table.maxPlayers s) in
  exists j, 0 <= j <= m
    /\ r = (x + 1 + j) mod m
    /\ Table.seat_is_null (Table.seats s) r = false
    /\ forall i, 0 <= i < j ->
         Table.seat_is_null (Table.seats s) ((x + 1 + i) mod m) = true.

(** The hole cards of the players, player by player. *)
Definition hands (m : PlayerMap) : list (list Card) :=
  map (fun kp => Player.holeCards (snd kp)) m.

(** What moving the button and posting the blinds leave alone. *)
Definition hands_kept (s s' : Table.t) : Prop :=
  hands (Table.players s') = hands (Table.players s).

(** The players without chips hold no cards. *)
Definition broke_hold_nothing (m : PlayerMap) : Prop :=
  forall kp, In kp m -> Qgtb (Player.chips (snd kp)) 0 = false ->
    Player.holeCards (snd kp) = [].

(** The table of [short_stack] after bob has folded its second hand: he
    is left with 5 chips and will be the big blind of the next hand. *)
Definition last_chips_table : Table.t :=
  run demo_hash [OpFold "bob-2"] short_stack.

(** A step within a betting round that does not lower the minimum
    raise. *)
Definition raise_floor (s s' : Table.t) : Prop :=
  Table.phase s' = Table.phase s
  /\ (Table.minRaise s <= Table.minRaise s')%Q.

(** What an action that stays in the betting round does to the minimum
    raise. *)
Definition keeps_raise_floor (s : Table.t) (snap : Snapshot) (s' : Table.t)
  : Prop :=
  (1 <= calls_left (Table.phase s))%nat ->
  Table.phase s' = Table.phase s ->
  (Table.minRaise s <= Table.minRaise s')%Q.

(** ** Properties of the array helpers *)

Lemma sort_insert_length {A} (cmp : A -> A -> Z) x l :
  length (sort_insert cmp x l) = S (length l).
Proof.
  induction l as [|y l IH]; simpl; [reflexivity|].
  destruct (cmp x y <=? 0); simpl; congruence.
Qed.

Lemma js_sort_length {A} (cmp : A -> A -> Z) l :
  length (js_sort cmp l) = length l.
Proof.
  induction l as [|x l IH]; simpl; [reflexivity|].
  unfold js_sort in *. simpl. rewrite sort_insert_length. congruence.
Qed.

Lemma sort_insert_perm {A} (cmp : A -> A -> Z) x l :
  sort_insert cmp x l ≡ₚ x :: l.
Proof.
  induction l as [|y l IH]; simpl; [reflexivity|].
  destruct (cmp x y <=? 0); [reflexivity|].
  rewrite IH. apply perm_swap.
Qed.

Lemma js_sort_perm {A} (cmp : A -> A -> Z) l : js_sort cmp l ≡ₚ l.
Proof.
  induction l as [|x l IH]; [reflexivity|].
  unfold js_sort in *. simpl. rewrite sort_insert_perm. by rewrite IH.
Qed.

(** Sorting by a key and then reading the keys is sorting the keys. *)
Lemma js_sort_map {A} (f : A -> Z) (g : Z -> Z -> Z) l :
  map f (js_sort (fun a b => g (f a) (f b)) l) = js_sort g (map f l).
Proof.
  induction l as [|x l IH]; [reflexivity|].
  unfold js_sort in *. simpl. rewrite <- IH.
  generalize (foldr (sort_insert (fun a b => g (f a) (f b))) [] l).
  intros l'. induction l' as [|y l' IH']; [reflexivity|].
  simpl. destruct (g (f x) (f y) <=? 0); simpl; congruence.
Qed.

Lemma sort_insert_descending x l :
  descending l -> descending (sort_insert (fun a b => b - a) x l).
Proof.
  induction l as [|y l IH]; simpl; [auto|].
  intros Hd. destruct (y - x <=? 0) eqn:E.
  - apply Z.leb_le in E. simpl. split; [lia|exact Hd].
  - apply Z.leb_gt in E. destruct l as [|z l].
    + simpl. split; [lia|auto].
    + destruct Hd as [Hzy Hd]. specialize (IH Hd). simpl in *.
      destruct (z - x <=? 0) eqn:E2.
      * split; [lia|exact IH].
      * split; [lia|exact IH].
Qed.

Lemma js_sort_descending l : descending (js_sort (fun a b => b - a) l).
Proof.
  induction l as [|x l IH]; [exact I|].
  unfold js_sort in *. simpl. by apply sort_insert_descending.
Qed.

Lemma descending_StronglySorted l :
  descending l -> StronglySorted (fun a b => b <= a) l.
Proof.
  induction l as [|a l IH]; [constructor|].
  intros Hd. assert (Hl : descending l) by (destruct l; simpl in *; tauto).
  specialize (IH Hl). constructor; [exact IH|].
  destruct l as [|b l]; [constructor|].
  destruct Hd as [Hba _]. inversion IH; subst. constructor; [exact Hba|].
  eapply Forall_impl; [eassumption|]. simpl. intros; lia.
Qed.

(** A descending list is determined by its elements. *)
Lemma descending_unique l1 l2 :
  descending l1 -> descending l2 -> l1 ≡ₚ l2 -> l1 = l2.
Proof.
  intros H1 H2 Hp.
  assert (AntiSymm (=) (fun a b : Z => b <= a)).
  { intros a b ? ?. lia. }
  eapply (StronglySorted_unique (fun a b : Z => b <= a));
    eauto using descending_StronglySorted.
Qed.

(** ** Properties of the evaluator *)

Lemma sumZ_perm l1 l2 : l1 ≡ₚ l2 -> sumZ l1 = sumZ l2.
Proof. induction 1; simpl in *; lia. Qed.

Lemma sumZ_nonneg l : Forall (fun x => 1 <= x) l -> 0 <= sumZ l.
Proof. induction 1; simpl; lia. Qed.

Lemma count_rank_sum r rc :
  sumZ (map snd (count_rank r rc)) = sumZ (map snd rc) + 1.
Proof.
  induction rc as [|[k c] rc IH]; simpl; [reflexivity|].
  destruct (r =? k); simpl; [lia|].
  destruct (r <? k); simpl; lia.
Qed.

Lemma count_rank_pos r rc :
  Forall (fun x => 1 <= x) (map snd rc) ->
  Forall (fun x => 1 <= x) (map snd (count_rank r rc)).
Proof.
  induction rc as [|[k c] rc IH]; simpl; intros H.
  - constructor; [lia|constructor].
  - inversion H; subst. destruct (r =? k); simpl.
    + constructor; [lia|assumption].
    + destruct (r <? k); simpl.
      * constructor; [lia|]. constructor; assumption.
      * constructor; [assumption|]. by apply IH.
Qed.

Lemma rankCounts_spec ranks :
  sumZ (map snd (rankCounts ranks)) = Z.of_nat (length ranks)
  /\ Forall (fun x => 1 <= x) (map snd (rankCounts ranks)).
Proof.
  unfold rankCounts.
  assert (G : forall rc,
             Forall (fun x => 1 <= x) (map snd rc) ->
             sumZ (map snd (fold_left (fun rc r => count_rank r rc) ranks rc))
             = sumZ (map snd rc) + Z.of_nat (length ranks)
             /\ Forall (fun x => 1 <= x)
                  (map snd (fold_left (fun rc r => count_rank r rc) ranks rc))).
  { induction ranks as [|r ranks IH]; intros rc Hrc; simpl.
    - split; [lia|assumption].
    - destruct (IH (count_rank r rc) (count_rank_pos r rc Hrc)) as [Hs Hf].
      split; [|exact Hf]. rewrite Hs, count_rank_sum. lia. }
  destruct (G [] ltac:(constructor)) as [Hs Hf]. split; [|exact Hf].
  rewrite Hs. simpl. lia.
Qed.

Lemma getKickers_length rc pattern :
  length (getKickers rc pattern) = length rc.
Proof. unfold getKickers. by rewrite length_map, js_sort_length. Qed.

(** The multiplicities of five cards, in descending order, decide the
    number of distinct ranks. *)
Lemma counts_shape (c : list Z) :
  descending c -> Forall (fun x => 1 <= x) c -> sumZ c = 5 ->
  (c !! 0%nat = Some 4 -> length c = 2%nat)
  /\ (c !! 0%nat = Some 3 ->
      (c !! 1%nat = Some 2 -> length c = 2%nat)
      /\ (c !! 1%nat <> Some 2 -> length c = 3%nat))
  /\ (c !! 0%nat = Some 2 ->
      (c !! 1%nat = Some 2 -> length c = 3%nat)
      /\ (c !! 1%nat <> Some 2 -> length c = 4%nat)).
Proof.
  intros Hd Hf Hs.
  destruct c as [|x1 [|x2 [|x3 [|x4 [|x5 [|x6 c]]]]]];
    repeat match goal with
           | H : Forall _ (_ :: _) |- _ => inversion H; clear H; subst
           end;
    simpl in *;
    try (pose proof (sumZ_nonneg c ltac:(assumption)));
    repeat split; intros; simplify_eq; try lia;
    try (destruct (decide (x2 = 2)); [subst; congruence | lia]).
Qed.

Lemma classify_well_formed isFlush ranks :
  length ranks = 5%nat -> well_formed (classify isFlush ranks).
Proof.
  intros Hlen.
  destruct (rankCounts_spec ranks) as [Hsum Hpos].
  pose proof (js_sort_descending (map snd (rankCounts ranks))) as Hdesc.
  pose proof (js_sort_perm (fun a b => b - a) (map snd (rankCounts ranks)))
    as Hperm.
  pose proof (js_sort_length (fun a b => b - a) (map snd (rankCounts ranks)))
    as Hl.
  rewrite length_map in Hl.
  destruct (counts_shape _ Hdesc) as (H4 & H3 & H2).
  { by rewrite Hperm. }
  { rewrite (sumZ_perm _ _ Hperm), Hsum, Hlen. reflexivity. }
  unfold classify, well_formed.
  repeat match goal with
         | |- context [if ?b then _ else _] => destruct b eqn:?
         end;
    simpl; rewrite ?getKickers_length, ?length_take, ?Hlen; try reflexivity;
    repeat match goal with
           | H : _ && _ = true |- _ => apply andb_prop in H; destruct H
           | H : bool_decide _ = true |- _ => apply bool_decide_eq_true in H
           | H : bool_decide _ = false |- _ => apply bool_decide_eq_false in H
           end.
  all: rewrite <- ?Hl.
  all: repeat match goal with
              | H : bool_decide (_ !! _ = _) && bool_decide _ = false |- _ =>
                  apply andb_false_iff in H; destruct H as [H|H];
                  apply bool_decide_eq_false in H
              | H : true && bool_decide _ = false |- _ =>
                  simpl in H; apply bool_decide_eq_false in H
              end.
  all: try congruence.
  all: first [ by apply H4 | by apply H3 | by apply H2 ].
Qed.

Lemma evaluate5Cards_well_formed cs :
  length cs = 5%nat -> well_formed (evaluate5Cards cs).
Proof.
  intros H. unfold evaluate5Cards. apply classify_well_formed.
  by rewrite length_map, js_sort_length.
Qed.

Lemma getCombinations_length {A} (size : nat) (arr : list A) :
  Forall (fun combo => length combo = size) (getCombinations size arr).
Proof.
  revert arr. induction size as [|k IH]; intros arr; [constructor|].
  destruct k as [|k].
  - simpl. induction arr; simpl; constructor; auto.
  - induction arr as [|el rest IHa]; [constructor|].
    change (Forall (fun combo => length combo = S (S k))
              (map (cons el) (getCombinations (S k) rest)
               ++ getCombinations (S (S k)) rest)).
    apply Forall_app. split; [|exact IHa].
    apply Forall_map. eapply Forall_impl; [apply IH|].
    simpl. intros combo Hc. by rewrite Hc.
Qed.

Lemma getCombinations_nonempty {A} (size : nat) (arr : list A) :
  (1 <= size <= length arr)%nat -> getCombinations size arr <> [].
Proof.
  revert arr. induction size as [|k IH]; intros arr [H1 H2]; [lia|].
  destruct k as [|k].
  - destruct arr; simpl in *; [lia|discriminate].
  - destruct arr as [|el rest]; simpl in H2; [lia|].
    change (map (cons el) (getCombinations (S k) rest)
            ++ getCombinations (S (S k)) rest <> []).
    specialize (IH rest ltac:(lia)).
    destruct (getCombinations (S k) rest); [congruence|discriminate].
Qed.

(** The loop of [evaluateHand] ends on a result of [evaluate5Cards]. *)
Lemma best_of_well_formed (combos : list (list Card)) (best : option HandResult) :
  Forall (fun combo => length combo = 5%nat) combos ->
  match best with Some b => well_formed b | None => True end ->
  match
    fold_left
      (fun bestHand combo =>
         let r := evaluate5Cards combo in
         match bestHand with
         | None => Some (mkHand (ranking r) (kickers r) (Some combo))
         | Some b =>
             if js_gt0 (compareHands r b)
             then Some (mkHand (ranking r) (kickers r) (Some combo))
             else bestHand
         end) combos best
  with
  | Some r => well_formed r
  | None => best = None /\ combos = []
  end.
Proof.
  intros Hc. revert best. induction Hc as [|combo combos Hlen _ IH];
    intros best Hb; simpl.
  - destruct best; auto.
  - pose proof (evaluate5Cards_well_formed combo Hlen) as Hwf.
    match goal with
    | |- match fold_left _ _ ?b with _ => _ end =>
        specialize (IH b); destruct (fold_left _ combos b)
    end.
    + apply IH. destruct best as [b|]; [|exact Hwf].
      destruct (js_gt0 _); [exact Hwf|exact Hb].
    + exfalso. destruct IH as [IH _].
      * destruct best as [b|]; [|exact Hwf].
        destruct (js_gt0 _); [exact Hwf|exact Hb].
      * destruct best as [b|]; [|discriminate].
        destruct (js_gt0 _); discriminate.
Qed.

Lemma evaluateHand_well_formed cs :
  (5 <= length cs)%nat ->
  exists r, evaluateHand cs = Ok (Some r) /\ well_formed r.
Proof.
  intros H. unfold evaluateHand.
  destruct (length cs <? 5)%nat eqn:E; [apply Nat.ltb_lt in E; lia|].
  pose proof (best_of_well_formed (getCombinations 5 cs) None
                (getCombinations_length 5 cs) I) as Hb.
  destruct (fold_left _ _ None) as [r|]; [eauto|].
  destruct Hb as [_ Hb]. exfalso.
  by apply (getCombinations_nonempty 5 cs ltac:(lia)).
Qed.

Lemma compareKickers_total (a b : list Z) :
  length a = length b ->
  exists z, compareKickers a b = Some z /\ compareKickers b a = Some (- z)
            /\ (z = 0 <-> a = b).
Proof.
  revert b. induction a as [|x a IH]; intros [|y b] Hl; simpl in Hl;
    try discriminate.
  - exists 0. simpl. intuition.
  - simpl. destruct (IH b ltac:(lia)) as (z & Hab & Hba & Hz).
    destruct (Z.eqb_spec x y) as [->|Hne].
    + rewrite Z.eqb_refl. exists z. repeat split; auto.
      * intros ->. f_equal. by apply Hz.
      * intros [= ->]. by apply Hz.
    + destruct (Z.eqb_spec y x) as [->|_]; [congruence|].
      exists (x - y). repeat split; [f_equal; lia | lia | congruence].
Qed.

Lemma compareKickers_trans (a b c : list Z) x y w :
  length a = length b -> length b = length c ->
  compareKickers a b = Some x -> compareKickers b c = Some y ->
  compareKickers a c = Some w ->
  (0 <= x -> 0 <= y -> 0 <= w)
  /\ (0 < x -> 0 <= y -> 0 < w)
  /\ (0 <= x -> 0 < y -> 0 < w).
Proof.
  revert b c. induction a as [|p a IH]; intros [|q b] [|r c]; simpl;
    intros Hl1 Hl2 Hab Hbc Hac;
    try discriminate; try (simplify_eq; lia).
  destruct (Z.eqb_spec p q), (Z.eqb_spec q r), (Z.eqb_spec p r);
    simplify_eq; try lia; eauto.
Qed.

Lemma compareHands_total (a b : HandResult) :
  well_formed a -> well_formed b ->
  exists z, compareHands a b = Some z /\ compareHands b a = Some (- z)
            /\ (z = 0 <-> ranking a = ranking b /\ kickers a = kickers b).
Proof.
  unfold well_formed, compareHands. intros Ha Hb.
  destruct (Z.eqb_spec (ranking a) (ranking b)) as [E|E]; simpl.
  - rewrite E, Z.eqb_refl. simpl.
    destruct (compareKickers_total (kickers a) (kickers b)) as (z & ? & ? & Hz);
      [congruence|].
    exists z. split; [assumption|]. split; [assumption|]. tauto.
  - destruct (Z.eqb_spec (ranking b) (ranking a)); [congruence|]. simpl.
    exists (ranking a - ranking b).
    split; [reflexivity|]. split; [f_equal; lia|]. split; [lia|tauto].
Qed.

Lemma compareHands_trans (a b c : HandResult) x y w :
  well_formed a -> well_formed b -> well_formed c ->
  compareHands a b = Some x -> compareHands b c = Some y ->
  compareHands a c = Some w ->
  (0 <= x -> 0 <= y -> 0 <= w)
  /\ (0 < x -> 0 <= y -> 0 < w)
  /\ (0 <= x -> 0 < y -> 0 < w).
Proof.
  unfold compareHands, well_formed. intros Ha Hb Hc.
  destruct (Z.eqb_spec (ranking a) (ranking b)),
           (Z.eqb_spec (ranking b) (ranking c)),
           (Z.eqb_spec (ranking a) (ranking c)); simpl;
    intros Hab Hbc Hac; simplify_eq; try lia.
  apply (compareKickers_trans (kickers a) (kickers b) (kickers c));
    congruence.
Qed.

(** ** Properties of the deck *)

Lemma pop_spec {A} (l : list A) x r : pop l = Some (x, r) -> l = r ++ [x].
Proof.
  revert x r. induction l as [|y l IH]; intros x r; simpl; [discriminate|].
  destruct l as [|z l].
  - intros [= -> <-]. reflexivity.
  - destruct (pop (z :: l)) as [[y' r']|]; [|discriminate].
    intros [= -> <-]. simpl. f_equal. by apply IH.
Qed.

Lemma deal_many_spec n d dealt d' :
  deal_many n d = (dealt, d') ->
  cards d = cards d' ++ reverse dealt
  /\ salt d' = salt d /\ commitment d' = commitment d.
Proof.
  revert d dealt d'. induction n as [|n IH]; intros d dealt d'; simpl.
  - intros [= <- <-]. rewrite reverse_nil, app_nil_r. auto.
  - unfold deal. destruct (pop (cards d)) as [[c rest]|] eqn:E.
    + destruct (deal_many n _) as [cs d''] eqn:E2. intros [= <- <-].
      apply IH in E2. simpl in E2. destruct E2 as (Hc & Hs & Hm).
      apply pop_spec in E. rewrite E, Hc, reverse_cons, <- app_assoc. auto.
    + apply IH.
Qed.

Lemma swap_length i j l : length (swap i j l) = length l.
Proof.
  unfold swap. destruct (l !! i), (l !! j); try reflexivity.
  by rewrite !length_insert.
Qed.

Lemma shuffle_from_length draws k i l :
  length (shuffle_from draws k i l) = length l.
Proof.
  revert k l. induction i as [|i IH]; intros k l; simpl; [reflexivity|].
  by rewrite IH, swap_length.
Qed.

Lemma shuffle_length draws l : length (shuffle draws l) = length l.
Proof. apply shuffle_from_length. Qed.

(** C4.  On the results of [evaluateHand] for hands of five to seven
    cards, [compareHands] is a total order: every comparison is a number,
    swapping the arguments negates it, two results that each compare at
    least as high as the other are identical in category and kickers
    (antisymmetry), the comparison is transitive, and it is [0] exactly
    when category and kicker arrays are identical. *)
Theorem compareHands_total_order (A B C : list Card) :
  (5 <= length A <= 7)%nat ->
  (5 <= length B <= 7)%nat ->
  (5 <= length C <= 7)%nat ->
  exists ra rb rc,
    evaluateHand A = Ok (Some ra)
    /\ evaluateHand B = Ok (Some rb)
    /\ evaluateHand C = Ok (Some rc)
    /\ exists ab ba bc ac,
        compareHands ra rb = Some ab
        /\ compareHands rb ra = Some ba
        /\ compareHands rb rc = Some bc
        /\ compareHands ra rc = Some ac
        /\ ba = - ab
        /\ (0 <= ab -> 0 <= ba ->
            ranking ra = ranking rb /\ kickers ra = kickers rb)
        /\ (ab = 0 <-> ranking ra = ranking rb /\ kickers ra = kickers rb)
        /\ (0 <= ab -> 0 <= bc -> 0 <= ac)
        /\ (0 < ab -> 0 <= bc -> 0 < ac)
        /\ (0 <= ab -> 0 < bc -> 0 < ac).
Proof.
  intros HA HB HC.
  destruct (evaluateHand_well_formed A) as (ra & Ea & Wa); [lia|].
  destruct (evaluateHand_well_formed B) as (rb & Eb & Wb); [lia|].
  destruct (evaluateHand_well_formed C) as (rc & Ec & Wc); [lia|].
  exists ra, rb, rc. repeat (split; [assumption|]).
  destruct (compareHands_total ra rb Wa Wb) as (ab & Hab & Hba & Hz).
  destruct (compareHands_total rb rc Wb Wc) as (bc & Hbc & _).
  destruct (compareHands_total ra rc Wa Wc) as (ac & Hac & _).
  exists ab, (- ab), bc, ac.
  repeat (split; [assumption || reflexivity|]).
  split; [intros; apply Hz; lia|].
  split; [exact Hz|].
  exact (compareHands_trans ra rb rc ab bc ac Wa Wb Wc Hab Hbc Hac).
Qed.

Lemma compareHands_total_order_witness :
  exists ra rb rc,
    evaluateHand sample_hand_1 = Ok (Some ra)
    /\ evaluateHand sample_hand_2 = Ok (Some rb)
    /\ evaluateHand sample_hand_3 = Ok (Some rc)
    /\ exists ab ba bc ac,
        compareHands ra rb = Some ab
        /\ compareHands rb ra = Some ba
        /\ compareHands rb rc = Some bc
        /\ compareHands ra rc = Some ac
        /\ ba = - ab
        /\ (0 <= ab -> 0 <= ba ->
            ranking ra = ranking rb /\ kickers ra = kickers rb)
        /\ (ab = 0 <-> ranking ra = ranking rb /\ kickers ra = kickers rb)
        /\ (0 <= ab -> 0 <= bc -> 0 <= ac)
        /\ (0 < ab -> 0 <= bc -> 0 < ac)
        /\ (0 <= ab -> 0 < bc -> 0 < ac).
Proof.
  apply (compareHands_total_order sample_hand_1 sample_hand_2 sample_hand_3);
    simpl; lia.
Defined.

(** *** The wheel *)

Lemma ranks_sorted cs :
  map value (js_sort (fun a b => value b - value a) cs)
  = js_sort (fun a b => b - a) (map value cs).
Proof. exact (js_sort_map value (fun x y => y - x) cs). Qed.

Lemma all_same_spec (l : list string) :
  all_same l = true <-> forall x y, In x l -> In y l -> x = y.
Proof.
  unfold all_same. destruct l as [|s0 l]; [simpl; tauto|].
  rewrite forallb_forall. split.
  - intros H x y Hx Hy. apply H in Hx, Hy.
    apply bool_decide_eq_true in Hx, Hy. congruence.
  - intros H x Hx. apply bool_decide_eq_true. apply H; simpl; auto.
Qed.

Lemma all_same_perm (l1 l2 : list string) :
  l1 ≡ₚ l2 -> all_same l1 = all_same l2.
Proof.
  intros Hp.
  assert (G : forall a b, a ≡ₚ b -> all_same a = true -> all_same b = true).
  { intros a b Hab. rewrite !all_same_spec. intros H x y Hx Hy.
    apply H; apply list_elem_of_In; rewrite Hab; by apply list_elem_of_In. }
  destruct (all_same l1) eqn:E1, (all_same l2) eqn:E2; try reflexivity.
  - apply (G _ _ Hp) in E1. congruence.
  - symmetry in Hp. apply (G _ _ Hp) in E2. congruence.
Qed.

Lemma buildDeck_values : Forall (fun c => 0 <= value c <= 12) buildDeck.
Proof.
  apply Forall_forall. intros c Hc.
  assert (H : forallb (fun c => (0 <=? value c) && (value c <=? 12)) buildDeck
              = true) by reflexivity.
  rewrite forallb_forall in H. apply list_elem_of_In, H in Hc. lia.
Qed.

(** A boolean test for hands of deck cards. *)
Lemma deck_cards_check (cs : list Card) :
  forallb (fun c => existsb (fun d => bool_decide (d = c)) buildDeck) cs = true ->
  Forall deck_card cs.
Proof.
  rewrite forallb_forall. intros H. apply Forall_forall. intros c Hc.
  apply list_elem_of_In, H, existsb_exists in Hc. destruct Hc as (d & Hd & E).
  apply bool_decide_eq_true in E. subst. exact Hd.
Qed.

Lemma wheel_ranks cs :
  is_wheel cs -> js_sort (fun a b => b - a) (map value cs) = [12; 3; 2; 1; 0].
Proof.
  intros H. apply descending_unique.
  - apply js_sort_descending.
  - simpl. lia.
  - by rewrite js_sort_perm.
Qed.

Lemma checkWheelStraight_is_wheel cs :
  checkWheelStraight (js_sort (fun a b => b - a) (map value cs)) = true ->
  is_wheel cs.
Proof.
  unfold checkWheelStraight, is_wheel. intros H.
  apply bool_decide_eq_true in H. rewrite <- H. by rewrite !js_sort_perm.
Qed.

(** A straight of deck cards that is not the wheel starts at 6 or above. *)
Lemma straight_top (ranks : list Z) :
  length ranks = 5%nat -> Forall (fun v => 0 <= v <= 12) ranks ->
  checkStraight ranks = true ->
  exists a rest, ranks = a :: rest /\ 4 <= a.
Proof.
  intros Hl Hf Hs.
  destruct ranks as [|a [|b [|c [|d [|e [|]]]]]]; simpl in Hl; try lia.
  exists a, [b; c; d; e]. split; [reflexivity|].
  repeat match goal with
         | H : Forall _ (_ :: _) |- _ => inversion H; clear H; subst
         end.
  simpl in Hs.
  repeat match goal with
         | H : context [?x - ?y =? 1] |- _ =>
             destruct (Z.eqb_spec (x - y) 1); [|discriminate]
         end.
  lia.
Qed.

Lemma straight_ranks top cs :
  is_straight_to top cs ->
  js_sort (fun a b => b - a) (map value cs)
  = [top; top - 1; top - 2; top - 3; top - 4].
Proof.
  intros H. apply descending_unique.
  - apply js_sort_descending.
  - simpl. lia.
  - by rewrite js_sort_perm.
Qed.

(** The result of [evaluate5Cards] for five consecutive ranks. *)
Lemma evaluate5Cards_straight top cs :
  4 <= top <= 12 -> is_straight_to top cs ->
  evaluate5Cards cs
  = let ranks := [top; top - 1; top - 2; top - 3; top - 4] in
    if all_same (map suit cs)
    then mkHand (if top =? 12 then ROYAL_FLUSH else STRAIGHT_FLUSH) ranks None
    else mkHand STRAIGHT [top] None.
Proof.
  intros Ht Hs. unfold evaluate5Cards.
  rewrite ranks_sorted, (straight_ranks top cs Hs).
  rewrite (all_same_perm _ (map suit cs))
    by (apply Permutation_map, js_sort_perm).
  assert (Hc : top = 4 \/ top = 5 \/ top = 6 \/ top = 7 \/ top = 8
               \/ top = 9 \/ top = 10 \/ top = 11 \/ top = 12) by lia.
  destruct (all_same (map suit cs));
    repeat (destruct Hc as [->|Hc]; [reflexivity|]); subst; reflexivity.
Qed.

(** C7.  A hand with the ranks A-2-3-4-5 is a straight, a straight flush
    when its five cards share a suit.  Five cards with any other five
    consecutive ranks, 6-high to ace-high, are a straight as well (a
    straight flush, or a royal flush when ace-high, if they share a
    suit), and the wheel compares strictly lower than each of them that
    is suited as the wheel is.  In general, against any five cards of the
    deck the wheel compares strictly lower when they form another
    straight (respectively straight flush), strictly higher when they
    fall in a lower category and strictly lower when they fall in a
    higher one. *)
Theorem wheel_is_lowest_straight (w h : list Card) :
  is_wheel w ->
  length h = 5%nat ->
  Forall deck_card h ->
  ranking (evaluate5Cards w)
  = (if all_same (map suit w) then STRAIGHT_FLUSH else STRAIGHT)
  /\ (forall top, 4 <= top <= 12 -> is_straight_to top h ->
      ranking (evaluate5Cards h)
      = (if all_same (map suit h)
         then (if top =? 12 then ROYAL_FLUSH else STRAIGHT_FLUSH)
         else STRAIGHT)
      /\ (all_same (map suit h) = all_same (map suit w) ->
          exists z, compareHands (evaluate5Cards w) (evaluate5Cards h) = Some z
                    /\ z < 0))
  /\ (ranking (evaluate5Cards h) = ranking (evaluate5Cards w) ->
      ~ is_wheel h ->
      exists z, compareHands (evaluate5Cards w) (evaluate5Cards h) = Some z
                /\ z < 0)
  /\ (ranking (evaluate5Cards h) < ranking (evaluate5Cards w) ->
      exists z, compareHands (evaluate5Cards w) (evaluate5Cards h) = Some z
                /\ 0 < z)
  /\ (ranking (evaluate5Cards w) < ranking (evaluate5Cards h) ->
      exists z, compareHands (evaluate5Cards w) (evaluate5Cards h) = Some z
                /\ z < 0).
Proof.
  intros Hw Hlen Hdeck.
  assert (Ew : evaluate5Cards w
               = if all_same (map suit w)
                 then mkHand STRAIGHT_FLUSH [3; 2; 1; 0; -1] None
                 else mkHand STRAIGHT [3] None).
  { unfold evaluate5Cards.
    rewrite ranks_sorted, (wheel_ranks w Hw).
    rewrite (all_same_perm _ (map suit w))
      by (apply Permutation_map, js_sort_perm).
    by destruct (all_same (map suit w)). }
  split; [rewrite Ew; by destruct (all_same _)|].
  split.
  { (* five consecutive ranks *)
    intros top Ht Hs.
    rewrite (evaluate5Cards_straight top h Ht Hs), Ew. cbv zeta.
    split; [by destruct (all_same (map suit h))|].
    intros <-. unfold compareHands.
    destruct (all_same (map suit h)); cbn [ranking kickers].
    - destruct (Z.eqb_spec top 12) as [->|Hne].
      + eexists. split; [reflexivity|]. vm_compute. reflexivity.
      + rewrite Z.eqb_refl. cbn [negb compareKickers].
        destruct (Z.eqb_spec 3 top); [lia|]. exists (3 - top).
        split; [reflexivity | lia].
    - rewrite Z.eqb_refl. cbn [negb compareKickers].
      destruct (Z.eqb_spec 3 top); [lia|]. exists (3 - top).
      split; [reflexivity | lia]. }
  split.
  - (* another straight or straight flush *)
    intros Hr Hnw.
    assert (Hranks : exists a rest,
               map value (js_sort (fun a b => value b - value a) h) = a :: rest
               /\ 4 <= a
               /\ kickers (evaluate5Cards h)
                  = (if all_same (map suit w) then a :: rest else [a])).
    { revert Hr. rewrite Ew. unfold evaluate5Cards.
      set (ranks := map value (js_sort (fun a b => value b - value a) h)).
      assert (Hwf : checkWheelStraight ranks = false).
      { destruct (checkWheelStraight ranks) eqn:E; [|reflexivity].
        exfalso. apply Hnw. apply checkWheelStraight_is_wheel.
        by rewrite <- ranks_sorted. }
      assert (Hl : length ranks = 5%nat).
      { unfold ranks. by rewrite length_map, js_sort_length. }
      assert (Hv : Forall (fun v => 0 <= v <= 12) ranks).
      { unfold ranks. rewrite ranks_sorted, js_sort_perm.
        apply Forall_map. eapply Forall_impl; [exact Hdeck|].
        intros c Hc. simpl.
        exact (proj1 (Forall_forall _ _) buildDeck_values c
                 (proj2 (list_elem_of_In _ _) Hc)). }
      unfold classify. rewrite Hwf, !orb_false_r.
      destruct (checkStraight ranks) eqn:Es.
      - destruct (straight_top ranks Hl Hv Es) as (a & rest & -> & Ha).
        repeat match goal with
               | |- context [if ?b then _ else _] => destruct b eqn:?
               end;
          simpl;
          unfold ROYAL_FLUSH, STRAIGHT_FLUSH, FOUR_OF_A_KIND, FULL_HOUSE,
            FLUSH, STRAIGHT, THREE_OF_A_KIND, TWO_PAIR, PAIR, HIGH_CARD;
          intros Hr; try discriminate Hr;
          exists a, rest; auto.
      - rewrite !andb_false_r. simpl.
        repeat match goal with
               | |- context [if ?b then _ else _] => destruct b eqn:?
               end;
          simpl;
          unfold ROYAL_FLUSH, STRAIGHT_FLUSH, FOUR_OF_A_KIND, FULL_HOUSE,
            FLUSH, STRAIGHT, THREE_OF_A_KIND, TWO_PAIR, PAIR, HIGH_CARD;
          intros Hr; discriminate Hr. }
    destruct Hranks as (a & rest & _ & Ha & Hk).
    unfold compareHands. rewrite Hr, Z.eqb_refl. cbn [negb]. rewrite Hk, Ew.
    destruct (all_same (map suit w)); cbn [kickers compareKickers];
      (destruct (Z.eqb_spec 3 a); [lia|]); exists (3 - a);
      (split; [reflexivity | lia]).
  - (* a lower category, a higher category *)
    split; intros Hlt; unfold compareHands;
      (destruct (Z.eqb_spec (ranking (evaluate5Cards w))
                            (ranking (evaluate5Cards h))); [lia|]);
      simpl; eexists; (split; [reflexivity|lia]).
Qed.

Lemma wheel_is_lowest_straight_witness :
  is_straight_to 4 six_high_straight
  /\ ranking (evaluate5Cards wheel_hand)
     = (if all_same (map suit wheel_hand) then STRAIGHT_FLUSH else STRAIGHT)
  /\ (forall top, 4 <= top <= 12 -> is_straight_to top six_high_straight ->
      ranking (evaluate5Cards six_high_straight)
      = (if all_same (map suit six_high_straight)
         then (if top =? 12 then ROYAL_FLUSH else STRAIGHT_FLUSH)
         else STRAIGHT)
      /\ (all_same (map suit six_high_straight)
          = all_same (map suit wheel_hand) ->
          exists z, compareHands (evaluate5Cards wheel_hand)
                                 (evaluate5Cards six_high_straight) = Some z
                    /\ z < 0))
  /\ (ranking (evaluate5Cards six_high_straight)
      = ranking (evaluate5Cards wheel_hand) ->
      ~ is_wheel six_high_straight ->
      exists z, compareHands (evaluate5Cards wheel_hand)
                             (evaluate5Cards six_high_straight) = Some z
                /\ z < 0)
  /\ (ranking (evaluate5Cards six_high_straight)
      < ranking (evaluate5Cards wheel_hand) ->
      exists z, compareHands (evaluate5Cards wheel_hand)
                             (evaluate5Cards six_high_straight) = Some z
                /\ 0 < z)
  /\ (ranking (evaluate5Cards wheel_hand)
      < ranking (evaluate5Cards six_high_straight) ->
      exists z, compareHands (evaluate5Cards wheel_hand)
                             (evaluate5Cards six_high_straight) = Some z
                /\ z < 0).
Proof.
  split; [unfold is_straight_to; reflexivity|].
  apply (wheel_is_lowest_straight wheel_hand six_high_straight).
  - unfold is_wheel. reflexivity.
  - reflexivity.
  - apply deck_cards_check. reflexivity.
Defined.

Section DeckCommitment.
Variable sha256 : string -> string.

Lemma newSecureDeck_fields saltHex draws :
  let d0 := newSecureDeck sha256 saltHex draws in
  cards d0 = shuffle draws buildDeck
  /\ salt d0 = saltHex
  /\ commitment d0
     = Some (sha256 (join "," (map Card_toString (cards d0)) +:+ saltHex)).
Proof.
  cbv zeta. unfold newSecureDeck, generateCommitment.
  cbn [cards salt commitment revealed]. repeat split.
Qed.

(** C2.  The commitment stored by the constructor is the hash of the
    comma-joined 52-card ordering followed by the salt; after any number
    of [deal()] calls, the salt, commitment and remaining cards that
    [revealSalt()] returns, with the dealt cards put back behind the
    remaining ones (last dealt first), reproduce that ordering and hash
    to the commitment. *)
Theorem commitment_verifiable (saltHex : string) (draws : nat -> Z) (n : nat) :
  let d0 := newSecureDeck sha256 saltHex draws in
  let dealt := fst (deal_many n d0) in
  let d := snd (deal_many n d0) in
  exists reveal,
    fst (revealSalt d) = Ok reveal
    /\ length (cards d0) = 52%nat
    /\ commitment d0
       = Some (sha256 (join "," (map Card_toString (cards d0)) +:+ saltHex))
    /\ remainingCards reveal ++ map Card_toString (reverse dealt)
       = map Card_toString (cards d0)
    /\ reveal_commitment reveal
       = Some (sha256 (join "," (remainingCards reveal
                                 ++ map Card_toString (reverse dealt))
                       +:+ reveal_salt reveal)).
Proof.
  intros d0 dealt d.
  destruct (newSecureDeck_fields saltHex draws) as (Hcards & Hsalt & Hcom).
  fold d0 in Hcards, Hsalt, Hcom.
  assert (H52 : length (cards d0) = 52%nat).
  { rewrite Hcards, shuffle_length. reflexivity. }
  subst dealt d. clearbody d0.
  destruct (deal_many n d0) as [dealt d] eqn:E.
  apply deal_many_spec in E. destruct E as (Hc & Hs & Hm).
  cbn [fst snd].
  exists {| reveal_salt := salt d; reveal_commitment := commitment d;
            remainingCards := map Card_toString (cards d) |}.
  split; [reflexivity|]. cbn [remainingCards reveal_salt reveal_commitment].
  split; [exact H52|]. split; [exact Hcom|].
  assert (Hr : map Card_toString (cards d) ++ map Card_toString (reverse dealt)
               = map Card_toString (cards d0)).
  { by rewrite <- map_app, <- Hc. }
  split; [exact Hr|].
  rewrite Hr, Hm, Hs, Hsalt. exact Hcom.
Qed.
End DeckCommitment.

(** [revealSalt()] has no guard.  Whatever the [revealed] flag holds, a
    call sets it and returns the salt, the commitment and the
    still-undealt cards, so a further call returns the same data and
    leaves the deck as the first call left it. *)
Lemma revealSalt_ignores_the_flag (d : SecureDeck) :
  revealSalt d
  = (Ok {| reveal_salt := salt d;
           reveal_commitment := commitment d;
           remainingCards := map Card_toString (cards d) |},
     {| cards := cards d; salt := salt d; commitment := commitment d;
        revealed := true |})
  /\ revealSalt (snd (revealSalt d)) = revealSalt d.
Proof. split; reflexivity. Qed.

(** C9.  The code does not reject a second [revealSalt()].  On a new
    deck, whose [revealed] flag is [false], the first call returns the
    salt, the commitment and the 52 undealt cards and sets the flag to
    [true]; the second call, on the deck with the flag set, throws
    nothing and returns the reveal data of the first call again. *)
Theorem revealSalt_second_call_not_rejected :
  let d := newSecureDeck (fun s => s) "00" (fun _ => 0) in
  let first := revealSalt d in
  let second := revealSalt (snd first) in
  revealed d = false
  /\ fst first
     = Ok {| reveal_salt := salt d; reveal_commitment := commitment d;
             remainingCards := map Card_toString (cards d) |}
  /\ length (cards d) = 52%nat
  /\ revealed (snd first) = true
  /\ ~ (exists e, fst second = Throw e)
  /\ fst second = fst first.
Proof.
  cbv zeta. unfold revealSalt. cbn [fst snd revealed].
  split; [reflexivity|]. split; [reflexivity|].
  split; [vm_compute; reflexivity|]. split; [reflexivity|].
  split; [|reflexivity]. intros [e H]. discriminate H.
Qed.

(** ** Reasoning about the methods of the table *)

#[global] Instance frame_refl : Reflexive frame.
Proof. intros s. unfold frame. auto. Qed.
#[global] Instance frame_trans : Transitive frame.
Proof. intros a b c (?&?&?&?) (?&?&?&?). unfold frame. repeat split; congruence. Qed.
#[global] Instance keeps_seat_inv_refl : Reflexive keeps_seat_inv.
Proof. intros s H. exact H. Qed.
#[global] Instance keeps_seat_inv_trans : Transitive keeps_seat_inv.
Proof. intros a b c H1 H2 H. auto. Qed.

Section Sound.
Context (R : Table.t -> Table.t -> Prop) (P : Error -> Prop).
Context `{!Reflexive R} `{!Transitive R}.

Lemma sound_ret {A} (a : A) : sound R P (Table.ret a).
Proof. intros s r s' [= <- <-]. split; [reflexivity|discriminate]. Qed.

Lemma sound_get : sound R P Table.get.
Proof. intros s r s' [= <- <-]. split; [reflexivity|discriminate]. Qed.

Lemma sound_throw {A} (e : Error) : P e -> sound R P (@Table.throw A e).
Proof. intros He s r s' [= <- <-]. split; [reflexivity|]. by intros ? [= <-]. Qed.

Lemma sound_modify (f : Table.t -> Table.t) :
  (forall s, R s (f s)) -> sound R P (Table.modify f).
Proof. intros Hf s r s' [= <- <-]. split; [apply Hf|discriminate]. Qed.

Lemma sound_bind {A B} (m : Table.M A) (k : A -> Table.M B) :
  sound R P m -> (forall a, sound R P (k a)) -> sound R P (Table.bind m k).
Proof.
  intros Hm Hk s r s'. unfold Table.bind.
  destruct (m s) as [[a|e] s1] eqn:E.
  - intros H. destruct (Hm _ _ _ E) as [H1 _].
    destruct (Hk a _ _ _ H) as [H2 H3]. split; [by etrans|exact H3].
  - intros [= <- <-]. destruct (Hm _ _ _ E) as [H1 H2].
    split; [exact H1|]. intros e0 [= <-]. by apply H2.
Qed.
End Sound.

(** One step of a structural proof of [sound]; [side] closes the side
    conditions of [throw] and [modify]. *)
Ltac sound_step side :=
  first
    [ match goal with
      | H : context [sound] |- sound _ _ _ => apply H
      end
    | apply sound_ret; apply _
    | apply sound_get; apply _
    | apply sound_throw; [apply _ | side]
    | apply sound_modify; intros ?; side
    | apply sound_bind; [apply _ | | intros ?]
    | match goal with
      | |- sound _ _ (if ?b then _ else _) => destruct b eqn:?
      | |- sound _ _ (match ?x with _ => _ end) => destruct x eqn:?
      end
    | progress cbv zeta ].

(** *** Stacks, pot and rake settings *)

Lemma ledger_update_same k f m :
  (forall p, Player.chips (f p) = Player.chips p) ->
  chip_ledger (pm_update k f m) = chip_ledger m.
Proof.
  intros Hf. induction m as [|[k' p] m IH]; simpl; [reflexivity|].
  destruct (decide (k' = k)); simpl; [by rewrite Hf|by rewrite IH].
Qed.

Lemma ledger_map_same (g : string * Player.t -> string * Player.t) m :
  (forall kp, fst (g kp) = fst kp
              /\ Player.chips (snd (g kp)) = Player.chips (snd kp)) ->
  chip_ledger (map g m) = chip_ledger m.
Proof.
  intros Hg. induction m as [|[k' p] m IH]; simpl; [reflexivity|].
  destruct (Hg (k', p)) as [-> ->]. by rewrite IH.
Qed.

Ltac frame_side :=
  first
    [ exact I
    | reflexivity
    | unfold frame; simpl; repeat split; try reflexivity;
      first [ apply ledger_update_same; intros []; reflexivity
            | apply ledger_map_same; intros [? []]; split; reflexivity ] ].

Ltac frame_sound := repeat sound_step frame_side.

#[local] Hint Unfold internal_error : core.

Lemma find_occupied_frame seat :
  sound frame internal_error (Table.find_occupied seat).
Proof. unfold Table.find_occupied. frame_sound. Qed.

Lemma getSmallBlindSeat_frame : sound frame internal_error Table.getSmallBlindSeat.
Proof.
  unfold Table.getSmallBlindSeat. frame_sound.
Qed.

Lemma getBigBlindSeat_frame : sound frame internal_error Table.getBigBlindSeat.
Proof.
  unfold Table.getBigBlindSeat. frame_sound.
Qed.

Lemma deref_frame k : sound frame internal_error (Table.deref k).
Proof. unfold Table.deref. frame_sound. Qed.

Lemma logAction_frame e : sound frame internal_error (Table.logAction e).
Proof. unfold Table.logAction. frame_sound. Qed.

Lemma remember_frame h : sound frame internal_error (Table.remember h).
Proof. unfold Table.remember. frame_sound. Qed.

Lemma snapshot_frame : sound frame internal_error Table.snapshot.
Proof. unfold Table.snapshot. frame_sound. Qed.

Lemma setNextPlayer_loop_frame checked seat :
  sound frame internal_error (Table.setNextPlayer_loop checked seat).
Proof.
  revert seat. induction checked as [|f IH]; intros seat; simpl.
  - frame_sound.
  - frame_sound.
Qed.

Lemma setNextPlayer_frame afterSeat :
  sound frame internal_error (Table.setNextPlayer afterSeat).
Proof.
  pose proof setNextPlayer_loop_frame.
unfold Table.setNextPlayer. frame_sound.
Qed.

Lemma isBettingComplete_loop_frame ps :
  sound frame internal_error (Table.isBettingComplete_loop ps).
Proof.
  induction ps as [|[k p] ps IH]; simpl.
  - frame_sound.
  - frame_sound.
Qed.

Lemma isBettingComplete_frame : sound frame internal_error Table.isBettingComplete.
Proof.
  unfold Table.isBettingComplete. frame_sound.
  apply isBettingComplete_loop_frame.
Qed.

Lemma deck_deal_frame : sound frame internal_error Table.deck_deal.
Proof.
  intros s r s'. unfold Table.deck_deal.
  destruct (Table.deck s) as [d|]; [|intros [= <- <-]; split;
    [reflexivity | by intros ? [= <-]]].
  unfold deal. destruct (pop (cards d)) as [[c rest]|]; intros [= <- <-].
  - split; [by unfold frame|discriminate].
  - split; [reflexivity|]. by intros ? [= <-].
Qed.

Lemma deck_revealSalt_frame : sound frame internal_error Table.deck_revealSalt.
Proof.
  intros s r s'. unfold Table.deck_revealSalt.
  destruct (Table.deck s) as [d|]; simpl; intros [= <- <-].
  - split; [by unfold frame|discriminate].
  - split; [reflexivity|]. by intros ? [= <-].
Qed.

Lemma evaluate_all_frame community ps :
  sound frame internal_error (Table.evaluate_all community ps).
Proof.
  induction ps as [|[k p] ps IH]; simpl.
  - frame_sound.
  - destruct (evaluateHand _) as [[h|]|e] eqn:E.
    + frame_sound.
    + frame_sound.
    + unfold evaluateHand in E. destruct (_ <? _)%nat; [|discriminate].
      injection E as <-. frame_sound.
Qed.


(** *** The seat on turn, and the errors after validation *)

Lemma seat_at_nonneg ss i x : Table.seat_at ss i = Some x -> 0 <= i.
Proof. unfold Table.seat_at. destruct (Z.ltb_spec i 0); [discriminate|lia]. Qed.

Ltac seat_side :=
  first
    [ exact I
    | reflexivity
    | unfold keeps_seat_inv, seat_inv; simpl; intros; try discriminate;
      first [ solve [auto]
            | simplify_eq; eapply seat_at_nonneg; eassumption ] ].

Ltac seat_sound := repeat sound_step seat_side.

Lemma deck_deal_seat : sound keeps_seat_inv internal_error Table.deck_deal.
Proof.
intros s r s'. unfold Table.deck_deal.
destruct (Table.deck s) as [d|]; [|intros [= <- <-]; split;
  [reflexivity | by intros ? [= <-]]].
unfold deal. destruct (pop (cards d)) as [[c rest]|]; intros [= <- <-].
- split; [by unfold keeps_seat_inv|discriminate].
- split; [reflexivity|]. by intros ? [= <-].
Qed.

Lemma deck_revealSalt_seat : sound keeps_seat_inv internal_error Table.deck_revealSalt.
Proof.
intros s r s'. unfold Table.deck_revealSalt.
destruct (Table.deck s) as [d|]; simpl; intros [= <- <-].
- split; [by unfold keeps_seat_inv|discriminate].
- split; [reflexivity|]. by intros ? [= <-].
Qed.

Lemma setNextPlayer_loop_seat checked seat :
  sound keeps_seat_inv internal_error (Table.setNextPlayer_loop checked seat).
Proof.
revert seat. induction checked as [|f IH]; intros seat; simpl.
- seat_sound.
- seat_sound.
Qed.

Lemma isBettingComplete_loop_seat ps :
  sound keeps_seat_inv internal_error (Table.isBettingComplete_loop ps).
Proof.
induction ps as [|[k p] ps IH]; simpl.
- seat_sound.
- seat_sound.
Qed.

Lemma evaluate_all_seat community ps :
  sound keeps_seat_inv internal_error (Table.evaluate_all community ps).
Proof.
induction ps as [|[k p] ps IH]; simpl.
- seat_sound.
- destruct (evaluateHand _) as [[h|]|e] eqn:E.
  + seat_sound.
  + seat_sound.
  + unfold evaluateHand in E. destruct (_ <? _)%nat; [|discriminate].
    injection E as <-. seat_sound.
Qed.

Lemma credit_all_seat winAmount ws :
  sound keeps_seat_inv internal_error (Table.credit_all winAmount ws).
Proof.
induction ws as [|w ws IH]; simpl.
- seat_sound.
- seat_sound.
Qed.

Lemma dealHoleCards_loop_seat ss :
  sound keeps_seat_inv internal_error (Table.dealHoleCards_loop ss).
Proof.
induction ss as [|sid ss IH]; simpl.
- seat_sound.
- pose proof deck_deal_seat. seat_sound.
Qed.

Lemma awardPot_seat w : sound keeps_seat_inv internal_error (Table.awardPot w).
Proof. destruct w as [k winner]. unfold Table.awardPot. seat_sound. Qed.

Lemma showdown_seat : sound keeps_seat_inv internal_error Table.showdown.
Proof.
unfold Table.showdown.
pose proof deck_revealSalt_seat. pose proof credit_all_seat.
pose proof evaluate_all_seat.
seat_sound.
Qed.

Lemma advancePhase_seat fuel :
  sound keeps_seat_inv internal_error (Table.advancePhase fuel).
Proof.
induction fuel as [|f IH]; simpl.
- seat_sound.
- pose proof deck_deal_seat. pose proof showdown_seat.
  pose proof setNextPlayer_loop_seat.
  seat_sound.
Qed.

Lemma advanceGame_seat : sound keeps_seat_inv internal_error Table.advanceGame.
Proof.
unfold Table.advanceGame.
pose proof advancePhase_seat. pose proof awardPot_seat.
pose proof isBettingComplete_loop_seat. pose proof setNextPlayer_loop_seat.
seat_sound.
Qed.

Lemma sound_any_error R P {A} (m : Table.M A) :
  sound R P m -> sound R any_error m.
Proof. intros H s r s' E. destruct (H _ _ _ E). split; [assumption|]. by intros. Qed.

Lemma fold_seat k : sound keeps_seat_inv any_error (Table.fold k).
Proof.
pose proof (sound_any_error _ _ _ advanceGame_seat).
unfold Table.fold. seat_sound.
Qed.

Lemma check_seat k : sound keeps_seat_inv any_error (Table.check k).
Proof.
pose proof (sound_any_error _ _ _ advanceGame_seat).
unfold Table.check. seat_sound.
Qed.

Lemma call_seat k : sound keeps_seat_inv any_error (Table.call k).
Proof.
pose proof (sound_any_error _ _ _ advanceGame_seat).
unfold Table.call. seat_sound.
Qed.

Lemma raise_seat k a : sound keeps_seat_inv any_error (Table.raise k a).
Proof.
pose proof (sound_any_error _ _ _ advanceGame_seat).
unfold Table.raise. seat_sound.
Qed.

Lemma allIn_seat k : sound keeps_seat_inv any_error (Table.allIn k).
Proof.
pose proof raise_seat.
unfold Table.allIn. seat_sound.
Qed.

Lemma addPlayer_seat m w b ps now :
  sound keeps_seat_inv any_error (Table.addPlayer m w b ps now).
Proof. unfold Table.addPlayer. seat_sound. Qed.

Lemma removePlayer_seat k : sound keeps_seat_inv any_error (Table.removePlayer k).
Proof. unfold Table.removePlayer. seat_sound. Qed.

Lemma startHand_seat d : sound keeps_seat_inv any_error (Table.startHand d).
Proof.
pose proof (fun ss => sound_any_error _ _ _ (dealHoleCards_loop_seat ss)).
pose proof (fun c z => sound_any_error _ _ _ (setNextPlayer_loop_seat c z)).
unfold Table.startHand. seat_sound.
Qed.

Lemma exec_seat sha256 op : sound keeps_seat_inv any_error (exec sha256 op).
Proof.
pose proof fold_seat. pose proof check_seat. pose proof call_seat.
pose proof raise_seat. pose proof allIn_seat. pose proof addPlayer_seat.
pose proof removePlayer_seat. pose proof startHand_seat.
destruct op; unfold exec; seat_sound.
Qed.

Lemma reachable_seat_inv sha256 s : reachable sha256 s -> seat_inv s.
Proof.
induction 1 as [i config|op s _ IH].
- intros i' H. discriminate H.
- destruct (exec sha256 op s) as [r s'] eqn:E.
  destruct (exec_seat sha256 op _ _ _ E) as [Hk _]. exact (Hk IH).
Qed.

(** *** Validation *)

Lemma Qltb_lt a b : Qltb a b = true <-> (a < b)%Q.
Proof.
unfold Qltb. rewrite negb_true_iff. split.
- intros H. apply Qnot_le_lt. intros Hle.
  apply Qle_bool_iff in Hle. congruence.
- intros H. destruct (Qle_bool b a) eqn:E; [|reflexivity].
  apply Qle_bool_iff in E. exfalso. by apply (Qlt_not_le _ _ H).
Qed.

Lemma Qltb_ge a b : Qltb a b = false <-> (b <= a)%Q.
Proof.
unfold Qltb. rewrite negb_false_iff. apply Qle_bool_iff.
Qed.

Lemma pure_get : pure Table.get.
Proof. by intros s r s' [= <- <-]. Qed.

Lemma pure_deref k : pure (Table.deref k).
Proof.
intros s r s'. unfold Table.deref, Table.bind, Table.get.
destruct (pm_get k (Table.players s)); by intros [= <- <-].
Qed.

Lemma pure_validateAction k : pure (Table.validateAction k).
Proof.
intros s r s'. unfold Table.validateAction, Table.bind, Table.get.
destruct (_ || _); [by intros [= <- <-]|].
cbv zeta. destruct (bool_decide _); by intros [= <- <-].
Qed.

Lemma atomic_bind_pure {A B} (m : Table.M A) (k : A -> Table.M B) :
  pure m -> (forall a, atomic (k a)) -> atomic (Table.bind m k).
Proof.
intros Hm Hk s e s'. unfold Table.bind.
destruct (m s) as [[a|e'] s1] eqn:E; apply Hm in E; subst s1.
- apply Hk.
- by intros [= <- <-].
Qed.

Lemma atomic_throw {A} e : atomic (@Table.throw A e).
Proof. by intros s e' s' [= <- <-]. Qed.

Lemma atomic_internal R {A} (m : Table.M A) :
  sound R internal_error m -> atomic m.
Proof.
intros H s e s' E V. destruct (H _ _ _ E) as [_ Hi].
specialize (Hi e eq_refl). unfold internal_error in Hi. congruence.
Qed.

Lemma atomic_bind_ret {A B} (m : Table.M A) (f : A -> B) :
  atomic m -> atomic (Table.bind m (fun r => Table.ret (f r))).
Proof.
intros Hm s e s'. unfold Table.bind.
destruct (m s) as [[a|e'] s1] eqn:E.
- discriminate.
- intros [= <- <-]. by apply (Hm _ _ _ E).
Qed.

Ltac atomic_step :=
  first
    [ apply atomic_bind_pure;
      [ first [ apply pure_get | apply pure_deref | apply pure_validateAction ]
      | intros ? ]
    | apply atomic_throw
    | match goal with
      | |- atomic (if ?b then _ else _) => destruct b eqn:?
      | |- atomic (match ?x with _ => _ end) => destruct x eqn:?
      end
    | progress cbv zeta
    | apply (atomic_internal keeps_seat_inv); seat_sound ].

Lemma fold_atomic k : atomic (Table.fold k).
Proof.
pose proof advanceGame_seat. unfold Table.fold. repeat atomic_step.
Qed.

Lemma check_atomic k : atomic (Table.check k).
Proof.
pose proof advanceGame_seat. unfold Table.check. repeat atomic_step.
Qed.

Lemma call_atomic k : atomic (Table.call k).
Proof.
pose proof advanceGame_seat. unfold Table.call. repeat atomic_step.
Qed.

Lemma raise_atomic k a : atomic (Table.raise k a).
Proof.
pose proof advanceGame_seat. unfold Table.raise. repeat atomic_step.
Qed.

Lemma allIn_atomic k : atomic (Table.allIn k).
Proof.
unfold Table.allIn. apply atomic_bind_pure; [apply pure_deref|].
intros p. apply raise_atomic.
Qed.

Lemma addPlayer_atomic m w b ps now : atomic (Table.addPlayer m w b ps now).
Proof. unfold Table.addPlayer. repeat atomic_step. Qed.

Lemma removePlayer_atomic k : atomic (Table.removePlayer k).
Proof. unfold Table.removePlayer. repeat atomic_step. Qed.

Lemma startHand_atomic d : atomic (Table.startHand d).
Proof.
pose proof dealHoleCards_loop_seat. pose proof setNextPlayer_loop_seat.
unfold Table.startHand. repeat atomic_step.
Qed.

(** C3.  A call of [addPlayer], [startHand], [fold], [check], [call] or
    [raise] (or of any other public method) that throws one of the
    validation errors leaves the whole table as it was. *)
Theorem validation_failure_leaves_table_unchanged
    (sha256 : string -> string) (op : Op) (s s' : Table.t) (e : Error) :
  exec sha256 op s = (Throw e, s') ->
  validation_error e = true ->
  s' = s.
Proof.
revert s e s'. change (atomic (exec sha256 op)).
destruct op; unfold exec; apply atomic_bind_ret;
  auto using fold_atomic, check_atomic, call_atomic, raise_atomic,
    allIn_atomic, addPlayer_atomic, removePlayer_atomic, startHand_atomic.
Qed.

(** *** A table to try the methods on *)

Lemma reachable_run sha256 ops s :
  reachable sha256 s -> reachable sha256 (run sha256 ops s).
Proof.
revert s. induction ops as [|op ops IH]; intros s H; [exact H|].
apply IH. by apply reachable_step.
Qed.

Lemma heads_up_reachable : reachable demo_hash heads_up.
Proof. apply reachable_run. apply reachable_new. Qed.

Lemma validation_failure_leaves_table_unchanged_witness :
  snd (exec demo_hash (OpFold "bob-2") heads_up) = heads_up.
Proof.
apply (validation_failure_leaves_table_unchanged demo_hash (OpFold "bob-2")
         heads_up (snd (exec demo_hash (OpFold "bob-2") heads_up)) OutOfTurn).
- vm_compute. reflexivity.
- reflexivity.
Defined.


Lemma act_validates a k s e :
  Table.validateAction k s = (Throw e, s) -> act a k s = (Throw e, s).
Proof.
intros H. destruct a; simpl;
  unfold Table.fold, Table.check, Table.call, Table.raise;
  unfold Table.bind at 1; by rewrite H.
Qed.







(** [allIn] is not covered by this: it reads the player's stack before
    [raise] validates, so an id without a record is a [TypeError]. *)
Lemma allIn_reads_the_record_first :
  Table.allIn "mallory-3" heads_up = (Throw TypeError, heads_up).
Proof. vm_compute. reflexivity. Qed.



(** *** Chip accounting *)

Lemma sum_chips_ledger m :
  sum_chips m = foldr (fun kc acc => (snd kc + acc)%Q) 0%Q (chip_ledger m).
Proof. induction m as [|[k p] m IH]; simpl; [reflexivity|]. by rewrite IH. Qed.

Lemma sum_chips_same m m' :
  chip_ledger m' = chip_ledger m -> sum_chips m' = sum_chips m.
Proof. intros H. by rewrite !sum_chips_ledger, H. Qed.

Lemma ledger_keys m m' :
  chip_ledger m' = chip_ledger m -> map fst m' = map fst m.
Proof.
intros H. apply (f_equal (map fst)) in H. unfold chip_ledger in H.
rewrite !map_map in H. exact H.
Qed.

Lemma pm_update_keys k f m : map fst (pm_update k f m) = map fst m.
Proof.
induction m as [|[k' p] m IH]; simpl; [reflexivity|].
destruct (decide (k' = k)); simpl; congruence.
Qed.

Lemma pm_get_key k m : In k (map fst m) -> exists p, pm_get k m = Some p.
Proof.
induction m as [|[k' p] m IH]; simpl; [tauto|].
destruct (decide (k' = k)); [eauto|]. intros [?|?]; [congruence|auto].
Qed.

Lemma sum_chips_update k f m p :
  pm_get k m = Some p ->
  (sum_chips (pm_update k f m)
   == sum_chips m + (Player.chips (f p) - Player.chips p))%Q.
Proof.
induction m as [|[k' p'] m IH]; simpl; [discriminate|].
destruct (decide (k' = k)); simpl.
- intros [= ->]. ring.
- intros H. rewrite (IH H). ring.
Qed.

(** Crediting [a] to the stack stored under a key of the map. *)
Lemma sum_chips_credit k a m :
  In k (map fst m) ->
  (sum_chips (pm_update k (fun p => Player.set_chips (Player.chips p + a) p) m)
   == sum_chips m + a)%Q.
Proof.
intros H. destruct (pm_get_key k m H) as [p Hp].
rewrite (sum_chips_update k _ m p Hp). simpl. ring.
Qed.

Lemma evaluate_all_spec community ps s r s' :
  Table.evaluate_all community ps s = (r, s') ->
  s' = s /\ forall rs, r = Ok rs -> map Table.res_key rs = map fst ps.
Proof.
revert r s'. induction ps as [|[k p] ps IH]; intros r s'; simpl.
- intros [= <- <-]. split; [reflexivity|]. by intros rs [= <-].
- destruct (evaluateHand _) as [[h|]|e].
  + unfold Table.bind.
    destruct (Table.evaluate_all community ps s) as [[rs|e] s1] eqn:E;
      destruct (IH _ _ eq_refl) as [-> Hk].
    * intros [= <- <-]. split; [reflexivity|].
      intros rs' [= <-]. simpl. f_equal. by apply Hk.
    * intros [= <- <-]. split; [reflexivity|]. discriminate.
  + intros [= <- <-]. split; [reflexivity|]. discriminate.
  + intros [= <- <-]. split; [reflexivity|]. discriminate.
Qed.

Lemma credit_all_spec a ws s :
  (forall w, In w ws -> In (Table.res_key w) (map fst (Table.players s))) ->
  exists m',
    Table.credit_all a ws s = (Ok tt, Table.set_players m' s)
    /\ map fst m' = map fst (Table.players s)
    /\ (sum_chips m'
        == sum_chips (Table.players s) + inject_Z (Z.of_nat (length ws)) * a)%Q.
Proof.
revert s. induction ws as [|w ws IH]; intros s Hk.
- exists (Table.players s). simpl. repeat split.
  + unfold Table.ret. f_equal. by destruct s.
  + unfold inject_Z. simpl. ring.
- set (m1 := pm_update (Table.res_key w)
               (fun p => Player.set_chips (Player.chips p + a) p)
               (Table.players s)).
  destruct (IH (Table.set_players m1 s)) as (m' & Hrun & Hkeys & Hsum).
  { intros w' Hw'. simpl. unfold m1. rewrite pm_update_keys.
    apply Hk. by right. }
  exists m'. split; [|split].
  + simpl. unfold Table.bind, Table.update_player, Table.modify. fold m1.
    rewrite Hrun. reflexivity.
  + rewrite Hkeys. simpl. unfold m1. apply pm_update_keys.
  + rewrite Hsum. simpl Table.players. unfold m1.
    rewrite sum_chips_credit by (apply Hk; by left).
    cbn [length]. rewrite Nat2Z.inj_succ. unfold Z.succ.
    rewrite inject_Z_plus. ring.
Qed.

Lemma winners_of_incl rs w : In w (Table.winners_of rs) -> In w rs.
Proof.
destruct rs as [|r0 rs]; simpl; [tauto|].
intros [->|H]; [by left|right].
induction rs as [|r rs IH]; simpl in *; [tauto|].
destruct (js_is0 _); simpl in H; [|tauto].
destruct H as [->|H]; [by left|right; auto].
Qed.

Lemma getPlayersInHand_keys s k p :
  In (k, p) (Table.getPlayersInHand s) -> In k (map fst (Table.players s)).
Proof.
unfold Table.getPlayersInHand. intros H. apply filter_In in H.
destruct H as [H _]. apply in_map_iff. by exists (k, p).
Qed.

Lemma bind_Ok {A B} (m : Table.M A) (k : A -> Table.M B) s b s' :
  Table.bind m k s = (Ok b, s') ->
  exists a s1, m s = (Ok a, s1) /\ k a s1 = (Ok b, s').
Proof.
unfold Table.bind. destruct (m s) as [[a|e] s1]; [eauto|discriminate].
Qed.

Lemma showdown_spec s snap s' :
  Table.showdown s = (Ok snap, s') ->
  snap_winner snap = None
  /\ exists sd, snap_showdown snap = Some sd /\ showdown_law s s' sd.
Proof.
unfold Table.showdown.
cbn [Table.bind Table.modify Table.get].
set (sa := Table.set_phase SHOWDOWN s).
intros H. apply bind_Ok in H as (unsorted & s1 & Ev & H).
destruct (evaluate_all_spec _ _ _ _ _ Ev) as [-> Hkeys].
specialize (Hkeys _ eq_refl).
destruct (js_sort Table.by_strength unsorted) as [|r0 rs] eqn:Es;
  [discriminate|].
revert H.
set (winners := Table.winners_of (r0 :: rs)).
set (winAmount := Math_floor _).
intros H. apply bind_Ok in H as ([] & s2 & Hc & H).
destruct (credit_all_spec winAmount winners sa) as (m' & Hrun & Hk' & Hsum).
{ intros w Hw. apply winners_of_incl in Hw. rewrite <- Es in Hw.
  apply list_elem_of_In in Hw. rewrite js_sort_perm in Hw.
  apply list_elem_of_In in Hw.
  assert (Hin : In (Table.res_key w) (map fst (Table.getPlayersInHand sa))).
  { rewrite <- Hkeys. by apply in_map. }
  apply in_map_iff in Hin. destruct Hin as ([k p] & Hkp & Hin).
  simpl in Hkp. subst k. eapply getPlayersInHand_keys. exact Hin. }
rewrite Hrun in Hc. injection Hc as <-.
apply bind_Ok in H as (dr & s3 & Hd & H).
unfold Table.deck_revealSalt in Hd.
destruct (Table.deck (Table.set_players m' sa)) as [d|]; [|discriminate].
cbn [revealSalt] in Hd. injection Hd as <- <-.
cbn [Table.bind Table.modify Table.get Table.logAction Table.remember
     Table.ret] in H.
injection H as <- <-.
split; [reflexivity|]. eexists. split; [reflexivity|].
unfold showdown_law. cbn [sd_winners sd_pot sd_rake sd_winAmount].
subst winners winAmount.
cbn [Table.winners_of length] in *. rewrite ?length_map.
repeat split; try reflexivity; [lia | exact Hsum].
Qed.

Lemma game_outcome_frame s s1 snap s' :
  frame s s1 -> game_outcome s1 snap s' -> game_outcome s snap s'.
Proof.
intros Hf. pose proof Hf as (Hl & Hp & Hr & Hm). unfold game_outcome.
assert (Hrk : Table.rake_of s1 = Table.rake_of s).
{ unfold Table.rake_of. by rewrite Hp, Hr, Hm. }
pose proof (sum_chips_same _ _ Hl) as Hs.
destruct (snap_winner snap) as [w|]; [|destruct (snap_showdown snap) as [sd|]].
- unfold award_law. rewrite Hp, Hr, Hm, Hrk, Hs. tauto.
- unfold showdown_law. rewrite Hp, Hr, Hm, Hrk, Hs. tauto.
- intros H. by trans s1.
Qed.

Lemma ensures_bind_frame {A B} (Q : Table.t -> B -> Table.t -> Prop)
    (m : Table.M A) (k : A -> Table.M B) :
  sound frame internal_error m ->
  (forall x, ensures Q (k x)) ->
  (forall s s1 b s', frame s s1 -> Q s1 b s' -> Q s b s') ->
  ensures Q (Table.bind m k).
Proof.
intros Hm Hk Hc s b s' H. apply bind_Ok in H as (a & s1 & E & H).
destruct (Hm _ _ _ E) as [Hf _]. eapply Hc; [exact Hf|].
exact (Hk a _ _ _ H).
Qed.

Ltac ensures_step :=
  first
    [ match goal with
      | H : context [ensures] |- ensures _ _ => apply H
      end
    | apply ensures_bind_frame;
      [ solve [frame_sound] | intros ? | exact game_outcome_frame ]
    | match goal with
      | |- ensures _ (if ?b then _ else _) => destruct b eqn:?
      | |- ensures _ (match ?x with _ => _ end) => destruct x eqn:?
      end
    | progress cbv zeta ].

Lemma snapshot_outcome : ensures game_outcome Table.snapshot.
Proof. intros s snap s' [= <- <-]. unfold game_outcome. simpl. reflexivity. Qed.

Lemma showdown_outcome : ensures game_outcome Table.showdown.
Proof.
intros s snap s' H. apply showdown_spec in H as (Hw & sd & Hsd & Hlaw).
unfold game_outcome. by rewrite Hw, Hsd.
Qed.

Lemma advancePhase_outcome fuel : ensures game_outcome (Table.advancePhase fuel).
Proof.
induction fuel as [|f IH]; [discriminate|].
pose proof deck_deal_frame. pose proof setNextPlayer_loop_frame.
pose proof snapshot_outcome. pose proof showdown_outcome.
cbn [Table.advancePhase]. repeat ensures_step.
Qed.

Lemma awardPot_outcome s k winner snap s' :
  In k (map fst (Table.players s)) ->
  Table.awardPot (k, winner) s = (Ok snap, s') ->
  game_outcome s snap s'.
Proof.
intros Hk. unfold Table.awardPot.
cbn [Table.bind Table.get Table.modify Table.update_player Table.logAction
     Table.remember Table.ret].
intros [= <- <-]. unfold game_outcome, award_law.
cbn [snap_winner win_rake win_amount].
repeat split; try reflexivity.
cbn [Table.players Table.set_phase Table.set_completedHands
     Table.set_handHistory Table.set_players].
by apply sum_chips_credit.
Qed.

Lemma advanceGame_outcome : ensures game_outcome Table.advanceGame.
Proof.
pose proof advancePhase_outcome. pose proof snapshot_outcome.
pose proof isBettingComplete_loop_frame. pose proof setNextPlayer_loop_frame.
assert (Hrest : ensures game_outcome
          (Table.bind Table.isBettingComplete
             (fun complete =>
                if complete then Table.advancePhase 4
                else Table.bind Table.get (fun s =>
                       Table.bind (Table.setNextPlayer
                                     (default 0 (Table.currentPlayerSeat s)))
                                  (fun _ => Table.snapshot))))).
{ repeat ensures_step. }
intros s snap s'. unfold Table.advanceGame. cbn [Table.bind Table.get].
destruct (Table.getPlayersInHand s) as [|[k w] [|w2 ps]] eqn:E.
- apply Hrest.
- apply awardPot_outcome. eapply getPlayersInHand_keys. rewrite E. by left.
- apply Hrest.
Qed.

Lemma deref_Ok k s p s1 :
  Table.deref k s = (Ok p, s1) -> s1 = s /\ pm_get k (Table.players s) = Some p.
Proof.
unfold Table.deref, Table.bind, Table.get.
destruct (pm_get k (Table.players s)); [|discriminate].
by intros [= <- <-].
Qed.

Lemma chips_mark_allIn p : Player.chips (Player.mark_allIn p) = Player.chips p.
Proof. unfold Player.mark_allIn. by destruct (Qeq_bool _ _). Qed.

Lemma sum_chips_commit k a m p :
  pm_get k m = Some p ->
  (sum_chips (pm_update k (Table.commit_chips a) m) == sum_chips m - a)%Q.
Proof.
intros H. rewrite (sum_chips_update k _ m p H). simpl. ring.
Qed.

(** The bookkeeping after the chips have moved leaves the stacks alone. *)
Lemma sum_chips_after_commit k a m p act :
  pm_get k m = Some p ->
  (sum_chips
     (pm_update k (Player.set_lastAction act)
        (pm_update k Player.mark_allIn
           (pm_update k (Table.commit_chips a) m)))
   == sum_chips m - a)%Q.
Proof.
intros H.
rewrite (sum_chips_same (pm_update k (Table.commit_chips a) m)).
- by apply (sum_chips_commit k a m p).
- rewrite ledger_update_same by (by intros []).
  apply ledger_update_same, chips_mark_allIn.
Qed.

(** Every action first moves chips from a stack to the pot, which keeps
    [sum(chips) + pot], and then runs [_advanceGame]. *)
Lemma act_bets_then_advances a k s snap s' :
  act a k s = (Ok snap, s') ->
  exists s1,
    Table.advanceGame s1 = (Ok snap, s')
    /\ (total s1 == total s)%Q
    /\ Table.rake s1 = Table.rake s
    /\ Table.rakeMax s1 = Table.rakeMax s.
Proof.
destruct a as [| | |amount];
  unfold act, Table.fold, Table.check, Table.call, Table.raise;
  generalize Table.advanceGame; intros K H.
- (* fold *)
  apply bind_Ok in H as ([] & s0 & Hv & H).
  apply pure_validateAction in Hv. subst s0.
  apply bind_Ok in H as (p & s0 & Hd & H).
  apply deref_Ok in Hd as [-> Hp].
  cbn [Table.bind Table.update_player Table.modify Table.logAction] in H.
  eexists. split; [exact H|]. split; [|split; reflexivity].
  unfold total. cbn [Table.players Table.pot Table.set_handHistory
                     Table.set_players].
  rewrite (sum_chips_same (Table.players s)); [reflexivity|].
  rewrite ledger_update_same by (by intros []).
  rewrite ledger_update_same by (by intros []). reflexivity.
- (* check *)
  apply bind_Ok in H as ([] & s0 & Hv & H).
  apply pure_validateAction in Hv. subst s0.
  apply bind_Ok in H as (p & s0 & Hd & H).
  apply deref_Ok in Hd as [-> Hp].
  cbn [Table.bind Table.get] in H.
  destruct (Qltb _ _); [discriminate|].
  cbn [Table.bind Table.update_player Table.modify Table.logAction] in H.
  eexists. split; [exact H|]. split; [|split; reflexivity].
  unfold total. cbn [Table.players Table.pot Table.set_handHistory
                     Table.set_players].
  rewrite (sum_chips_same (Table.players s)); [reflexivity|].
  rewrite ledger_update_same by (by intros []). reflexivity.
- (* call *)
  apply bind_Ok in H as ([] & s0 & Hv & H).
  apply pure_validateAction in Hv. subst s0.
  apply bind_Ok in H as (p & s0 & Hd & H).
  apply deref_Ok in Hd as [-> Hp].
  cbn [Table.bind Table.get] in H. cbv zeta in H.
  destruct (Qleb _ _); [discriminate|].
  cbn [Table.bind Table.update_player Table.modify Table.logAction
       Table.add_pot] in H.
  eexists. split; [exact H|]. split; [|split; reflexivity].
  unfold total. cbn [Table.players Table.pot Table.set_handHistory
                     Table.set_players Table.set_pot].
  rewrite (sum_chips_after_commit _ _ _ p) by exact Hp. ring.
- (* raise *)
  apply bind_Ok in H as ([] & s0 & Hv & H).
  apply pure_validateAction in Hv. subst s0.
  apply bind_Ok in H as (p & s0 & Hd & H).
  apply deref_Ok in Hd as [-> Hp].
  cbn [Table.bind Table.get] in H. cbv zeta in H.
  destruct (_ && _); [discriminate|].
  destruct (Qgtb _ _); [discriminate|].
  apply bind_Ok in H as ([] & s0 & Hu & H). injection Hu as <-.
  apply bind_Ok in H as ([] & s0 & Hu & H). injection Hu as <-.
  apply bind_Ok in H as (p' & s0 & Hd & H).
  apply deref_Ok in Hd as [-> Hp'].
  cbn [Table.bind Table.update_player Table.modify Table.logAction
       Table.get] in H.
  eexists. split; [exact H|]. split; [|split; reflexivity].
  unfold total. cbn [Table.players Table.pot Table.set_handHistory
                     Table.set_players Table.set_pot Table.set_currentBet
                     Table.set_minRaise Table.set_lastRaiserSeat].
  rewrite (sum_chips_after_commit _ _ _ p) by exact Hp. ring.
Qed.

Lemma floor_split_bounds (x n : Q) :
  (0 < n)%Q ->
  (n * Math_floor (x / n) <= x)%Q /\ (x < n * Math_floor (x / n) + n)%Q.
Proof.
intros Hn. unfold Math_floor.
assert (Hne : ~ (n == 0)%Q) by (intros E; rewrite E in Hn; by apply Qlt_irrefl in Hn).
pose proof (Qfloor_le (x / n)) as Hlo.
pose proof (Qlt_floor (x / n)) as Hhi.
rewrite inject_Z_plus in Hhi.
split.
- rewrite <- (Qmult_div_r x n Hne) at 2.
  apply Qmult_le_l; assumption.
- apply Qlt_le_trans with (n * (inject_Z (Qfloor (x / n)) + inject_Z 1))%Q.
  + rewrite <- (Qmult_div_r x n Hne) at 1. apply Qmult_lt_l; assumption.
  + apply Qle_lteq. right. change (inject_Z 1) with 1%Q. ring.
Qed.

(** *** Binary64 on whole amounts *)

Section Binary64.
Local Open Scope Q_scope.

Lemma Qlog2_le (q : Q) : 0 < q -> 2 ^ Qlog2 q <= q.
Proof.
intros Hq. unfold Qlog2.
set (n := Qnum q). set (d := Z.pos (Qden q)).
destruct (Qle_bool (2 ^ (Z.log2 n - Z.log2 d)) q) eqn:E.
- by apply Qle_bool_iff.
- clear E.
  assert (Hn : (0 < n)%Z).
  { unfold Qlt in Hq. simpl in Hq. subst n. lia. }
  assert (Hd : (0 < d)%Z) by (subst d; lia).
  pose proof (Z.log2_nonneg n) as Hn0. pose proof (Z.log2_nonneg d) as Hd0.
  destruct (Z.log2_spec n Hn) as [Hn1 _].
  destruct (Z.log2_spec d Hd) as [_ Hd1].
  assert (Hp : 2 ^ (Z.log2 n - Z.log2 d - 1)
               == inject_Z (2 ^ Z.log2 n) / inject_Z (2 ^ Z.succ (Z.log2 d))).
  { replace (Z.log2 n - Z.log2 d - 1)%Z
      with (Z.log2 n - Z.succ (Z.log2 d))%Z by lia.
    rewrite Qpower_minus by discriminate.
    rewrite !Zpower_Qpower by lia. reflexivity. }
  assert (Hq' : q == inject_Z n / inject_Z d).
  { subst n d. destruct q as [qn qd]. unfold Qeq, Qdiv, Qmult, Qinv.
    simpl. lia. }
  rewrite Hp, Hq'.
  assert (H2 : (0 < inject_Z (2 ^ Z.succ (Z.log2 d)))%Q).
  { change 0%Q with (inject_Z 0). rewrite <- Zlt_Qlt. lia. }
  assert (Hdq : (0 < inject_Z d)%Q).
  { change 0%Q with (inject_Z 0). by rewrite <- Zlt_Qlt. }
  apply Qle_shift_div_r; [exact H2|].
  unfold Qdiv. rewrite <- Qmult_assoc, (Qmult_comm (/ inject_Z d)), Qmult_assoc.
  apply Qle_shift_div_l; [exact Hdq|].
  rewrite <- !inject_Z_mult, <- Zle_Qle. nia.
Qed.

Lemma round_half_even_integer (x : Q) (k : Z) :
  x == inject_Z k -> round_half_even x = k.
Proof.
intros Hx. unfold round_half_even.
assert (Hf : Qfloor x = k) by (rewrite Hx; apply Qfloor_Z).
rewrite Hf.
assert (Hc : (x - inject_Z k ?= 1 # 2) = Lt).
{ rewrite Hx. apply Qlt_alt.
  assert (E : inject_Z k - inject_Z k == 0) by ring.
  rewrite E. reflexivity. }
by rewrite Hc.
Qed.

(** Binary64 holds the integers of magnitude up to [2^52] exactly (the
    bound is not the largest possible). *)
Lemma round64_integer (q : Q) :
  is_integer q -> Qabs q <= 2 ^ 52 -> round64 q == q.
Proof.
unfold is_integer. set (z := Qfloor q). intros Hz Hb. unfold round64.
destruct (Qeq_bool q 0) eqn:E0.
{ apply Qeq_bool_eq in E0. by rewrite E0. }
apply Qeq_bool_neq in E0.
assert (Hz0 : z <> 0%Z).
{ intros E. apply E0. rewrite Hz, E. reflexivity. }
assert (Ha : Qabs q == inject_Z (Z.abs z)).
{ rewrite Hz at 1. reflexivity. }
assert (Hpos : 0 < Qabs q).
{ rewrite Ha. change 0 with (inject_Z 0). rewrite <- Zlt_Qlt. lia. }
pose proof (Qlog2_le _ Hpos) as Hlo.
set (e := Qlog2 (Qabs q)) in *.
assert (He : (e <= 52)%Z).
{ apply (Qpower_le_compat_l_inv 2); [|reflexivity].
  by apply Qle_trans with (Qabs q). }
set (u := Z.max (e - 52) (-1074)).
assert (Hu : (u <= 0)%Z) by lia.
assert (Hdiv : Qabs q / 2 ^ u == inject_Z (Z.abs z * 2 ^ (- u))).
{ rewrite Ha, inject_Z_mult, Zpower_Qpower by lia.
  change (inject_Z 2) with 2. rewrite Qpower_opp.
  unfold Qdiv. reflexivity. }
rewrite (round_half_even_integer _ _ Hdiv).
assert (Hr : inject_Z (Z.abs z * 2 ^ (- u)) * 2 ^ u == Qabs q).
{ rewrite <- Hdiv. field. apply Qpower_not_0. discriminate. }
destruct (Qle_bool 0 q) eqn:Es; rewrite Hr.
- apply Qle_bool_iff in Es. by apply Qabs_pos.
- assert (Hn : q <= 0).
  { destruct (Qlt_le_dec 0 q) as [H|H]; [|exact H].
    apply Qlt_le_weak, Qle_bool_iff in H. congruence. }
  rewrite (Qabs_neg _ Hn). ring.
Qed.

Lemma whole_spec (q : Q) :
  whole q = true <-> is_integer q /\ Qabs q <= 2 ^ 49.
Proof.
unfold whole, is_integer. rewrite andb_true_iff, Qeq_bool_iff, Qle_bool_iff.
reflexivity.
Qed.

Lemma is_integer_inject (q : Q) : is_integer q <-> exists z, q == inject_Z z.
Proof.
unfold is_integer. split; [eauto|].
intros [z Hz]. rewrite Hz at 2. by rewrite Qfloor_Z.
Qed.

(** On whole amounts the sum and the difference that binary64 computes
    are the exact ones. *)
Lemma whole_arithmetic_is_exact (a b : Q) :
  whole a = true -> whole b = true ->
  round64 a == a /\ round64 (a + b) == a + b /\ round64 (a - b) == a - b.
Proof.
rewrite !whole_spec. intros [Ia Ba] [Ib Bb].
assert (H50 : (2 ^ 49 <= 2 ^ 52)%Q) by (vm_compute; discriminate).
assert (H51 : (2 ^ 49 + 2 ^ 49 <= 2 ^ 52)%Q) by (vm_compute; discriminate).
apply is_integer_inject in Ia as Ia'. apply is_integer_inject in Ib as Ib'.
destruct Ia' as [za Hza], Ib' as [zb Hzb].
split; [|split]; apply round64_integer.
- exact Ia.
- by apply Qle_trans with (2 ^ 49).
- apply is_integer_inject. exists (za + zb)%Z.
  by rewrite Hza, Hzb, inject_Z_plus.
- eapply Qle_trans; [apply Qabs_triangle|].
  eapply Qle_trans; [apply Qplus_le_compat; eassumption|exact H51].
- apply is_integer_inject. exists (za - zb)%Z.
  rewrite Hza, Hzb. unfold Z.sub. by rewrite inject_Z_plus, inject_Z_opp.
- unfold Qminus. eapply Qle_trans; [apply Qabs_triangle|].
  rewrite Qabs_opp.
  eapply Qle_trans; [apply Qplus_le_compat; eassumption|exact H51].
Qed.
Lemma round_half_even_bounds (x : Q) :
  (Qfloor x <= round_half_even x <= Qfloor x + 1)%Z.
Proof.
unfold round_half_even.
destruct (x - inject_Z (Qfloor x) ?= 1 # 2); [destruct (Z.even _)| |]; lia.
Qed.

Lemma Qfloor_frac (a : Z) (n : positive) :
  Qfloor (a # n) = (a / Z.pos n)%Z.
Proof. reflexivity. Qed.

(** [Math.floor(w / n)] for a whole [w] that is not negative and a count
    [n]: the floor of the quotient that binary64 computes is the floor of
    the exact quotient. *)
Lemma floor_of_quotient_is_exact (w : Q) (n : positive) :
  is_integer w -> 0 <= w -> w <= 2 ^ 52 -> (Z.pos n <= 2 ^ 52)%Z ->
  Math_floor (round64 (w / inject_Z (Z.pos n)))
  = Math_floor (w / inject_Z (Z.pos n)).
Proof.
intros Hi H0 Hb Hn. unfold Math_floor. f_equal.
apply is_integer_inject in Hi as [W HW].
assert (HW0 : (0 <= W)%Z).
{ rewrite HW in H0. change 0 with (inject_Z 0) in H0. by rewrite <- Zle_Qle in H0. }
assert (HWb : (W <= 2 ^ 52)%Z).
{ rewrite HW in Hb. change (2 ^ 52) with (inject_Z (2 ^ 52)) in Hb.
  by rewrite <- Zle_Qle in Hb. }
set (x := w / inject_Z (Z.pos n)).
assert (Hx : x == W # n).
{ unfold x. rewrite HW. unfold Qeq, Qdiv, Qmult, Qinv, inject_Z. simpl. lia. }
rewrite (Qfloor_comp x _ Hx), Qfloor_frac.
unfold round64.
destruct (Qeq_bool x 0) eqn:E0.
{ apply Qeq_bool_eq in E0. rewrite Hx in E0.
  assert (W = 0%Z) by (unfold Qeq in E0; simpl in E0; lia). subst W.
  reflexivity. }
apply Qeq_bool_neq in E0.
assert (HWpos : (0 < W)%Z).
{ destruct (Z.eq_dec W 0%Z) as [->|]; [|lia]. exfalso. apply E0. by rewrite Hx. }
assert (Hxpos : 0 < x).
{ rewrite Hx. unfold Qlt. simpl. lia. }
assert (Habs : Qabs x == x) by (apply Qabs_pos; by apply Qlt_le_weak).
assert (Hle0 : Qle_bool 0 x = true) by (apply Qle_bool_iff; by apply Qlt_le_weak).
rewrite Hle0.
assert (Hpa : 0 < Qabs x) by (by rewrite Habs).
pose proof (Qlog2_le _ Hpa) as Hlo.
set (e := Qlog2 (Qabs x)) in *.
(* the unit of the last place is at most 1 / n *)
assert (Hxn : x * inject_Z (Z.pos n) <= 2 ^ 52).
{ rewrite Hx. unfold Qle, Qmult, inject_Z. simpl.
  change (Qnum (2 ^ 52)) with (2 ^ 52)%Z. change (QDen (2 ^ 52)) with 1%Z. nia. }
set (u := Z.max (e - 52) (-1074)).
set (t := (- u)%Z).
assert (He : (e <= 52)%Z).
{ apply (Qpower_le_compat_l_inv 2); [|reflexivity].
  apply Qle_trans with (Qabs x); [exact Hlo|]. rewrite Habs.
  apply Qle_trans with (x * inject_Z (Z.pos n)); [|exact Hxn].
  rewrite <- (Qmult_1_r x) at 1. apply Qmult_le_l; [exact Hxpos|].
  change 1 with (inject_Z 1). rewrite <- Zle_Qle. lia. }
assert (Ht0 : (0 <= t)%Z) by (unfold t, u; lia).
assert (HT : (Z.pos n <= 2 ^ t)%Z).
{ unfold t, u. destruct (Z.max_spec (e - 52) (-1074)) as [[_ ->]|[_ ->]].
  - change (- -1074)%Z with 1074%Z.
    apply Z.le_trans with (2 ^ 52)%Z; [exact Hn|].
    apply Z.pow_le_mono_r; lia.
  - (* 2^e * n <= x * n <= 2^52 *)
    assert (H1 : 2 ^ e * inject_Z (Z.pos n) <= 2 ^ 52).
    { apply Qle_trans with (x * inject_Z (Z.pos n)); [|exact Hxn].
      apply Qmult_le_compat_r; [by rewrite <- Habs|].
      change 0 with (inject_Z 0). rewrite <- Zle_Qle. lia. }
    assert (H2 : inject_Z (Z.pos n) <= 2 ^ (52 - e)).
    { replace (52 - e)%Z with (52 + - e)%Z by lia.
      rewrite Qpower_plus by discriminate. rewrite Qpower_opp.
      apply Qle_shift_div_l; [apply Qpower_0_lt; reflexivity|].
      by rewrite Qmult_comm. }
    replace (- (e - 52))%Z with (52 - e)%Z by lia.
    rewrite Zle_Qle. rewrite (Zpower_Qpower 2 (52 - e)) by lia. exact H2. }
set (T := (2 ^ t)%Z) in *.
assert (HTpos : (0 < T)%Z) by (unfold T; apply Z.pow_pos_nonneg; lia).
assert (Hpow : 2 ^ u == / inject_Z T).
{ unfold T. rewrite Zpower_Qpower by lia. change (inject_Z 2) with 2.
  rewrite <- Qpower_opp. unfold t. by rewrite Z.opp_involutive. }
assert (Hy : Qabs x / 2 ^ u == (W * T # n)).
{ rewrite Habs, Hx, Hpow. unfold Qdiv. rewrite Qinv_involutive.
  unfold Qeq, Qmult, inject_Z. cbn [Qnum Qden]. rewrite Pos.mul_1_r. lia. }
set (m := round_half_even (Qabs x / 2 ^ u)).
pose proof (round_half_even_bounds (Qabs x / 2 ^ u)) as Hm. fold m in Hm.
rewrite (Qfloor_comp _ _ Hy), Qfloor_frac in Hm.
assert (Hr : inject_Z m * 2 ^ u == (m # Z.to_pos T)).
{ rewrite Hpow. unfold Qeq, Qmult, Qinv, inject_Z. cbn [Qnum Qden].
  destruct T eqn:ET; try lia. cbn [Qnum Qden Z.to_pos]. lia. }
rewrite (Qfloor_comp _ _ Hr), Qfloor_frac.
rewrite Z2Pos.id by exact HTpos.
set (k := (W / Z.pos n)%Z).
set (q0 := (W * T / Z.pos n)%Z) in *.
pose proof (Z.div_mod W (Z.pos n) ltac:(lia)) as Hk. fold k in Hk.
pose proof (Z.mod_pos_bound W (Z.pos n) ltac:(lia)) as Hkr.
pose proof (Z.div_mod (W * T) (Z.pos n) ltac:(lia)) as Hq. fold q0 in Hq.
pose proof (Z.mod_pos_bound (W * T) (Z.pos n) ltac:(lia)) as Hqr.
set (r := (W mod Z.pos n)%Z) in *. set (r0 := ((W * T) mod Z.pos n)%Z) in *.
assert (Hexact : r0 = 0%Z -> m = q0).
{ intros Hr0. unfold m. apply round_half_even_integer. rewrite Hy.
  unfold Qeq, inject_Z. simpl. lia. }
assert (Hlow : (k * T <= m)%Z) by nia.
assert (Hup : (m < (k + 1) * T)%Z).
{ destruct (Z.eq_dec r0 0%Z) as [E|E].
  - rewrite (Hexact E). nia.
  - nia. }
symmetry. apply (Z.div_unique m T k (m - k * T)); lia.
Qed.

End Binary64.

Lemma split_pot_table_reachable : reachable demo_hash split_pot_table.
Proof. apply reachable_run. apply reachable_new. Qed.

Lemma raised_table_reachable : reachable demo_hash raised_table.
Proof. apply reachable_run. exact heads_up_reachable. Qed.

(** C1, as stated, fails where an action ends the hand, and its exact
    equalities fail where binary64 rounds.
    - When alice folds heads-up, bob is awarded 28.5 from the pot of 30
      (rake 1.5) and the pot is left at 30, so [sum(chips) + pot] goes
      from 800 to 828.5 and not to 800 - 1.5.
    - When the board plays for both players, the pot of 100 is split
      after a rake of 5: each receives [floor(95 / 2) = 47], the stacks
      then hold 794 and not 800 - 5, and with the pot still at 100
      [sum(chips) + pot] is 894.
    - With a pot of 61, a table of whole amounts, the rake that binary64
      computes is not [61/20].
    - For a stack of 396.95 raised all-in into a pot of 130, the stack
      and the pot that binary64 stores afterwards do not add up to the
      sum before. *)
Lemma award_is_not_conserved :
  (let s := heads_up in
   let s' := snd (act Fold "alice-1" s) in
   reachable demo_hash s
   /\ (exists snap w,
       fst (act Fold "alice-1" s) = Ok snap
       /\ snap_winner snap = Some w
       /\ (win_rake w == 3 # 2)%Q
       /\ ~ (total s' == total s - win_rake w)%Q)
   /\ (total s == 800)%Q
   /\ (total s' == 1657 # 2)%Q
   /\ ~ (total s' == total s)%Q)
  /\ (let s := split_pot_table in
      let s' := snd (act Check "alice-1" s) in
      reachable demo_hash s
      /\ whole_table s = true
      /\ (exists snap sd,
          fst (act Check "alice-1" s) = Ok snap
          /\ snap_winner snap = None
          /\ snap_showdown snap = Some sd
          /\ sd_winners sd = ["alice-1"; "bob-2"]%string
          /\ (sd_pot sd == 100)%Q
          /\ (sd_rake sd == 5)%Q
          /\ (sd_winAmount sd == 47)%Q)
      /\ (total s == 800)%Q
      /\ (sum_chips (Table.players s') == 794)%Q
      /\ (total s' == 894)%Q)
  /\ (let s := raised_table in
      reachable demo_hash s
      /\ whole_table s = true
      /\ (Table.pot s == 61)%Q
      /\ (Table.rake_of s == 61 # 20)%Q
      /\ (rake64 s == 6867989431740007 # 2251799813685248)%Q
      /\ ~ (rake64 s == Table.rake_of s)%Q)
  /\ (let amount := round64 (7939 # 20) in
      let chips := amount in
      let pot := 130%Q in
      ~ (fst (raise64 amount chips pot) + snd (raise64 amount chips pot)
         == chips + pot)%Q).
Proof.
cbv zeta. split; [|split; [|split]].
- split; [exact heads_up_reachable|]. split; [|split; [|split]].
  + eexists. eexists. split; [vm_compute; reflexivity|].
    split; [reflexivity|]. split; vm_compute; congruence.
  + vm_compute. reflexivity.
  + vm_compute. reflexivity.
  + vm_compute. congruence.
- split; [exact split_pot_table_reachable|].
  split; [vm_compute; reflexivity|].
  split; [|split; [|split]].
  + eexists. eexists. split; [vm_compute; reflexivity|].
    split; [reflexivity|]. split; [reflexivity|].
    split; [reflexivity|]. repeat split; vm_compute; reflexivity.
  + vm_compute. reflexivity.
  + vm_compute. reflexivity.
  + vm_compute. reflexivity.
- split; [exact raised_table_reachable|].
  split; [vm_compute; reflexivity|].
  split; [vm_compute; reflexivity|].
  split; [vm_compute; reflexivity|].
  split; [vm_compute; reflexivity|].
  vm_compute. congruence.
- vm_compute. congruence.
Qed.

(** C1, amended.  On a table whose stacks, bets and pot are whole
    numbers of chips (on these the sums, differences and floored
    quotients of the source are exact, [whole_arithmetic_is_exact] and
    [floor_of_quotient_is_exact]), a successful [fold], [check],
    [call] or [raise] of a whole amount that does not end the hand leaves
    [sum(chips) + pot] unchanged.  When it ends the hand, the award
    does not clear the pot field: where the rake that binary64 computes
    from the pot field afterwards is the exact rake and whole,
    [sum(chips) + pot] has grown by what is won.
    Uncontested, the amount won is that pot less the rake, so the stacks
    afterwards hold the whole of [sum(chips) + pot] from before except
    the rake; at showdown the [n] winners receive the floor of an [n]-th
    of the pot after rake each, so the stacks hold that sum except the
    rake and a remainder below [n]. *)
Theorem action_chip_accounting
    (a : Action) (playerId : string) (s s' : Table.t) (snap : Snapshot) :
  whole_table s = true ->
  whole_action a = true ->
  act a playerId s = (Ok snap, s') ->
  match snap_winner snap, snap_showdown snap with
  | None, None => (total s' == total s)%Q
  | Some w, _ =>
      exact_rake s' = true ->
      win_rake w = Table.rake_of s'
      /\ win_amount w = (Table.pot s' - win_rake w)%Q
      /\ (total s' == total s + win_amount w)%Q
      /\ (sum_chips (Table.players s') == total s - win_rake w)%Q
  | None, Some sd =>
      let n := inject_Z (Z.of_nat (length (sd_winners sd))) in
      (1 <= length (sd_winners sd))%nat
      /\ sd_pot sd = Table.pot s'
      /\ (exact_rake s' = true ->
          sd_rake sd = Table.rake_of s'
          /\ sd_winAmount sd = Math_floor ((sd_pot sd - sd_rake sd) / n)
          /\ (total s' == total s + n * sd_winAmount sd)%Q
          /\ (sum_chips (Table.players s')
              == total s - sd_pot sd + n * sd_winAmount sd)%Q
          /\ (sum_chips (Table.players s') <= total s - sd_rake sd)%Q
          /\ (total s - sd_rake sd - n < sum_chips (Table.players s'))%Q)
  end.
Proof.
intros _ _ H. apply act_bets_then_advances in H as (s1 & H & Ht & _ & _).
apply advanceGame_outcome in H. unfold game_outcome in H.
destruct (snap_winner snap) as [w|]; [|destruct (snap_showdown snap) as [sd|]].
- destruct H as (Hp & Hr & Hm & Hrk & Ha & Hs). intros _.
  assert (Hrk' : win_rake w = Table.rake_of s').
  { rewrite Hrk. unfold Table.rake_of. by rewrite Hp, Hr, Hm. }
  split; [exact Hrk'|]. split; [by rewrite Hp|].
  split.
  + unfold total at 1. rewrite Hs, Hp, <- Ht. unfold total. ring.
  + rewrite Hs, Ha, <- Ht. unfold total. ring.
- destruct H as (Hn & Hp & Hr & Hm & Hsp & Hrk & Hwa & Hs).
  cbv zeta.
  split; [exact Hn|]. split; [congruence|]. intros _.
  assert (Hsum : (sum_chips (Table.players s')
                  == total s - sd_pot sd
                     + inject_Z (Z.of_nat (length (sd_winners sd)))
                       * sd_winAmount sd)%Q).
  { rewrite Hs, Hsp, <- Ht. unfold total. ring. }
  assert (Hpos : (0 < inject_Z (Z.of_nat (length (sd_winners sd))))%Q).
  { change 0%Q with (inject_Z 0). rewrite <- Zlt_Qlt. lia. }
  destruct (floor_split_bounds (sd_pot sd - sd_rake sd) _ Hpos) as [Hlo Hhi].
  rewrite <- Hwa in Hlo, Hhi.
  repeat split; try assumption.
  + rewrite Hrk. unfold Table.rake_of. by rewrite Hp, Hr, Hm.
  + unfold total at 1. rewrite Hsum, Hp, <- Hsp. ring.
  + rewrite Hsum. lra.
  + rewrite Hsum. lra.
- destruct H as (Hl & Hp & _). rewrite <- Ht. unfold total.
  by rewrite (sum_chips_same _ _ Hl), Hp.
Qed.

Lemma action_chip_accounting_witness :
  whole_table split_pot_table = true
  /\ exists snap s',
    act Check "alice-1" split_pot_table = (Ok snap, s')
    /\ exact_rake s' = true
    /\ match snap_winner snap, snap_showdown snap with
       | None, None => (total s' == total split_pot_table)%Q
       | Some w, _ =>
           exact_rake s' = true ->
           win_rake w = Table.rake_of s'
           /\ win_amount w = (Table.pot s' - win_rake w)%Q
           /\ (total s' == total split_pot_table + win_amount w)%Q
           /\ (sum_chips (Table.players s')
               == total split_pot_table - win_rake w)%Q
       | None, Some sd =>
           let n := inject_Z (Z.of_nat (length (sd_winners sd))) in
           (1 <= length (sd_winners sd))%nat
           /\ sd_pot sd = Table.pot s'
           /\ (exact_rake s' = true ->
               sd_rake sd = Table.rake_of s'
               /\ sd_winAmount sd = Math_floor ((sd_pot sd - sd_rake sd) / n)
               /\ (total s' == total split_pot_table + n * sd_winAmount sd)%Q
               /\ (sum_chips (Table.players s')
                   == total split_pot_table - sd_pot sd
                      + n * sd_winAmount sd)%Q
               /\ (sum_chips (Table.players s')
                   <= total split_pot_table - sd_rake sd)%Q
               /\ (total split_pot_table - sd_rake sd - n
                   < sum_chips (Table.players s'))%Q)
       end.
Proof.
split; [vm_compute; reflexivity|].
eexists. eexists. split; [vm_compute; reflexivity|].
split; [vm_compute; reflexivity|].
apply (action_chip_accounting Check "alice-1" split_pot_table).
- vm_compute. reflexivity.
- reflexivity.
- vm_compute. reflexivity.
Defined.

(** *** The short all-in *)

Lemma short_stack_reachable : reachable demo_hash short_stack.
Proof. apply reachable_run. apply reachable_new. Qed.

(** C5 on the code: bob's all-in for his last 5 chips succeeds, the hand
    stays in the same betting round, and the current bet of the table
    drops from 20 to bob's 15. *)
Lemma short_allIn_lowers_currentBet :
  let s := short_stack in
  let s' := snd (Table.allIn "bob-2" s) in
  reachable demo_hash s
  /\ (exists snap, fst (Table.allIn "bob-2" s) = Ok snap)
  /\ Table.phase s = PREFLOP
  /\ Table.phase s' = PREFLOP
  /\ (Table.currentBet s == 20)%Q
  /\ (Table.currentBet s' == 15)%Q
  /\ (Table.currentBet s' < Table.currentBet s)%Q.
Proof.
cbv zeta. split; [exact short_stack_reachable|].
split; [|repeat split]; try (vm_compute; reflexivity).
eexists. vm_compute. reflexivity.
Qed.

(** C8 on the code: after alice folds heads-up, bob's stack is
    380 + (30 - 1.5) = 408.5, not an integer. *)
Lemma uncontested_award_is_fractional :
  let s' := run demo_hash [OpFold "alice-1"] heads_up in
  reachable demo_hash s'
  /\ exists p,
      pm_get "bob-2" (Table.players s') = Some p
      /\ (Player.chips p == 817 # 2)%Q
      /\ ~ is_integer (Player.chips p).
Proof.
cbv zeta. split.
{ apply reachable_run. exact heads_up_reachable. }
eexists. split; [vm_compute; reflexivity|].
split; [vm_compute; reflexivity|].
unfold is_integer. vm_compute. congruence.
Qed.

(** ** Further properties of the deck *)

Lemma insert_swap_head (x b : Card) l j :
  l !! j = Some b -> b :: <[j := x]> l ≡ₚ x :: l.
Proof.
revert j. induction l as [|a l IH]; intros [|j] H; simplify_eq/=.
- apply perm_swap.
- rewrite (perm_swap a b), (IH _ H). apply perm_swap.
Qed.

Lemma swap_perm i j l : swap i j l ≡ₚ l.
Proof.
unfold swap.
destruct (l !! i) as [ci|] eqn:Ei; [|reflexivity].
destruct (l !! j) as [cj|] eqn:Ej; [|reflexivity].
revert i j Ei Ej. induction l as [|a l IH]; intros [|i] [|j] Ei Ej;
  simplify_eq/=.
- reflexivity.
- by apply insert_swap_head.
- by apply insert_swap_head.
- by rewrite (IH _ _ Ei Ej).
Qed.

Lemma shuffle_from_perm draws k i l : shuffle_from draws k i l ≡ₚ l.
Proof.
revert k l. induction i as [|i IH]; intros k l; simpl; [reflexivity|].
by rewrite IH, swap_perm.
Qed.

Lemma shuffle_perm draws l : shuffle draws l ≡ₚ l.
Proof. apply shuffle_from_perm. Qed.

Lemma buildDeck_NoDup : NoDup buildDeck.
Proof. apply (bool_decide_unpack _). vm_compute. reflexivity. Qed.

Lemma buildDeck_complete r s :
  In r RANKS -> In s SUITS -> In (newCard r s) buildDeck.
Proof.
intros Hr Hs. unfold buildDeck. apply in_flat_map. exists s.
split; [exact Hs|]. apply in_map_iff. by exists r.
Qed.

Section FullDeck.
Variable sha256 : string -> string.

(** X1.  Whatever the salt and the random draws of the shuffle, a new
    [SecureDeck] holds a permutation of the deck that [_buildDeck] builds:
    52 cards, no card twice, one for every rank and suit. *)
Theorem new_deck_is_a_full_deck (saltHex : string) (draws : nat -> Z) :
  let d := newSecureDeck sha256 saltHex draws in
  cards d ≡ₚ buildDeck
  /\ NoDup (cards d)
  /\ cardsRemaining d = 52
  /\ (forall r s, In r RANKS -> In s SUITS -> In (newCard r s) (cards d)).
Proof.
intros d.
destruct (newSecureDeck_fields sha256 saltHex draws) as (Hc & _ & _).
fold d in Hc. clearbody d.
assert (Hp : cards d ≡ₚ buildDeck) by (rewrite Hc; apply shuffle_perm).
split; [exact Hp|]. split; [|split].
- rewrite Hp. exact buildDeck_NoDup.
- unfold cardsRemaining. by rewrite Hp.
- intros r s Hr Hs. apply list_elem_of_In. rewrite Hp.
  apply list_elem_of_In. by apply buildDeck_complete.
Qed.
End FullDeck.

Lemma pop_None {A} (l : list A) : pop l = None -> l = [].
Proof.
induction l as [|x l IH]; [reflexivity|]. simpl.
destruct l as [|y l]; [discriminate|].
destruct (pop (y :: l)) as [[z r]|]; [discriminate|].
intros _. specialize (IH eq_refl). discriminate.
Qed.

Lemma deal_many_length n d :
  (n <= length (cards d))%nat -> length (fst (deal_many n d)) = n.
Proof.
revert d. induction n as [|n IH]; intros d Hn; simpl; [reflexivity|].
unfold deal. destruct (pop (cards d)) as [[c rest]|] eqn:E.
- apply pop_spec in E.
  specialize (IH {| cards := rest; salt := salt d; commitment := commitment d;
                    revealed := revealed d |}).
  simpl in IH. rewrite E, length_app in Hn. simpl in Hn.
  destruct (deal_many n _) as [cs d'']. simpl in *. f_equal. apply IH. lia.
- apply pop_None in E. rewrite E in Hn. simpl in Hn. lia.
Qed.

(** X2.  [n] calls of [deal()] on a deck of at least [n] cards return its
    last [n] cards, the last one first, and leave the others in place;
    [cardsRemaining()] drops by [n]; on a deck that has run out, [deal()]
    throws 'Deck is empty' and leaves the deck as it is. *)
Theorem deal_takes_cards_from_the_end (d : SecureDeck) (n : nat) :
  (n <= length (cards d))%nat ->
  let k := (length (cards d) - n)%nat in
  fst (deal_many n d) = reverse (drop k (cards d))
  /\ cards (snd (deal_many n d)) = take k (cards d)
  /\ cardsRemaining (snd (deal_many n d)) = cardsRemaining d - Z.of_nat n
  /\ (cardsRemaining (snd (deal_many n d)) = 0 ->
      deal (snd (deal_many n d)) = (Throw EmptyDeck, snd (deal_many n d))).
Proof.
intros Hn k.
pose proof (deal_many_length n d Hn) as Hl.
destruct (deal_many n d) as [dealt d'] eqn:E. cbn [fst snd] in *.
apply deal_many_spec in E. destruct E as (Hc & _ & _).
assert (Hk : length (cards d') = k).
{ apply (f_equal length) in Hc. rewrite length_app, length_reverse in Hc.
  unfold k. lia. }
assert (Ht : cards d' = take k (cards d)).
{ rewrite Hc, <- Hk. by rewrite take_app_length. }
split; [|split; [exact Ht|split]].
- rewrite Hc, <- Hk, drop_app_length. by rewrite reverse_involutive.
- unfold cardsRemaining. rewrite Hk. unfold k. lia.
- unfold cardsRemaining. intros H0. unfold deal.
  destruct (cards d'); [reflexivity|simpl in H0; lia].
Qed.

Lemma deal_takes_cards_from_the_end_witness :
  let d := newSecureDeck (fun s => s) "00" (fun _ => 0) in
  fst (deal_many 52 d) = reverse (drop 0 (cards d))
  /\ cards (snd (deal_many 52 d)) = take 0 (cards d)
  /\ cardsRemaining (snd (deal_many 52 d)) = cardsRemaining d - 52
  /\ (cardsRemaining (snd (deal_many 52 d)) = 0 ->
      deal (snd (deal_many 52 d)) = (Throw EmptyDeck, snd (deal_many 52 d))).
Proof.
intros d.
apply (deal_takes_cards_from_the_end d 52). vm_compute. reflexivity.
Defined.

(** ** Further properties of the evaluator *)

Lemma getCombinations_step {A} k el (rest : list A) :
  getCombinations (S (S k)) (el :: rest)
  = map (cons el) (getCombinations (S k) rest)
    ++ getCombinations (S (S k)) rest.
Proof. reflexivity. Qed.

Lemma getCombinations_nil {A} k : getCombinations (S k) (@nil A) = [].
Proof. by destruct k. Qed.

Lemma getCombinations_sublist {A} (k : nat) (arr c : list A) :
  In c (getCombinations (S k) arr) <-> sublist c arr /\ length c = S k.
Proof.
revert arr c. induction k as [|k IH]; intros arr c.
- simpl. rewrite in_map_iff. split.
  + intros (el & <- & Hel). split; [|reflexivity].
    apply singleton_sublist_l. by apply list_elem_of_In.
  + intros [Hs Hl]. destruct c as [|el [|? ?]]; simpl in Hl; try lia.
    exists el. split; [reflexivity|].
    apply list_elem_of_In. by apply singleton_sublist_l.
- induction arr as [|el rest IHa].
  + rewrite getCombinations_nil. simpl. split; [tauto|].
    intros [Hs Hl]. apply sublist_nil_r in Hs. subst. discriminate.
  + rewrite getCombinations_step, in_app_iff, in_map_iff, sublist_cons_r.
    rewrite IHa. split.
    * intros [(c' & <- & Hc')|[Hs Hl]].
      -- apply IH in Hc' as [Hs Hl]. split; [|simpl; lia]. right. eauto.
      -- split; [by left|exact Hl].
    * intros [[Hs|(c' & -> & Hs)] Hl].
      -- right. by split.
      -- left. exists c'. split; [reflexivity|]. apply IH.
         split; [exact Hs|]. simpl in Hl. lia.
Qed.

Lemma getCombinations_count {A} (k : nat) (arr : list A) :
  length (getCombinations (S k) arr) = choose (length arr) (S k).
Proof.
revert arr. induction k as [|k IH]; intros arr.
- simpl getCombinations. rewrite length_map.
  induction arr as [|x arr IHa]; [reflexivity|].
  cbn [length choose]. rewrite <- IHa. by destruct (length arr).
- induction arr as [|el rest IHa]; [reflexivity|].
  rewrite getCombinations_step, length_app, length_map, IH, IHa.
  reflexivity.
Qed.

(** X3.  For a size of at least 1, [getCombinations(arr, size)] returns
    exactly the subsequences of [arr] of that length (elements in the
    order of [arr]), as many as the binomial coefficient says: 21 for five
    out of seven cards.  For size 0 it returns no combination at all. *)
Theorem getCombinations_are_the_sublists {A} (k : nat) (arr : list A) :
  getCombinations 0 arr = []
  /\ (forall c, In c (getCombinations (S k) arr)
                <-> sublist c arr /\ length c = S k)
  /\ length (getCombinations (S k) arr) = choose (length arr) (S k)
  /\ choose 7 5 = 21%nat.
Proof.
split; [reflexivity|]. split; [apply getCombinations_sublist|].
split; [apply getCombinations_count|reflexivity].
Qed.

Lemma sorted_values_perm cs cs' :
  cs ≡ₚ cs' ->
  map value (js_sort (fun a b => value b - value a) cs)
  = map value (js_sort (fun a b => value b - value a) cs').
Proof.
intros Hp. rewrite !ranks_sorted. apply descending_unique.
- apply js_sort_descending.
- apply js_sort_descending.
- by rewrite !js_sort_perm, Hp.
Qed.

Lemma evaluate5Cards_perm cs cs' :
  cs ≡ₚ cs' -> evaluate5Cards cs = evaluate5Cards cs'.
Proof.
intros Hp. unfold evaluate5Cards. cbv zeta.
rewrite (sorted_values_perm cs cs' Hp).
rewrite (all_same_perm (map suit (js_sort (fun a b => value b - value a) cs))
           (map suit (js_sort (fun a b => value b - value a) cs'))).
- reflexivity.
- by rewrite !js_sort_perm, Hp.
Qed.

(** X4.  [evaluate5Cards] does not depend on the order in which the
    cards are given. *)
Theorem evaluate5Cards_ignores_card_order (cs cs' : list Card) :
  cs ≡ₚ cs' -> evaluate5Cards cs = evaluate5Cards cs'.
Proof. apply evaluate5Cards_perm. Qed.

Lemma evaluate5Cards_ignores_card_order_witness :
  evaluate5Cards wheel_hand = evaluate5Cards (reverse wheel_hand).
Proof.
apply (evaluate5Cards_ignores_card_order wheel_hand (reverse wheel_hand)).
apply (bool_decide_unpack _). vm_compute. reflexivity.
Defined.

Lemma same_strength_compare_l a a' b :
  same_strength a a' -> compareHands a b = compareHands a' b.
Proof. intros [H1 H2]. unfold compareHands. by rewrite H1, H2. Qed.

Lemma same_strength_compare_r a b b' :
  same_strength b b' -> compareHands a b = compareHands a b'.
Proof. intros [H1 H2]. unfold compareHands. by rewrite H1, H2. Qed.

Lemma same_strength_well_formed a b :
  same_strength a b -> well_formed a -> well_formed b.
Proof. intros [H1 H2]. unfold well_formed. by rewrite H1, H2. Qed.

Lemma no_stronger_refl a : well_formed a -> no_stronger a a.
Proof.
intros Ha. destruct (compareHands_total a a Ha Ha) as (z & H1 & H2 & _).
exists z. split; [exact H1|]. rewrite H1 in H2. injection H2. lia.
Qed.

Lemma no_stronger_trans a b c :
  well_formed a -> well_formed b -> well_formed c ->
  no_stronger a b -> no_stronger b c -> no_stronger a c.
Proof.
intros Ha Hb Hc (x & Hx & Hx0) (y & Hy & Hy0).
destruct (compareHands_total a b Ha Hb) as (x' & Hab & Hba & _).
destruct (compareHands_total b c Hb Hc) as (y' & Hbc & Hcb & _).
destruct (compareHands_total a c Ha Hc) as (w & Hac & Hca & _).
rewrite Hx in Hab. injection Hab as <-.
rewrite Hy in Hbc. injection Hbc as <-.
exists w. split; [exact Hac|].
destruct (compareHands_trans c b a (- y) (- x) (- w) Hc Hb Ha Hcb Hba Hca)
  as (H & _ & _). lia.
Qed.

Lemma not_gt0_no_stronger a b :
  well_formed a -> well_formed b ->
  js_gt0 (compareHands a b) = false -> no_stronger a b.
Proof.
intros Ha Hb H. destruct (compareHands_total a b Ha Hb) as (z & Hz & _ & _).
rewrite Hz in H. simpl in H. apply Z.ltb_ge in H. by exists z.
Qed.

Lemma gt0_no_stronger a b :
  well_formed a -> well_formed b ->
  js_gt0 (compareHands a b) = true -> no_stronger b a.
Proof.
intros Ha Hb H. destruct (compareHands_total a b Ha Hb) as (z & Hz & Hz' & _).
rewrite Hz in H. simpl in H. apply Z.ltb_lt in H. exists (- z).
split; [exact Hz'|lia].
Qed.

Lemma keep_best_first combo :
  length combo = 5%nat ->
  exists r, keep_best None combo = Some r /\ best_so_far [combo] r.
Proof.
intros Hl. eexists. split; [reflexivity|].
pose proof (evaluate5Cards_well_formed combo Hl) as Hwf.
split; [exact Hwf|]. split.
- exists combo. simpl. repeat split. by left.
- intros c [<-|[]].
  unfold no_stronger.
  rewrite (same_strength_compare_r _ _ (evaluate5Cards combo)); [|by split].
  by apply no_stronger_refl.
Qed.

Lemma keep_best_next seen b combo :
  length combo = 5%nat ->
  Forall (fun c => length c = 5%nat) seen ->
  best_so_far seen b ->
  exists r, keep_best (Some b) combo = Some r
            /\ best_so_far (seen ++ [combo]) r.
Proof.
intros Hl Hseen (Hb & (c0 & Hc0 & Hin0 & Hs0) & Hall).
pose proof (evaluate5Cards_well_formed combo Hl) as Hwf.
unfold keep_best. cbv zeta.
destruct (js_gt0 (compareHands (evaluate5Cards combo) b)) eqn:E.
- eexists. split; [reflexivity|].
  set (r := mkHand _ _ _).
  assert (Hrs : same_strength r (evaluate5Cards combo)) by (by split).
  assert (Hr : well_formed r) by exact Hwf.
  split; [exact Hr|]. split.
  + exists combo. repeat split. apply in_app_iff. right. by left.
  + intros c Hc. apply in_app_iff in Hc as [Hc|[<-|[]]].
    * apply (no_stronger_trans _ b _).
      -- apply evaluate5Cards_well_formed.
         rewrite Forall_forall in Hseen. apply Hseen. by apply list_elem_of_In.
      -- exact Hb.
      -- exact Hr.
      -- by apply Hall.
      -- unfold no_stronger.
         rewrite (same_strength_compare_r _ _ _ Hrs).
         by apply gt0_no_stronger.
    * unfold no_stronger. rewrite (same_strength_compare_r _ _ _ Hrs).
      by apply no_stronger_refl.
- exists b. split; [reflexivity|]. split; [exact Hb|]. split.
  + exists c0. repeat split; try apply Hs0; [exact Hc0|].
    apply in_app_iff. by left.
  + intros c Hc. apply in_app_iff in Hc as [Hc|[<-|[]]].
    * by apply Hall.
    * by apply not_gt0_no_stronger.
Qed.

Lemma fold_keep_best combos seen b :
  Forall (fun c => length c = 5%nat) combos ->
  Forall (fun c => length c = 5%nat) seen ->
  best_so_far seen b ->
  exists r, fold_left keep_best combos (Some b) = Some r
            /\ best_so_far (seen ++ combos) r.
Proof.
intros Hc. revert seen b. induction Hc as [|combo combos Hl Hc IH];
  intros seen b Hseen Hb.
- exists b. rewrite app_nil_r. by split.
- destruct (keep_best_next seen b combo Hl Hseen Hb) as (r1 & E1 & H1).
  destruct (IH (seen ++ [combo]) r1) as (r & E & H).
  + apply Forall_app. split; [exact Hseen|]. by constructor.
  + exact H1.
  + exists r. cbn [fold_left]. rewrite E1. split; [exact E|].
    by rewrite <- app_assoc in H.
Qed.

Lemma evaluateHand_fold cs :
  (5 <= length cs)%nat ->
  evaluateHand cs = Ok (fold_left keep_best (getCombinations 5 cs) None).
Proof.
intros H. unfold evaluateHand.
destruct (length cs <? 5)%nat eqn:E; [apply Nat.ltb_lt in E; lia|].
reflexivity.
Qed.

Lemma evaluateHand_best cs :
  (5 <= length cs)%nat ->
  exists r, evaluateHand cs = Ok (Some r)
            /\ best_so_far (getCombinations 5 cs) r.
Proof.
intros H. rewrite (evaluateHand_fold cs H).
pose proof (getCombinations_length 5 cs) as Hl.
pose proof (getCombinations_nonempty 5 cs ltac:(lia)) as Hne.
destruct (getCombinations 5 cs) as [|combo combos]; [congruence|].
inversion Hl as [|? ? Hl1 Hl2]; subst.
destruct (keep_best_first combo Hl1) as (r1 & E1 & H1).
destruct (fold_keep_best combos [combo] r1 Hl2) as (r & E & Hr).
- by constructor.
- exact H1.
- exists r. cbn [fold_left]. rewrite E1. by split; [f_equal|].
Qed.

(** X5.  For five cards or more, [evaluateHand] returns the evaluation
    of one five-card subsequence of its argument, stored in [cards], and
    no five-card subsequence compares higher than it. *)
Theorem evaluateHand_is_the_best_five (cs : list Card) :
  (5 <= length cs)%nat ->
  exists r best,
    evaluateHand cs = Ok (Some r)
    /\ hand_cards r = Some best
    /\ sublist best cs /\ length best = 5%nat
    /\ ranking r = ranking (evaluate5Cards best)
    /\ kickers r = kickers (evaluate5Cards best)
    /\ forall five, sublist five cs -> length five = 5%nat ->
         exists z, compareHands (evaluate5Cards five) r = Some z /\ z <= 0.
Proof.
intros H.
destruct (evaluateHand_best cs H) as (r & E & Hwf & (c & Hc & Hin & Hs1 & Hs2) & Hall).
apply getCombinations_sublist in Hin as [Hsub Hlen].
exists r, c. repeat split; try assumption.
intros five Hf Hl. apply Hall. apply getCombinations_sublist. by split.
Qed.

Lemma evaluateHand_is_the_best_five_witness :
  exists r best,
    evaluateHand sample_hand_1 = Ok (Some r)
    /\ hand_cards r = Some best
    /\ sublist best sample_hand_1 /\ length best = 5%nat
    /\ ranking r = ranking (evaluate5Cards best)
    /\ kickers r = kickers (evaluate5Cards best)
    /\ forall five, sublist five sample_hand_1 -> length five = 5%nat ->
         exists z, compareHands (evaluate5Cards five) r = Some z /\ z <= 0.
Proof.
apply (evaluateHand_is_the_best_five sample_hand_1). simpl. lia.
Defined.

(** X6.  More cards never make a hand worse: the result for a
    subsequence of the cards does not compare higher than the result for
    all of them. *)
Theorem evaluateHand_monotone (cs cs' : list Card) :
  (5 <= length cs)%nat ->
  sublist cs cs' ->
  exists r r' z,
    evaluateHand cs = Ok (Some r)
    /\ evaluateHand cs' = Ok (Some r')
    /\ compareHands r r' = Some z /\ z <= 0.
Proof.
intros H Hsub.
assert (H' : (5 <= length cs')%nat).
{ apply sublist_length in Hsub. lia. }
destruct (evaluateHand_best cs H) as (r & E & Hwf & (c & Hc & Hin & Hs) & _).
destruct (evaluateHand_best cs' H') as (r' & E' & Hwf' & _ & Hall').
apply getCombinations_sublist in Hin as [Hsc Hlen].
destruct (Hall' c) as (z & Hz & Hz0).
{ apply getCombinations_sublist. split; [|exact Hlen]. by trans cs. }
exists r, r', z. repeat split; try assumption.
by rewrite (same_strength_compare_l _ _ _ Hs).
Qed.

Lemma evaluateHand_monotone_witness :
  exists r r' z,
    evaluateHand (take 5 sample_hand_1) = Ok (Some r)
    /\ evaluateHand sample_hand_1 = Ok (Some r')
    /\ compareHands r r' = Some z /\ z <= 0.
Proof.
apply (evaluateHand_monotone (take 5 sample_hand_1) sample_hand_1).
- simpl. lia.
- apply sublist_take.
Defined.

Lemma best_so_far_submseteq cs cs' r r' :
  cs ⊆+ cs' ->
  best_so_far (getCombinations 5 cs) r ->
  best_so_far (getCombinations 5 cs') r' ->
  no_stronger r r'.
Proof.
intros Hsub (Hwf & (c & Hc & Hin & Hs) & _) (Hwf' & _ & Hall').
apply getCombinations_sublist in Hin as [Hsc Hlen].
assert (Hc' : c ⊆+ cs') by (trans cs; [by apply sublist_submseteq|exact Hsub]).
apply submseteq_sublist_r in Hc' as (c' & Hp & Hsc').
unfold no_stronger. rewrite (same_strength_compare_l _ _ _ Hs).
rewrite (evaluate5Cards_perm c c' Hp). apply Hall'.
apply getCombinations_sublist. split; [exact Hsc'|].
by rewrite <- Hp.
Qed.

(** X7.  The category and the kickers that [evaluateHand] returns do not
    depend on the order of the cards (hole cards first or board first):
    the results for two orderings of the same cards tie. *)
Theorem evaluateHand_ignores_card_order (cs cs' : list Card) :
  (5 <= length cs)%nat ->
  cs ≡ₚ cs' ->
  exists r r',
    evaluateHand cs = Ok (Some r)
    /\ evaluateHand cs' = Ok (Some r')
    /\ ranking r = ranking r' /\ kickers r = kickers r'
    /\ compareHands r r' = Some 0.
Proof.
intros H Hp.
assert (H' : (5 <= length cs')%nat) by (by rewrite <- Hp).
destruct (evaluateHand_best cs H) as (r & E & Hr).
destruct (evaluateHand_best cs' H') as (r' & E' & Hr').
assert (H1 : no_stronger r r').
{ apply (best_so_far_submseteq cs cs'); try assumption. by rewrite Hp. }
assert (H2 : no_stronger r' r).
{ apply (best_so_far_submseteq cs' cs); try assumption. by rewrite Hp. }
destruct Hr as (Hwf & _). destruct Hr' as (Hwf' & _).
destruct (compareHands_total r r' Hwf Hwf') as (z & Hz & Hz' & Hz0).
destruct H1 as (z1 & Hz1 & ?), H2 as (z2 & Hz2 & ?).
rewrite Hz in Hz1. injection Hz1 as <-.
rewrite Hz' in Hz2. injection Hz2 as <-.
assert (E0 : z = 0) by lia. subst z.
exists r, r'. repeat split; try assumption; by apply Hz0.
Qed.

Lemma evaluateHand_ignores_card_order_witness :
  exists r r',
    evaluateHand sample_hand_1 = Ok (Some r)
    /\ evaluateHand (reverse sample_hand_1) = Ok (Some r')
    /\ ranking r = ranking r' /\ kickers r = kickers r'
    /\ compareHands r r' = Some 0.
Proof.
apply (evaluateHand_ignores_card_order sample_hand_1 (reverse sample_hand_1)).
- simpl. lia.
- apply (bool_decide_unpack _). vm_compute. reflexivity.
Defined.

Lemma classify_ranking isFlush ranks :
  1 <= ranking (classify isFlush ranks) <= 10.
Proof.
unfold classify.
repeat match goal with
       | |- context [if ?b then _ else _] => destruct b
       end; simpl;
  unfold ROYAL_FLUSH, STRAIGHT_FLUSH, FOUR_OF_A_KIND, FULL_HOUSE, FLUSH,
    STRAIGHT, THREE_OF_A_KIND, TWO_PAIR, PAIR, HIGH_CARD; lia.
Qed.

Lemma getHandName_defined r :
  1 <= r <= 10 -> exists name, getHandName r = Some name.
Proof.
intros H.
assert (C : r = 1 \/ r = 2 \/ r = 3 \/ r = 4 \/ r = 5 \/ r = 6 \/ r = 7
            \/ r = 8 \/ r = 9 \/ r = 10) by lia.
repeat destruct C as [->|C]; try subst r; simpl; eauto.
Qed.

(** X8.  [evaluateHand] throws 'Need at least 5 cards to evaluate'
    exactly when it is given fewer than five cards; otherwise it returns a
    hand, never [null], whose category is one of the ten that
    [getHandName] names. *)
Theorem evaluateHand_needs_five_cards (cs : list Card) :
  ((length cs < 5)%nat <-> evaluateHand cs = Throw NeedFiveCards)
  /\ ((5 <= length cs)%nat <->
      exists r name,
        evaluateHand cs = Ok (Some r)
        /\ 1 <= ranking r <= 10
        /\ getHandName (ranking r) = Some name).
Proof.
split; split.
- intros H. unfold evaluateHand.
  by destruct (Nat.ltb_spec (length cs) 5); [|lia].
- unfold evaluateHand.
  destruct (Nat.ltb_spec (length cs) 5); [auto|discriminate].
- intros H.
  destruct (evaluateHand_best cs H) as (r & E & _ & (c & _ & _ & Hs & _) & _).
  assert (Hr : 1 <= ranking r <= 10).
  { rewrite Hs. apply classify_ranking. }
  destruct (getHandName_defined _ Hr) as [name Hn].
  by exists r, name.
- intros (r & name & E & _). unfold evaluateHand in E.
  destruct (Nat.ltb_spec (length cs) 5); [discriminate|lia].
Qed.

Lemma evaluate5Cards_flush_flag cs :
  all_same (map suit (js_sort (fun a b => value b - value a) cs))
  = all_same (map suit cs).
Proof. apply all_same_perm. by rewrite js_sort_perm. Qed.

Ltac classify_cases :=
  unfold classify;
  repeat match goal with
         | |- context [checkStraight ?l] => destruct (checkStraight l)
         | |- context [checkWheelStraight ?l] => destruct (checkWheelStraight l)
         | |- context [bool_decide ?P] => destruct (bool_decide P)
         end;
  simpl;
  unfold ROYAL_FLUSH, STRAIGHT_FLUSH, FOUR_OF_A_KIND, FULL_HOUSE, FLUSH,
    STRAIGHT, THREE_OF_A_KIND, TWO_PAIR, PAIR, HIGH_CARD.

(** X9.  [evaluate5Cards] ranks a hand whose cards share one suit as a
    flush or higher, and gives no other hand one of the categories flush,
    straight flush and royal flush. *)
Theorem flush_categories_need_one_suit (cs : list Card) :
  let r := ranking (evaluate5Cards cs) in
  (all_same (map suit cs) = true -> FLUSH <= r)
  /\ (all_same (map suit cs) = false ->
      r <> FLUSH /\ r <> STRAIGHT_FLUSH /\ r <> ROYAL_FLUSH).
Proof.
cbv zeta. unfold evaluate5Cards. cbv zeta.
rewrite evaluate5Cards_flush_flag.
destruct (all_same (map suit cs));
  (split; intros Hf); try discriminate;
  classify_cases; lia.
Qed.

Lemma royal_flush_kickers cs :
  length cs = 5%nat ->
  ranking (evaluate5Cards cs) = ROYAL_FLUSH ->
  kickers (evaluate5Cards cs) = [12; 11; 10; 9; 8].
Proof.
intros Hl. unfold evaluate5Cards. cbv zeta.
set (ranks := map value _).
assert (Hlr : length ranks = 5%nat).
{ unfold ranks. by rewrite length_map, js_sort_length. }
clearbody ranks. unfold classify.
destruct (_ && _ && bool_decide (ranks !! 0%nat = Some 12)) eqn:E.
- intros _. simpl.
  apply andb_prop in E as [E E3]. apply andb_prop in E as [_ E2].
  apply bool_decide_eq_true in E3.
  destruct ranks as [|a [|b [|c [|d [|e [|]]]]]]; simpl in Hlr; try lia.
  simpl in E3. injection E3 as ->. simpl in E2.
  repeat match goal with
         | H : context [?x - ?y =? 1] |- _ =>
             destruct (Z.eqb_spec (x - y) 1); [|discriminate]
         end.
  repeat f_equal; lia.
- repeat match goal with
         | |- context [if ?b then _ else _] => destruct b
         end; simpl; unfold ROYAL_FLUSH, STRAIGHT_FLUSH, FOUR_OF_A_KIND, FULL_HOUSE, FLUSH,
    STRAIGHT, THREE_OF_A_KIND, TWO_PAIR, PAIR, HIGH_CARD; discriminate.
Qed.

(** X10.  Among hands of five cards a royal flush is never beaten: it
    compares at least as high as any hand, and ties exactly with the
    other royal flushes. *)
Theorem royal_flush_is_never_beaten (a b : list Card) :
  length a = 5%nat -> length b = 5%nat ->
  ranking (evaluate5Cards a) = ROYAL_FLUSH ->
  exists z, compareHands (evaluate5Cards a) (evaluate5Cards b) = Some z
            /\ 0 <= z
            /\ (z = 0 <-> ranking (evaluate5Cards b) = ROYAL_FLUSH).
Proof.
intros Ha Hb Hr.
pose proof (royal_flush_kickers a Ha Hr) as Hk.
unfold compareHands. rewrite Hr.
destruct (Z.eqb_spec ROYAL_FLUSH (ranking (evaluate5Cards b))) as [E|E]; simpl.
- symmetry in E. rewrite Hk, (royal_flush_kickers b Hb E). simpl.
  exists 0. repeat split; auto; lia.
- exists (ROYAL_FLUSH - ranking (evaluate5Cards b)). split; [reflexivity|].
  pose proof (classify_ranking
                (all_same (map suit (js_sort (fun x y => value y - value x) b)))
                (map value (js_sort (fun x y => value y - value x) b))) as H.
  fold (evaluate5Cards b) in H. unfold ROYAL_FLUSH in *. split; [lia|].
  split; [lia|congruence].
Qed.

Lemma royal_flush_is_never_beaten_witness :
  exists z, compareHands (evaluate5Cards royal_flush_hand)
                         (evaluate5Cards six_high_straight) = Some z
            /\ 0 <= z
            /\ (z = 0 <-> ranking (evaluate5Cards six_high_straight) = ROYAL_FLUSH).
Proof.
apply (royal_flush_is_never_beaten royal_flush_hand six_high_straight);
  reflexivity.
Defined.

(** ** Further properties of the table *)

(** *** Seating *)

Lemma indexOf_from_spec {A} `{EqDecision A} (l : list A) (x : A) (i : Z) :
  0 <= i ->
  (indexOf_from i x l = -1 /\ forall n, l !! n <> Some x)
  \/ (exists n : nat, indexOf_from i x l = i + Z.of_nat n
                      /\ l !! n = Some x
                      /\ forall j, (j < n)%nat -> l !! j <> Some x).
Proof.
revert i. induction l as [|y l IH]; intros i Hi; simpl.
- left. split; [reflexivity|]. by intros [|n].
- destruct (decide (y = x)) as [->|Hne].
  + right. exists 0%nat. split; [lia|]. split; [reflexivity|]. intros j Hj. lia.
  + destruct (IH (i + 1) ltac:(lia)) as [[E Hn]|(n & E & Hn & Hj)].
    * left. split; [exact E|]. intros [|n]; simpl; [congruence|apply Hn].
    * right. exists (S n). split; [lia|]. split; [exact Hn|].
      intros [|j] Hlt; simpl; [congruence|]. apply Hj. lia.
Qed.

Lemma indexOf_spec {A} `{EqDecision A} (l : list A) (x : A) :
  (indexOf l x = -1 /\ forall n, l !! n <> Some x)
  \/ (exists n : nat, indexOf l x = Z.of_nat n
                      /\ l !! n = Some x
                      /\ forall j, (j < n)%nat -> l !! j <> Some x).
Proof.
unfold indexOf. destruct (indexOf_from_spec l x 0 ltac:(lia)) as [?|(n & ? & ?)];
  [by left|right]. exists n. by rewrite Z.add_0_l in *.
Qed.

Lemma seat_is_null_spec ss i :
  Table.seat_is_null ss i = true
  <-> 0 <= i /\ ss !! Z.to_nat i = Some None.
Proof.
unfold Table.seat_is_null, Table.seat_at.
destruct (Z.ltb_spec i 0).
- split; [discriminate|lia].
- destruct (ss !! Z.to_nat i) as [[k|]|]; split; try discriminate;
    try (intros [_ ?]; discriminate); auto.
Qed.

(** X11.  [addPlayer] throws 'Buy-in must be between ...' for a buy-in
    outside the limits of the table and 'Table is full' when no seat is
    free, leaving the table as it is; otherwise it takes the preferred
    seat when that is a free seat of the table, and the lowest free seat
    when it is taken, out of range or not given, and stores a new player
    with the buy-in as stack under the id it returns. *)
Theorem addPlayer_picks_a_free_seat
    (s : Table.t) (moltbookId walletAddress : string) (buyIn : Q)
    (preferredSeat : option Z) (now : string) :
  let playerId := (moltbookId +:+ "-" +:+ now)%string in
  let free (i : Z) := 0 <= i /\ Table.seats s !! Z.to_nat i = Some None in
  ((buyIn < Table.minBuyIn s)%Q \/ (Table.maxBuyIn s < buyIn)%Q ->
   Table.addPlayer moltbookId walletAddress buyIn preferredSeat now s
   = (Throw InvalidBuyIn, s))
  /\ ((Table.minBuyIn s <= buyIn)%Q -> (buyIn <= Table.maxBuyIn s)%Q ->
      (forall n, Table.seats s !! n <> Some None) ->
      Table.addPlayer moltbookId walletAddress buyIn preferredSeat now s
      = (Throw TableFull, s))
  /\ ((Table.minBuyIn s <= buyIn)%Q -> (buyIn <= Table.maxBuyIn s)%Q ->
      forall n, lowest_free (Table.seats s) n ->
      let seat := match preferredSeat with
                  | Some ps => if decide (free ps) then ps else Z.of_nat n
                  | None => Z.of_nat n
                  end in
      free seat
      /\ Table.addPlayer moltbookId walletAddress buyIn preferredSeat now s
         = (Ok (seat, playerId),
            Table.set_seats (<[Z.to_nat seat := Some playerId]> (Table.seats s))
              (Table.set_players
                 (pm_set playerId
                    (Player.new playerId moltbookId walletAddress buyIn)
                    (Table.players s)) s))).
Proof.
intros playerId free.
assert (Hbuy : (Table.minBuyIn s <= buyIn)%Q -> (buyIn <= Table.maxBuyIn s)%Q ->
               Qltb buyIn (Table.minBuyIn s) || Qgtb buyIn (Table.maxBuyIn s)
               = false).
{ intros H1 H2. apply orb_false_iff. split; [by apply Qltb_ge|].
  unfold Qgtb. by apply Qltb_ge. }
assert (Hps : forall ps, Table.seat_is_null (Table.seats s) ps = true <-> free ps).
{ intros ps. apply seat_is_null_spec. }
split; [|split].
- intros Hout. unfold Table.addPlayer, Table.bind, Table.get.
  assert (E : Qltb buyIn (Table.minBuyIn s) || Qgtb buyIn (Table.maxBuyIn s)
              = true).
  { apply orb_true_iff. destruct Hout as [H|H]; [left|right];
      [|unfold Qgtb]; by apply Qltb_lt. }
  by rewrite E.
- intros H1 H2 Hfull. unfold Table.addPlayer, Table.bind, Table.get.
  rewrite (Hbuy H1 H2). cbv zeta.
  assert (Ei : indexOf (Table.seats s) None = -1).
  { destruct (indexOf_spec (Table.seats s) None) as [[E _]|(n & _ & Hn & _)];
      [exact E|]. by apply Hfull in Hn. }
  assert (Eseat : match preferredSeat with
                  | Some ps => if Table.seat_is_null (Table.seats s) ps
                               then ps else indexOf (Table.seats s) None
                  | None => indexOf (Table.seats s) None
                  end = -1).
  { destruct preferredSeat as [ps|]; [|exact Ei].
    destruct (Table.seat_is_null (Table.seats s) ps) eqn:E; [|exact Ei].
    apply Hps in E as [? E]. by apply Hfull in E. }
  rewrite Eseat. reflexivity.
- intros H1 H2 n [Hn Hlow] seat.
  assert (Ei : indexOf (Table.seats s) None = Z.of_nat n).
  { destruct (indexOf_spec (Table.seats s) None) as [[_ E]|(n' & E & Hn' & Hlow')].
    - by apply E in Hn.
    - rewrite E. f_equal.
      destruct (Nat.lt_trichotomy n n') as [Hlt|[->|Hlt]]; [|reflexivity|].
      + by apply Hlow' in Hlt.
      + by apply Hlow in Hlt. }
  assert (Eseat : match preferredSeat with
                  | Some ps => if Table.seat_is_null (Table.seats s) ps
                               then ps else indexOf (Table.seats s) None
                  | None => indexOf (Table.seats s) None
                  end = seat).
  { unfold seat. destruct preferredSeat as [ps|]; [|exact Ei].
    destruct (decide (free ps)) as [Hf|Hf].
    - apply Hps in Hf. by rewrite Hf.
    - destruct (Table.seat_is_null (Table.seats s) ps) eqn:E; [|exact Ei].
      by apply Hps in E. }
  assert (Hfree : free seat).
  { unfold seat. destruct preferredSeat as [ps|].
    - destruct (decide (free ps)); [assumption|].
      split; [lia|]. by rewrite Nat2Z.id.
    - split; [lia|]. by rewrite Nat2Z.id. }
  split; [exact Hfree|].
  unfold Table.addPlayer, Table.bind, Table.get.
  rewrite (Hbuy H1 H2). cbv zeta. rewrite Eseat.
  destruct (Z.eqb_spec seat (-1)) as [E|_].
  { destruct Hfree. lia. }
  reflexivity.
Qed.

Lemma addPlayer_picks_a_free_seat_witness :
  fst (Table.addPlayer "carol" "wallet-c" 400 (Some 0) "3" heads_up)
  = Ok (2, "carol-3"%string).
Proof.
destruct (addPlayer_picks_a_free_seat heads_up "carol" "wallet-c" 400 (Some 0) "3")
  as (_ & _ & H).
destruct (H ltac:(vm_compute; congruence) ltac:(vm_compute; congruence) 2%nat)
  as [_ E].
- split; [reflexivity|]. intros [|[|j]] Hj; [vm_compute; congruence ..|lia].
- rewrite E. reflexivity.
Defined.

Lemma pm_delete_set k p m :
  pm_get k m = None -> pm_delete k (pm_set k p m) = m.
Proof.
induction m as [|[k' p'] m IH]; simpl.
- intros _. by destruct (decide (k = k)).
- destruct (decide (k' = k)); [discriminate|]. intros H. simpl.
  destruct (decide (k' = k)); [contradiction|]. by rewrite IH.
Qed.

Lemma pm_get_set k p m : pm_get k (pm_set k p m) = Some p.
Proof.
induction m as [|[k' p'] m IH]; simpl.
- by destruct (decide (k = k)).
- destruct (decide (k' = k)); simpl.
  + by destruct (decide (k = k)).
  + by destruct (decide (k' = k)).
Qed.

Lemma table_eta s :
  Table.set_players (Table.players s) (Table.set_seats (Table.seats s) s) = s.
Proof. by destruct s. Qed.

Lemma indexOf_insert_fresh (ss : list (option string)) (n : nat) (k : string) :
  (n < length ss)%nat ->
  (forall j, ss !! j <> Some (Some k)) ->
  indexOf (<[n := Some k]> ss) (Some k) = Z.of_nat n.
Proof.
intros Hn Hfresh.
destruct (indexOf_spec (<[n := Some k]> ss) (Some k))
  as [[_ E]|(n' & E & Hn' & Hlow)].
- exfalso. apply (E n). by apply list_lookup_insert_eq.
- rewrite E. f_equal.
  destruct (decide (n' = n)) as [->|Hne]; [reflexivity|].
  rewrite list_lookup_insert_ne in Hn' by done. by apply Hfresh in Hn'.
Qed.

(** X12.  [removePlayer] undoes [addPlayer]: for an id that was not in
    use, removing the player that [addPlayer] has just added returns the
    buy-in and restores the table exactly. *)
Theorem removePlayer_undoes_addPlayer
    (s s1 : Table.t) (moltbookId walletAddress : string) (buyIn : Q)
    (preferredSeat : option Z) (now : string) (seat : Z) (playerId : string) :
  Table.addPlayer moltbookId walletAddress buyIn preferredSeat now s
  = (Ok (seat, playerId), s1) ->
  pm_get playerId (Table.players s) = None ->
  (forall j, Table.seats s !! j <> Some (Some playerId)) ->
  Table.removePlayer playerId s1 = (Ok (Some buyIn), s).
Proof.
unfold Table.addPlayer, Table.bind, Table.get.
destruct (_ || _); [discriminate|]. cbv zeta.
set (st := match preferredSeat with Some _ => _ | None => _ end).
assert (Hst : st = -1 \/ 0 <= st /\ Table.seats s !! Z.to_nat st = Some None).
{ assert (Hi : indexOf (Table.seats s) None = -1
               \/ 0 <= indexOf (Table.seats s) None
                  /\ Table.seats s !! Z.to_nat (indexOf (Table.seats s) None)
                     = Some None).
  { destruct (indexOf_spec (Table.seats s) None) as [[E _]|(n & E & Hn & _)];
      [by left|right]. rewrite E, Nat2Z.id. split; [lia|exact Hn]. }
  unfold st. destruct preferredSeat as [ps|]; [|exact Hi].
  destruct (Table.seat_is_null (Table.seats s) ps) eqn:E; [|exact Hi].
  right. by apply seat_is_null_spec. }
clearbody st.
destruct (Z.eqb_spec st (-1)) as [E|Hne]; [discriminate|].
destruct Hst as [?|[Hst0 Hnull]]; [contradiction|].
cbn [Table.modify Table.ret]. intros [= <- <- <-] Hfresh Hseat.
unfold Table.removePlayer, Table.bind, Table.get.
cbn [Table.players Table.set_seats Table.set_players].
rewrite pm_get_set.
cbn [Table.seats Table.set_seats Table.set_players].
rewrite indexOf_insert_fresh;
  [|by eapply lookup_lt_Some|exact Hseat].
rewrite Z2Nat.id by exact Hst0.
destruct (Z.eqb_spec st (-1)) as [E|_]; [lia|].
cbn [negb Table.modify Table.ret Table.seats Table.players Table.set_seats
     Table.set_players Player.chips Player.new].
f_equal.
rewrite list_insert_insert_eq, pm_delete_set by exact Hfresh.
rewrite list_insert_id by exact Hnull.
by destruct s.
Qed.

Lemma removePlayer_undoes_addPlayer_witness :
  Table.removePlayer "alice-1"
    (snd (Table.addPlayer "alice" "wallet-a" 400 None "1"
            (Table.new "t" default_config)))
  = (Ok (Some 400%Q), Table.new "t" default_config).
Proof.
apply (removePlayer_undoes_addPlayer (Table.new "t" default_config) _
         "alice" "wallet-a" 400 None "1" 0 "alice-1").
- vm_compute. reflexivity.
- reflexivity.
- intros j. vm_compute. destruct j as [|[|[|[|[|[|j]]]]]]; discriminate.
Defined.

(** X13.  [removePlayer] returns the stack of the player, empties the
    seat and deletes the record, and leaves everything else, phase, pot
    and turn included, as it is: when the player on turn is removed
    during a hand, [currentPlayerSeat] still names that seat, the seat is
    empty, and every [fold], [check], [call] and [raise], by whichever
    player, throws 'Not your turn'. *)
Theorem removing_the_player_on_turn_blocks_the_hand
    (s : Table.t) (playerId : string) (p : Player.t) (seat : nat) :
  Table.phase s <> WAITING ->
  Table.phase s <> SHOWDOWN ->
  Table.currentPlayerSeat s = Some (Z.of_nat seat) ->
  indexOf (Table.seats s) (Some playerId) = Z.of_nat seat ->
  pm_get playerId (Table.players s) = Some p ->
  exists s',
    Table.removePlayer playerId s = (Ok (Some (Player.chips p)), s')
    /\ s' = Table.set_players (pm_delete playerId (Table.players s))
              (Table.set_seats (<[seat := None]> (Table.seats s)) s)
    /\ Table.phase s' = Table.phase s
    /\ Table.pot s' = Table.pot s
    /\ Table.currentPlayerSeat s' = Table.currentPlayerSeat s
    /\ Table.seats s' !! seat = Some None
    /\ forall (a : Action) (k : string), act a k s' = (Throw OutOfTurn, s').
Proof.
intros Hw Hs Hturn Hidx Hp.
assert (Hlt : (seat < length (Table.seats s))%nat).
{ destruct (indexOf_spec (Table.seats s) (Some playerId))
    as [[E _]|(n & E & Hn & _)]; [lia|].
  assert (n = seat) by lia. subst n. by eapply lookup_lt_Some. }
unfold Table.removePlayer, Table.bind, Table.get. rewrite Hp. cbv zeta.
rewrite Hidx. destruct (Z.eqb_spec (Z.of_nat seat) (-1)) as [E|_]; [lia|].
cbn [negb Table.modify Table.ret]. rewrite Nat2Z.id.
eexists. split; [reflexivity|]. split; [reflexivity|].
split; [reflexivity|]. split; [reflexivity|]. split; [reflexivity|].
split.
{ cbn [Table.seats Table.set_players Table.set_seats].
  by apply list_lookup_insert_eq. }
intros a k. apply act_validates.
unfold Table.validateAction, Table.bind, Table.get.
cbn [Table.phase Table.set_players Table.set_seats Table.seats
     Table.currentPlayerSeat].
rewrite (bool_decide_eq_false_2 _ Hw), (bool_decide_eq_false_2 _ Hs).
cbv zeta. cbn [orb]. rewrite Hturn.
destruct (bool_decide _) eqn:E; [|reflexivity].
apply bool_decide_eq_true in E. injection E as E.
destruct (indexOf_spec (<[seat := None]> (Table.seats s)) (Some k))
  as [[E1 _]|(n & E1 & Hn & _)].
- lia.
- assert (n = seat) by lia. subst n.
  destruct (decide (seat < length (Table.seats s))%nat).
  + rewrite list_lookup_insert_eq in Hn by done. discriminate.
  + rewrite list_insert_ge in Hn by lia.
    apply lookup_lt_Some in Hn. lia.
Qed.

Lemma removing_the_player_on_turn_blocks_the_hand_witness :
  exists s',
    Table.removePlayer "alice-1" heads_up = (Ok (Some (Player.chips alice)), s')
    /\ s' = Table.set_players (pm_delete "alice-1" (Table.players heads_up))
              (Table.set_seats (<[0%nat := None]> (Table.seats heads_up))
                 heads_up)
    /\ Table.phase s' = Table.phase heads_up
    /\ Table.pot s' = Table.pot heads_up
    /\ Table.currentPlayerSeat s' = Table.currentPlayerSeat heads_up
    /\ Table.seats s' !! 0%nat = Some None
    /\ forall (a : Action) (k : string), act a k s' = (Throw OutOfTurn, s').
Proof.
apply (removing_the_player_on_turn_blocks_the_hand heads_up "alice-1" alice 0).
- vm_compute. discriminate.
- vm_compute. discriminate.
- vm_compute. reflexivity.
- vm_compute. reflexivity.
- vm_compute. reflexivity.
Defined.

(** *** Checking and calling *)

Lemma validateAction_passes k s :
  Table.phase s <> WAITING -> Table.phase s <> SHOWDOWN ->
  Table.currentPlayerSeat s = Some (indexOf (Table.seats s) (Some k)) ->
  Table.validateAction k s = (Ok tt, s).
Proof.
intros Hw Hs Hturn. unfold Table.validateAction, Table.bind, Table.get.
rewrite (bool_decide_eq_false_2 _ Hw), (bool_decide_eq_false_2 _ Hs).
cbv zeta. simpl. by rewrite (bool_decide_eq_true_2 _ Hturn).
Qed.

Lemma deref_found k s p :
  pm_get k (Table.players s) = Some p -> Table.deref k s = (Ok p, s).
Proof. intros Hp. unfold Table.deref, Table.bind, Table.get. by rewrite Hp. Qed.

Lemma advanceGame_throws_internal s e s' :
  Table.advanceGame s = (Throw e, s') -> validation_error e = false.
Proof.
intros H. destruct (advanceGame_seat _ _ _ H) as [_ Hi]. by apply Hi.
Qed.

(** X14.  For the player on turn in an active hand, [check] throws
    'Cannot check, must call or raise' exactly when the player's bet is
    below the current bet, and [call] throws 'Nothing to call' exactly
    when it is not: one of the two is always refused, never both. *)
Theorem check_and_call_are_exclusive
    (s : Table.t) (playerId : string) (p : Player.t) :
  Table.phase s <> WAITING ->
  Table.phase s <> SHOWDOWN ->
  Table.currentPlayerSeat s = Some (indexOf (Table.seats s) (Some playerId)) ->
  pm_get playerId (Table.players s) = Some p ->
  ((Player.currentBet p < Table.currentBet s)%Q
   <-> Table.check playerId s = (Throw CannotCheck, s))
  /\ ((Table.currentBet s <= Player.currentBet p)%Q
      <-> Table.call playerId s = (Throw NothingToCall, s))
  /\ (fst (Table.check playerId s) = Throw CannotCheck
      <-> fst (Table.call playerId s) <> Throw NothingToCall).
Proof.
intros Hw Hs Hturn Hp.
pose proof (validateAction_passes playerId s Hw Hs Hturn) as Hv.
pose proof (deref_found playerId s p Hp) as Hd.
assert (Hcheck : forall b, Qltb (Player.currentBet p) (Table.currentBet s) = b ->
          if b then Table.check playerId s = (Throw CannotCheck, s)
          else fst (Table.check playerId s) <> Throw CannotCheck).
{ intros b Hb.
  destruct b; unfold Table.check;
    (unfold Table.bind at 1; rewrite Hv;
     unfold Table.bind at 1; rewrite Hd;
     unfold Table.bind at 1; unfold Table.get at 1; rewrite Hb);
    [reflexivity|].
  generalize advanceGame_throws_internal. generalize Table.advanceGame.
  intros K HK.
  cbn [Table.bind Table.update_player Table.modify Table.logAction].
  match goal with
  | |- context [K ?x] => destruct (K x) as [[snap|e] s'] eqn:E
  end; cbn [fst]; [discriminate|].
  apply HK in E. intros [= ->]. discriminate. }
assert (Hcall : forall b,
          Qleb (Table.currentBet s - Player.currentBet p) 0 = b ->
          if b then Table.call playerId s = (Throw NothingToCall, s)
          else fst (Table.call playerId s) <> Throw NothingToCall).
{ intros b Hb.
  destruct b; unfold Table.call;
    (unfold Table.bind at 1; rewrite Hv;
     unfold Table.bind at 1; rewrite Hd;
     unfold Table.bind at 1; unfold Table.get at 1; cbv zeta; rewrite Hb);
    [reflexivity|].
  generalize advanceGame_throws_internal. generalize Table.advanceGame.
  intros K HK.
  cbn [Table.bind Table.update_player Table.modify Table.logAction
       Table.add_pot].
  match goal with
  | |- context [K ?x] => destruct (K x) as [[snap|e] s'] eqn:E
  end; cbn [fst]; [discriminate|].
  apply HK in E. intros [= ->]. discriminate. }
assert (Hq : Qleb (Table.currentBet s - Player.currentBet p) 0
             = negb (Qltb (Player.currentBet p) (Table.currentBet s))).
{ unfold Qleb. destruct (Qltb _ _) eqn:E; simpl.
  - apply Qltb_lt in E. destruct (Qle_bool _ _) eqn:E2; [|reflexivity].
    apply Qle_bool_iff in E2. exfalso. lra.
  - apply Qltb_ge in E. apply Qle_bool_iff. lra. }
specialize (Hcheck _ eq_refl). specialize (Hcall _ eq_refl).
rewrite Hq in Hcall.
destruct (Qltb (Player.currentBet p) (Table.currentBet s)) eqn:E;
  cbn [negb] in Hcall.
- apply Qltb_lt in E. split; [|split].
  + tauto.
  + split; [intros; lra|]. intros H. rewrite H in Hcall. by destruct Hcall.
  + rewrite Hcheck. tauto.
- apply Qltb_ge in E. split; [|split].
  + split; [intros; lra|]. intros H. rewrite H in Hcheck. by destruct Hcheck.
  + tauto.
  + rewrite Hcall. simpl. tauto.
Qed.

Lemma check_and_call_are_exclusive_witness :
  ((Player.currentBet alice < Table.currentBet heads_up)%Q
   <-> Table.check "alice-1" heads_up = (Throw CannotCheck, heads_up))
  /\ ((Table.currentBet heads_up <= Player.currentBet alice)%Q
      <-> Table.call "alice-1" heads_up = (Throw NothingToCall, heads_up))
  /\ (fst (Table.check "alice-1" heads_up) = Throw CannotCheck
      <-> fst (Table.call "alice-1" heads_up) <> Throw NothingToCall).
Proof.
apply (check_and_call_are_exclusive heads_up "alice-1" alice);
  vm_compute; congruence.
Defined.

(** *** Calls that return *)

#[global] Instance steady_refl : Reflexive steady.
Proof. intros s. by unfold steady. Qed.
#[global] Instance steady_trans : Transitive steady.
Proof. intros a b c (?&?&?) (?&?&?). unfold steady. repeat split; congruence. Qed.
#[global] Instance steady_sym : Symmetric steady.
Proof. intros a b (?&?&?). unfold steady. repeat split; congruence. Qed.

#[global] Instance occupied_stable : Stable occupied.
Proof. intros s s' (_ & Hs & Hm) H. unfold occupied. by rewrite Hs, Hm. Qed.

#[global] Instance in_hand_stable f : Stable (in_hand f).
Proof.
intros s s' Hst [Ho Hl]. split; [by apply (occupied_stable s)|].
destruct Hst as (-> & _). exact Hl.
Qed.

#[global] Instance and_steady_stable I s0 :
  Stable I -> Stable (fun s => I s /\ steady s0 s).
Proof.
intros HI s s' Hst [H1 H2]. split; [by apply (HI s)|by trans s].
Qed.

Section Halting.
Context {A B : Type}.

Lemma halting_bind (I : Table.t -> Prop) (m : Table.M A) J
    (k : A -> Table.M B) K :
  halting I m J -> (forall a, halting (J a) (k a) K) ->
  halting I (Table.bind m k) K.
Proof.
intros Hm Hk s Hs. specialize (Hm s Hs). unfold Table.bind.
destruct (m s) as [[a|e] s1]; [|exact Hm]. by apply Hk.
Qed.

Lemma halting_get_bind (I : Table.t -> Prop) (k : Table.t -> Table.M B) K :
  (forall s0, halting (fun s => I s /\ steady s0 s) (k s0) K) ->
  halting I (Table.bind Table.get k) K.
Proof.
intros Hk s Hs. unfold Table.bind, Table.get. apply Hk. by split.
Qed.

Lemma halting_ret (I : Table.t -> Prop) (a : A) (J : A -> Table.t -> Prop) :
  (forall s, I s -> J a s) -> halting I (Table.ret a) J.
Proof. intros H s Hs. by apply H. Qed.

Lemma halting_throw (I : Table.t -> Prop) (e : Error) (J : A -> Table.t -> Prop) :
  halts e -> halting I (@Table.throw A e) J.
Proof. by intros H s Hs. Qed.

Lemma halting_weaken (I I' : Table.t -> Prop) (m : Table.M A)
    (J J' : A -> Table.t -> Prop) :
  halting I' m J' -> (forall s, I s -> I' s) ->
  (forall a s, J' a s -> J a s) -> halting I m J.
Proof.
intros Hm HI HJ s Hs. specialize (Hm s (HI s Hs)).
destruct (m s) as [[a|e] s1]; [by apply HJ|exact Hm].
Qed.

Lemma halting_post (I : Table.t -> Prop) (m : Table.M A)
    (J J' : A -> Table.t -> Prop) :
  halting I m J' -> (forall a s, J' a s -> J a s) -> halting I m J.
Proof. intros Hm HJ. eapply halting_weaken; eauto. Qed.

Lemma halting_false (I : Table.t -> Prop) (m : Table.M A) J :
  (forall s, ~ I s) -> halting I m J.
Proof. intros H s Hs. by apply H in Hs. Qed.
End Halting.

Lemma halting_modify (I : Table.t -> Prop) (f : Table.t -> Table.t)
    (J : unit -> Table.t -> Prop) :
  (forall s, I s -> J tt (f s)) -> halting I (Table.modify f) J.
Proof. intros H s Hs. by apply H. Qed.

(** A method that is [sound] for [steady] keeps every stable assertion. *)
Lemma sound_halting {A} (I : Table.t -> Prop) `{!Stable I} (m : Table.M A) :
  sound steady halts m -> halting I m (fun _ => I).
Proof.
intros Hm s Hs. destruct (m s) as [[a|e] s1] eqn:E;
  destruct (Hm _ _ _ E) as [Hst He].
- by apply (stable s).
- by apply He.
Qed.

Ltac steady_side :=
  first
    [ exact I
    | reflexivity
    | discriminate
    | unfold steady; simpl; repeat split; reflexivity ].

Ltac steady_sound := repeat sound_step steady_side.

#[local] Hint Unfold halts : core.

Lemma deref_steady k : sound steady halts (Table.deref k).
Proof. unfold Table.deref. steady_sound. Qed.

Lemma update_player_steady k f : sound steady halts (Table.update_player k f).
Proof. unfold Table.update_player. steady_sound. Qed.

Lemma logAction_steady e : sound steady halts (Table.logAction e).
Proof. unfold Table.logAction. steady_sound. Qed.

Lemma deck_deal_steady : sound steady halts Table.deck_deal.
Proof.
intros s r s'. unfold Table.deck_deal.
destruct (Table.deck s) as [d|]; [|intros [= <- <-]; split;
  [reflexivity | by intros ? [= <-]]].
unfold deal. destruct (pop (cards d)) as [[c rest]|]; intros [= <- <-].
- split; [by unfold steady|discriminate].
- split; [reflexivity|]. by intros ? [= <-].
Qed.

Lemma deck_revealSalt_steady : sound steady halts Table.deck_revealSalt.
Proof.
intros s r s'. unfold Table.deck_revealSalt.
destruct (Table.deck s) as [d|]; simpl; intros [= <- <-].
- split; [by unfold steady|discriminate].
- split; [reflexivity|]. by intros ? [= <-].
Qed.

Lemma setNextPlayer_loop_steady checked seat :
  sound steady halts (Table.setNextPlayer_loop checked seat).
Proof.
revert seat. induction checked as [|f IH]; intros seat; simpl; steady_sound.
Qed.

Lemma setNextPlayer_steady afterSeat :
  sound steady halts (Table.setNextPlayer afterSeat).
Proof.
pose proof setNextPlayer_loop_steady. unfold Table.setNextPlayer. steady_sound.
Qed.

Lemma evaluate_all_steady community ps :
  sound steady halts (Table.evaluate_all community ps).
Proof.
induction ps as [|[k p] ps IH]; simpl.
- steady_sound.
- destruct (evaluateHand _) as [[h|]|e] eqn:E.
  + steady_sound.
  + steady_sound.
  + unfold evaluateHand in E. destruct (_ <? _)%nat; [|discriminate].
    injection E as <-. steady_sound.
Qed.

Lemma credit_all_steady winAmount ws :
  sound steady halts (Table.credit_all winAmount ws).
Proof. induction ws as [|w ws IH]; simpl; steady_sound. Qed.

Lemma dealHoleCards_loop_steady ss :
  sound steady halts (Table.dealHoleCards_loop ss).
Proof.
induction ss as [|sid ss IH]; simpl.
- steady_sound.
- pose proof deck_deal_steady. steady_sound.
Qed.

Lemma snapshot_steady : sound steady halts Table.snapshot.
Proof. unfold Table.snapshot. steady_sound. Qed.

Lemma skip_null_finds ss (m : nat) (i : nat) (k : string) :
  length ss = m -> ss !! i = Some (Some k) ->
  forall fuel seat q d,
    0 <= seat < Z.of_nat m ->
    Z.of_nat i - seat = q * Z.of_nat m + d -> 0 <= d < Z.of_nat fuel ->
    Table.skip_null ss m fuel seat <> None.
Proof.
intros Hlen Hi. induction fuel as [|fuel IH]; intros seat q d Hseat Hq Hd;
  [lia|].
simpl. destruct (Table.seat_is_null ss seat) eqn:E; [|discriminate].
assert (Hne : seat <> Z.of_nat i).
{ intros ->. unfold Table.seat_is_null, Table.seat_at in E.
  destruct (Z.ltb_spec (Z.of_nat i) 0); [lia|].
  rewrite Nat2Z.id, Hi in E. discriminate. }
assert (Hi' : (i < m)%nat) by (rewrite <- Hlen; by eapply lookup_lt_Some).
assert (Hd0 : d <> 0).
{ intros ->. assert (q = 0) by nia. subst q. lia. }
unfold Table.js_mod.
destruct (decide (seat + 1 < Z.of_nat m)) as [Hlt|Hge].
- rewrite Z.rem_small by lia. apply (IH _ q (d - 1)); lia.
- assert (seat + 1 = Z.of_nat m) as -> by lia.
  rewrite Z.rem_same by lia. apply (IH _ (q + 1) (d - 1)); lia.
Qed.

Lemma find_occupied_halting (I : Table.t -> Prop) seat :
  (forall s, I s -> occupied s) ->
  halting I (Table.find_occupied seat) (fun _ => I).
Proof.
intros HI s Hs. unfold Table.find_occupied, Table.bind, Table.get.
destruct (Table.skip_null _ _ _ _) as [r|] eqn:E; [exact Hs|].
exfalso. destruct (HI s Hs) as [Hlen (i & k & Hi)].
revert E. cbn [Table.skip_null].
destruct (Table.seat_is_null (Table.seats s) seat) eqn:En; [|discriminate].
assert (Hr : 0 <= seat < Z.of_nat (Table.maxPlayers s)).
{ unfold Table.seat_is_null, Table.seat_at in En.
  destruct (Z.ltb_spec seat 0); [discriminate|].
  destruct (Table.seats s !! Z.to_nat seat) eqn:El; [|discriminate].
  apply lookup_lt_Some in El. lia. }
assert (Hi' : (i < Table.maxPlayers s)%nat)
  by (rewrite <- Hlen; by eapply lookup_lt_Some).
set (m := Table.maxPlayers s) in *.
assert (Hn : 0 <= Table.js_mod (seat + 1) m < Z.of_nat m).
{ unfold Table.js_mod. destruct (decide (seat + 1 < Z.of_nat m)).
  - rewrite Z.rem_small by lia. lia.
  - assert (seat + 1 = Z.of_nat m) as -> by lia. rewrite Z.rem_same by lia. lia. }
apply (skip_null_finds _ m i k Hlen Hi m _
         ((Z.of_nat i - Table.js_mod (seat + 1) m) / Z.of_nat m)
         ((Z.of_nat i - Table.js_mod (seat + 1) m) mod Z.of_nat m)).
- exact Hn.
- rewrite Z.mul_comm. apply Z.div_mod. lia.
- apply Z.mod_pos_bound. lia.
Qed.

Lemma in_hand_occupied f s : in_hand f s -> occupied s.
Proof. by intros [H _]. Qed.

(** Side conditions: an assertion follows from the current one. *)
Ltac halt_side :=
  first
    [ exact I
    | discriminate
    | assumption
    | match goal with
      | |- halts _ => unfold halts; discriminate
      | |- _ =>
          intros; cbv beta in *; unfold any_state in *;
          repeat match goal with
                 | H : _ /\ _ |- _ => destruct H
                 end;
          first [ exact I | assumption
                | match goal with
                  | H : in_hand _ _ |- occupied _ => exact (in_hand_occupied _ _ H)
                  | H : at_phase _ _ |- occupied _ => exact (proj1 H)
                  | H : forall s, _ -> occupied s |- occupied _ => apply H; assumption
                  end ]
      end ].

(** A call whose specification is at hand. *)
Ltac halt_call :=
  first
    [ match goal with
      | H : context [halting] |- halting _ _ _ =>
          apply H; [apply _ | solve [halt_side]]
      | H : context [halting] |- halting _ _ _ => apply H; apply _
      end
    | apply sound_halting;
      [ apply _
      | first [ match goal with
                | H : context [sound] |- sound _ _ _ => apply H
                end
              | solve [steady_sound] ] ] ].

Ltac halt_step :=
  lazymatch goal with
  | |- halting _ (Table.bind Table.get _) _ =>
      apply halting_get_bind; intros ?
  | |- halting _ (Table.bind _ _) _ =>
      eapply halting_bind; [ solve [halt_call] | intros ?; cbv beta ]
  | |- halting _ (Table.throw _) _ => apply halting_throw; solve [halt_side]
  | |- halting _ (Table.ret _) _ => apply halting_ret; solve [halt_side]
  | |- halting _ (if ?b then _ else _) _ => destruct b eqn:?
  | |- halting _ (match ?x with _ => _ end) _ => destruct x eqn:?
  | |- halting _ (let _ := _ in _) _ => cbv zeta
  | |- halting _ _ _ =>
      first
        [ eapply halting_post; [ solve [halt_call] | solve [halt_side] ]
        | eapply halting_weaken;
          [ match goal with H : halting _ _ _ |- _ => exact H end
          | solve [halt_side] | solve [halt_side] ] ]
  end.

Lemma find_occupied_halts (I : Table.t -> Prop) `{!Stable I} seat :
  (forall s, I s -> occupied s) ->
  halting I (Table.find_occupied seat) (fun _ => I).
Proof. apply find_occupied_halting. Qed.

Lemma getSmallBlindSeat_halts (I : Table.t -> Prop) `{!Stable I} :
  (forall s, I s -> occupied s) ->
  halting I Table.getSmallBlindSeat (fun _ => I).
Proof.
intros HI. pose proof find_occupied_halts.
unfold Table.getSmallBlindSeat. repeat halt_step.
Qed.

Lemma getBigBlindSeat_halts (I : Table.t -> Prop) `{!Stable I} :
  (forall s, I s -> occupied s) ->
  halting I Table.getBigBlindSeat (fun _ => I).
Proof.
intros HI. pose proof find_occupied_halts. pose proof getSmallBlindSeat_halts.
unfold Table.getBigBlindSeat. repeat halt_step.
Qed.

Lemma moveDealer_halts (I : Table.t -> Prop) `{!Stable I} :
  (forall s, I s -> occupied s) ->
  halting I Table.moveDealer (fun _ => I).
Proof.
intros HI. pose proof find_occupied_halts.
unfold Table.moveDealer. repeat halt_step.
Qed.

Lemma postBlinds_halts (I : Table.t -> Prop) `{!Stable I} :
  (forall s, I s -> occupied s) ->
  halting I Table.postBlinds (fun _ => I).
Proof.
intros HI. pose proof getBigBlindSeat_halts. pose proof getSmallBlindSeat_halts.
unfold Table.postBlinds, Table.add_pot, Table.update_player, Table.logAction.
repeat halt_step.
Qed.

Lemma isBettingComplete_loop_halts (I : Table.t -> Prop) `{!Stable I} ps :
  (forall s, I s -> occupied s) ->
  halting I (Table.isBettingComplete_loop ps) (fun _ => I).
Proof.
intros HI. pose proof getBigBlindSeat_halts.
induction ps as [|[k p] ps IH]; simpl; repeat halt_step.
Qed.

Lemma isBettingComplete_halts (I : Table.t -> Prop) `{!Stable I} :
  (forall s, I s -> occupied s) ->
  halting I Table.isBettingComplete (fun _ => I).
Proof.
intros HI. pose proof isBettingComplete_loop_halts.
unfold Table.isBettingComplete. repeat halt_step.
Qed.

#[global] Instance any_state_stable : Stable any_state.
Proof. by intros s s' _ _. Qed.

Lemma halting_modify_any (I : Table.t -> Prop) (f : Table.t -> Table.t) :
  halting I (Table.modify f) (fun _ => any_state).
Proof. by apply halting_modify. Qed.

Lemma halting_assume {A} (phi : Prop) (I : Table.t -> Prop) (m : Table.M A) J :
  (forall s, I s -> phi) -> (phi -> halting I m J) -> halting I m J.
Proof. intros H1 H2 s Hs. apply H2; [by eapply H1|exact Hs]. Qed.

Lemma halting_any {A} (I : Table.t -> Prop) (m : Table.M A) J :
  halting any_state m J -> halting I m J.
Proof. intros H s _. by apply H. Qed.

Ltac halt_any :=
  repeat first
    [ halt_step
    | lazymatch goal with
      | |- halting _ (Table.bind (Table.modify _) _) _ =>
          eapply halting_bind; [ apply halting_modify_any | intros ?; cbv beta ]
      end ].

Lemma awardPot_halts w : halting any_state (Table.awardPot w) (fun _ => any_state).
Proof.
destruct w as [k winner].
unfold Table.awardPot, Table.update_player, Table.logAction, Table.remember.
halt_any.
Qed.

Lemma showdown_halts : halting any_state Table.showdown (fun _ => any_state).
Proof.
pose proof evaluate_all_steady. pose proof credit_all_steady.
pose proof deck_revealSalt_steady.
unfold Table.showdown, Table.logAction, Table.remember. halt_any.
Qed.

#[global] Instance at_phase_stable ph : Stable (at_phase ph).
Proof.
intros s s' Hst [Ho Hp]. split; [by apply (occupied_stable s)|].
destruct Hst as (-> & _). exact Hp.
Qed.

(** The facts of the current assertion. *)
Ltac halt_facts :=
  intros; cbv beta in *;
  repeat match goal with
         | H : _ /\ _ |- _ => destruct H
         | H : steady _ _ |- _ => destruct H as (? & ? & ?)
         | H : in_hand _ _ |- _ => destruct H
         | H : at_phase _ _ |- _ => destruct H
         end.

Lemma advancePhase_halts f :
  halting (in_hand f) (Table.advancePhase f) (fun _ => any_state).
Proof.
induction f as [|f IH].
{ apply halting_false. intros s [_ H]. lia. }
pose proof deck_deal_steady. pose proof setNextPlayer_steady.
pose proof snapshot_steady.
assert (Hnext : forall ph ph' s0 (m : Table.M Snapshot),
  Table.phase s0 = ph ->
  (calls_left ph' < calls_left ph)%nat ->
  ((calls_left ph' <= f)%nat -> halting (at_phase ph') m (fun _ => any_state)) ->
  halting (fun s => in_hand (S f) s /\ steady s0 s)
    (Table.bind (Table.modify (Table.set_phase ph')) (fun _ => m))
    (fun _ => any_state)).
{ intros ph ph' s0 m Hs0 Hlt Hm.
  apply (halting_assume (calls_left ph' <= f)%nat).
  { halt_facts.
    match goal with
    | H : (_ <= calls_left (Table.phase ?s') )%nat |- _ =>
        replace (Table.phase s') with ph in * by congruence
    end. lia. }
  intros Hf.
  eapply (halting_bind _ _ (fun _ => at_phase ph')); [|intros ?; apply (Hm Hf)].
  apply halting_modify. intros s [[Ho _] _]. split; [exact Ho|reflexivity]. }
cbn [Table.advancePhase]. unfold Table.logAction.
repeat halt_step.
- (* WAITING *)
  apply halting_false. intros s HH. halt_facts.
  match goal with
  | H : (_ <= calls_left (Table.phase ?s') )%nat |- _ =>
      replace (Table.phase s') with WAITING in * by congruence
  end. simpl in *. lia.
- (* PREFLOP *)
  eapply (Hnext PREFLOP FLOP); [eassumption|simpl; lia|]. intros Hf.
  repeat halt_step.
  eapply halting_weaken; [exact IH| |by intros].
  halt_facts. split; [assumption|].
  replace (Table.phase s) with FLOP by congruence. simpl in *. lia.
- (* FLOP *)
  eapply (Hnext FLOP TURN); [eassumption|simpl; lia|]. intros Hf.
  repeat halt_step.
  all: eapply halting_weaken; [exact IH| |by intros].
  all: halt_facts; (split; [assumption|]).
  all: replace (Table.phase s) with TURN by congruence; simpl in *; lia.
- (* TURN *)
  eapply (Hnext TURN RIVER); [eassumption|simpl; lia|]. intros Hf.
  repeat halt_step.
  all: eapply halting_weaken; [exact IH| |by intros].
  all: halt_facts; (split; [assumption|]).
  all: replace (Table.phase s) with RIVER by congruence; simpl in *; lia.
- (* RIVER *)
  apply halting_any, showdown_halts.
- (* SHOWDOWN *)
  apply halting_false. intros s HH. halt_facts.
  match goal with
  | H : (_ <= calls_left (Table.phase ?s') )%nat |- _ =>
      replace (Table.phase s') with SHOWDOWN in * by congruence
  end. simpl in *. lia.
Qed.

(** *** The seating of reachable tables *)

#[global] Instance same_seating_refl : Reflexive same_seating.
Proof. intros s. by unfold same_seating. Qed.
#[global] Instance same_seating_trans : Transitive same_seating.
Proof.
intros a b c (?&?&?) (?&?&?). unfold same_seating. repeat split; congruence.
Qed.

Lemma map_keys (g : string * Player.t -> string * Player.t) (m : PlayerMap) :
  (forall kp, fst (g kp) = fst kp) -> map fst (map g m) = map fst m.
Proof.
intros Hg. induction m as [|kp m IH]; simpl; [reflexivity|].
by rewrite Hg, IH.
Qed.

Ltac seating_side :=
  first
    [ exact I
    | reflexivity
    | unfold same_seating; simpl; repeat split; try reflexivity;
      first [ apply pm_update_keys | apply map_keys; intros []; reflexivity ] ].

Ltac seating_sound := repeat sound_step seating_side.

Lemma deck_deal_seating : sound same_seating any_error Table.deck_deal.
Proof.
intros s r s'. unfold Table.deck_deal.
destruct (Table.deck s) as [d|]; [|intros [= <- <-]; split;
  [reflexivity | by intros ? [= <-]]].
unfold deal. destruct (pop (cards d)) as [[c rest]|]; intros [= <- <-].
- split; [by unfold same_seating|discriminate].
- split; [reflexivity|]. by intros ? [= <-].
Qed.

Lemma deck_revealSalt_seating : sound same_seating any_error Table.deck_revealSalt.
Proof.
intros s r s'. unfold Table.deck_revealSalt.
destruct (Table.deck s) as [d|]; simpl; intros [= <- <-].
- split; [by unfold same_seating|discriminate].
- split; [reflexivity|]. by intros ? [= <-].
Qed.

Lemma setNextPlayer_loop_seating checked seat :
  sound same_seating any_error (Table.setNextPlayer_loop checked seat).
Proof.
revert seat. induction checked as [|f IH]; intros seat; simpl; seating_sound.
Qed.

Lemma isBettingComplete_loop_seating ps :
  sound same_seating any_error (Table.isBettingComplete_loop ps).
Proof. induction ps as [|[k p] ps IH]; simpl; seating_sound. Qed.

Lemma evaluate_all_seating community ps :
  sound same_seating any_error (Table.evaluate_all community ps).
Proof.
induction ps as [|[k p] ps IH]; simpl.
- seating_sound.
- destruct (evaluateHand _) as [[h|]|e] eqn:E; seating_sound.
Qed.

Lemma credit_all_seating winAmount ws :
  sound same_seating any_error (Table.credit_all winAmount ws).
Proof. induction ws as [|w ws IH]; simpl; seating_sound. Qed.

Lemma dealHoleCards_loop_seating ss :
  sound same_seating any_error (Table.dealHoleCards_loop ss).
Proof.
induction ss as [|sid ss IH]; simpl.
- seating_sound.
- pose proof deck_deal_seating. seating_sound.
Qed.

Lemma awardPot_seating w : sound same_seating any_error (Table.awardPot w).
Proof. destruct w as [k winner]. unfold Table.awardPot. seating_sound. Qed.

Lemma showdown_seating : sound same_seating any_error Table.showdown.
Proof.
unfold Table.showdown.
pose proof deck_revealSalt_seating. pose proof credit_all_seating.
pose proof evaluate_all_seating.
seating_sound.
Qed.

Lemma advancePhase_seating fuel :
  sound same_seating any_error (Table.advancePhase fuel).
Proof.
induction fuel as [|f IH]; simpl.
- seating_sound.
- pose proof deck_deal_seating. pose proof showdown_seating.
  pose proof setNextPlayer_loop_seating.
  seating_sound.
Qed.

Lemma advanceGame_seating : sound same_seating any_error Table.advanceGame.
Proof.
unfold Table.advanceGame.
pose proof advancePhase_seating. pose proof awardPot_seating.
pose proof isBettingComplete_loop_seating. pose proof setNextPlayer_loop_seating.
seating_sound.
Qed.

Lemma fold_seating k : sound same_seating any_error (Table.fold k).
Proof. pose proof advanceGame_seating. unfold Table.fold. seating_sound. Qed.

Lemma check_seating k : sound same_seating any_error (Table.check k).
Proof. pose proof advanceGame_seating. unfold Table.check. seating_sound. Qed.

Lemma call_seating k : sound same_seating any_error (Table.call k).
Proof. pose proof advanceGame_seating. unfold Table.call. seating_sound. Qed.

Lemma raise_seating k a : sound same_seating any_error (Table.raise k a).
Proof. pose proof advanceGame_seating. unfold Table.raise. seating_sound. Qed.

Lemma allIn_seating k : sound same_seating any_error (Table.allIn k).
Proof. pose proof raise_seating. unfold Table.allIn. seating_sound. Qed.

Lemma startHand_seating d : sound same_seating any_error (Table.startHand d).
Proof.
pose proof dealHoleCards_loop_seating. pose proof setNextPlayer_loop_seating.
unfold Table.startHand. seating_sound.
Qed.

Lemma same_seating_well_seated s s' :
  same_seating s s' -> well_seated s -> well_seated s'.
Proof.
intros (Hs & Hm & Hk) (H1 & H2 & H3). unfold well_seated.
rewrite Hs, Hm, Hk. auto.
Qed.

(** The two ways [addPlayer] ends. *)
Lemma addPlayer_result moltbookId walletAddress buyIn preferredSeat now s r s' :
  Table.addPlayer moltbookId walletAddress buyIn preferredSeat now s = (r, s') ->
  let k := (moltbookId +:+ "-" +:+ now)%string in
  (s' = s /\ exists e, r = Throw e)
  \/ (exists n : nat,
        Table.seats s !! n = Some None
        /\ r = Ok (Z.of_nat n, k)
        /\ s' = Table.set_seats (<[n := Some k]> (Table.seats s))
                  (Table.set_players
                     (pm_set k (Player.new k moltbookId walletAddress buyIn)
                        (Table.players s)) s)).
Proof.
unfold Table.addPlayer, Table.bind, Table.get.
destruct (_ || _); [intros [= <- <-]; left; eauto|]. cbv zeta.
set (st := match preferredSeat with Some _ => _ | None => _ end).
assert (Hst : st = -1 \/ 0 <= st /\ Table.seats s !! Z.to_nat st = Some None).
{ assert (Hi : indexOf (Table.seats s) None = -1
               \/ 0 <= indexOf (Table.seats s) None
                  /\ Table.seats s !! Z.to_nat (indexOf (Table.seats s) None)
                     = Some None).
  { destruct (indexOf_spec (Table.seats s) None) as [[E _]|(n & E & Hn & _)];
      [by left|right]. rewrite E, Nat2Z.id. split; [lia|exact Hn]. }
  unfold st. destruct preferredSeat as [ps|]; [|exact Hi].
  destruct (Table.seat_is_null (Table.seats s) ps) eqn:E; [|exact Hi].
  right. by apply seat_is_null_spec. }
clearbody st.
destruct (Z.eqb_spec st (-1)) as [E|Hne]; [intros [= <- <-]; left; eauto|].
destruct Hst as [?|[Hst0 Hnull]]; [contradiction|].
cbn [Table.modify Table.ret]. intros [= <- <-]. right.
exists (Z.to_nat st). rewrite Z2Nat.id by exact Hst0. auto.
Qed.

Lemma removePlayer_result k s r s' :
  Table.removePlayer k s = (r, s') ->
  (pm_get k (Table.players s) = None /\ r = Ok None /\ s' = s)
  \/ (exists p seats',
        pm_get k (Table.players s) = Some p
        /\ r = Ok (Some (Player.chips p))
        /\ s' = Table.set_players (pm_delete k (Table.players s))
                  (Table.set_seats seats' s)
        /\ ((seats' = Table.seats s /\ forall n, Table.seats s !! n <> Some (Some k))
            \/ exists n : nat, Table.seats s !! n = Some (Some k)
                               /\ seats' = <[n := None]> (Table.seats s))).
Proof.
unfold Table.removePlayer, Table.bind, Table.get.
destruct (pm_get k (Table.players s)) as [p|]; [|intros [= <- <-]; by left].
cbv zeta. intros H. right. exists p.
destruct (indexOf_spec (Table.seats s) (Some k)) as [[E Hn]|(n & E & Hn & _)];
  rewrite E in H.
- cbn [Z.eqb negb Table.ret Table.modify] in H. injection H as <- <-.
  exists (Table.seats s). repeat split; auto.
- destruct (Z.eqb_spec (Z.of_nat n) (-1)) as [?|_]; [lia|].
  cbn [negb Table.ret Table.modify] in H. rewrite Nat2Z.id in H.
  injection H as <- <-.
  exists (<[n := None]> (Table.seats s)). repeat split; eauto.
Qed.

Lemma pm_set_keys k p m :
  map fst (pm_set k p m) = map fst m /\ In k (map fst m)
  \/ map fst (pm_set k p m) = map fst m ++ [k] /\ ~ In k (map fst m).
Proof.
induction m as [|[k' p'] m IH]; simpl.
- right. split; [reflexivity|tauto].
- destruct (decide (k' = k)) as [->|Hne]; simpl.
  + left. split; [reflexivity|by left].
  + destruct IH as [[-> Hin]|[-> Hin]]; [left|right];
      (split; [reflexivity|tauto]).
Qed.

Lemma pm_delete_keys k m :
  NoDup (map fst m) ->
  NoDup (map fst (pm_delete k m))
  /\ forall k', In k' (map fst (pm_delete k m)) <-> k' <> k /\ In k' (map fst m).
Proof.
induction m as [|[k0 p0] m IH]; simpl; intros Hnd.
- split; [constructor|]. tauto.
- apply NoDup_cons in Hnd as [Hk0 Hnd].
  destruct (decide (k0 = k)) as [->|Hne]; simpl.
  + split; [exact Hnd|]. intros k'. split.
    * intros Hin. split; [|by right]. intros ->.
      apply Hk0. by apply list_elem_of_In.
    * intros [Hne [?|?]]; [congruence|assumption].
  + destruct (IH Hnd) as [IH1 IH2]. split.
    * apply NoDup_cons. split; [|exact IH1].
      rewrite list_elem_of_In, IH2. intros [_ Hin].
      apply Hk0. by apply list_elem_of_In.
    * intros k'. rewrite IH2. split.
      -- intros [->|[? ?]]; [split; [congruence|by left]|split; [assumption|by right]].
      -- intros [Hk' [->|Hin]]; [by left|right; by split].
Qed.

Lemma addPlayer_well_seated moltbookId walletAddress buyIn preferredSeat now :
  sound (fun s s' => well_seated s -> well_seated s') any_error
    (Table.addPlayer moltbookId walletAddress buyIn preferredSeat now).
Proof.
intros s r s' H. split; [|by intros]. intros (Hlen & Hnd & Hseat).
apply addPlayer_result in H. cbv zeta in H.
destruct H as [[-> _]|(n & Hn & _ & ->)]; [by repeat split|].
set (k := (moltbookId +:+ "-" +:+ now)%string).
unfold well_seated.
cbn [Table.seats Table.players Table.maxPlayers Table.set_seats
     Table.set_players].
assert (Hlt : (n < length (Table.seats s))%nat) by (by eapply lookup_lt_Some).
split; [by rewrite length_insert|]. split.
- destruct (pm_set_keys k (Player.new k moltbookId walletAddress buyIn)
              (Table.players s)) as [[-> _]|[-> Hin]]; [exact Hnd|].
  apply NoDup_app. split; [exact Hnd|]. split; [|apply NoDup_singleton].
  intros x Hx [->|[]]%list_elem_of_In. apply Hin. by apply list_elem_of_In.
- intros k' Hk'.
  assert (Hc : k' = k \/ In k' (map fst (Table.players s))).
  { destruct (pm_set_keys k (Player.new k moltbookId walletAddress buyIn)
                (Table.players s)) as [[E _]|[E _]]; rewrite E in Hk'.
    - by right.
    - apply in_app_iff in Hk' as [?|[<-|[]]]; auto. }
  destruct Hc as [->|Hin].
  + apply list_elem_of_In, list_elem_of_lookup. exists n.
    by apply list_lookup_insert_eq.
  + apply Hseat, list_elem_of_In, list_elem_of_lookup in Hin as [j Hj].
    apply list_elem_of_In, list_elem_of_lookup. exists j.
    rewrite list_lookup_insert_ne; [exact Hj|]. intros ->. congruence.
Qed.

Lemma removePlayer_well_seated k :
  sound (fun s s' => well_seated s -> well_seated s') any_error
    (Table.removePlayer k).
Proof.
intros s r s' H. split; [|by intros]. intros (Hlen & Hnd & Hseat).
apply removePlayer_result in H.
destruct H as [(_ & _ & ->)|(p & seats' & Hp & _ & -> & Hs)];
  [by repeat split|].
destruct (pm_delete_keys k (Table.players s) Hnd) as [Hnd' Hk'].
unfold well_seated.
cbn [Table.seats Table.players Table.maxPlayers Table.set_seats
     Table.set_players].
split; [|split; [exact Hnd'|]].
- destruct Hs as [[-> _]|(n & _ & ->)]; [exact Hlen|by rewrite length_insert].
- intros k' Hin. apply Hk' in Hin as [Hne Hin].
  apply Hseat in Hin. destruct Hs as [[-> _]|(n & Hn & ->)]; [exact Hin|].
  apply list_elem_of_In, list_elem_of_lookup in Hin as [j Hj].
  apply list_elem_of_In, list_elem_of_lookup. exists j.
  rewrite list_lookup_insert_ne; [exact Hj|]. intros ->. congruence.
Qed.

Lemma new_well_seated i config : well_seated (Table.new i config).
Proof.
unfold well_seated, Table.new. cbn [Table.seats Table.players Table.maxPlayers].
split; [by rewrite length_replicate|]. split; [constructor|]. intros k [].
Qed.

Lemma exec_well_seated sha256 op s :
  well_seated s -> well_seated (snd (exec sha256 op s)).
Proof.
intros Hw.
assert (G : forall {A} (m : Table.M A) (f : A -> Outcome),
          sound same_seating any_error m ->
          well_seated (snd (Table.bind m (fun r => Table.ret (f r)) s))).
{ intros A m f Hm. unfold Table.bind.
  destruct (m s) as [[a|e] s1] eqn:E; simpl;
    destruct (Hm _ _ _ E) as [Hs _]; by apply (same_seating_well_seated s). }
destruct op; unfold exec;
  try (apply G; solve [auto using fold_seating, check_seating, call_seating,
                         raise_seating, allIn_seating, startHand_seating]).
- unfold Table.bind.
  destruct (Table.addPlayer moltbookId walletAddress buyIn preferredSeat now s)
    as [[a|e] s1] eqn:E; cbn [snd Table.ret];
    destruct (addPlayer_well_seated _ _ _ _ _ _ _ _ E) as [Hs _];
    exact (Hs Hw).
- unfold Table.bind.
  destruct (Table.removePlayer playerId s) as [[a|e] s1] eqn:E;
    cbn [snd Table.ret];
    destruct (removePlayer_well_seated _ _ _ _ E) as [Hs _];
    exact (Hs Hw).
Qed.

Lemma reachable_well_seated sha256 s : reachable sha256 s -> well_seated s.
Proof.
induction 1 as [i config|op s _ IH]; [apply new_well_seated|].
by apply exec_well_seated.
Qed.

(** *** No call loops for ever *)

Lemma validateAction_halts k :
  halting ready (Table.validateAction k) (fun _ => in_hand 4).
Proof.
intros s [Hinv (Hlen & _ & _)].
unfold Table.validateAction, Table.bind, Table.get.
destruct (_ || _) eqn:Eph; [cbn; unfold halts; congruence|]. cbv zeta.
destruct (bool_decide (Table.currentPlayerSeat s = _)) eqn:Et;
  [|cbn; unfold halts; congruence]. cbn.
apply bool_decide_eq_true in Et.
apply orb_false_iff in Eph as [E1 E2].
apply bool_decide_eq_false in E1, E2.
split; [split; [exact Hlen|]|].
- pose proof (Hinv _ Et) as H0.
  destruct (indexOf_spec (Table.seats s) (Some k)) as [[E _]|(n & _ & Hn & _)];
    [lia|eauto].
- destruct (Table.phase s); simpl; try lia; congruence.
Qed.

Lemma deref_halts (I : Table.t -> Prop) k :
  halting I (Table.deref k) (fun _ => I).
Proof.
intros s Hs. unfold Table.deref, Table.bind, Table.get.
destruct (pm_get k (Table.players s)); [exact Hs|]. cbn. unfold halts. congruence.
Qed.

Lemma advanceGame_halts :
  halting (in_hand 4) Table.advanceGame (fun _ => any_state).
Proof.
pose proof isBettingComplete_halts.
pose proof setNextPlayer_steady. pose proof snapshot_steady.
unfold Table.advanceGame.
generalize (advancePhase_halts 4). generalize (Table.advancePhase 4).
generalize awardPot_halts. generalize Table.awardPot.
intros award Haward advance Hadvance.
repeat halt_step.
all: apply halting_any, Haward.
Qed.

Lemma fold_halts k : halting ready (Table.fold k) (fun _ => any_state).
Proof.
unfold Table.fold.
generalize advanceGame_halts. generalize Table.advanceGame. intros K HK.
eapply halting_bind; [apply validateAction_halts|intros ?].
repeat halt_step.
Qed.

Lemma check_halts k : halting ready (Table.check k) (fun _ => any_state).
Proof.
unfold Table.check.
generalize advanceGame_halts. generalize Table.advanceGame. intros K HK.
eapply halting_bind; [apply validateAction_halts|intros ?].
repeat halt_step.
Qed.

Lemma call_halts k : halting ready (Table.call k) (fun _ => any_state).
Proof.
unfold Table.call.
generalize advanceGame_halts. generalize Table.advanceGame. intros K HK.
eapply halting_bind; [apply validateAction_halts|intros ?].
repeat halt_step.
Qed.

Lemma raise_halts k a : halting ready (Table.raise k a) (fun _ => any_state).
Proof.
unfold Table.raise.
generalize advanceGame_halts. generalize Table.advanceGame. intros K HK.
eapply halting_bind; [apply validateAction_halts|intros ?].
repeat halt_step.
Qed.

Lemma allIn_halts k : halting ready (Table.allIn k) (fun _ => any_state).
Proof.
unfold Table.allIn.
eapply halting_bind; [apply deref_halts|intros p; apply raise_halts].
Qed.

Lemma halting_get_eq {B} (I : Table.t -> Prop) (k : Table.t -> Table.M B) K :
  (forall s0, I s0 -> halting (fun s => s = s0) (k s0) K) ->
  halting I (Table.bind Table.get k) K.
Proof. intros Hk s Hs. unfold Table.bind, Table.get. by apply (Hk s). Qed.

Lemma halting_modify_keep (I : Table.t -> Prop) (f : Table.t -> Table.t) :
  (forall s, I s -> I (f s)) -> halting I (Table.modify f) (fun _ => I).
Proof. intros H. by apply halting_modify. Qed.

Lemma active_players_occupied s :
  well_seated s -> (length (Table.getActivePlayers s) <? 2)%nat = false ->
  occupied s.
Proof.
intros (Hlen & _ & Hseat) Hn. split; [exact Hlen|].
unfold Table.getActivePlayers, pm_values in Hn.
destruct (Table.players s) as [|[k p] m] eqn:E; [discriminate|].
specialize (Hseat k ltac:(by left)).
apply list_elem_of_In, list_elem_of_lookup in Hseat as [i Hi]. eauto.
Qed.

Lemma startHand_halts d : halting ready (Table.startHand d) (fun _ => any_state).
Proof.
pose proof moveDealer_halts. pose proof postBlinds_halts.
pose proof getBigBlindSeat_halts. pose proof setNextPlayer_steady.
pose proof dealHoleCards_loop_steady. pose proof snapshot_steady.
unfold Table.startHand, Table.dealHoleCards, Table.logAction.
apply halting_get_eq. intros s0 [_ Hw].
destruct (_ <? _)%nat eqn:En; [apply halting_throw; unfold halts; congruence|].
pose proof (active_players_occupied s0 Hw En) as Ho.
eapply (halting_weaken _ occupied); [|by intros s ->|intros a s Hs; exact Hs].
repeat first
  [ halt_step
  | lazymatch goal with
    | |- halting _ (Table.bind (Table.modify _) _) _ =>
        eapply halting_bind;
        [ apply halting_modify_keep; intros ? HH; exact HH
        | intros ?; cbv beta ]
    end ].
Qed.

Lemma addPlayer_halts m w b ps now :
  halting ready (Table.addPlayer m w b ps now) (fun _ => any_state).
Proof.
apply halting_any. unfold Table.addPlayer. halt_any.
Qed.

Lemma removePlayer_halts k :
  halting ready (Table.removePlayer k) (fun _ => any_state).
Proof.
apply halting_any. unfold Table.removePlayer.
repeat first
  [ halt_any; fail
  | lazymatch goal with
    | |- halting _ (Table.bind (if ?b then _ else _) _) _ => destruct b eqn:?
    end
  | progress halt_any ].
Qed.

Lemma exec_halts sha256 op : halting ready (exec sha256 op) (fun _ => any_state).
Proof.
destruct op; unfold exec;
  (eapply halting_bind; [|intros ?; apply halting_ret; intros; exact I]).
- apply addPlayer_halts.
- apply removePlayer_halts.
- apply startHand_halts.
- apply fold_halts.
- apply check_halts.
- apply call_halts.
- apply raise_halts.
- apply allIn_halts.
Qed.

Lemma reachable_ready sha256 s : reachable sha256 s -> ready s.
Proof.
intros H. split; [by eapply reachable_seat_inv|by eapply reachable_well_seated].
Qed.

(** X15.  On a reachable table no call of a public method runs into one
    of the loops that could go on for ever: the seat searches of
    [_moveDealer], [_getSmallBlindSeat] and [_getBigBlindSeat] find an
    occupied seat and the recursion of [_advancePhase] reaches the
    showdown. *)
Theorem no_call_loops_forever
    (sha256 : string -> string) (s : Table.t) (op : Op) :
  reachable sha256 s -> fst (exec sha256 op s) <> Throw Diverges.
Proof.
intros Hr. pose proof (exec_halts sha256 op s (reachable_ready _ _ Hr)) as H.
destruct (exec sha256 op s) as [[a|e] s']; cbn [fst]; [discriminate|].
intros [= ->]. by apply H.
Qed.

Lemma no_call_loops_forever_witness :
  fst (exec demo_hash (OpCall "alice-1") heads_up) <> Throw Diverges.
Proof.
apply (no_call_loops_forever demo_hash heads_up (OpCall "alice-1")).
exact heads_up_reachable.
Defined.

(** X16.  On a reachable table the seats array has [maxPlayers]
    entries, the ids of the players are distinct, every player of the
    [players] map holds a seat, and the seat on turn is [null] or
    non-negative. *)
Theorem reachable_tables_are_well_seated (sha256 : string -> string) (s : Table.t) :
  reachable sha256 s ->
  length (Table.seats s) = Table.maxPlayers s
  /\ NoDup (map fst (Table.players s))
  /\ (forall k p, pm_get k (Table.players s) = Some p ->
        exists i : nat, Table.seats s !! i = Some (Some k))
  /\ (forall i, Table.currentPlayerSeat s = Some i -> 0 <= i).
Proof.
intros Hr. destruct (reachable_ready _ _ Hr) as [Hinv (Hlen & Hnd & Hseat)].
repeat split; try assumption.
intros k p Hp.
assert (Hin : In k (map fst (Table.players s))).
{ clear -Hp. induction (Table.players s) as [|[k' p'] m IH]; simpl in *;
    [discriminate|]. destruct (decide (k' = k)); auto. }
by apply Hseat, list_elem_of_In, list_elem_of_lookup in Hin.
Qed.

Lemma reachable_tables_are_well_seated_witness :
  length (Table.seats heads_up) = Table.maxPlayers heads_up
  /\ NoDup (map fst (Table.players heads_up))
  /\ (forall k p, pm_get k (Table.players heads_up) = Some p ->
        exists i : nat, Table.seats heads_up !! i = Some (Some k))
  /\ (forall i, Table.currentPlayerSeat heads_up = Some i -> 0 <= i).
Proof.
apply (reachable_tables_are_well_seated demo_hash heads_up).
exact heads_up_reachable.
Defined.

(** *** Settings, history and the committed deck *)

#[global] Instance dealt_from_refl : Reflexive dealt_from.
Proof.
intros [d|]; simpl; [|exact I]. repeat split. exists []. by rewrite app_nil_r.
Qed.
#[global] Instance dealt_from_trans : Transitive dealt_from.
Proof.
intros [a|] [b|] [c|]; simpl; try tauto.
intros (? & ? & x & Hx) (? & ? & y & Hy). repeat split; try congruence.
exists (y ++ x). by rewrite Hx, Hy, app_assoc.
Qed.
#[global] Instance kept_refl : Reflexive kept.
Proof. intros s. unfold kept. repeat split; auto. reflexivity. Qed.
#[global] Instance kept_trans : Transitive kept.
Proof.
intros a b c (?&?&?&?&?) (?&?&?&?&?). unfold kept.
repeat split; try congruence; [by trans (Table.deck b)|auto].
Qed.

Lemma length_removelast {A} (l : list A) :
  length (removelast l) = pred (length l).
Proof.
induction l as [|x l IH]; [reflexivity|].
destruct l as [|y l]; [reflexivity|].
change (removelast (x :: y :: l)) with (x :: removelast (y :: l)).
cbn [length] in *. by rewrite IH.
Qed.

Lemma remember_bounded (h : CompletedHand) (l : list CompletedHand) :
  (length l <= 20)%nat ->
  (length (if (20 <? length (h :: l))%nat then removelast (h :: l) else h :: l)
   <= 20)%nat.
Proof.
intros Hl. destruct (Nat.ltb_spec 20 (length (h :: l))) as [H|H]; [|exact H].
rewrite length_removelast. simpl. exact Hl.
Qed.

Ltac kept_side :=
  first
    [ exact I
    | reflexivity
    | unfold kept, settings, bounded_history; simpl;
      repeat split; try reflexivity; try tauto;
      first [ intros; by apply remember_bounded ] ].

Ltac kept_sound := repeat sound_step kept_side.

Lemma deck_deal_kept : sound kept any_error Table.deck_deal.
Proof.
intros s r s'. unfold Table.deck_deal.
destruct (Table.deck s) as [d|] eqn:Ed; [|intros [= <- <-]; split;
  [reflexivity | by intros ? [= <-]]].
unfold deal. destruct (pop (cards d)) as [[c rest]|] eqn:Ep; intros [= <- <-].
- split; [|discriminate]. unfold kept, settings. simpl. rewrite Ed. simpl.
  repeat split; auto. exists [c]. by apply pop_spec.
- split; [reflexivity|]. by intros ? [= <-].
Qed.

Lemma deck_revealSalt_kept : sound kept any_error Table.deck_revealSalt.
Proof.
intros s r s'. unfold Table.deck_revealSalt.
destruct (Table.deck s) as [d|] eqn:Ed; simpl; intros [= <- <-].
- split; [|discriminate]. unfold kept, settings. simpl. rewrite Ed. simpl.
  repeat split; auto. exists []. by rewrite app_nil_r.
- split; [reflexivity|]. by intros ? [= <-].
Qed.

Lemma setNextPlayer_loop_kept checked seat :
  sound kept any_error (Table.setNextPlayer_loop checked seat).
Proof.
revert seat. induction checked as [|f IH]; intros seat; simpl; kept_sound.
Qed.

Lemma isBettingComplete_loop_kept ps :
  sound kept any_error (Table.isBettingComplete_loop ps).
Proof. induction ps as [|[k p] ps IH]; simpl; kept_sound. Qed.

Lemma evaluate_all_kept community ps :
  sound kept any_error (Table.evaluate_all community ps).
Proof.
induction ps as [|[k p] ps IH]; simpl.
- kept_sound.
- destruct (evaluateHand _) as [[h|]|e] eqn:E; kept_sound.
Qed.

Lemma credit_all_kept winAmount ws :
  sound kept any_error (Table.credit_all winAmount ws).
Proof. induction ws as [|w ws IH]; simpl; kept_sound. Qed.

Lemma dealHoleCards_loop_kept ss :
  sound kept any_error (Table.dealHoleCards_loop ss).
Proof.
induction ss as [|sid ss IH]; simpl.
- kept_sound.
- pose proof deck_deal_kept. kept_sound.
Qed.

Lemma awardPot_kept w : sound kept any_error (Table.awardPot w).
Proof. destruct w as [k winner]. unfold Table.awardPot. kept_sound. Qed.

Lemma showdown_kept : sound kept any_error Table.showdown.
Proof.
unfold Table.showdown.
pose proof deck_revealSalt_kept. pose proof credit_all_kept.
pose proof evaluate_all_kept.
kept_sound.
Qed.

Lemma advancePhase_kept fuel :
  sound kept any_error (Table.advancePhase fuel).
Proof.
induction fuel as [|f IH]; simpl.
- kept_sound.
- pose proof deck_deal_kept. pose proof showdown_kept.
  pose proof setNextPlayer_loop_kept.
  kept_sound.
Qed.

Lemma advanceGame_kept : sound kept any_error Table.advanceGame.
Proof.
unfold Table.advanceGame.
pose proof advancePhase_kept. pose proof awardPot_kept.
pose proof isBettingComplete_loop_kept. pose proof setNextPlayer_loop_kept.
kept_sound.
Qed.

Lemma fold_kept k : sound kept any_error (Table.fold k).
Proof. pose proof advanceGame_kept. unfold Table.fold. kept_sound. Qed.

Lemma check_kept k : sound kept any_error (Table.check k).
Proof. pose proof advanceGame_kept. unfold Table.check. kept_sound. Qed.

Lemma call_kept k : sound kept any_error (Table.call k).
Proof. pose proof advanceGame_kept. unfold Table.call. kept_sound. Qed.

Lemma raise_kept k a : sound kept any_error (Table.raise k a).
Proof. pose proof advanceGame_kept. unfold Table.raise. kept_sound. Qed.

Lemma allIn_kept k : sound kept any_error (Table.allIn k).
Proof. pose proof raise_kept. unfold Table.allIn. kept_sound. Qed.

Lemma addPlayer_kept m w b ps now :
  sound kept any_error (Table.addPlayer m w b ps now).
Proof. unfold Table.addPlayer. kept_sound. Qed.

Lemma removePlayer_kept k : sound kept any_error (Table.removePlayer k).
Proof. unfold Table.removePlayer. kept_sound. Qed.

(** [startHand]: either it throws at once, or it installs the new deck
    and its commitment and goes on with steps that keep them. *)
Lemma startHand_result d s r s' :
  Table.startHand d s = (r, s') ->
  (r = Throw NotEnoughPlayers /\ s' = s)
  \/ kept (Table.set_deckCommitment (getCommitment d)
             (Table.set_deck (Some d)
                (Table.set_handNumber (Table.handNumber s + 1) s))) s'.
Proof.
pose proof dealHoleCards_loop_kept. pose proof setNextPlayer_loop_kept.
unfold Table.startHand.
unfold Table.bind at 1. unfold Table.get at 1.
destruct (_ <? _)%nat; [intros [= <- <-]; by left|].
unfold Table.bind at 1. unfold Table.modify at 1.
unfold Table.bind at 1. unfold Table.modify at 1.
unfold Table.bind at 1. unfold Table.modify at 1.
match goal with
| |- ?m ?s3 = _ -> _ => assert (Hrest : sound kept any_error m)
end.
{ kept_sound. }
intros E. right. by destruct (Hrest _ _ _ E).
Qed.

#[global] Instance lasting_refl : Reflexive lasting.
Proof. intros s. unfold lasting. repeat split; auto. lia. Qed.
#[global] Instance lasting_trans : Transitive lasting.
Proof.
intros a b c (?&?&?) (?&?&?). unfold lasting.
repeat split; [congruence|lia|auto].
Qed.

Lemma kept_lasting s s' : kept s s' -> lasting s s'.
Proof. intros (?&?&?&?&?). unfold lasting. repeat split; auto. lia. Qed.

Lemma kept_committed s s' : kept s s' -> committed s -> committed s'.
Proof.
intros (_ & _ & Hc & Hd & _). unfold committed, dealt_from in *.
destruct (Table.deck s) as [d|], (Table.deck s') as [d'|]; try tauto.
- destruct Hd as (_ & Hd & _). congruence.
- congruence.
Qed.

Lemma reveals_kept s s1 snap s' :
  kept s s1 -> reveals s1 snap s' -> reveals s snap s'.
Proof.
intros (_ & _ & Hc & Hd & _) H sd Hsd.
destruct (H sd Hsd) as (Hg & d1 & rest & dealt & Hd1 & Hcards & Hr).
split; [congruence|].
rewrite Hd1 in Hd. unfold dealt_from in Hd.
destruct (Table.deck s) as [d|]; [|contradiction].
destruct Hd as (Hs & Hm & x & Hx).
exists d, rest, (dealt ++ x). split; [reflexivity|]. split.
- by rewrite Hx, Hcards, app_assoc.
- by rewrite Hr, Hs, Hm.
Qed.

Lemma ensures_bind_kept {A B} (Q : Table.t -> B -> Table.t -> Prop)
    (m : Table.M A) (k : A -> Table.M B) :
  sound kept any_error m ->
  (forall x, ensures Q (k x)) ->
  (forall s s1 b s', kept s s1 -> Q s1 b s' -> Q s b s') ->
  ensures Q (Table.bind m k).
Proof.
intros Hm Hk Hc s b s' H. apply bind_Ok in H as (a & s1 & E & H).
destruct (Hm _ _ _ E) as [Hf _]. eapply Hc; [exact Hf|].
exact (Hk a _ _ _ H).
Qed.

Ltac reveals_step :=
  lazymatch goal with
  | H : ensures _ ?m |- ensures _ ?m => exact H
  | |- ensures _ (Table.bind _ _) =>
      apply ensures_bind_kept;
      [ solve [kept_sound] | intros ? | exact reveals_kept ]
  | |- ensures _ (if ?b then _ else _) => destruct b eqn:?
  | |- ensures _ (match ?x with _ => _ end) => destruct x eqn:?
  | |- ensures _ (let _ := _ in _) => cbv zeta
  | |- ensures _ (Table.throw _) => intros ? ? ? ?; discriminate
  end.

Lemma snapshot_reveals : ensures reveals Table.snapshot.
Proof. intros s snap s' [= <- <-] sd Hsd. discriminate. Qed.

Lemma awardPot_reveals w : ensures reveals (Table.awardPot w).
Proof.
destruct w as [k winner]. intros s snap s' H sd Hsd. exfalso.
unfold Table.awardPot in H.
cbn [Table.bind Table.get Table.modify Table.update_player Table.logAction
     Table.remember Table.ret] in H.
injection H as <- <-. discriminate.
Qed.

Lemma showdown_reveals : ensures reveals Table.showdown.
Proof.
intros s snap s'. unfold Table.showdown.
cbn [Table.bind Table.modify Table.get].
set (sa := Table.set_phase SHOWDOWN s).
intros H. apply bind_Ok in H as (unsorted & s1 & Ev & H).
destruct (evaluate_all_spec _ _ _ _ _ Ev) as [-> _].
destruct (js_sort Table.by_strength unsorted) as [|r0 rs] eqn:Es;
  [discriminate|].
revert H.
set (winners := Table.winners_of (r0 :: rs)).
set (winAmount := Math_floor _).
intros H. apply bind_Ok in H as ([] & s2 & Hc & H).
assert (Hk2 : kept sa s2).
{ by destruct (credit_all_kept winAmount winners _ _ _ Hc). }
apply bind_Ok in H as (dr & s3 & Hd & H).
unfold Table.deck_revealSalt in Hd.
destruct (Table.deck s2) as [d2|] eqn:Ed2; [|discriminate].
cbn [revealSalt] in Hd. injection Hd as <- <-.
cbn [Table.bind Table.modify Table.get Table.logAction Table.remember
     Table.ret] in H.
injection H as <- <-.
intros sd [= <-]. cbn [snap_state gs_deckCommitment sd_deckReveal].
destruct Hk2 as (_ & _ & Hcm & Hdf & _).
cbn [Table.deckCommitment Table.set_completedHands Table.set_handHistory
     Table.set_deck].
split; [exact Hcm|].
rewrite Ed2 in Hdf. unfold dealt_from in Hdf.
change (Table.deck sa) with (Table.deck s) in Hdf.
destruct (Table.deck s) as [d|]; [|contradiction].
destruct Hdf as (Hs & Hm & x & Hx).
exists d, (cards d2), x. split; [reflexivity|]. split; [exact Hx|].
cbn [cards salt commitment]. by rewrite Hs, Hm.
Qed.

Lemma advancePhase_reveals fuel : ensures reveals (Table.advancePhase fuel).
Proof.
induction fuel as [|f IH]; [discriminate|].
pose proof deck_deal_kept. pose proof setNextPlayer_loop_kept.
pose proof snapshot_reveals. pose proof showdown_reveals.
cbn [Table.advancePhase]. repeat reveals_step.
Qed.

Lemma advanceGame_reveals : ensures reveals Table.advanceGame.
Proof.
pose proof snapshot_reveals.
pose proof isBettingComplete_loop_kept. pose proof setNextPlayer_loop_kept.
unfold Table.advanceGame.
generalize (advancePhase_reveals 4). generalize (Table.advancePhase 4).
generalize awardPot_reveals. generalize Table.awardPot.
intros award Haward advance Hadvance.
repeat reveals_step.
all: apply Haward.
Qed.

Lemma act_reveals a k : ensures reveals (act a k).
Proof.
destruct a; unfold act, Table.fold, Table.check, Table.call, Table.raise;
  generalize advanceGame_reveals; generalize Table.advanceGame; intros K HK;
  repeat reveals_step.
Qed.

Lemma sound_snd {A} (R : Table.t -> Table.t -> Prop) P (m : Table.M A)
    (f : A -> Outcome) s :
  sound R P m -> R s (snd (Table.bind m (fun r => Table.ret (f r)) s)).
Proof.
intros Hm. unfold Table.bind.
destruct (m s) as [[a|e] s1] eqn:E; simpl; by destruct (Hm _ _ _ E).
Qed.

Lemma startHand_lasting d s r s' :
  Table.startHand d s = (r, s') -> lasting s s'.
Proof.
intros H. apply startHand_result in H as [[_ ->]|H]; [reflexivity|].
apply kept_lasting in H. destruct H as (H1 & H2 & H3).
unfold lasting. cbn [Table.handNumber Table.set_deckCommitment Table.set_deck
                     Table.set_handNumber] in H2.
repeat split; [exact H1|lia|exact H3].
Qed.

Lemma exec_lasting sha256 op s : lasting s (snd (exec sha256 op s)).
Proof.
destruct op; unfold exec;
  try (apply kept_lasting; eapply sound_snd;
       solve [auto using fold_kept, check_kept, call_kept, raise_kept,
                allIn_kept, addPlayer_kept, removePlayer_kept]).
unfold Table.bind.
destruct (Table.startHand _ s) as [[a|e] s1] eqn:E; simpl;
  by apply startHand_lasting in E.
Qed.

Lemma run_lasting sha256 ops s : lasting s (run sha256 ops s).
Proof.
revert s. induction ops as [|op ops IH]; intros s; [reflexivity|].
simpl. etrans; [apply exec_lasting|apply IH].
Qed.

(** X17.  No sequence of calls changes the settings that the
    constructor installed (id, name, size, blinds, buy-in limits, rake);
    [completedHands] never holds more than 20 hands and the hand number
    never goes below 0. *)
Theorem settings_never_change
    (sha256 : string -> string) (i : string) (config : Config) (ops : list Op) :
  let s0 := Table.new i config in
  let s := run sha256 ops s0 in
  (Table.id s, Table.name s, Table.maxPlayers s) = (Table.id s0, Table.name s0, Table.maxPlayers s0)
  /\ (Table.smallBlind s, Table.bigBlind s) = (Table.smallBlind s0, Table.bigBlind s0)
  /\ (Table.minBuyIn s, Table.maxBuyIn s) = (Table.minBuyIn s0, Table.maxBuyIn s0)
  /\ (Table.rake s, Table.rakeMax s) = (Table.rake s0, Table.rakeMax s0)
  /\ (length (Table.completedHands s) <= 20)%nat
  /\ 0 <= Table.handNumber s.
Proof.
intros s0 s. destruct (run_lasting sha256 ops s0) as (H1 & H2 & H3).
fold s in H1, H2, H3. clearbody s. subst s0. unfold settings in H1.
injection H1 as ? ? ? ? ? ? ? ? ? ?.
split; [simpl; congruence|]. split; [simpl; congruence|].
split; [simpl; congruence|]. split; [simpl; congruence|]. split.
- apply H3. unfold bounded_history. simpl. lia.
- etrans; [|exact H2]. simpl. lia.
Qed.

Section GenuineDeck.
Variable sha256 : string -> string.

Lemma kept_genuine s s' : kept s s' -> genuine sha256 s -> genuine sha256 s'.
Proof.
intros Hk [Hc Hg]. split; [by apply (kept_committed s)|].
destruct Hk as (_ & _ & _ & Hd & _).
destruct Hg as [Hn|(saltHex & draws & Hg)].
- rewrite Hn in Hd. left. simpl in Hd. by destruct (Table.deck s').
- right. exists saltHex, draws. by trans (Table.deck s).
Qed.

Lemma exec_genuine op s : genuine sha256 s -> genuine sha256 (snd (exec sha256 op s)).
Proof.
intros Hg.
destruct op; unfold exec;
  try (apply (kept_genuine s); [|exact Hg]; eapply sound_snd;
       solve [auto using fold_kept, check_kept, call_kept, raise_kept,
                allIn_kept, addPlayer_kept, removePlayer_kept]).
unfold Table.bind.
destruct (Table.startHand _ s) as [[a|e] s1] eqn:E; cbn [snd Table.ret];
  (apply startHand_result in E as [[_ ->]|E]; [exact Hg|];
   eapply kept_genuine; [exact E|];
   (split; [reflexivity|]); right; exists saltHex, draws; reflexivity).
Qed.

Lemma reachable_genuine s : reachable sha256 s -> genuine sha256 s.
Proof.
induction 1 as [i config|op s _ IH].
- split; [reflexivity|by left].
- by apply exec_genuine.
Qed.

(** X18.  When an action on a reachable table ends in a showdown, the
    commitment it reveals is the one the table has published since
    [startHand] (and still shows in the state returned), and it is the
    hash, with the revealed salt, of an ordering of the 52 cards that
    begins with the revealed remaining cards. *)
Theorem showdown_reveals_the_published_commitment
    (s : Table.t) (a : Action) (playerId : string)
    (snap : Snapshot) (s' : Table.t) (sd : ShowdownInfo) :
  reachable sha256 s ->
  act a playerId s = (Ok snap, s') ->
  snap_showdown snap = Some sd ->
  let reveal := sd_deckReveal sd in
  reveal_commitment reveal = Table.deckCommitment s
  /\ gs_deckCommitment (snap_state snap) = Table.deckCommitment s
  /\ exists ordering : list Card,
       ordering ≡ₚ buildDeck
       /\ remainingCards reveal
          = take (length (remainingCards reveal)) (map Card_toString ordering)
       /\ reveal_commitment reveal
          = Some (sha256 (join "," (map Card_toString ordering)
                          +:+ reveal_salt reveal)).
Proof.
intros Hr Hact Hsd reveal.
destruct (reachable_genuine s Hr) as [Hc Hg].
destruct (act_reveals a playerId s snap s' Hact sd Hsd)
  as (Hgs & d & rest & dealt & Hd & Hcards & Hrev).
unfold committed in Hc. rewrite Hd in Hc, Hg.
destruct Hg as [?|(saltHex & draws & Hs & Hm & x & Hx)]; [discriminate|].
destruct (newSecureDeck_fields sha256 saltHex draws) as (Hc0 & Hs0 & Hm0).
cbv zeta in Hc0, Hs0, Hm0.
subst reveal. rewrite Hrev. cbn [reveal_commitment reveal_salt remainingCards].
split; [by rewrite Hc|]. split; [exact Hgs|].
exists (cards (newSecureDeck sha256 saltHex draws)). split; [|split].
- rewrite Hc0. apply shuffle_perm.
- rewrite Hx, Hcards, !map_app, <- app_assoc.
  by rewrite length_map, <- (length_map Card_toString rest), take_app_length.
- rewrite Hm, Hs, Hs0. exact Hm0.
Qed.
End GenuineDeck.

Lemma showdown_reveals_the_published_commitment_witness :
  exists snap s' sd,
    act Check "alice-1" river_table = (Ok snap, s')
    /\ snap_showdown snap = Some sd
    /\ reveal_commitment (sd_deckReveal sd) = Table.deckCommitment river_table.
Proof.
eexists. eexists. eexists.
split; [vm_compute; reflexivity|]. split; [reflexivity|].
eapply (showdown_reveals_the_published_commitment demo_hash river_table Check
          "alice-1").
- apply reachable_run. exact heads_up_reachable.
- vm_compute. reflexivity.
- reflexivity.
Defined.

(** *** The winners of a showdown *)

Lemma evaluateHand_Ok_well_formed cs h :
  evaluateHand cs = Ok (Some h) -> well_formed h.
Proof.
intros H. destruct (Nat.lt_ge_cases (length cs) 5) as [Hlt|Hge].
- unfold evaluateHand in H. apply Nat.ltb_lt in Hlt. by rewrite Hlt in H.
- destruct (evaluateHand_well_formed cs Hge) as (r & E & Hr). congruence.
Qed.

Lemma evaluate_all_results community ps s rs s' :
  Table.evaluate_all community ps s = (Ok rs, s') ->
  Forall2 (result_of community) ps rs.
Proof.
revert rs s'. induction ps as [|[k p] ps IH]; intros rs s'; simpl.
- intros [= <- <-]. constructor.
- destruct (evaluateHand _) as [[h|]|e] eqn:E; try discriminate.
  intros H. apply bind_Ok in H as (rs0 & s1 & H0 & H).
  injection H as <- <-. constructor; [|by eapply IH].
  repeat split; simpl; auto.
Qed.

Lemma sort_insert_stronger_first x l :
  well_formed (Table.res_hand x) ->
  Forall (fun r => well_formed (Table.res_hand r)) l ->
  StronglySorted stronger_first l ->
  StronglySorted stronger_first (sort_insert Table.by_strength x l).
Proof.
intros Hx. induction l as [|y l IH]; intros Hwf Hs; simpl.
- repeat constructor.
- inversion Hwf as [|? ? Hy Hl]; subst. inversion Hs as [|? ? Hs' Hfa]; subst.
  destruct (compareHands_total (Table.res_hand y) (Table.res_hand x) Hy Hx)
    as (z & Hyx & Hxy & _).
  unfold Table.by_strength at 1. rewrite Hyx.
  destruct (Z.leb_spec z 0) as [Hz|Hz].
  + constructor; [exact Hs|]. constructor; [by exists z|].
    rewrite Forall_forall in Hfa, Hl. apply Forall_forall. intros w Hw.
    unfold stronger_first in *.
    eapply (no_stronger_trans _ (Table.res_hand y)); eauto.
    by exists z.
  + constructor; [by apply IH|].
    apply Forall_forall. intros w Hw.
    rewrite sort_insert_perm in Hw. apply elem_of_cons in Hw as [->|Hw].
    * exists (- z). split; [exact Hxy|lia].
    * rewrite Forall_forall in Hfa. by apply Hfa.
Qed.

Lemma js_sort_stronger_first l :
  Forall (fun r => well_formed (Table.res_hand r)) l ->
  StronglySorted stronger_first (js_sort Table.by_strength l).
Proof.
induction l as [|x l IH]; intros Hwf; [constructor|].
inversion Hwf; subst. unfold js_sort in *. simpl.
apply sort_insert_stronger_first; auto.
apply Forall_forall. intros w Hw.
change (foldr (sort_insert Table.by_strength) [] l)
  with (js_sort Table.by_strength l) in Hw.
rewrite js_sort_perm in Hw.
rewrite Forall_forall in H2. by apply H2.
Qed.

Lemma tie_spec a b :
  well_formed a -> well_formed b ->
  js_is0 (compareHands a b) = true <-> no_stronger a b /\ no_stronger b a.
Proof.
intros Ha Hb. destruct (compareHands_total a b Ha Hb) as (z & Hab & Hba & _).
unfold no_stronger. rewrite Hab, Hba. simpl. rewrite Z.eqb_eq. split.
- intros ->. split; eexists; (split; [reflexivity|lia]).
- intros [(x & [= <-] & Hx) (y & [= <-] & Hy)]. lia.
Qed.

Lemma take_while_ties r0 rest w :
  well_formed (Table.res_hand r0) ->
  Forall (fun r => well_formed (Table.res_hand r)) rest ->
  Forall (stronger_first r0) rest ->
  StronglySorted stronger_first rest ->
  In w (take_while
          (fun r => js_is0 (compareHands (Table.res_hand r) (Table.res_hand r0)))
          rest)
  <-> In w rest /\ no_stronger (Table.res_hand r0) (Table.res_hand w).
Proof.
intros H0. induction rest as [|y rest IH]; intros Hwf Hle Hs; simpl; [tauto|].
inversion Hwf as [|? ? Hy Hl]; subst. inversion Hs as [|? ? Hs' Hfa]; subst.
inversion Hle as [|? ? Hy0 Hle']; subst.
destruct (js_is0 _) eqn:E.
- apply tie_spec in E as [E1 E2]; auto. simpl. rewrite IH by auto. split.
  + intros [<-|[? ?]]; auto.
  + intros [[<-|?] ?]; auto.
- split; [contradiction|]. intros [Hw Hmax]. exfalso.
  assert (Hy' : no_stronger (Table.res_hand r0) (Table.res_hand y)).
  { destruct Hw as [<-|Hw]; [exact Hmax|].
    rewrite Forall_forall in Hfa, Hl.
    apply list_elem_of_In in Hw.
    eapply (no_stronger_trans _ (Table.res_hand w)); eauto.
    by apply Hfa. }
  assert (T : js_is0 (compareHands (Table.res_hand y) (Table.res_hand r0)) = true).
  { apply tie_spec; auto. }
  congruence.
Qed.

Lemma winners_of_best rs w :
  Forall (fun r => well_formed (Table.res_hand r)) rs ->
  In w (Table.winners_of (js_sort Table.by_strength rs))
  <-> In w rs
      /\ forall r, In r rs -> no_stronger (Table.res_hand r) (Table.res_hand w).
Proof.
intros Hwf.
pose proof (js_sort_stronger_first rs Hwf) as Hs.
pose proof (js_sort_perm Table.by_strength rs) as Hp.
assert (Hwf' : Forall (fun r => well_formed (Table.res_hand r))
                      (js_sort Table.by_strength rs)) by (by rewrite Hp).
assert (Hin : forall r, In r rs <-> In r (js_sort Table.by_strength rs)).
{ intros r. rewrite <- !list_elem_of_In. by rewrite Hp. }
destruct (js_sort Table.by_strength rs) as [|r0 rest].
- simpl. split; [contradiction|]. intros [H _]. by apply Hin in H.
- inversion Hwf' as [|? ? H0 Hl]; subst. inversion Hs as [|? ? Hs' Hfa]; subst.
  assert (Hall : forall r, In r rs ->
                   no_stronger (Table.res_hand r) (Table.res_hand r0)).
  { intros r Hr. apply Hin in Hr as [<-|Hr]; [by apply no_stronger_refl|].
    rewrite Forall_forall in Hfa. apply Hfa. by apply list_elem_of_In. }
  assert (Hwfin : forall r, In r rs -> well_formed (Table.res_hand r)).
  { intros r Hr. rewrite Forall_forall in Hwf. apply Hwf.
    by apply list_elem_of_In. }
  cbn [Table.winners_of]. simpl. rewrite take_while_ties by auto.
  rewrite Hin. simpl. split.
  + intros [<-|[Hw Hmax]].
    * split; [by left|exact Hall].
    * split; [by right|]. intros r Hr.
      eapply (no_stronger_trans _ (Table.res_hand r0)); eauto.
      apply Hwfin. apply Hin. by right.
  + intros [[<-|Hw] Hmax]; [by left|]. right. split; [exact Hw|].
    apply Hmax. apply Hin. by left.
Qed.

Lemma no_stronger_ranking a b :
  no_stronger a b -> ranking a <= ranking b.
Proof.
intros (z & Hz & Hle). unfold compareHands in Hz.
destruct (Z.eqb_spec (ranking a) (ranking b)) as [->|Hne]; [lia|].
simpl in Hz. injection Hz as <-. lia.
Qed.

Lemma stronger_first_descending rs :
  StronglySorted stronger_first rs ->
  descending (map (fun r => ranking (Table.res_hand r)) rs).
Proof.
induction 1 as [|a l Hs IH Hfa]; [exact I|].
destruct l as [|b l]; [exact I|]. simpl. split; [|exact IH].
inversion Hfa; subst. by apply no_stronger_ranking.
Qed.

(** X19.  The winners that [_showdown] names are exactly the players
    still in the hand whose best hand no other player in the hand beats
    (there is at least one); the results it returns list every player in
    the hand once, the categories in descending order. *)
Theorem showdown_winners_hold_the_best_hands
    (s : Table.t) (snap : Snapshot) (s' : Table.t) (sd : ShowdownInfo) :
  Table.showdown s = (Ok snap, s') ->
  snap_showdown snap = Some sd ->
  let contenders := Table.getPlayersInHand s in
  let hand_of (p : Player.t) :=
    evaluateHand (Player.holeCards p ++ Table.communityCards s) in
  sd_winners sd <> []
  /\ (forall id, In id (sd_winners sd) <->
        exists kp h,
          In kp contenders /\ Player.id (snd kp) = id
          /\ hand_of (snd kp) = Ok (Some h)
          /\ forall kp', In kp' contenders ->
               exists h', hand_of (snd kp') = Ok (Some h') /\ no_stronger h' h)
  /\ map (fun r => fst (fst (fst r))) (sd_results sd)
     ≡ₚ map (fun kp => Player.id (snd kp)) contenders
  /\ descending (map snd (sd_results sd)).
Proof.
unfold Table.showdown.
cbn [Table.bind Table.modify Table.get].
set (sa := Table.set_phase SHOWDOWN s).
intros H Hsd. apply bind_Ok in H as (unsorted & s1 & Ev & H).
pose proof (evaluate_all_results _ _ _ _ _ Ev) as Hres.
change (Table.getPlayersInHand sa) with (Table.getPlayersInHand s) in Hres.
change (Table.communityCards sa) with (Table.communityCards s) in Hres.
destruct (evaluate_all_spec _ _ _ _ _ Ev) as [-> _].
assert (Hwf : Forall (fun r => well_formed (Table.res_hand r)) unsorted).
{ clear -Hres. induction Hres as [|kp r ps rs (_ & _ & E & _) _ IH];
    constructor; [|exact IH]. by eapply evaluateHand_Ok_well_formed. }
pose proof (winners_of_best unsorted) as Hbest.
pose proof (js_sort_stronger_first unsorted Hwf) as Hsorted.
pose proof (js_sort_perm Table.by_strength unsorted) as Hperm.
destruct (js_sort Table.by_strength unsorted) as [|r0 rs] eqn:Es;
  [discriminate|].
revert H.
set (winners := Table.winners_of (r0 :: rs)) in *.
set (winAmount := Math_floor _).
assert (Hne : winners <> []) by (by subst winners).
clearbody winners winAmount.
set (sorted := r0 :: rs) in *. clearbody sorted.
intros H. apply bind_Ok in H as ([] & s2 & Hc & H).
apply bind_Ok in H as (dr & s3 & Hd & H).
cbn [Table.bind Table.modify Table.get Table.logAction Table.remember
     Table.ret] in H.
injection H as <- <-. cbn [snap_showdown] in Hsd. injection Hsd as <-.
cbn [sd_winners sd_results].
split; [by destruct winners|]. split; [|split].
- intros id. rewrite in_map_iff. split.
  + intros (w & <- & Hw). apply (Hbest w Hwf) in Hw as [Hw Hmax].
    apply list_elem_of_In in Hw. apply list_elem_of_lookup in Hw as [i Hi].
    destruct (Forall2_lookup_r _ _ _ _ _ Hres Hi) as (kp & Hkp & (Hk & Hp & Hh & _)).
    exists kp, (Table.res_hand w). split.
    { apply list_elem_of_In. by eapply list_elem_of_lookup_2. }
    split; [by rewrite Hp|]. split; [exact Hh|].
    intros kp' Hkp'. apply list_elem_of_In in Hkp'.
    apply list_elem_of_lookup in Hkp' as [j Hj].
    destruct (Forall2_lookup_l _ _ _ _ _ Hres Hj) as (r & Hr & (_ & _ & Hh' & _)).
    exists (Table.res_hand r). split; [exact Hh'|]. apply Hmax.
    apply list_elem_of_In. by eapply list_elem_of_lookup_2.
  + intros (kp & h & Hkp & Hid & Hh & Hmax).
    apply list_elem_of_In in Hkp. apply list_elem_of_lookup in Hkp as [j Hj].
    destruct (Forall2_lookup_l _ _ _ _ _ Hres Hj) as (w & Hw & (_ & Hp & Hh' & _)).
    exists w. split; [by rewrite Hp|]. apply (Hbest w Hwf). split.
    { apply list_elem_of_In. by eapply list_elem_of_lookup_2. }
    intros r Hr. apply list_elem_of_In in Hr.
    apply list_elem_of_lookup in Hr as [i Hi].
    destruct (Forall2_lookup_r _ _ _ _ _ Hres Hi) as (kp' & Hkp' & (_ & _ & Hr' & _)).
    destruct (Hmax kp') as (h' & E' & Hle).
    { apply list_elem_of_In. by eapply list_elem_of_lookup_2. }
    rewrite Hh in Hh'. rewrite Hr' in E'.
    injection Hh' as <-. injection E' as <-. exact Hle.
- rewrite map_map. cbn [fst]. rewrite Hperm.
  clear -Hres. induction Hres as [|kp r ps rs (_ & Hp & _) _ IH]; [reflexivity|].
  simpl. rewrite Hp. by f_equiv.
- rewrite map_map. cbn [snd]. exact (stronger_first_descending _ Hsorted).
Qed.

Lemma showdown_winners_hold_the_best_hands_witness :
  exists snap s' sd,
    Table.showdown river_table = (Ok snap, s')
    /\ snap_showdown snap = Some sd
    /\ sd_winners sd <> []
    /\ descending (map snd (sd_results sd)).
Proof.
eexists. eexists. eexists.
split; [vm_compute; reflexivity|]. split; [reflexivity|].
match goal with
| |- sd_winners ?sd <> [] /\ _ =>
    destruct (showdown_winners_hold_the_best_hands river_table _ _ sd
                ltac:(vm_compute; reflexivity) eq_refl) as (H1 & _ & _ & H4)
end.
split; assumption.
Defined.

(** *** Betting rounds *)

#[global] Instance betting_kept_refl : Reflexive betting_kept.
Proof. by intros s. Qed.

#[global] Instance betting_kept_trans : Transitive betting_kept.
Proof.
intros a b c (H1 & H2 & H3 & H4 & H5) (H1' & H2' & H3' & H4' & H5').
unfold betting_kept. rewrite H1', H2', H3', H4', H5'. auto.
Qed.

Ltac betting_side :=
  first
    [ exact I
    | reflexivity
    | unfold betting_kept; simpl; repeat split; reflexivity ].

Ltac betting_sound := repeat sound_step betting_side.

Lemma deref_betting k : sound betting_kept any_error (Table.deref k).
Proof. unfold Table.deref. betting_sound. Qed.

Lemma logAction_betting e : sound betting_kept any_error (Table.logAction e).
Proof. unfold Table.logAction. betting_sound. Qed.

Lemma deck_deal_betting : sound betting_kept any_error Table.deck_deal.
Proof.
intros s r s'. unfold Table.deck_deal.
destruct (Table.deck s) as [d|]; [|intros [= <- <-]; split; [reflexivity|done]].
unfold deal. destruct (pop (cards d)) as [[c rest]|]; intros [= <- <-].
- split; [by unfold betting_kept|done].
- split; [reflexivity|done].
Qed.

Lemma setNextPlayer_loop_betting checked seat :
  sound betting_kept any_error (Table.setNextPlayer_loop checked seat).
Proof.
revert seat. induction checked as [|f IH]; intros seat; simpl; betting_sound.
Qed.

Lemma setNextPlayer_betting afterSeat :
  sound betting_kept any_error (Table.setNextPlayer afterSeat).
Proof.
pose proof setNextPlayer_loop_betting. unfold Table.setNextPlayer.
betting_sound.
Qed.

Lemma snapshot_betting : sound betting_kept any_error Table.snapshot.
Proof. unfold Table.snapshot. betting_sound. Qed.

Lemma street_opened_kept s s' :
  betting_kept s s' -> street_opened s -> street_opened s'.
Proof.
intros (_ & Hp & Hc & Hm & Hb) (H1 & H2 & H3). unfold street_opened.
by rewrite Hp, Hc, Hm, Hb.
Qed.

Lemma street_opened_nobody_behind s :
  street_opened s -> nobody_behind s = true.
Proof.
intros (Hc & Hp & _). apply forallb_forall. intros kp Hin. rewrite Hc.
unfold Table.getPlayersInHand in Hin. apply filter_In in Hin as [Hin _].
destruct (Hp kp Hin) as [-> _]. by rewrite orb_true_r.
Qed.

Lemma isBettingComplete_loop_true ps s :
  Table.phase s <> PREFLOP ->
  forallb (fun kp => Player.allIn (snd kp)
                     || negb (Qltb (Player.currentBet (snd kp))
                                   (Table.currentBet s))) ps = true ->
  Table.isBettingComplete_loop ps s = (Ok true, s).
Proof.
intros Hph. induction ps as [|[k p] ps IH]; intros Hall; [reflexivity|].
cbn [forallb snd] in Hall. apply andb_true_iff in Hall as [Hp Hall].
cbn [Table.isBettingComplete_loop Table.bind Table.get].
assert (E1 : negb (Player.allIn p) && Qltb (Player.currentBet p) (Table.currentBet s)
             = false).
{ destruct (Player.allIn p); [reflexivity|]. simpl in *.
  by apply negb_true_iff. }
rewrite E1.
assert (E2 : bool_decide (Table.phase s = PREFLOP) = false)
  by (by apply bool_decide_eq_false).
rewrite E2, andb_false_r. by apply IH.
Qed.

Lemma isBettingComplete_true s :
  Table.phase s <> PREFLOP -> nobody_behind s = true ->
  Table.isBettingComplete s = (Ok true, s).
Proof.
intros Hph Hnb. unfold Table.isBettingComplete.
cbn [Table.bind Table.get]. by apply isBettingComplete_loop_true.
Qed.

Lemma later_phase ph ph' :
  (1 <= calls_left ph)%nat -> (calls_left ph' < calls_left ph)%nat ->
  ph' <> WAITING -> (phase_rank ph < phase_rank ph')%nat.
Proof. destruct ph, ph'; simpl; intros; try lia; congruence. Qed.

Lemma active_phase ph :
  (1 <= calls_left ph)%nat -> (1 <= phase_rank ph <= 4)%nat.
Proof. destruct ph; simpl; lia. Qed.

Lemma awardPot_ends w s snap s' :
  Table.awardPot w s = (Ok snap, s') -> Table.phase s' = SHOWDOWN.
Proof.
destruct w as [k winner]. unfold Table.awardPot.
cbn [Table.bind Table.get Table.modify Table.update_player Table.logAction
     Table.remember Table.ret].
by intros [= <- <-].
Qed.

Lemma showdown_ends s snap s' :
  Table.showdown s = (Ok snap, s') -> Table.phase s' = SHOWDOWN.
Proof.
unfold Table.showdown.
cbn [Table.bind Table.modify Table.get].
set (sa := Table.set_phase SHOWDOWN s).
intros H. apply bind_Ok in H as (unsorted & s1 & Ev & H).
destruct (evaluate_all_spec _ _ _ _ _ Ev) as [-> _].
destruct (js_sort Table.by_strength unsorted) as [|r0 rs] eqn:Es;
  [discriminate|].
revert H.
set (winners := Table.winners_of (r0 :: rs)).
set (winAmount := Math_floor _).
intros H. apply bind_Ok in H as ([] & s2 & Hc & H).
destruct (credit_all_steady _ _ _ _ _ Hc) as [(Hp2 & _) _].
apply bind_Ok in H as (dr & s3 & Hd & H).
destruct (deck_revealSalt_steady _ _ _ Hd) as [(Hp3 & _) _].
cbn [Table.bind Table.modify Table.get Table.logAction Table.remember
     Table.ret] in H.
injection H as <- <-.
cbn [Table.phase Table.set_completedHands Table.set_handHistory].
by rewrite Hp3, Hp2.
Qed.

Lemma ensures_bind_rel {A B} (R : Table.t -> Table.t -> Prop)
    (P : Error -> Prop) (Q : Table.t -> B -> Table.t -> Prop)
    (m : Table.M A) (k : A -> Table.M B) :
  sound R P m ->
  (forall x, ensures Q (k x)) ->
  (forall s s1 b s', R s s1 -> Q s1 b s' -> Q s b s') ->
  ensures Q (Table.bind m k).
Proof.
intros Hm Hk Hc s b s' H. apply bind_Ok in H as (a & s1 & E & H).
destruct (Hm _ _ _ E) as [Hf _]. eapply Hc; [exact Hf|].
exact (Hk a _ _ _ H).
Qed.

Lemma opens_kept s s1 snap s' :
  betting_kept s s1 -> opens s1 snap s' -> opens s snap s'.
Proof.
intros Hk H Ho Hc. pose proof Hk as (Hp & _).
rewrite <- Hp. apply H; [by eapply street_opened_kept|by rewrite Hp].
Qed.

Ltac opens_step :=
  lazymatch goal with
  | H : ensures _ ?m |- ensures _ ?m => exact H
  | |- ensures _ (Table.bind _ _) =>
      eapply (ensures_bind_rel betting_kept any_error);
      [ solve [betting_sound] | intros ? | exact opens_kept ]
  | |- ensures _ (if ?b then _ else _) => destruct b eqn:?
  | |- ensures _ (match ?x with _ => _ end) => destruct x eqn:?
  | |- ensures _ (let _ := _ in _) => cbv zeta
  | |- ensures _ (Table.throw _) => intros ? ? ? ?; discriminate
  end.

Lemma snapshot_opens : ensures opens Table.snapshot.
Proof.
intros s snap s' [= <- <-] Ho Hc. split; [lia|]. split; [|by intros _].
intros E. rewrite E in Hc. simpl in Hc. lia.
Qed.

Lemma advancePhase_opens f s snap s' :
  Table.advancePhase f s = (Ok snap, s') ->
  (1 <= calls_left (Table.phase s))%nat ->
  (calls_left (Table.phase s') < calls_left (Table.phase s))%nat
  /\ Table.phase s' <> WAITING
  /\ (Table.phase s' <> SHOWDOWN -> street_opened s').
Proof.
revert s snap s'. induction f as [|f IH]; intros s snap s'; [discriminate|].
assert (IH' : ensures opens (Table.advancePhase f)).
{ intros s0 snap0 s0' H _ Hc. destruct (IH _ _ _ H Hc). split; [lia|assumption]. }
clear IH.
pose proof deck_deal_betting. pose proof setNextPlayer_betting.
pose proof logAction_betting. pose proof snapshot_opens.
cbn [Table.advancePhase].
generalize dependent (Table.advancePhase f). intros advance IH'.
intros Hr Hc.
apply bind_Ok in Hr as ([] & s1 & [= <-] & Hr).
apply bind_Ok in Hr as ([] & s2 & [= <-] & Hr).
apply bind_Ok in Hr as ([] & s3 & [= <-] & Hr).
apply bind_Ok in Hr as (s4 & s5 & [= <- <-] & Hr).
match type of Hr with _ ?st = _ => set (s3 := st) in * end.
assert (Hph : Table.phase s3 = Table.phase s) by reflexivity.
assert (Ho : street_opened s3).
{ split; [reflexivity|]. split; [|reflexivity].
  intros kp Hin. subst s3. simpl in Hin.
  apply in_map_iff in Hin as (kp0 & <- & _). by destruct kp0 as [? []]. }
clearbody s3. cbv zeta in Hr. rewrite <- Hph in *.
assert (Hnext : forall ph (m : Table.M Snapshot),
          ensures opens m ->
          (1 <= calls_left ph < calls_left (Table.phase s3))%nat ->
          Table.bind (Table.modify (Table.set_phase ph)) (fun _ => m) s3
          = (Ok snap, s') ->
          (calls_left (Table.phase s') < calls_left (Table.phase s3))%nat
          /\ Table.phase s' <> WAITING
          /\ (Table.phase s' <> SHOWDOWN -> street_opened s')).
{ intros ph m Hm Hlt Hrun.
  apply bind_Ok in Hrun as ([] & s6 & [= <-] & Hrun).
  destruct (Hm _ _ _ Hrun) as [Hle Hop]; [exact Ho|simpl; lia|].
  simpl in Hle. split; [lia|exact Hop]. }
destruct (Table.phase s3) eqn:Eph; simpl in Hc; try lia.
- apply (Hnext FLOP) in Hr; [exact Hr| |simpl; lia].
  unfold Table.logAction. repeat opens_step.
- apply (Hnext TURN) in Hr; [exact Hr| |simpl; lia].
  unfold Table.logAction. repeat opens_step.
- apply (Hnext RIVER) in Hr; [exact Hr| |simpl; lia].
  unfold Table.logAction. repeat opens_step.
- apply showdown_ends in Hr. rewrite Hr. simpl. split; [lia|done].
Qed.

Lemma validateAction_Ok k s s1 :
  Table.validateAction k s = (Ok tt, s1) ->
  s1 = s /\ (1 <= calls_left (Table.phase s))%nat
  /\ Table.currentPlayerSeat s = Some (indexOf (Table.seats s) (Some k)).
Proof.
unfold Table.validateAction, Table.bind, Table.get.
destruct (bool_decide (Table.phase s = WAITING)) eqn:E1; [discriminate|].
destruct (bool_decide (Table.phase s = SHOWDOWN)) eqn:E2; [discriminate|].
cbv zeta. simpl.
destruct (bool_decide (Table.currentPlayerSeat s = _)) eqn:E3; [|discriminate].
intros [= <-]. split; [reflexivity|].
apply bool_decide_eq_false in E1, E2. apply bool_decide_eq_true in E3.
split; [|exact E3]. destruct (Table.phase s); simpl; try lia; congruence.
Qed.

Lemma find_occupied_betting seat :
  sound betting_kept any_error (Table.find_occupied seat).
Proof. unfold Table.find_occupied. betting_sound. Qed.

Lemma getSmallBlindSeat_betting :
  sound betting_kept any_error Table.getSmallBlindSeat.
Proof.
pose proof find_occupied_betting. unfold Table.getSmallBlindSeat.
betting_sound.
Qed.

Lemma getBigBlindSeat_betting :
  sound betting_kept any_error Table.getBigBlindSeat.
Proof.
pose proof find_occupied_betting. pose proof getSmallBlindSeat_betting.
unfold Table.getBigBlindSeat. betting_sound.
Qed.

Lemma isBettingComplete_loop_betting ps :
  sound betting_kept any_error (Table.isBettingComplete_loop ps).
Proof.
pose proof getBigBlindSeat_betting.
induction ps as [|[k p] ps IH]; simpl; betting_sound.
Qed.

Lemma isBettingComplete_betting :
  sound betting_kept any_error Table.isBettingComplete.
Proof.
pose proof isBettingComplete_loop_betting. unfold Table.isBettingComplete.
betting_sound.
Qed.

Lemma advanceGame_forward : ensures moves_forward Table.advanceGame.
Proof.
intros s snap s' Hr Hc. unfold Table.advanceGame in Hr.
apply bind_Ok in Hr as (s0 & s1 & [= <- <-] & Hr).
assert (Hrest :
  Table.bind Table.isBettingComplete
    (fun complete =>
       if complete then Table.advancePhase 4
       else Table.bind Table.get (fun s2 =>
              Table.bind (Table.setNextPlayer (default 0 (Table.currentPlayerSeat s2)))
                         (fun _ => Table.snapshot))) s
  = (Ok snap, s') ->
  Table.phase s' = Table.phase s
  \/ ((calls_left (Table.phase s') < calls_left (Table.phase s))%nat
      /\ Table.phase s' <> WAITING
      /\ (Table.phase s' <> SHOWDOWN -> street_opened s'))).
{ clear Hr. intros Hr.
  apply bind_Ok in Hr as (complete & s1 & E & Hr).
  destruct (isBettingComplete_betting _ _ _ E) as [(Hp1 & _) _].
  destruct complete.
  - right. rewrite <- Hp1. apply (advancePhase_opens 4 _ snap).
    + exact Hr.
    + by rewrite Hp1.
  - left. apply bind_Ok in Hr as (s2 & s3 & [= <- <-] & Hr).
    apply bind_Ok in Hr as ([] & s3 & E3 & Hr).
    destruct (setNextPlayer_betting _ _ _ _ E3) as [(Hp3 & _) _].
    injection Hr as <- <-. congruence. }
destruct (Table.getPlayersInHand s) as [|w [|w' ws]]; auto.
right. apply awardPot_ends in Hr. rewrite Hr. simpl. split; [lia|done].
Qed.

Lemma moves_forward_steady s s1 snap s' :
  steady s s1 -> moves_forward s1 snap s' -> moves_forward s snap s'.
Proof. intros (Hp & _) H. unfold moves_forward in *. by rewrite <- Hp. Qed.

Ltac forward_step :=
  lazymatch goal with
  | H : ensures _ ?m |- ensures _ ?m => exact H
  | |- ensures _ (Table.bind _ _) =>
      eapply (ensures_bind_rel steady halts);
      [ solve [steady_sound] | intros ? | exact moves_forward_steady ]
  | |- ensures _ (if ?b then _ else _) => destruct b eqn:?
  | |- ensures _ (match ?x with _ => _ end) => destruct x eqn:?
  | |- ensures _ (let _ := _ in _) => cbv zeta
  | |- ensures _ (Table.throw _) => intros ? ? ? ?; discriminate
  end.

Lemma validateAction_steady k : sound steady halts (Table.validateAction k).
Proof. unfold Table.validateAction. steady_sound. Qed.

Lemma act_forward a k : ensures moves_forward (act a k).
Proof.
pose proof validateAction_steady. pose proof deref_steady.
pose proof update_player_steady. pose proof logAction_steady.
destruct a; unfold act, Table.fold, Table.check, Table.call, Table.raise,
  Table.add_pot;
  generalize advanceGame_forward; generalize Table.advanceGame; intros K HK;
  repeat forward_step.
Qed.

Lemma act_Ok_active a k s snap s' :
  act a k s = (Ok snap, s') -> (1 <= calls_left (Table.phase s))%nat.
Proof.
intros Hr.
assert (exists m : unit -> Table.M Snapshot,
          Table.bind (Table.validateAction k) m s = (Ok snap, s')) as (m & Hv).
{ destruct a; eexists; exact Hr. }
apply bind_Ok in Hv as ([] & s2 & E & _).
by apply validateAction_Ok in E as (_ & Hc & _).
Qed.

(** X20.  A successful [fold], [check], [call] or [raise] needs a hand in
    play and never moves it back: afterwards the table is in the same
    phase or in a later one.  A betting round that it opens (a new phase
    short of the showdown) starts with no bet to match, the big blind as
    minimum raise and, for every player, no bet and no last action. *)
Theorem hands_only_move_forward
    (s : Table.t) (a : Action) (k : string) (snap : Snapshot) (s' : Table.t) :
  act a k s = (Ok snap, s') ->
  (1 <= phase_rank (Table.phase s) <= 4)%nat
  /\ (Table.phase s' = Table.phase s
      \/ (phase_rank (Table.phase s) < phase_rank (Table.phase s'))%nat)
  /\ (Table.phase s' <> Table.phase s -> Table.phase s' <> SHOWDOWN ->
      Table.currentBet s' = 0%Q
      /\ Table.minRaise s' = Table.bigBlind s'
      /\ (forall kp, In kp (Table.players s') ->
            Player.currentBet (snd kp) = 0%Q
            /\ Player.lastAction (snd kp) = None)
      /\ nobody_behind s' = true).
Proof.
intros Hr. pose proof (act_Ok_active _ _ _ _ _ Hr) as Hc.
split; [by apply active_phase|].
destruct (act_forward a k _ _ _ Hr Hc) as [Hsame|(Hlt & Hnw & Hop)].
- split; [by left|]. intros Hne. contradiction.
- split; [right; by apply later_phase|]. intros _ Hns. specialize (Hop Hns).
  pose proof (street_opened_nobody_behind _ Hop) as Hnb.
  destruct Hop as (H1 & H2 & H3). auto.
Qed.

Lemma pm_update_forallb_filter (g h : string * Player.t -> bool) k f m :
  (forall k' p, g (k', f p) = g (k', p)) ->
  (forall k' p, h (k', f p) = h (k', p)) ->
  forallb g (List.filter h (pm_update k f m)) = forallb g (List.filter h m).
Proof.
intros Hg Hh. induction m as [|[k' p] m IH]; [reflexivity|].
cbn [pm_update]. destruct (decide (k' = k)) as [->|Hne]; cbn [List.filter].
- rewrite Hh. destruct (h (k, p)); [|reflexivity].
  cbn [forallb]. by rewrite Hg.
- destruct (h (k', p)); [|exact IH]. cbn [forallb]. by rewrite IH.
Qed.

(** X21.  After the flop, where no player who can act is behind the bet
    to match (as at the start of every betting round), the first
    successful [check] ends the betting round: [_isBettingComplete] holds
    at once and the hand moves on to a later phase, without the other
    players being asked. *)
Theorem first_check_ends_the_betting_round
    (s : Table.t) (k : string) (snap : Snapshot) (s' : Table.t) :
  Table.phase s <> PREFLOP ->
  nobody_behind s = true ->
  Table.check k s = (Ok snap, s') ->
  (phase_rank (Table.phase s) < phase_rank (Table.phase s'))%nat.
Proof.
intros Hph Hnb Hr. unfold Table.check in Hr.
apply bind_Ok in Hr as ([] & s1 & E & Hr).
apply validateAction_Ok in E as (-> & Hc & _).
apply bind_Ok in Hr as (p & s1 & E & Hr).
apply deref_Ok in E as (-> & _).
apply bind_Ok in Hr as (s0 & s1 & [= <- <-] & Hr).
destruct (Qltb _ _); [discriminate|].
apply bind_Ok in Hr as ([] & s1 & [= <-] & Hr).
apply bind_Ok in Hr as ([] & s2 & [= <-] & Hr).
match type of Hr with _ ?st = _ => set (s2 := st) in * end.
assert (Hp2 : Table.phase s2 = Table.phase s) by reflexivity.
assert (Hnb2 : nobody_behind s2 = true).
{ rewrite <- Hnb. unfold nobody_behind, Table.getPlayersInHand. subst s2.
  cbn [Table.players Table.currentBet Table.set_handHistory Table.set_players].
  apply pm_update_forallb_filter; intros ? []; reflexivity. }
clearbody s2. rewrite <- Hp2 in *. clear Hnb Hp2 s.
unfold Table.advanceGame in Hr.
apply bind_Ok in Hr as (s0 & s1 & [= <- <-] & Hr).
destruct (Table.getPlayersInHand s2) as [|w [|w' ws]].
2: { apply awardPot_ends in Hr. rewrite Hr.
     destruct (Table.phase s2); simpl in *; lia. }
all: apply bind_Ok in Hr as (complete & s1 & E & Hr).
all: rewrite isBettingComplete_true in E by assumption.
all: injection E as <- <-.
all: apply advancePhase_opens in Hr as (Hlt & Hnw & _); [|assumption].
all: by apply later_phase.
Qed.

Lemma first_check_ends_the_betting_round_witness :
  exists snap s',
    Table.check "alice-1" flop_table = (Ok snap, s')
    /\ (phase_rank (Table.phase flop_table) < phase_rank (Table.phase s'))%nat.
Proof.
eexists. eexists. split; [vm_compute; reflexivity|].
eapply (first_check_ends_the_betting_round flop_table "alice-1").
- vm_compute. congruence.
- vm_compute. reflexivity.
- vm_compute. reflexivity.
Defined.

Lemma hands_only_move_forward_witness :
  exists snap s',
    act Check "bob-2" called_table = (Ok snap, s')
    /\ Table.phase called_table = PREFLOP
    /\ Table.phase s' = FLOP
    /\ Table.currentBet s' = 0%Q
    /\ nobody_behind s' = true.
Proof.
eexists. eexists. split; [vm_compute; reflexivity|].
split; [reflexivity|]. split; [reflexivity|].
match goal with
| |- Table.currentBet ?st = _ /\ _ =>
    destruct (hands_only_move_forward called_table Check "bob-2" _ st
                ltac:(vm_compute; reflexivity)) as (_ & _ & H)
end.
destruct H as (H1 & _ & _ & H3); [vm_compute; congruence ..|].
split; assumption.
Defined.

(** *** The start of a hand *)

#[global] Instance stakes_kept_refl : Reflexive stakes_kept.
Proof. by intros s. Qed.

#[global] Instance stakes_kept_trans : Transitive stakes_kept.
Proof.
intros a b c (H1 & H2 & H3 & H4 & H5 & H6) (H1' & H2' & H3' & H4' & H5' & H6').
unfold stakes_kept. rewrite H1', H2', H3', H4', H5', H6'. auto 10.
Qed.

Ltac stakes_side :=
  first
    [ exact I
    | reflexivity
    | unfold stakes_kept; simpl; repeat split; try reflexivity;
      first [ apply ledger_update_same; intros []; reflexivity
            | apply ledger_map_same; intros [? []]; split; reflexivity ] ].

Ltac stakes_sound := repeat sound_step stakes_side.

Lemma find_occupied_stakes seat :
  sound stakes_kept any_error (Table.find_occupied seat).
Proof. unfold Table.find_occupied. stakes_sound. Qed.

Lemma getSmallBlindSeat_stakes :
  sound stakes_kept any_error Table.getSmallBlindSeat.
Proof.
pose proof find_occupied_stakes. unfold Table.getSmallBlindSeat. stakes_sound.
Qed.

Lemma getBigBlindSeat_stakes :
  sound stakes_kept any_error Table.getBigBlindSeat.
Proof.
pose proof find_occupied_stakes. pose proof getSmallBlindSeat_stakes.
unfold Table.getBigBlindSeat. stakes_sound.
Qed.

Lemma moveDealer_stakes : sound stakes_kept any_error Table.moveDealer.
Proof.
pose proof find_occupied_stakes. unfold Table.moveDealer. stakes_sound.
Qed.

Lemma deref_stakes k : sound stakes_kept any_error (Table.deref k).
Proof. unfold Table.deref. stakes_sound. Qed.

Lemma logAction_stakes e : sound stakes_kept any_error (Table.logAction e).
Proof. unfold Table.logAction. stakes_sound. Qed.

Lemma deck_deal_stakes : sound stakes_kept any_error Table.deck_deal.
Proof.
intros s r s'. unfold Table.deck_deal.
destruct (Table.deck s) as [d|]; [|intros [= <- <-]; split; [reflexivity|done]].
unfold deal. destruct (pop (cards d)) as [[c rest]|]; intros [= <- <-].
- split; [by unfold stakes_kept|done].
- split; [reflexivity|done].
Qed.

Lemma dealHoleCards_loop_stakes ss :
  sound stakes_kept any_error (Table.dealHoleCards_loop ss).
Proof.
pose proof deck_deal_stakes. pose proof deref_stakes.
induction ss as [|sid ss IH]; simpl; unfold Table.update_player;
  stakes_sound.
Qed.

Lemma dealHoleCards_stakes : sound stakes_kept any_error Table.dealHoleCards.
Proof.
pose proof dealHoleCards_loop_stakes. unfold Table.dealHoleCards. stakes_sound.
Qed.

Lemma setNextPlayer_loop_stakes checked seat :
  sound stakes_kept any_error (Table.setNextPlayer_loop checked seat).
Proof.
revert seat. induction checked as [|f IH]; intros seat; simpl; stakes_sound.
Qed.

Lemma setNextPlayer_stakes afterSeat :
  sound stakes_kept any_error (Table.setNextPlayer afterSeat).
Proof.
pose proof setNextPlayer_loop_stakes. unfold Table.setNextPlayer. stakes_sound.
Qed.

Lemma snapshot_stakes : sound stakes_kept any_error Table.snapshot.
Proof. unfold Table.snapshot. stakes_sound. Qed.

Lemma find_occupied_Ok seat s r s1 :
  Table.find_occupied seat s = (Ok r, s1) -> s1 = s.
Proof.
unfold Table.find_occupied, Table.bind, Table.get.
destruct (Table.skip_null _ _ _ _); [|discriminate]. by intros [= _ <-].
Qed.

Lemma getSmallBlindSeat_Ok s r s1 :
  Table.getSmallBlindSeat s = (Ok r, s1) -> s1 = s.
Proof.
unfold Table.getSmallBlindSeat. intros H.
apply bind_Ok in H as (s0 & s2 & [= <- <-] & H). by apply find_occupied_Ok in H.
Qed.

Lemma getBigBlindSeat_Ok s r s1 :
  Table.getBigBlindSeat s = (Ok r, s1) -> s1 = s.
Proof.
unfold Table.getBigBlindSeat. intros H.
apply bind_Ok in H as (sb & s2 & E & H). apply getSmallBlindSeat_Ok in E as ->.
apply bind_Ok in H as (s0 & s3 & [= <- <-] & H). by apply find_occupied_Ok in H.
Qed.

Lemma player_at_get s seat k p :
  Table.player_at s seat = Some (k, p) -> pm_get k (Table.players s) = Some p.
Proof.
unfold Table.player_at. destruct (Table.seat_at _ _) as [[k'|]|]; try discriminate.
destruct (pm_get k' _) eqn:E; [|discriminate]. by intros [= <- <-].
Qed.

Lemma pm_get_update_some k k' f m p :
  pm_get k m = Some p -> exists p', pm_get k (pm_update k' f m) = Some p'.
Proof.
intros H. apply pm_get_key. rewrite pm_update_keys.
clear -H. induction m as [|[k0 p0] m IH]; simpl in *; [discriminate|].
destruct (decide (k0 = k)); [by left|right; auto].
Qed.

Lemma update_player_Ok k f s s1 :
  Table.update_player k f s = (Ok tt, s1) ->
  Table.players s1 = pm_update k f (Table.players s)
  /\ Table.pot s1 = Table.pot s
  /\ Table.phase s1 = Table.phase s
  /\ Table.currentBet s1 = Table.currentBet s
  /\ Table.smallBlind s1 = Table.smallBlind s
  /\ Table.bigBlind s1 = Table.bigBlind s.
Proof. intros [= <-]. by repeat split. Qed.

Lemma add_pot_Ok a s s1 :
  Table.add_pot a s = (Ok tt, s1) ->
  Table.players s1 = Table.players s
  /\ Table.pot s1 = (Table.pot s + a)%Q
  /\ Table.phase s1 = Table.phase s
  /\ Table.currentBet s1 = Table.currentBet s
  /\ Table.smallBlind s1 = Table.smallBlind s
  /\ Table.bigBlind s1 = Table.bigBlind s.
Proof. intros [= <-]. by repeat split. Qed.

Lemma logAction_Ok e s s1 :
  Table.logAction e s = (Ok tt, s1) ->
  Table.players s1 = Table.players s
  /\ Table.pot s1 = Table.pot s
  /\ Table.phase s1 = Table.phase s
  /\ Table.currentBet s1 = Table.currentBet s
  /\ Table.smallBlind s1 = Table.smallBlind s
  /\ Table.bigBlind s1 = Table.bigBlind s.
Proof. intros [= <-]. by repeat split. Qed.

Lemma postBlinds_pays s s' :
  Table.postBlinds s = (Ok tt, s') ->
  exists a b : Q,
    (a <= Table.smallBlind s)%Q /\ (b <= Table.bigBlind s)%Q
    /\ Table.pot s' = (Table.pot s + a + b)%Q
    /\ (sum_chips (Table.players s') == sum_chips (Table.players s) - a - b)%Q
    /\ Table.phase s' = Table.phase s
    /\ Table.currentBet s' = Table.currentBet s
    /\ Table.smallBlind s' = Table.smallBlind s
    /\ Table.bigBlind s' = Table.bigBlind s.
Proof.
unfold Table.postBlinds. intros H.
apply bind_Ok in H as (sbSeat & s1 & E & H). apply getSmallBlindSeat_Ok in E as ->.
apply bind_Ok in H as (bbSeat & s1 & E & H). apply getBigBlindSeat_Ok in E as ->.
apply bind_Ok in H as (s0 & s1 & [= <- <-] & H).
destruct (Table.player_at s sbSeat) as [[ksb sbPlayer]|] eqn:Esb; [|discriminate].
destruct (Table.player_at s bbSeat) as [[kbb bbPlayer]|] eqn:Ebb; [|discriminate].
apply player_at_get in Esb, Ebb.
cbv zeta in H.
set (a := Qmin (Table.smallBlind s) (Player.chips sbPlayer)) in *.
set (b := Qmin (Table.bigBlind s) (Player.chips bbPlayer)) in *.
set (ga := fun p => Player.set_totalBetThisHand a
                      (Player.set_currentBet a
                         (Player.set_chips (Player.chips p - a) p))) in *.
set (gb := fun p => Player.set_totalBetThisHand b
                      (Player.set_currentBet b
                         (Player.set_chips (Player.chips p - b) p))) in *.
apply bind_Ok in H as ([] & s1 & E1 & H).
apply update_player_Ok in E1 as (M1 & P1 & F1 & C1 & S1 & B1).
apply bind_Ok in H as ([] & s2 & E2 & H).
apply add_pot_Ok in E2 as (M2 & P2 & F2 & C2 & S2 & B2).
apply bind_Ok in H as ([] & s3 & E3 & H).
apply update_player_Ok in E3 as (M3 & P3 & F3 & C3 & S3 & B3).
apply bind_Ok in H as ([] & s4 & E4 & H).
apply add_pot_Ok in E4 as (M4 & P4 & F4 & C4 & S4 & B4).
apply bind_Ok in H as ([] & s5 & E5 & H).
apply update_player_Ok in E5 as (M5 & P5 & F5 & C5 & S5 & B5).
apply bind_Ok in H as ([] & s6 & E6 & H).
apply update_player_Ok in E6 as (M6 & P6 & F6 & C6 & S6 & B6).
apply logAction_Ok in H as (M7 & P7 & F7 & C7 & S7 & B7).
exists a, b. split; [apply Q.le_min_l|]. split; [apply Q.le_min_l|].
repeat split; try congruence.
rewrite M7, M6, M5, M4, M3, M2, M1.
rewrite (sum_chips_same (pm_update kbb gb (pm_update ksb ga (Table.players s)))).
2: { rewrite ledger_update_same by apply chips_mark_allIn.
     by rewrite ledger_update_same by apply chips_mark_allIn. }
destruct (pm_get_update_some kbb ksb ga _ _ Ebb) as [p' Hp'].
rewrite (sum_chips_update kbb gb _ p' Hp').
rewrite (sum_chips_update ksb ga _ sbPlayer Esb).
subst ga gb. simpl. ring.
Qed.

Lemma bind_modify_Ok {B} (f : Table.t -> Table.t) (k : unit -> Table.M B)
    s b s' :
  Table.bind (Table.modify f) k s = (Ok b, s') -> k tt (f s) = (Ok b, s').
Proof. intros H. exact H. Qed.

Lemma stakes_total s s' :
  stakes_kept s s' ->
  sum_chips (Table.players s') = sum_chips (Table.players s)
  /\ Table.pot s' = Table.pot s.
Proof. intros (H1 & H2 & _). split; [by apply sum_chips_same|exact H2]. Qed.

(** X22.  A successful [startHand] starts the pot anew from the blinds.
    Where the stacks and the two blinds are whole numbers of chips (on
    these the sums and differences of the source are exact,
    [whole_arithmetic_is_exact]), the stacks and the pot together are
    afterwards what the stacks were before, and the pot is at most the
    two blinds.  In every case the phase is PREFLOP, the bet to match is
    the big blind (also when the big blind was posted short), the hand
    number is one more and the published commitment is that of the new
    deck. *)
Theorem startHand_posts_the_blinds
    (d : SecureDeck) (s : Table.t) (snap : Snapshot) (s' : Table.t) :
  Table.startHand d s = (Ok snap, s') ->
  (whole_stacks (Table.players s) = true ->
   whole (Table.smallBlind s) = true ->
   whole (Table.bigBlind s) = true ->
   (sum_chips (Table.players s') + Table.pot s'
    == sum_chips (Table.players s))%Q
   /\ (Table.pot s' <= Table.smallBlind s + Table.bigBlind s)%Q)
  /\ Table.phase s' = PREFLOP
  /\ Table.currentBet s' = Table.bigBlind s
  /\ Table.handNumber s' = Table.handNumber s + 1
  /\ Table.deckCommitment s' = getCommitment d.
Proof.
intros Hr.
assert (Hkept : Table.handNumber s' = Table.handNumber s + 1
                /\ Table.deckCommitment s' = getCommitment d).
{ destruct (startHand_result _ _ _ _ Hr) as [[? _]|(_ & H1 & H2 & _)];
    [discriminate|]. split; assumption. }
unfold Table.startHand in Hr.
apply bind_Ok in Hr as (s0 & s1 & [= <- <-] & Hr).
destruct (_ <? _)%nat; [discriminate|].
do 11 apply bind_modify_Ok in Hr.
match type of Hr with _ ?st = _ => set (sa := st) in * end.
assert (Ha : sum_chips (Table.players sa) = sum_chips (Table.players s)
             /\ Table.pot sa = 0%Q /\ Table.phase sa = PREFLOP
             /\ Table.currentBet sa = Table.bigBlind s
             /\ Table.smallBlind sa = Table.smallBlind s
             /\ Table.bigBlind sa = Table.bigBlind s).
{ split; [|by repeat split]. apply sum_chips_same.
  change (Table.players sa)
    with (map (fun kp : string * Player.t => (fst kp, Player.reset (snd kp)))
              (Table.players s)).
  apply ledger_map_same. intros [? []]. split; reflexivity. }
clearbody sa. destruct Ha as (Hsum & Hpot & Hph & Hcb & Hsb & Hbb).
apply bind_Ok in Hr as ([] & sb & E & Hr).
destruct (moveDealer_stakes _ _ _ E) as [(L1 & P1 & F1 & C1 & S1 & B1) _].
apply sum_chips_same in L1. clear E.
apply bind_Ok in Hr as ([] & sc & E & Hr).
apply postBlinds_pays in E as (a & b & Hle_a & Hle_b & P2 & L2 & F2 & C2 & S2 & B2).
assert (Htail : stakes_kept sc s').
{ revert Hr. generalize sc s'.
  pose proof dealHoleCards_stakes. pose proof getBigBlindSeat_stakes.
  pose proof setNextPlayer_stakes. pose proof logAction_stakes.
  pose proof snapshot_stakes.
  assert (Hs : sound stakes_kept any_error
    (Table.bind Table.dealHoleCards (fun _ =>
       Table.bind Table.getBigBlindSeat (fun bb =>
         Table.bind (Table.setNextPlayer bb) (fun _ =>
           Table.bind Table.get (fun s'0 =>
             Table.bind (Table.logAction
                           (HAND_START (Table.handNumber s'0)
                                       (Table.deckCommitment s'0)))
                        (fun _ => Table.snapshot)))))))
    by stakes_sound.
  intros x y Hxy. by destruct (Hs _ _ _ Hxy). }
destruct Htail as (L3 & P3 & F3 & C3 & S3 & B3). apply sum_chips_same in L3.
destruct Hkept as [Hn Hd].
split; [intros _ _ _; split|repeat split; try assumption; try congruence].
- rewrite L3, P3, P2, L2, P1, L1, Hpot, Hsum. ring.
- rewrite P3, P2, P1, Hpot. rewrite S1, B1, Hsb, Hbb in *.
  rewrite Qplus_0_l.
  by apply Qplus_le_compat.
Qed.

Lemma startHand_posts_the_blinds_witness :
  whole_stacks (Table.players shown_table) = true
  /\ whole (Table.smallBlind shown_table) = true
  /\ whole (Table.bigBlind shown_table) = true
  /\ exists snap s',
    Table.startHand (newSecureDeck demo_hash "01" (fun _ => 0)) shown_table
    = (Ok snap, s')
    /\ (sum_chips (Table.players s') + Table.pot s'
        == sum_chips (Table.players shown_table))%Q
    /\ (Table.pot s'
        <= Table.smallBlind shown_table + Table.bigBlind shown_table)%Q
    /\ Table.phase s' = PREFLOP.
Proof.
split; [vm_compute; reflexivity|].
split; [vm_compute; reflexivity|].
split; [vm_compute; reflexivity|].
eexists. eexists. split; [vm_compute; reflexivity|].
match goal with
| |- (_ + Table.pot ?st == _)%Q /\ _ =>
    destruct (startHand_posts_the_blinds
                (newSecureDeck demo_hash "01" (fun _ => 0)) shown_table _ st
                ltac:(vm_compute; reflexivity)) as (H1 & H3 & _)
end.
destruct H1 as [H1 H2]; [vm_compute; reflexivity ..|].
repeat split; assumption.
Defined.

(** *** What spectators see *)

#[global] Instance any_step_refl : Reflexive any_step.
Proof. by intros s. Qed.

#[global] Instance any_step_trans : Transitive any_step.
Proof. by intros a b c. Qed.

Lemma any_step_sound {A} (m : Table.M A) : sound any_step any_error m.
Proof. intros s r s' _. split; [exact I|by intros]. Qed.

Ltac no_winner_step :=
  lazymatch goal with
  | H : ensures _ ?m |- ensures _ ?m => exact H
  | |- ensures _ (Table.bind _ _) =>
      eapply (ensures_bind_rel any_step any_error);
      [ apply any_step_sound | intros ? | by intros ]
  | |- ensures _ (if ?b then _ else _) => destruct b eqn:?
  | |- ensures _ (match ?x with _ => _ end) => destruct x eqn:?
  | |- ensures _ (let _ := _ in _) => cbv zeta
  | |- ensures _ (Table.throw _) => intros ? ? ? ?; discriminate
  end.

Lemma snapshot_no_winner : ensures no_winner Table.snapshot.
Proof. by intros s snap s' [= <- <-]. Qed.

Lemma showdown_no_winner : ensures no_winner Table.showdown.
Proof. intros s snap s' H. by apply showdown_spec in H as [? _]. Qed.

Lemma advancePhase_no_winner f : ensures no_winner (Table.advancePhase f).
Proof.
induction f as [|f IH]; [discriminate|].
pose proof snapshot_no_winner. pose proof showdown_no_winner.
cbn [Table.advancePhase]. repeat no_winner_step.
Qed.

Lemma in_pm_update k f m k0 p :
  In (k0, p) m ->
  In (k0, p) (pm_update k f m) \/ In (k0, f p) (pm_update k f m).
Proof.
induction m as [|[k' p'] m IH]; [contradiction|].
simpl. destruct (decide (k' = k)) as [->|Hne]; simpl.
- intros [[= <- <-]|H]; auto.
- intros [[= <- <-]|H]; [auto|]. destruct (IH H); auto.
Qed.

Lemma next_round_no_winner (K : Table.M Snapshot) :
  ensures no_winner K ->
  ensures no_winner
    (Table.bind Table.isBettingComplete
       (fun complete =>
          if complete then K
          else Table.bind Table.get (fun s2 =>
                 Table.bind
                   (Table.setNextPlayer (default 0 (Table.currentPlayerSeat s2)))
                   (fun _ => Table.snapshot)))).
Proof.
intros HK. pose proof snapshot_no_winner. repeat no_winner_step.
Qed.

Lemma advanceGame_winner s snap s' w :
  Table.advanceGame s = (Ok snap, s') ->
  snap_winner snap = Some w ->
  exists kp, Table.getPlayersInHand s = [kp]
             /\ Table.awardPot kp s = (Ok snap, s').
Proof.
unfold Table.advanceGame. intros H Hw.
apply bind_Ok in H as (s0 & s1 & [= <- <-] & H).
pose proof (next_round_no_winner _ (advancePhase_no_winner 4)) as E.
destruct (Table.getPlayersInHand s) as [|kp [|kp' ps]].
- apply E in H. unfold no_winner in H. congruence.
- eauto.
- apply E in H. unfold no_winner in H. congruence.
Qed.

(** X23.  While a hand is played [getPublicState()] shows no hole cards.
    When an action leaves one player in the hand, [_awardPot] sets the
    phase to SHOWDOWN, and from then on [getPublicState()] shows the hole
    cards of the winner, although no showdown took place. *)
Theorem uncontested_win_shows_the_winners_cards
    (s : Table.t) (a : Action) (k : string) (snap : Snapshot) (s' : Table.t)
    (w : WinnerInfo) :
  act a k s = (Ok snap, s') ->
  snap_winner snap = Some w ->
  (forall seat, In seat (Table.pst_players (Table.getPublicState s)) ->
     Table.seat_holeCards seat = None)
  /\ Table.pst_phase (Table.getPublicState s') = SHOWDOWN
  /\ exists key p seat,
       In (key, p) (Table.players s')
       /\ Player.id p = win_playerId w
       /\ Player.holeCards p <> []
       /\ In seat (Table.pst_players (Table.getPublicState s'))
       /\ Table.seat_id seat = key
       /\ Table.seat_holeCards seat = Some (Player.holeCards p).
Proof.
intros Hr Hw. split.
{ pose proof (act_Ok_active _ _ _ _ _ Hr) as Hc.
  intros seat Hin. unfold Table.getPublicState in Hin.
  cbn [Table.pst_players] in Hin. apply in_map_iff in Hin as (kp & <- & _).
  unfold Table.publicPlayer. cbn [Table.seat_holeCards].
  destruct (Table.phase s); simpl in *; try reflexivity; lia. }
destruct (act_bets_then_advances _ _ _ _ _ Hr) as (s1 & Hadv & _).
destruct (advanceGame_winner _ _ _ _ Hadv Hw) as ([key winner] & Hin & Haward).
pose proof (awardPot_ends _ _ _ _ Haward) as Hph. split; [exact Hph|].
assert (Hkp : In (key, winner) (Table.getPlayersInHand s1))
  by (rewrite Hin; by left).
unfold Table.getPlayersInHand in Hkp. apply filter_In in Hkp as [Hkp Hf].
apply andb_true_iff in Hf as [Hfold Hcards]. cbn [snd] in Hfold, Hcards.
unfold Table.awardPot in Haward.
cbn [Table.bind Table.get Table.modify Table.update_player Table.logAction
     Table.remember Table.ret] in Haward.
injection Haward as Hsnap <-.
rewrite <- Hsnap in Hw. cbn [snap_winner] in Hw. injection Hw as <-.
cbn [win_playerId].
set (f := fun p => Player.set_chips _ p).
assert (Hp' : exists p', In (key, p') (pm_update key f (Table.players s1))
                /\ Player.id p' = Player.id winner
                /\ Player.holeCards p' = Player.holeCards winner
                /\ Player.folded p' = Player.folded winner).
{ destruct (in_pm_update key f _ _ _ Hkp) as [H|H]; eexists; (split; [exact H|]);
    by destruct winner. }
destruct Hp' as (p' & Hin' & Hid & Hhc & Hfd).
exists key, p', (Table.publicPlayer SHOWDOWN key p').
split; [exact Hin'|]. split; [exact Hid|].
assert (Hlen : (0 <? length (Player.holeCards p'))%nat = true)
  by (by rewrite Hhc).
split; [|split; [|split]].
- intros E. rewrite E in Hlen. discriminate.
- unfold Table.getPublicState. cbn [Table.pst_players].
  apply in_map_iff. exists (key, p'). split; [reflexivity|exact Hin'].
- reflexivity.
- unfold Table.publicPlayer. cbn [Table.seat_holeCards].
  rewrite Hlen, Hfd. rewrite Hfold.
  by rewrite bool_decide_eq_true_2.
Qed.

Lemma uncontested_win_shows_the_winners_cards_witness :
  exists snap s' w,
    act Fold "alice-1" heads_up = (Ok snap, s')
    /\ snap_winner snap = Some w
    /\ win_playerId w = "bob-2"%string
    /\ Table.pst_phase (Table.getPublicState s') = SHOWDOWN.
Proof.
eexists. eexists. eexists.
split; [vm_compute; reflexivity|]. split; [reflexivity|].
split; [reflexivity|].
match goal with
| |- Table.pst_phase (Table.getPublicState ?st) = _ =>
    destruct (uncontested_win_shows_the_winners_cards heads_up Fold "alice-1"
                _ st _ ltac:(vm_compute; reflexivity) eq_refl) as (_ & H & _)
end.
exact H.
Defined.

(** *** Where the cards are *)

#[global] Instance holding_nil_refl : Reflexive (holding []).
Proof. intros s. unfold holding. reflexivity. Qed.

#[global] Instance holding_nil_trans : Transitive (holding []).
Proof. intros a b c H1 H2. unfold holding in *. simpl in *. by etrans. Qed.

Lemma hole_cards_update_same k f m :
  (forall p, Player.holeCards (f p) = Player.holeCards p) ->
  hole_cards (pm_update k f m) = hole_cards m.
Proof.
intros Hf. unfold hole_cards. induction m as [|[k' p] m IH]; [reflexivity|].
simpl. destruct (decide (k' = k)); simpl; [by rewrite Hf|by rewrite IH].
Qed.

Lemma hole_cards_map_same (g : string * Player.t -> string * Player.t) m :
  (forall kp, Player.holeCards (snd (g kp)) = Player.holeCards (snd kp)) ->
  hole_cards (map g m) = hole_cards m.
Proof.
intros Hg. unfold hole_cards. induction m as [|kp m IH]; [reflexivity|].
simpl. by rewrite Hg, IH.
Qed.

Lemma hole_cards_reset m :
  hole_cards (map (fun kp => (fst kp, Player.reset (snd kp))) m) = [].
Proof. unfold hole_cards. induction m as [|kp m IH]; [reflexivity|exact IH]. Qed.

Lemma hole_cards_set k l m :
  hole_cards (pm_update k (Player.set_holeCards l) m) ⊆+ l ++ hole_cards m.
Proof.
unfold hole_cards. induction m as [|[k' p] m IH]; simpl.
- apply submseteq_nil_l.
- destruct (decide (k' = k)); simpl.
  + apply submseteq_app; [reflexivity|]. by apply submseteq_inserts_l.
  + etrans; [apply submseteq_app; [reflexivity|exact IH]|].
    apply Permutation_submseteq. rewrite !(assoc (++)). f_equiv.
    apply (comm (++)).
Qed.

Lemma hole_cards_pm_set k p m :
  Player.holeCards p = [] -> hole_cards (pm_set k p m) ⊆+ hole_cards m.
Proof.
intros Hp. unfold hole_cards. induction m as [|[k' p'] m IH]; simpl.
- by rewrite Hp.
- destruct (decide (k' = k)); simpl.
  + rewrite Hp. simpl. by apply submseteq_inserts_l.
  + by apply submseteq_app.
Qed.

Lemma hole_cards_pm_delete k m : hole_cards (pm_delete k m) ⊆+ hole_cards m.
Proof.
unfold hole_cards. induction m as [|[k' p'] m IH]; simpl; [reflexivity|].
destruct (decide (k' = k)); simpl.
- by apply submseteq_inserts_l.
- by apply submseteq_app.
Qed.

Lemma holding_weaken h h' s s' :
  h ≡ₚ h' -> holding h s s' -> holding h' s s'.
Proof. unfold holding. by intros ->. Qed.

(** A dealt card leaves the deck and is held. *)
Lemma sound_deal {B} (h : list Card) (k : Card -> Table.M B) :
  (forall c, sound (holding (c :: h)) any_error (k c)) ->
  sound (holding h) any_error (Table.bind Table.deck_deal k).
Proof.
intros Hk s r s'. unfold Table.bind, Table.deck_deal.
assert (Hsame : holding h s s).
{ unfold holding. by apply submseteq_inserts_l. }
destruct (Table.deck s) as [d|] eqn:Ed; [|intros [= <- <-]; by split].
unfold deal. destruct (pop (cards d)) as [[c rest]|] eqn:Ep.
- intros H. destruct (Hk c _ _ _ H) as [H1 H2]. split; [|exact H2].
  unfold holding in *. etrans; [exact H1|].
  apply pop_spec in Ep. unfold cards_in_play, deck_cards.
  cbn [Table.players Table.communityCards Table.deck Table.set_deck cards].
  rewrite Ed, Ep.
  apply Permutation_submseteq. simpl.
  rewrite !(assoc (++)). apply Permutation_cons_append.
- intros [= <- <-]. by split.
Qed.

(** A step that places the cards held. *)
Lemma sound_place (h : list Card) (f : Table.t -> Table.t) :
  (forall s, cards_in_play (f s) ⊆+ h ++ cards_in_play s) ->
  sound (holding h) any_error (Table.modify f).
Proof. intros Hf s r s' [= <- <-]. split; [apply Hf|done]. Qed.

Lemma sound_place_bind {A B} (h : list Card) (m : Table.M A)
    (k : A -> Table.M B) :
  sound (holding h) any_error m ->
  (forall a, sound (holding []) any_error (k a)) ->
  sound (holding h) any_error (Table.bind m k).
Proof.
intros Hm Hk s r s'. unfold Table.bind.
destruct (m s) as [[a|e] s1] eqn:E.
- intros H. destruct (Hm _ _ _ E) as [H1 _].
  destruct (Hk a _ _ _ H) as [H2 H3]. split; [|exact H3].
  unfold holding in *. simpl in H2. by etrans.
- intros [= <- <-]. destruct (Hm _ _ _ E) as [H1 H2]. by split.
Qed.

Lemma holeCards_mark_allIn p :
  Player.holeCards (Player.mark_allIn p) = Player.holeCards p.
Proof. unfold Player.mark_allIn. by destruct (Qeq_bool _ _), p. Qed.

Ltac cards_side :=
  first
    [ exact I
    | reflexivity
    | unfold holding, cards_in_play, deck_cards; simpl;
      first
        [ reflexivity
        | rewrite hole_cards_update_same by (intros []; reflexivity);
          reflexivity
        | rewrite hole_cards_update_same by exact holeCards_mark_allIn;
          reflexivity
        | rewrite hole_cards_map_same by (intros [? []]; reflexivity);
          reflexivity ] ].

Ltac cards_sound := repeat sound_step cards_side.

Lemma deref_cards k : sound (holding []) any_error (Table.deref k).
Proof. unfold Table.deref. cards_sound. Qed.

Lemma logAction_cards e : sound (holding []) any_error (Table.logAction e).
Proof. unfold Table.logAction. cards_sound. Qed.

Lemma remember_cards c : sound (holding []) any_error (Table.remember c).
Proof. unfold Table.remember. cards_sound. Qed.

Lemma find_occupied_cards seat :
  sound (holding []) any_error (Table.find_occupied seat).
Proof. unfold Table.find_occupied. cards_sound. Qed.

Lemma getSmallBlindSeat_cards :
  sound (holding []) any_error Table.getSmallBlindSeat.
Proof.
pose proof find_occupied_cards. unfold Table.getSmallBlindSeat. cards_sound.
Qed.

Lemma getBigBlindSeat_cards :
  sound (holding []) any_error Table.getBigBlindSeat.
Proof.
pose proof find_occupied_cards. pose proof getSmallBlindSeat_cards.
unfold Table.getBigBlindSeat. cards_sound.
Qed.

Lemma moveDealer_cards : sound (holding []) any_error Table.moveDealer.
Proof.
pose proof find_occupied_cards. unfold Table.moveDealer. cards_sound.
Qed.

Lemma update_player_cards k f :
  (forall p, Player.holeCards (f p) = Player.holeCards p) ->
  sound (holding []) any_error (Table.update_player k f).
Proof.
intros Hf. unfold Table.update_player. apply sound_modify. intros s.
unfold holding, cards_in_play, deck_cards. simpl.
by rewrite hole_cards_update_same.
Qed.

Lemma postBlinds_cards : sound (holding []) any_error Table.postBlinds.
Proof.
pose proof getSmallBlindSeat_cards. pose proof getBigBlindSeat_cards.
unfold Table.postBlinds, Table.update_player, Table.add_pot, Table.logAction.
cards_sound.
Qed.

Lemma deal_hole_cards k :
  sound (holding []) any_error
    (Table.bind Table.deck_deal (fun c1 =>
       Table.bind Table.deck_deal (fun c2 =>
         Table.update_player k (Player.set_holeCards [c1; c2])))).
Proof.
apply sound_deal. intros c1. apply sound_deal. intros c2.
apply sound_place. intros s. unfold cards_in_play. simpl.
change (deck_cards (Table.set_players _ s)) with (deck_cards s).
etrans; [apply submseteq_app; [apply hole_cards_set|reflexivity]|].
solve_submseteq.
Qed.

Lemma deal_flop (k : Card -> Card -> Card -> Table.M Snapshot) :
  (forall c1 c2 c3, sound (holding []) any_error (k c1 c2 c3)) ->
  sound (holding []) any_error
    (Table.bind Table.deck_deal (fun c1 =>
       Table.bind Table.deck_deal (fun c2 =>
         Table.bind Table.deck_deal (fun c3 =>
           Table.bind (Table.modify (Table.set_communityCards [c1; c2; c3]))
                      (fun _ => k c1 c2 c3))))).
Proof.
intros Hk. apply sound_deal. intros c1. apply sound_deal. intros c2.
apply sound_deal. intros c3.
apply sound_place_bind; [|intros _; apply Hk].
apply sound_place. intros s. unfold cards_in_play. simpl.
change (deck_cards (Table.set_communityCards _ s)) with (deck_cards s).
solve_submseteq.
Qed.

Lemma deal_street (k : Card -> Table.M Snapshot) :
  (forall c1, sound (holding []) any_error (k c1)) ->
  sound (holding []) any_error
    (Table.bind Table.deck_deal (fun c1 =>
       Table.bind
         (Table.modify (fun s =>
            Table.set_communityCards (Table.communityCards s ++ [c1]) s))
         (fun _ => k c1))).
Proof.
intros Hk. apply sound_deal. intros c1.
apply sound_place_bind; [|intros _; apply Hk].
apply sound_place. intros s. unfold cards_in_play. simpl.
change (deck_cards (Table.set_communityCards _ s)) with (deck_cards s).
solve_submseteq.
Qed.

Ltac deal_step :=
  lazymatch goal with
  | |- sound (holding _) _
         (Table.bind Table.deck_deal (fun c1 =>
            Table.bind Table.deck_deal (fun c2 =>
              Table.update_player _ _))) =>
      apply deal_hole_cards
  | |- sound (holding _) _
         (Table.bind Table.deck_deal (fun c1 =>
            Table.bind Table.deck_deal (fun c2 =>
              Table.bind Table.deck_deal (fun c3 =>
                Table.bind (Table.modify (Table.set_communityCards _)) _)))) =>
      apply (deal_flop (fun c1 c2 c3 => _)); intros ? ? ?
  | |- sound (holding _) _
         (Table.bind Table.deck_deal (fun c1 =>
            Table.bind (Table.modify _) _)) =>
      apply (deal_street (fun c1 => _)); intros ?
  | _ => sound_step cards_side
  end.

Ltac dealing_sound := repeat deal_step.

Lemma dealHoleCards_loop_cards ss :
  sound (holding []) any_error (Table.dealHoleCards_loop ss).
Proof.
pose proof deref_cards.
induction ss as [|sid ss IH]; simpl; dealing_sound.
Qed.

Lemma dealHoleCards_cards : sound (holding []) any_error Table.dealHoleCards.
Proof.
pose proof dealHoleCards_loop_cards. unfold Table.dealHoleCards. cards_sound.
Qed.

Lemma setNextPlayer_loop_cards checked seat :
  sound (holding []) any_error (Table.setNextPlayer_loop checked seat).
Proof.
revert seat. induction checked as [|f IH]; intros seat; simpl; cards_sound.
Qed.

Lemma setNextPlayer_cards afterSeat :
  sound (holding []) any_error (Table.setNextPlayer afterSeat).
Proof.
pose proof setNextPlayer_loop_cards. unfold Table.setNextPlayer. cards_sound.
Qed.

Lemma snapshot_cards : sound (holding []) any_error Table.snapshot.
Proof. unfold Table.snapshot. cards_sound. Qed.

Lemma validateAction_cards k :
  sound (holding []) any_error (Table.validateAction k).
Proof. unfold Table.validateAction. cards_sound. Qed.

Lemma isBettingComplete_loop_cards ps :
  sound (holding []) any_error (Table.isBettingComplete_loop ps).
Proof.
pose proof getBigBlindSeat_cards.
induction ps as [|[k p] ps IH]; simpl; cards_sound.
Qed.

Lemma isBettingComplete_cards :
  sound (holding []) any_error Table.isBettingComplete.
Proof.
pose proof isBettingComplete_loop_cards. unfold Table.isBettingComplete.
cards_sound.
Qed.

Lemma awardPot_cards w : sound (holding []) any_error (Table.awardPot w).
Proof.
destruct w as [k winner].
unfold Table.awardPot, Table.update_player, Table.logAction, Table.remember.
cards_sound.
Qed.

Lemma evaluate_all_cards community ps :
  sound (holding []) any_error (Table.evaluate_all community ps).
Proof. induction ps as [|[k p] ps IH]; simpl; cards_sound. Qed.

Lemma credit_all_cards winAmount ws :
  sound (holding []) any_error (Table.credit_all winAmount ws).
Proof.
induction ws as [|w ws IH]; simpl; unfold Table.update_player; cards_sound.
Qed.

Lemma deck_revealSalt_cards :
  sound (holding []) any_error Table.deck_revealSalt.
Proof.
intros s r s'. unfold Table.deck_revealSalt.
destruct (Table.deck s) as [d|] eqn:Ed; simpl; intros [= <- <-].
- split; [|done]. unfold holding, cards_in_play, deck_cards. simpl.
  by rewrite Ed.
- by split.
Qed.

Lemma showdown_cards : sound (holding []) any_error Table.showdown.
Proof.
pose proof evaluate_all_cards. pose proof credit_all_cards.
pose proof deck_revealSalt_cards.
unfold Table.showdown, Table.logAction, Table.remember. cards_sound.
Qed.

Lemma advancePhase_cards f :
  sound (holding []) any_error (Table.advancePhase f).
Proof.
induction f as [|f IH]; [cbn [Table.advancePhase]; cards_sound|].
pose proof setNextPlayer_cards. pose proof snapshot_cards.
pose proof showdown_cards.
cbn [Table.advancePhase]. unfold Table.logAction. dealing_sound.
Qed.

Lemma advanceGame_cards : sound (holding []) any_error Table.advanceGame.
Proof.
pose proof isBettingComplete_cards. pose proof setNextPlayer_cards.
pose proof snapshot_cards.
unfold Table.advanceGame.
generalize (advancePhase_cards 4). generalize (Table.advancePhase 4).
generalize awardPot_cards. generalize Table.awardPot.
intros award Haward advance Hadvance. cards_sound.
Qed.

Lemma act_cards a k : sound (holding []) any_error (act a k).
Proof.
pose proof validateAction_cards. pose proof deref_cards.
destruct a; unfold act, Table.fold, Table.check, Table.call, Table.raise,
  Table.add_pot, Table.update_player, Table.logAction;
  generalize advanceGame_cards; generalize Table.advanceGame; intros K HK;
  cards_sound.
Qed.

Lemma allIn_cards k : sound (holding []) any_error (Table.allIn k).
Proof.
pose proof deref_cards. pose proof (fun a => act_cards (Raise a) k) as Hr.
unfold act in Hr. unfold Table.allIn.
generalize dependent (Table.raise k). intros K HK. cards_sound.
Qed.

Lemma addPlayer_cards m w b ps now :
  sound (holding []) any_error (Table.addPlayer m w b ps now).
Proof.
unfold Table.addPlayer. cards_sound.
apply sound_modify. intros s. unfold holding, cards_in_play. simpl.
change (deck_cards (Table.set_players _ s)) with (deck_cards s).
apply submseteq_app; [|reflexivity]. by apply hole_cards_pm_set.
Qed.

Lemma removePlayer_cards k : sound (holding []) any_error (Table.removePlayer k).
Proof.
unfold Table.removePlayer. cards_sound.
apply sound_modify. intros s. unfold holding, cards_in_play. simpl.
change (deck_cards (Table.set_players _ s)) with (deck_cards s).
apply submseteq_app; [|reflexivity]. apply hole_cards_pm_delete.
Qed.

Lemma startHand_cards d s r s' :
  Table.startHand d s = (r, s') ->
  s' = s \/ cards_in_play s' ⊆+ cards d.
Proof.
pose proof moveDealer_cards. pose proof postBlinds_cards.
pose proof dealHoleCards_cards. pose proof getBigBlindSeat_cards.
pose proof setNextPlayer_cards. pose proof snapshot_cards.
unfold Table.startHand.
unfold Table.bind at 1. unfold Table.get at 1.
destruct (_ <? _)%nat; [intros [= <- <-]; by left|].
do 11 (unfold Table.bind at 1; unfold Table.modify at 1).
match goal with
| |- ?m ?sa = _ -> _ =>
    set (s0 := sa);
    assert (Hrest : sound (holding []) any_error m);
    [|assert (Ha : cards_in_play s0 = cards d)]
end.
{ unfold Table.logAction. cards_sound. }
{ subst s0. unfold cards_in_play, deck_cards. simpl.
  rewrite hole_cards_reset. reflexivity. }
clearbody s0. intros E. right. destruct (Hrest _ _ _ E) as [Hh _].
unfold holding in Hh. simpl in Hh. by rewrite Ha in Hh.
Qed.

Lemma exec_cards sha256 op s :
  cards_in_play s ⊆+ buildDeck ->
  cards_in_play (snd (exec sha256 op s)) ⊆+ buildDeck.
Proof.
intros Hs.
assert (G : forall {A} (m : Table.M A) (f : A -> Outcome),
          sound (holding []) any_error m ->
          cards_in_play (snd (Table.bind m (fun r => Table.ret (f r)) s))
          ⊆+ buildDeck).
{ intros A m f Hm. etrans; [|exact Hs].
  exact (sound_snd (holding []) any_error m f s Hm). }
destruct op; unfold exec.
- apply G, addPlayer_cards.
- apply G, removePlayer_cards.
- unfold Table.bind.
  destruct (Table.startHand _ s) as [[a|e] s1] eqn:E; cbn [snd Table.ret];
    (destruct (startHand_cards _ _ _ _ E) as [->|Hc]; [exact Hs|]);
    (etrans; [exact Hc|]);
    apply Permutation_submseteq;
    destruct (newSecureDeck_fields sha256 saltHex draws) as (-> & _);
    apply shuffle_perm.
- apply G. exact (act_cards Fold playerId).
- apply G. exact (act_cards Check playerId).
- apply G. exact (act_cards Call playerId).
- apply G. exact (act_cards (Raise amount) playerId).
- apply G, allIn_cards.
Qed.

Lemma reachable_cards sha256 s :
  reachable sha256 s -> cards_in_play s ⊆+ buildDeck.
Proof.
induction 1 as [i config|op s _ IH]; [apply submseteq_nil_l|].
by apply exec_cards.
Qed.

Lemma submseteq_keeps_NoDup {A} (l k : list A) :
  l ⊆+ k -> NoDup k -> NoDup l.
Proof.
intros H Hk. apply submseteq_sublist_r in H as (l' & Hp & Hs).
rewrite Hp. by eapply sublist_NoDup.
Qed.

(** X24.  On a reachable table no card is in two places: the hole cards
    of all players, the community cards and the cards left in the deck
    contain no card twice, all of them are cards of the 52-card deck, and
    there are at most 52 of them. *)
Theorem no_card_is_dealt_twice (sha256 : string -> string) (s : Table.t) :
  reachable sha256 s ->
  NoDup (hole_cards (Table.players s) ++ Table.communityCards s
         ++ deck_cards s)
  /\ (forall c, In c (hole_cards (Table.players s) ++ Table.communityCards s
                      ++ deck_cards s) -> deck_card c)
  /\ (length (hole_cards (Table.players s)) + length (Table.communityCards s)
      + length (deck_cards s) <= 52)%nat.
Proof.
intros Hr. pose proof (reachable_cards _ _ Hr) as H. unfold cards_in_play in H.
split; [|split].
- eapply submseteq_keeps_NoDup; [exact H|exact buildDeck_NoDup].
- intros c Hc. unfold deck_card. apply list_elem_of_In.
  eapply elem_of_submseteq; [|exact H]. by apply list_elem_of_In.
- apply submseteq_length in H. rewrite !length_app in H.
  change (length buildDeck) with 52%nat in H. lia.
Qed.

Lemma no_card_is_dealt_twice_witness :
  NoDup (hole_cards (Table.players river_table)
         ++ Table.communityCards river_table ++ deck_cards river_table)
  /\ length (Table.communityCards river_table) = 5%nat.
Proof.
split; [|reflexivity].
apply (no_card_is_dealt_twice demo_hash river_table).
apply reachable_run. exact heads_up_reachable.
Defined.

(** *** Whose turn it is *)

Lemma setNextPlayer_loop_spec f seat s s' :
  Table.setNextPlayer_loop f seat s = (Ok tt, s') ->
  exists x,
    s' = Table.set_currentPlayerSeat x s
    /\ match x with
       | Some st =>
           can_act s st = true
           /\ exists j, (j < f)%nat
                /\ st = seat_after (Table.maxPlayers s) j seat
                /\ forall i, (i < j)%nat ->
                     can_act s (seat_after (Table.maxPlayers s) i seat) = false
       | None =>
           forall i, (i < f)%nat ->
             can_act s (seat_after (Table.maxPlayers s) i seat) = false
       end.
Proof.
revert seat. induction f as [|f IH]; intros seat; cbn [Table.setNextPlayer_loop].
- intros [= <-]. exists None. split; [reflexivity|]. intros i Hi. lia.
- intros H. apply bind_Ok in H as (s0 & s1 & [= <- <-] & H).
  cbv zeta in H.
  assert (Hnext :
    can_act s seat = false ->
    Table.setNextPlayer_loop f (Table.js_mod (seat + 1) (Table.maxPlayers s)) s
    = (Ok tt, s') ->
    exists x,
      s' = Table.set_currentPlayerSeat x s
      /\ match x with
         | Some st =>
             can_act s st = true
             /\ exists j, (j < S f)%nat
                  /\ st = seat_after (Table.maxPlayers s) j seat
                  /\ forall i, (i < j)%nat ->
                       can_act s (seat_after (Table.maxPlayers s) i seat) = false
         | None =>
             forall i, (i < S f)%nat ->
               can_act s (seat_after (Table.maxPlayers s) i seat) = false
         end).
  { intros Hno Hrun. destruct (IH _ Hrun) as (x & -> & Hx). exists x.
    split; [reflexivity|]. destruct x as [st|].
    - destruct Hx as (Hact & j & Hj & -> & Hbefore). split; [exact Hact|].
      exists (S j). split; [lia|]. split; [reflexivity|].
      intros [|i] Hi; [exact Hno|]. apply Hbefore. lia.
    - intros [|i] Hi; [exact Hno|]. apply Hx. lia. }
  unfold can_act in Hnext at 1.
  destruct (Table.seat_at (Table.seats s) seat) as [[k|]|] eqn:Eseat;
    try (by apply Hnext).
  destruct (bool_decide (k = ""%string)) eqn:Ek; [by apply Hnext|].
  apply bind_Ok in H as (player & s1 & E & H).
  apply deref_Ok in E as (-> & Hp). rewrite Hp in Hnext.
  destruct (negb (Player.folded player) && negb (Player.allIn player)) eqn:Eact;
    [|by apply Hnext].
  injection H as <-. exists (Some seat). split; [reflexivity|]. split.
  + unfold can_act. by rewrite Eseat, Ek, Hp, Eact.
  + exists 0%nat. split; [lia|]. split; [reflexivity|]. intros i Hi. lia.
Qed.

Lemma seat_after_mod (m j : nat) (seat : Z) :
  (0 < m)%nat -> 0 <= seat < Z.of_nat m ->
  seat_after m j seat = (seat + Z.of_nat j) mod Z.of_nat m.
Proof.
intros Hm. revert seat. induction j as [|j IH]; intros seat Hs.
- simpl. rewrite Z.add_0_r. symmetry. by apply Z.mod_small.
- cbn [seat_after]. unfold Table.js_mod.
  rewrite Z.rem_mod_nonneg by lia.
  rewrite IH by (apply Z.mod_pos_bound; lia).
  rewrite Zplus_mod_idemp_l. f_equal. lia.
Qed.

(** X25.  [_setNextPlayer(afterSeat)] changes the seat on turn only: it
    becomes the first seat after [afterSeat], going round the table, that
    holds a player who has not folded and is not all-in; when no seat of
    the table holds such a player it becomes [null]. *)
Theorem setNextPlayer_finds_the_next_to_act
    (afterSeat : Z) (s s' : Table.t) :
  let m := Z.of_nat (Table.maxPlayers s) in
  -1 <= afterSeat ->
  Table.setNextPlayer afterSeat s = (Ok tt, s') ->
  exists turn,
    s' = Table.set_currentPlayerSeat turn s
    /\ match turn with
       | Some seat =>
           can_act s seat = true
           /\ exists j, 0 <= j < m
                /\ seat = (afterSeat + 1 + j) mod m
                /\ forall i, 0 <= i < j ->
                     can_act s ((afterSeat + 1 + i) mod m) = false
       | None => forall seat, 0 <= seat < m -> can_act s seat = false
       end.
Proof.
intros m Hafter H. unfold Table.setNextPlayer in H.
apply bind_Ok in H as (s0 & s1 & [= <- <-] & H).
destruct (Nat.eq_dec (Table.maxPlayers s) 0%nat) as [Hz|Hnz].
{ subst m. rewrite Hz in *. cbn [Table.setNextPlayer_loop] in H.
  injection H as <-. exists None. split; [reflexivity|]. intros seat Hs. lia. }
assert (Hm : 0 < m) by (subst m; lia).
assert (Hstart : 0 <= Table.js_mod (afterSeat + 1) (Table.maxPlayers s) < m).
{ unfold Table.js_mod. rewrite Z.rem_mod_nonneg by lia.
  apply Z.mod_pos_bound. lia. }
assert (Hseq : forall j : nat,
          seat_after (Table.maxPlayers s) j
            (Table.js_mod (afterSeat + 1) (Table.maxPlayers s))
          = (afterSeat + 1 + Z.of_nat j) mod m).
{ intros j. rewrite seat_after_mod by (lia || exact Hstart).
  unfold Table.js_mod. rewrite Z.rem_mod_nonneg by lia.
  fold m. by rewrite Zplus_mod_idemp_l. }
destruct (setNextPlayer_loop_spec _ _ _ _ H) as (x & -> & Hx).
exists x. split; [reflexivity|]. destruct x as [seat|].
- destruct Hx as (Hact & j & Hj & -> & Hbefore). split; [exact Hact|].
  exists (Z.of_nat j). split; [subst m; lia|]. split; [apply Hseq|].
  intros i Hi. rewrite <- (Z2Nat.id i) by lia. rewrite <- Hseq.
  apply Hbefore. lia.
- intros seat Hs.
  set (i := (seat - (afterSeat + 1)) mod m).
  assert (Hi : 0 <= i < m) by (apply Z.mod_pos_bound; lia).
  replace seat with ((afterSeat + 1 + i) mod m).
  + rewrite <- (Z2Nat.id i) by lia. rewrite <- Hseq. apply Hx. subst m. lia.
  + subst i. rewrite Zplus_mod_idemp_r.
    replace (afterSeat + 1 + (seat - (afterSeat + 1))) with seat by lia.
    by apply Z.mod_small.
Qed.

Lemma setNextPlayer_finds_the_next_to_act_witness :
  Table.setNextPlayer 0 heads_up
  = (Ok tt, Table.set_currentPlayerSeat (Some 1) heads_up)
  /\ can_act heads_up 1 = true.
Proof.
destruct (setNextPlayer_finds_the_next_to_act 0 heads_up
            (Table.set_currentPlayerSeat (Some 1) heads_up)
            ltac:(lia) ltac:(vm_compute; reflexivity)) as (turn & Eq & Hturn).
split; [vm_compute; reflexivity|].
apply (f_equal Table.currentPlayerSeat) in Eq. cbn in Eq. subst turn.
exact (proj1 Hturn).
Defined.

(** *** Hole cards *)

#[global] Instance keeps_two_cards_refl : Reflexive keeps_two_cards.
Proof. intros s H. exact H. Qed.

#[global] Instance keeps_two_cards_trans : Transitive keeps_two_cards.
Proof. intros a b c H1 H2 H. auto. Qed.

Lemma two_cards_update k f (s : Table.t) :
  (forall p, none_or_two p -> none_or_two (f p)) ->
  keeps_two_cards s
    (Table.set_players (pm_update k f (Table.players s)) s).
Proof.
intros Hf H [k' p'] Hin. simpl in Hin. cbn [snd].
assert (G : forall m, (forall kp, In kp m -> none_or_two (snd kp)) ->
              In (k', p') (pm_update k f m) -> none_or_two p').
{ clear -Hf. induction m as [|[k0 p0] m IH]; simpl; [tauto|].
  intros Hm. destruct (decide (k0 = k)); simpl.
  - intros [[= <- <-]|Hin]; [apply Hf, (Hm (k0, p0)); by left|].
    apply (Hm (k', p')). by right.
  - intros [[= <- <-]|Hin]; [apply (Hm (k0, p0)); by left|].
    apply IH; [|exact Hin]. intros kp Hkp. apply Hm. by right. }
exact (G _ H Hin).
Qed.

Lemma two_cards_map (g : Player.t -> Player.t) (s : Table.t) :
  (forall p, none_or_two p -> none_or_two (g p)) ->
  keeps_two_cards s
    (Table.set_players
       (map (fun kp => (fst kp, g (snd kp))) (Table.players s)) s).
Proof.
intros Hg H kp Hin. simpl in Hin. apply in_map_iff in Hin as (kp0 & <- & Hin).
cbn [snd]. apply Hg. by apply H.
Qed.

Lemma none_or_two_mark_allIn p :
  none_or_two p -> none_or_two (Player.mark_allIn p).
Proof. unfold Player.mark_allIn, none_or_two. by destruct (Qeq_bool _ _), p. Qed.

Ltac two_side :=
  first
    [ exact I
    | reflexivity
    | apply two_cards_update; first
        [ exact none_or_two_mark_allIn
        | intros [] ?; assumption
        | intros ? _; right; reflexivity ]
    | apply two_cards_map; first
        [ intros [] ?; assumption
        | intros ? _; left; reflexivity ]
    | apply (two_cards_map
               (fun p => Player.set_lastAction None (Player.set_currentBet 0 p)));
      intros [] ?; assumption
    | intros ?; assumption ].

Ltac two_sound := repeat sound_step two_side.

Lemma deref_two k : sound keeps_two_cards any_error (Table.deref k).
Proof. unfold Table.deref. two_sound. Qed.

Lemma find_occupied_two seat :
  sound keeps_two_cards any_error (Table.find_occupied seat).
Proof. unfold Table.find_occupied. two_sound. Qed.

Lemma getSmallBlindSeat_two :
  sound keeps_two_cards any_error Table.getSmallBlindSeat.
Proof.
pose proof find_occupied_two. unfold Table.getSmallBlindSeat. two_sound.
Qed.

Lemma getBigBlindSeat_two :
  sound keeps_two_cards any_error Table.getBigBlindSeat.
Proof.
pose proof find_occupied_two. pose proof getSmallBlindSeat_two.
unfold Table.getBigBlindSeat. two_sound.
Qed.

Lemma moveDealer_two : sound keeps_two_cards any_error Table.moveDealer.
Proof.
pose proof find_occupied_two. unfold Table.moveDealer. two_sound.
Qed.

Lemma postBlinds_two : sound keeps_two_cards any_error Table.postBlinds.
Proof.
pose proof getSmallBlindSeat_two. pose proof getBigBlindSeat_two.
unfold Table.postBlinds, Table.update_player, Table.add_pot, Table.logAction.
two_sound.
Qed.

Lemma deck_deal_two : sound keeps_two_cards any_error Table.deck_deal.
Proof.
intros s r s'. unfold Table.deck_deal.
destruct (Table.deck s) as [d|]; [|intros [= <- <-]; split; [reflexivity|done]].
unfold deal. destruct (pop (cards d)) as [[c rest]|]; intros [= <- <-].
- split; [by intros H|done].
- split; [reflexivity|done].
Qed.

Lemma dealHoleCards_loop_two ss :
  sound keeps_two_cards any_error (Table.dealHoleCards_loop ss).
Proof.
pose proof deref_two. pose proof deck_deal_two.
induction ss as [|sid ss IH]; simpl; unfold Table.update_player; two_sound.
Qed.

Lemma dealHoleCards_two : sound keeps_two_cards any_error Table.dealHoleCards.
Proof.
pose proof dealHoleCards_loop_two. unfold Table.dealHoleCards. two_sound.
Qed.

Lemma setNextPlayer_loop_two checked seat :
  sound keeps_two_cards any_error (Table.setNextPlayer_loop checked seat).
Proof.
revert seat. induction checked as [|f IH]; intros seat; simpl; two_sound.
Qed.

Lemma setNextPlayer_two afterSeat :
  sound keeps_two_cards any_error (Table.setNextPlayer afterSeat).
Proof.
pose proof setNextPlayer_loop_two. unfold Table.setNextPlayer. two_sound.
Qed.

Lemma snapshot_two : sound keeps_two_cards any_error Table.snapshot.
Proof. unfold Table.snapshot. two_sound. Qed.

Lemma validateAction_two k :
  sound keeps_two_cards any_error (Table.validateAction k).
Proof. unfold Table.validateAction. two_sound. Qed.

Lemma isBettingComplete_loop_two ps :
  sound keeps_two_cards any_error (Table.isBettingComplete_loop ps).
Proof.
pose proof getBigBlindSeat_two.
induction ps as [|[k p] ps IH]; simpl; two_sound.
Qed.

Lemma isBettingComplete_two :
  sound keeps_two_cards any_error Table.isBettingComplete.
Proof.
pose proof isBettingComplete_loop_two. unfold Table.isBettingComplete.
two_sound.
Qed.

Lemma awardPot_two w : sound keeps_two_cards any_error (Table.awardPot w).
Proof.
destruct w as [k winner].
unfold Table.awardPot, Table.update_player, Table.logAction, Table.remember.
two_sound.
Qed.

Lemma evaluate_all_two community ps :
  sound keeps_two_cards any_error (Table.evaluate_all community ps).
Proof. induction ps as [|[k p] ps IH]; simpl; two_sound. Qed.

Lemma credit_all_two winAmount ws :
  sound keeps_two_cards any_error (Table.credit_all winAmount ws).
Proof.
induction ws as [|w ws IH]; simpl; unfold Table.update_player; two_sound.
Qed.

Lemma deck_revealSalt_two :
  sound keeps_two_cards any_error Table.deck_revealSalt.
Proof.
intros s r s'. unfold Table.deck_revealSalt.
destruct (Table.deck s) as [d|] eqn:Ed; simpl; intros [= <- <-].
- split; [by intros H|done].
- by split.
Qed.

Lemma showdown_two : sound keeps_two_cards any_error Table.showdown.
Proof.
pose proof evaluate_all_two. pose proof credit_all_two.
pose proof deck_revealSalt_two.
unfold Table.showdown, Table.logAction, Table.remember. two_sound.
Qed.

Lemma advancePhase_two f :
  sound keeps_two_cards any_error (Table.advancePhase f).
Proof.
induction f as [|f IH]; [cbn [Table.advancePhase]; two_sound|].
pose proof setNextPlayer_two. pose proof snapshot_two.
pose proof showdown_two. pose proof deck_deal_two.
cbn [Table.advancePhase]. unfold Table.logAction. two_sound.
Qed.

Lemma advanceGame_two : sound keeps_two_cards any_error Table.advanceGame.
Proof.
pose proof isBettingComplete_two. pose proof setNextPlayer_two.
pose proof snapshot_two.
unfold Table.advanceGame.
generalize (advancePhase_two 4). generalize (Table.advancePhase 4).
generalize awardPot_two. generalize Table.awardPot.
intros award Haward advance Hadvance. two_sound.
Qed.

Lemma act_two a k : sound keeps_two_cards any_error (act a k).
Proof.
pose proof validateAction_two. pose proof deref_two.
destruct a; unfold act, Table.fold, Table.check, Table.call, Table.raise,
  Table.add_pot, Table.update_player, Table.logAction;
  generalize advanceGame_two; generalize Table.advanceGame; intros K HK;
  two_sound.
Qed.

Lemma allIn_two k : sound keeps_two_cards any_error (Table.allIn k).
Proof.
pose proof deref_two. pose proof (fun a => act_two (Raise a) k) as Hr.
unfold act in Hr. unfold Table.allIn.
generalize dependent (Table.raise k). intros K HK. two_sound.
Qed.

Lemma startHand_two d : sound keeps_two_cards any_error (Table.startHand d).
Proof.
pose proof moveDealer_two. pose proof postBlinds_two.
pose proof dealHoleCards_two. pose proof getBigBlindSeat_two.
pose proof setNextPlayer_two. pose proof snapshot_two.
unfold Table.startHand, Table.logAction. two_sound.
Qed.

Lemma in_pm_set k p m kp : In kp (pm_set k p m) -> kp = (k, p) \/ In kp m.
Proof.
induction m as [|[k0 p0] m IH]; simpl.
- intros [<-|[]]. by left.
- destruct (decide (k0 = k)); simpl.
  + intros [<-|H]; auto.
  + intros [<-|H]; [auto|]. destruct (IH H); auto.
Qed.

Lemma in_pm_delete k m kp : In kp (pm_delete k m) -> In kp m.
Proof.
induction m as [|[k0 p0] m IH]; simpl; [tauto|].
destruct (decide (k0 = k)); simpl; [auto|]. intros [<-|H]; auto.
Qed.

Lemma addPlayer_two m w b ps now :
  sound keeps_two_cards any_error (Table.addPlayer m w b ps now).
Proof.
unfold Table.addPlayer. two_sound.
apply sound_modify. intros s H kp Hin. simpl in Hin.
apply in_pm_set in Hin as [->|Hin]; [by left|by apply H].
Qed.

Lemma removePlayer_two k : sound keeps_two_cards any_error (Table.removePlayer k).
Proof.
unfold Table.removePlayer. two_sound.
apply sound_modify. intros s H kp Hin. simpl in Hin.
apply in_pm_delete in Hin. by apply H.
Qed.

Lemma exec_two sha256 op s :
  two_cards_each s -> two_cards_each (snd (exec sha256 op s)).
Proof.
intros Hs.
assert (G : forall {A} (m : Table.M A) (f : A -> Outcome),
          sound keeps_two_cards any_error m ->
          two_cards_each (snd (Table.bind m (fun r => Table.ret (f r)) s))).
{ intros A m f Hm.
  exact (sound_snd keeps_two_cards any_error m f s Hm Hs). }
destruct op; unfold exec.
- apply G, addPlayer_two.
- apply G, removePlayer_two.
- apply G, startHand_two.
- apply G. exact (act_two Fold playerId).
- apply G. exact (act_two Check playerId).
- apply G. exact (act_two Call playerId).
- apply G. exact (act_two (Raise amount) playerId).
- apply G, allIn_two.
Qed.

(** X26.  On a reachable table every player holds either no hole cards or
    exactly two. *)
Theorem players_hold_no_or_two_hole_cards
    (sha256 : string -> string) (s : Table.t) (k : string) (p : Player.t) :
  reachable sha256 s ->
  In (k, p) (Table.players s) ->
  length (Player.holeCards p) = 0%nat \/ length (Player.holeCards p) = 2%nat.
Proof.
intros Hr. revert k p.
assert (H : two_cards_each s).
{ induction Hr as [i config|op s _ IH]; [by intros kp []|].
  by apply exec_two. }
intros k p Hin. exact (H (k, p) Hin).
Qed.

Lemma players_hold_no_or_two_hole_cards_witness :
  length (Player.holeCards alice) = 0%nat
  \/ length (Player.holeCards alice) = 2%nat.
Proof.
apply (players_hold_no_or_two_hole_cards demo_hash heads_up "alice-1" alice).
- exact heads_up_reachable.
- vm_compute. left. reflexivity.
Defined.

(** *** The blinds *)

Lemma skip_null_spec ss m fuel seat r :
  Table.skip_null ss m fuel seat = Some r ->
  exists j, (j < fuel)%nat
    /\ r = seat_after m j seat
    /\ Table.seat_is_null ss r = false
    /\ forall i, (i < j)%nat ->
         Table.seat_is_null ss (seat_after m i seat) = true.
Proof.
revert seat. induction fuel as [|f IH]; intros seat; [discriminate|].
cbn [Table.skip_null]. destruct (Table.seat_is_null ss seat) eqn:E.
- intros H. destruct (IH _ H) as (j & Hj & -> & Hr & Hb).
  exists (S j). split; [lia|]. split; [reflexivity|]. split; [exact Hr|].
  intros [|i] Hi; [exact E|]. apply Hb. lia.
- intros [= <-]. exists 0%nat. split; [lia|]. split; [reflexivity|].
  split; [exact E|]. intros i Hi. lia.
Qed.

Lemma find_occupied_next x s r s1 :
  0 <= x + 1 -> (0 < Table.maxPlayers s)%nat ->
  Table.find_occupied (Table.js_mod (x + 1) (Table.maxPlayers s)) s = (Ok r, s1) ->
  s1 = s /\ next_occupied s x r.
Proof.
intros Hx Hm H. pose proof (find_occupied_Ok _ _ _ _ H) as ->.
split; [reflexivity|].
unfold Table.find_occupied, Table.bind, Table.get in H.
destruct (Table.skip_null _ _ _ _) as [r'|] eqn:E; [|discriminate].
injection H as ->.
apply skip_null_spec in E as (j & Hj & -> & Hr & Hb).
set (m := Z.of_nat (Table.maxPlayers s)).
assert (Hstart : 0 <= Table.js_mod (x + 1) (Table.maxPlayers s) < m).
{ unfold Table.js_mod. rewrite Z.rem_mod_nonneg by lia.
  apply Z.mod_pos_bound. lia. }
assert (Hseq : forall j : nat,
          seat_after (Table.maxPlayers s) j
            (Table.js_mod (x + 1) (Table.maxPlayers s))
          = (x + 1 + Z.of_nat j) mod m).
{ intros i. rewrite seat_after_mod by (lia || exact Hstart).
  unfold Table.js_mod. rewrite Z.rem_mod_nonneg by lia.
  fold m. by rewrite Zplus_mod_idemp_l. }
exists (Z.of_nat j). split; [subst m; lia|]. split; [apply Hseq|].
split; [exact Hr|]. intros i Hi. rewrite <- (Z2Nat.id i) by lia.
rewrite <- Hseq. apply Hb. lia.
Qed.

Lemma next_occupied_range s x r :
  (0 < Table.maxPlayers s)%nat -> next_occupied s x r ->
  0 <= r < Z.of_nat (Table.maxPlayers s).
Proof.
intros Hm (j & _ & -> & _). apply Z.mod_pos_bound. lia.
Qed.

Lemma mod_add_inj (a j j' m : Z) :
  0 <= j < m -> 0 <= j' < m ->
  (a + j) mod m = (a + j') mod m -> j = j'.
Proof.
intros Hj Hj' H.
assert (Hd : (j - j') mod m = 0).
{ replace (j - j') with ((a + j) - (a + j')) by lia.
  rewrite Zminus_mod, H, Z.sub_diag. apply Z.mod_0_l. lia. }
apply Z.mod_divide in Hd; [|lia]. destruct Hd as [q Hq].
assert (q = 0) by nia. lia.
Qed.

(** X27.  [_getSmallBlindSeat] and [_getBigBlindSeat] read the table and
    leave it as it is; the small blind is the first seat after the dealer
    that is not [null], the big blind the first such seat after the small
    blind.  So when the dealer and the small blind hold the only occupied
    seats, the dealer posts the big blind. *)
Theorem blinds_follow_the_button
    (s : Table.t) (sb bb : Z) (s1 s2 : Table.t) :
  0 <= Table.dealerSeat s ->
  (0 < Table.maxPlayers s)%nat ->
  Table.getSmallBlindSeat s = (Ok sb, s1) ->
  Table.getBigBlindSeat s = (Ok bb, s2) ->
  s1 = s /\ s2 = s
  /\ next_occupied s (Table.dealerSeat s) sb
  /\ next_occupied s sb bb
  /\ (Table.dealerSeat s < Z.of_nat (Table.maxPlayers s) ->
      Table.seat_is_null (Table.seats s) (Table.dealerSeat s) = false ->
      sb <> Table.dealerSeat s ->
      (forall i, 0 <= i < Z.of_nat (Table.maxPlayers s) ->
         i <> Table.dealerSeat s -> i <> sb ->
         Table.seat_is_null (Table.seats s) i = true) ->
      bb = Table.dealerSeat s).
Proof.
intros Hd Hm Hsb Hbb.
unfold Table.getSmallBlindSeat in Hsb.
apply bind_Ok in Hsb as (s0 & s3 & [= <- <-] & Hsb).
apply find_occupied_next in Hsb as [-> Hnsb]; [|lia|exact Hm].
pose proof (next_occupied_range _ _ _ Hm Hnsb) as Hsbr.
unfold Table.getBigBlindSeat, Table.getSmallBlindSeat in Hbb.
apply bind_Ok in Hbb as (sb' & s3 & E & Hbb).
apply bind_Ok in E as (s0 & s4 & [= <- <-] & E).
pose proof E as E'. apply find_occupied_next in E' as [-> Hn']; [|lia|exact Hm].
assert (sb' = sb) as ->.
{ destruct Hnsb as (j & Hj & -> & Hr & Hb), Hn' as (j' & Hj' & -> & Hr' & Hb').
  f_equal. destruct (Z.lt_trichotomy j j') as [Hlt|[->|Hgt]]; [|reflexivity|].
  - rewrite Hb' in Hr by lia. discriminate.
  - rewrite Hb in Hr' by lia. discriminate. }
apply bind_Ok in Hbb as (s0 & s5 & [= <- <-] & Hbb).
apply find_occupied_next in Hbb as [-> Hnbb]; [|lia|exact Hm].
split; [reflexivity|]. split; [reflexivity|]. split; [exact Hnsb|].
split; [exact Hnbb|].
intros Hdm Hdealer Hne Hothers.
destruct Hnbb as (j & Hj & -> & Hr & Hb).
set (m := Z.of_nat (Table.maxPlayers s)) in *.
set (d := Table.dealerSeat s) in *.
set (j' := (d - (sb + 1)) mod m).
assert (Hj' : 0 <= j' < m) by (apply Z.mod_pos_bound; lia).
assert (Hdj : (sb + 1 + j') mod m = d).
{ subst j'. rewrite Zplus_mod_idemp_r.
  replace (sb + 1 + (d - (sb + 1))) with d by lia. apply Z.mod_small. lia. }
destruct (Z.lt_trichotomy j j') as [Hlt|[->|Hgt]]; [|exact Hdj|].
- exfalso.
  assert (Hnull : Table.seat_is_null (Table.seats s) ((sb + 1 + j) mod m) = true).
  { apply Hothers.
    - apply Z.mod_pos_bound. lia.
    - rewrite <- Hdj. intros Heq. apply mod_add_inj in Heq; lia.
    - intros Heq.
      assert (Hsbm : (sb + 1 + (m - 1)) mod m = sb).
      { replace (sb + 1 + (m - 1)) with (sb + 1 * m) by lia.
        rewrite Z.mod_add by lia. apply Z.mod_small. lia. }
      rewrite <- Hsbm in Heq at 2. apply mod_add_inj in Heq; lia. }
  congruence.
- exfalso. rewrite <- Hdj in Hdealer. rewrite Hb in Hdealer by lia.
  discriminate.
Qed.

Lemma blinds_follow_the_button_witness :
  Table.getSmallBlindSeat heads_up = (Ok 0, heads_up)
  /\ Table.getBigBlindSeat heads_up = (Ok 1, heads_up)
  /\ Table.dealerSeat heads_up = 1.
Proof.
destruct (blinds_follow_the_button heads_up 0 1 heads_up heads_up)
  as (_ & _ & _ & _ & H); [vm_compute; congruence|vm_compute; lia|
                            vm_compute; reflexivity ..|].
split; [vm_compute; reflexivity|]. split; [vm_compute; reflexivity|].
symmetry. apply H.
- vm_compute. reflexivity.
- vm_compute. reflexivity.
- vm_compute. congruence.
- intros i Hi H1 H2. change (Table.dealerSeat heads_up) with 1 in H1.
  change (Z.of_nat (Table.maxPlayers heads_up)) with 6 in Hi.
  assert (i = 2 \/ i = 3 \/ i = 4 \/ i = 5) as [-> | [-> | [-> | ->]]] by lia;
    vm_compute; reflexivity.
Defined.

(** *** Players without chips *)

#[global] Instance hands_kept_refl : Reflexive hands_kept.
Proof. by intros s. Qed.

#[global] Instance hands_kept_trans : Transitive hands_kept.
Proof. intros a b c H1 H2. unfold hands_kept in *. congruence. Qed.

Lemma hands_update_same k f m :
  (forall p, Player.holeCards (f p) = Player.holeCards p) ->
  hands (pm_update k f m) = hands m.
Proof.
intros Hf. unfold hands. induction m as [|[k' p] m IH]; [reflexivity|].
simpl. destruct (decide (k' = k)); simpl; [by rewrite Hf|by rewrite IH].
Qed.

Ltac hands_side :=
  first
    [ exact I
    | reflexivity
    | unfold hands_kept; simpl;
      first
        [ reflexivity
        | apply hands_update_same; intros []; reflexivity
        | apply hands_update_same; exact holeCards_mark_allIn ] ].

Ltac hands_sound := repeat sound_step hands_side.

Lemma find_occupied_hands seat :
  sound hands_kept any_error (Table.find_occupied seat).
Proof. unfold Table.find_occupied. hands_sound. Qed.

Lemma getSmallBlindSeat_hands :
  sound hands_kept any_error Table.getSmallBlindSeat.
Proof.
pose proof find_occupied_hands. unfold Table.getSmallBlindSeat. hands_sound.
Qed.

Lemma getBigBlindSeat_hands :
  sound hands_kept any_error Table.getBigBlindSeat.
Proof.
pose proof find_occupied_hands. pose proof getSmallBlindSeat_hands.
unfold Table.getBigBlindSeat. hands_sound.
Qed.

Lemma moveDealer_hands : sound hands_kept any_error Table.moveDealer.
Proof.
pose proof find_occupied_hands. unfold Table.moveDealer. hands_sound.
Qed.

Lemma postBlinds_hands : sound hands_kept any_error Table.postBlinds.
Proof.
pose proof getSmallBlindSeat_hands. pose proof getBigBlindSeat_hands.
unfold Table.postBlinds, Table.update_player, Table.add_pot, Table.logAction.
hands_sound.
Qed.

Lemma no_hands_broke m :
  Forall (fun h => h = []) (hands m) -> broke_hold_nothing m.
Proof.
intros H kp Hin _. rewrite Forall_forall in H. apply H.
unfold hands. apply list_elem_of_In. apply in_map_iff. by exists kp.
Qed.

Lemma broke_update k l m p :
  pm_get k m = Some p -> Qgtb (Player.chips p) 0 = true ->
  broke_hold_nothing m ->
  broke_hold_nothing (pm_update k (Player.set_holeCards l) m).
Proof.
intros Hp Hc. unfold broke_hold_nothing.
induction m as [|[k0 p0] m IH]; simpl; [tauto|]. simpl in Hp.
destruct (decide (k0 = k)) as [->|Hne]; simpl.
- injection Hp as ->. intros Hm kp [<-|Hin] Hb.
  + simpl in Hb. congruence.
  + apply Hm; auto.
- intros Hm kp [<-|Hin] Hb.
  + apply (Hm (k0, p0)); auto.
  + apply IH; auto.
Qed.

Lemma dealHoleCards_loop_broke ss s s' :
  Table.dealHoleCards_loop ss s = (Ok tt, s') ->
  broke_hold_nothing (Table.players s) ->
  broke_hold_nothing (Table.players s').
Proof.
revert s. induction ss as [|sid ss IH]; intros s; cbn [Table.dealHoleCards_loop].
- by intros [= <-].
- intros H Hb. apply bind_Ok in H as ([] & s1 & E & H).
  apply (IH _ H). clear H IH.
  destruct sid as [k|]; [|by injection E as <-].
  destruct (bool_decide (k = ""%string)); [by injection E as <-|].
  apply bind_Ok in E as (player & s2 & Ed & E).
  apply deref_Ok in Ed as (-> & Hp).
  destruct (Qgtb (Player.chips player) 0) eqn:Ec; [|by injection E as <-].
  apply bind_Ok in E as (c1 & s2 & E1 & E).
  destruct (deck_deal_betting _ _ _ E1) as [(_ & P1 & _) _].
  apply bind_Ok in E as (c2 & s3 & E2 & E).
  destruct (deck_deal_betting _ _ _ E2) as [(_ & P2 & _) _].
  injection E as <-. cbn [Table.players Table.set_players].
  rewrite P2, P1. by eapply broke_update.
Qed.

(** X28.  [_dealHoleCards] runs after [_postBlinds] and skips the players
    without chips: after a successful [startHand] a player whose chips are
    0, also one whose whole stack went into a blind, holds no hole cards
    and is not among the players in the hand. *)
Theorem broke_players_are_dealt_out
    (d : SecureDeck) (s : Table.t) (snap : Snapshot) (s' : Table.t)
    (k : string) (p : Player.t) :
  Table.startHand d s = (Ok snap, s') ->
  In (k, p) (Table.players s') ->
  (Player.chips p <= 0)%Q ->
  Player.holeCards p = []
  /\ ~ In (k, p) (Table.getPlayersInHand s').
Proof.
intros Hr Hin Hc.
assert (Hb : broke_hold_nothing (Table.players s')).
{ clear Hin Hc. unfold Table.startHand in Hr.
  apply bind_Ok in Hr as (s0 & s1 & [= <- <-] & Hr).
  destruct (_ <? _)%nat; [discriminate|].
  do 11 apply bind_modify_Ok in Hr.
  match type of Hr with _ ?st = _ => set (sa := st) in * end.
  assert (Ha : Forall (fun h => h = []) (hands (Table.players sa))).
  { change (Table.players sa)
      with (map (fun kp : string * Player.t => (fst kp, Player.reset (snd kp)))
                (Table.players s)).
    unfold hands. rewrite map_map. apply Forall_forall. intros h Hh.
    apply list_elem_of_In, in_map_iff in Hh as (kp & <- & _). reflexivity. }
  clearbody sa.
  apply bind_Ok in Hr as ([] & sb & E & Hr).
  destruct (moveDealer_hands _ _ _ E) as [H1 _]. clear E.
  apply bind_Ok in Hr as ([] & sc & E & Hr).
  destruct (postBlinds_hands _ _ _ E) as [H2 _]. clear E.
  unfold hands_kept in H1, H2. rewrite <- H1, <- H2 in Ha.
  apply no_hands_broke in Ha.
  apply bind_Ok in Hr as ([] & sd & E & Hr).
  unfold Table.dealHoleCards in E.
  apply bind_Ok in E as (s0 & s1 & [= <- <-] & E).
  pose proof (dealHoleCards_loop_broke _ _ _ E Ha) as Hd. clear E Ha.
  apply bind_Ok in Hr as (bb & se & E & Hr).
  apply getBigBlindSeat_Ok in E as ->.
  apply bind_Ok in Hr as ([] & sf & E & Hr).
  destruct (setNextPlayer_betting _ _ _ _ E) as [(_ & P1 & _) _].
  apply bind_Ok in Hr as (s0 & s1 & [= <- <-] & Hr).
  apply bind_Ok in Hr as ([] & sg & E' & Hr).
  destruct (logAction_betting _ _ _ _ E') as [(_ & P2 & _) _].
  destruct (snapshot_betting _ _ _ Hr) as [(_ & P3 & _) _].
  by rewrite P3, P2, P1. }
assert (Hcards : Player.holeCards p = []).
{ apply (Hb (k, p) Hin). cbn [snd]. unfold Qgtb. by apply Qltb_ge. }
split; [exact Hcards|].
unfold Table.getPlayersInHand. rewrite filter_In. cbn [snd].
rewrite Hcards. simpl. rewrite andb_false_r. by intros [_ ?].
Qed.

Lemma broke_players_are_dealt_out_witness :
  exists snap s' p,
    Table.startHand (newSecureDeck demo_hash "02" (fun _ => 0)) last_chips_table
    = (Ok snap, s')
    /\ In ("bob-2"%string, p) (Table.players s')
    /\ Player.totalBetThisHand p = 5%Q
    /\ Player.holeCards p = []
    /\ ~ In ("bob-2"%string, p) (Table.getPlayersInHand s').
Proof.
eexists. eexists. eexists.
split; [vm_compute; reflexivity|].
split; [right; left; reflexivity|]. split; [reflexivity|].
eapply (broke_players_are_dealt_out
          (newSecureDeck demo_hash "02" (fun _ => 0)) last_chips_table).
- vm_compute. reflexivity.
- right. left. reflexivity.
- vm_compute. congruence.
Defined.

(** *** The minimum raise *)

#[global] Instance raise_floor_refl : Reflexive raise_floor.
Proof. intros s. split; [reflexivity|apply Qle_refl]. Qed.

#[global] Instance raise_floor_trans : Transitive raise_floor.
Proof.
intros a b c [H1 H2] [H3 H4]. split; [congruence|]. by eapply Qle_trans.
Qed.

Ltac floor_side :=
  first
    [ exact I
    | reflexivity
    | split; [reflexivity|simpl; first [apply Qle_refl | apply Q.le_max_l]] ].

Ltac floor_sound := repeat sound_step floor_side.

Lemma deref_floor k : sound raise_floor any_error (Table.deref k).
Proof. unfold Table.deref. floor_sound. Qed.

Lemma validateAction_floor k :
  sound raise_floor any_error (Table.validateAction k).
Proof. unfold Table.validateAction. floor_sound. Qed.

Lemma find_occupied_floor seat :
  sound raise_floor any_error (Table.find_occupied seat).
Proof. unfold Table.find_occupied. floor_sound. Qed.

Lemma getSmallBlindSeat_floor :
  sound raise_floor any_error Table.getSmallBlindSeat.
Proof.
pose proof find_occupied_floor. unfold Table.getSmallBlindSeat. floor_sound.
Qed.

Lemma getBigBlindSeat_floor :
  sound raise_floor any_error Table.getBigBlindSeat.
Proof.
pose proof find_occupied_floor. pose proof getSmallBlindSeat_floor.
unfold Table.getBigBlindSeat. floor_sound.
Qed.

Lemma isBettingComplete_loop_floor ps :
  sound raise_floor any_error (Table.isBettingComplete_loop ps).
Proof.
pose proof getBigBlindSeat_floor.
induction ps as [|[k p] ps IH]; simpl; floor_sound.
Qed.

Lemma isBettingComplete_floor :
  sound raise_floor any_error Table.isBettingComplete.
Proof.
pose proof isBettingComplete_loop_floor. unfold Table.isBettingComplete.
floor_sound.
Qed.

Lemma setNextPlayer_loop_floor checked seat :
  sound raise_floor any_error (Table.setNextPlayer_loop checked seat).
Proof.
revert seat. induction checked as [|f IH]; intros seat; simpl; floor_sound.
Qed.

Lemma setNextPlayer_floor afterSeat :
  sound raise_floor any_error (Table.setNextPlayer afterSeat).
Proof.
pose proof setNextPlayer_loop_floor. unfold Table.setNextPlayer. floor_sound.
Qed.

Lemma snapshot_floor : sound raise_floor any_error Table.snapshot.
Proof. unfold Table.snapshot. floor_sound. Qed.

Lemma advanceGame_floor : ensures keeps_raise_floor Table.advanceGame.
Proof.
intros s snap s' Hr Hc Hph. unfold Table.advanceGame in Hr.
apply bind_Ok in Hr as (s0 & s1 & [= <- <-] & Hr).
assert (Hrest :
  Table.bind Table.isBettingComplete
    (fun complete =>
       if complete then Table.advancePhase 4
       else Table.bind Table.get (fun s2 =>
              Table.bind (Table.setNextPlayer (default 0 (Table.currentPlayerSeat s2)))
                         (fun _ => Table.snapshot))) s
  = (Ok snap, s') ->
  (Table.minRaise s <= Table.minRaise s')%Q).
{ clear Hr. intros Hr.
  apply bind_Ok in Hr as (complete & s1 & E & Hr).
  destruct (isBettingComplete_floor _ _ _ E) as [[Hp1 Hm1] _].
  destruct complete.
  - apply advancePhase_opens in Hr as [Hlt _]; [|by rewrite Hp1].
    rewrite Hp1, Hph in Hlt. lia.
  - apply bind_Ok in Hr as (s2 & s3 & [= <- <-] & Hr).
    apply bind_Ok in Hr as ([] & s3 & E3 & Hr).
    destruct (setNextPlayer_floor _ _ _ _ E3) as [[Hp3 Hm3] _].
    injection Hr as <- <-. by eapply Qle_trans. }
destruct (Table.getPlayersInHand s) as [|w [|w' ws]]; auto.
apply awardPot_ends in Hr. rewrite Hr in Hph. rewrite <- Hph in Hc.
simpl in Hc. lia.
Qed.

Lemma keeps_raise_floor_step s s1 snap s' :
  raise_floor s s1 -> keeps_raise_floor s1 snap s' -> keeps_raise_floor s snap s'.
Proof.
intros [Hp Hm] H Hc Hph. eapply Qle_trans; [exact Hm|].
apply H; [by rewrite Hp|congruence].
Qed.

Ltac floor_step :=
  lazymatch goal with
  | H : ensures _ ?m |- ensures _ ?m => exact H
  | |- ensures _ (Table.bind _ _) =>
      eapply (ensures_bind_rel raise_floor any_error);
      [ solve [floor_sound] | intros ? | exact keeps_raise_floor_step ]
  | |- ensures _ (if ?b then _ else _) => destruct b eqn:?
  | |- ensures _ (match ?x with _ => _ end) => destruct x eqn:?
  | |- ensures _ (let _ := _ in _) => cbv zeta
  | |- ensures _ (Table.throw _) => intros ? ? ? ?; discriminate
  end.

Lemma act_floor a k : ensures keeps_raise_floor (act a k).
Proof.
pose proof validateAction_floor. pose proof deref_floor.
destruct a; unfold act, Table.fold, Table.check, Table.call, Table.raise,
  Table.add_pot, Table.update_player, Table.logAction;
  generalize advanceGame_floor; generalize Table.advanceGame; intros K HK;
  repeat floor_step.
Qed.

(** X29.  Within a betting round no successful action lowers the minimum
    raise: when the phase is the same afterwards, [minRaise] is at least
    what it was. *)
Theorem minRaise_never_drops_within_a_round
    (s : Table.t) (a : Action) (k : string) (snap : Snapshot) (s' : Table.t) :
  act a k s = (Ok snap, s') ->
  Table.phase s' = Table.phase s ->
  (Table.minRaise s <= Table.minRaise s')%Q.
Proof.
intros Hr Hph. pose proof (act_Ok_active _ _ _ _ _ Hr) as Hc.
by apply (act_floor a k _ _ _ Hr).
Qed.

Lemma minRaise_never_drops_within_a_round_witness :
  exists snap s',
    act (Raise 30) "alice-1" heads_up = (Ok snap, s')
    /\ Table.minRaise heads_up = 20%Q
    /\ (Table.minRaise heads_up <= Table.minRaise s')%Q.
Proof.
eexists. eexists. split; [vm_compute; reflexivity|]. split; [reflexivity|].
eapply (minRaise_never_drops_within_a_round heads_up (Raise 30) "alice-1").
- vm_compute. reflexivity.
- reflexivity.
Defined.
